(* ===== verification/_CoqProject ===== *)
-Q . S2P
Prelude.v
Prog.v
Machine.v
AmqpData.v
Errors.v
MaskURL.v
Retry.v
Config.v
Amqp.v
Topology.v
Instr.v
Dial.v
Consumer.v
Session.v
Script.v
Delivery.v
DeliveryProps.v
SessionProps.v
ConnectProps.v
Workers.v
DialProps.v
Pool.v
Publisher.v
PoolMachine.v
PoolOwns.v
PoolClient.v
PubScript.v
PoolLock.v
PoolMu.v
PoolProps.v
PoolConfirm.v
ConnMachine.v
PoolAge.v
Expand.v
PublisherProps.v
Retries.v
FastPath.v
Carrier.v
Otel.v
OtelProps.v
OtelTrace.v
Slog.v
