(* ===== verification/Prelude.v ===== *)
(** * rabbitmq-go: a verification development

    rabbitmq-go (src/) is a Go client library over amqp091-go: a Publisher with a pool of
    channels, a Consumer with retries and dead-lettering, both with automatic reconnection,
    logging and instrumentation interfaces, and an OpenTelemetry implementation of the latter.
    This development translates its code into Rocq and proves what it promises.

    ** How Go code is modelled

    Effectful code is a program of type [prog E A] ([Prog]): operations of a signature [E],
    loops, goroutines and results, composed by [bind].  Each Go function is one definition, with
    its early returns, deferred calls (in their order) and select statements; a select, a method
    of amqp091-go, a mutex, an atomic or a channel operation is one operation of a signature:
    [amqpE], [sysE], [logE] ([Amqp]), [instrE] ([Instr]), [dialE] ([Dial]), [consE] and [userE]
    ([Consumer]), [pubE] ([Pool]), [otelE] ([Otel]), [slogE] ([Slog]).  Code that is not under
    src/ (amqp091-go, the broker, OpenTelemetry, the application's handlers and propagators) has
    no definition: its operations answer arbitrarily, and a theorem holds for every answer unless
    it names what it relies on.  Go's [int], [int32] and [uint8] are [Z] with wrap-around where
    the code computes; strings are byte strings; tables are [gmap string value], with [None] for
    the nil map; errors are trees ([Errors]).

    Programs have three readings.  [runs] with [traced] is one goroutine against an arbitrary
    environment, with the trace of its operations; [wp] is its program logic, and the
    specifications of components are inductive relations on what a trace shows ([observed]).
    [Machine] is the interleaving of goroutines over shared state, with a logic of per-goroutine
    ghost state ([cwp]) whose [adequacy] theorem gives invariants of every reachable
    configuration.  [expand] ([Expand]) links a client with the implementation of an interface:
    every linked run is a run of the client against the interface ([linked_run]).  [interp] and
    the executable machines evaluate programs against scripts, for the concrete cases; their fuel
    bounds the rounds of each loop, and a script that needs more gives [None], so a concrete
    case that computes had enough.

    ** Parts

    - [Prelude], [Prog], [Machine], [Expand]: the common theory.
    - [AmqpData], [Amqp]: messages, contexts, fields, the operations of amqp091-go.
    - [Errors] (pkg/rabbitmq/errors.go), [MaskURL] and [Dial] (internal/amqpx/connection.go),
      [Retry] (internal/amqpx/retry.go), [Config] (pkg/rabbitmq/config.go), [Topology]
      (topology.go), [Instr] (instrumentation.go): the small components, with their properties;
      [DialProps]: the race of the handshake with its timer.
    - [Consumer] (handleDelivery and what it calls) and [Session] (connections and consume loops)
      translate consumer.go.  [Delivery] specifies the handling of one delivery ([delivered]) and
      proves that the code refines it; [DeliveryProps] derives settlement exactly once, no loss
      and the retry decision; [Retries] follows a message through its retries; [SessionProps]
      specifies sessions and the loop around them; [ConnectProps] treats connecting,
      reconnecting and closing; [Workers] interleaves the concurrent session with its workers.
    - [Pool] translates pool.go and [Publisher] publisher.go.  [PoolMachine] gives the shared
      fields of a publisher their meaning (pools as bounded queues, poolMu as a readers-writer
      lock, the hand-over of new channels) and a logic of channel ownership, which [PoolOwns]
      applies to every operation; [PoolLock] is a second logic for the lock and for the pools
      that a reconnect replaces; [PoolClient] is an application that uses the interface as
      documented; [PoolProps] concludes for the channels and [PoolMu] for the lock.
      [PoolConfirm] adds the confirmChans and the broker's answers to Confirm to the machine,
      with a logic of what goroutines know.  [PoolAge] treats the ages of channels, [ConnMachine]
      Close against reconnect, [PublisherProps] what a publish does and means.
    - [FastPath]: skipping the no-op Instrumentation changes nothing.
    - [Carrier] (pkg/otelrabbitmq/carrier.go) and [Otel] (otelrabbitmq.go, metrics.go) translate
      the OpenTelemetry instrumentation; [OtelProps] gives the spans and metrics of publishes
      and deliveries, [OtelTrace] the propagation of trace context and the construction.
    - [Slog] (logging/slog.go, nop.go): the logging adapters.
    - [Script], [PubScript]: scripted environments for the concrete cases.

    ** What the theorems show

    Deliveries: each is settled once ([settled_exactly_once]), acknowledged after a failure only
    when its retry copy was confirmed ([ack_after_confirm]), dead-lettered or retried as
    configured ([retry_decision], [retries_bounded], [retry_copy_faithful]), with a counter that
    never wraps ([retry_counter_exact]).  Sessions: their
    protocol on every path, the bound on workers, and the drain before closing
    ([consumeOnce_session], [consumeOnceConcurrent_session], [Consume_log], [workers_bounded],
    [drained_before_close]).  The pool: exclusive use, no leaks, bounds, progress of its lock,
    freshness, confirm mode ([channel_exclusive], [no_channel_leak], [pool_bounded],
    [poolMu_progress], [borrowed_fresh], [age_preserved], [channels_confirmed]).  Publishing: at most one send, and what nil means
    ([publish_once], [mandatory_answer], [publish_traced]).  Connections: outcomes, back-off,
    masking of credentials ([connect_outcome], [reconnect_backoff], [MaskURL_credentials]).
    Dead letters, on a broker with RabbitMQ's documented routing ([dead_letter_route]).
    Configuration, field by field ([normalize_spec]).  Interfaces: implementations refine them ([publish_span],
    [delivery_span], [slog_records]), the fast path is equivalent ([publish_fast_path],
    [delivery_fast_path]), and trace context follows a message ([trace_follows_message]).
    Some theorems show flaws: [Dial_leaks_late_connection], [reconnect_after_Close_leaks],
    [unconfirmed_retry_duplicates], [dead_letter_queues_mix], [Dial_writes_callers_table].

    ** Not modelled

    The text of errors (a parameter where it is used: fmt.Errorf formats, and the %q quoting of
    PublishReturnedError.Error); the float64 rounding of Duration.Seconds in the duration metric;
    the Go memory model below sequential consistency of synchronized accesses; the context and
    cancel functions beyond their cancellation; tests, examples and build files; doc.go, which
    holds documentation only.  Trace propagation relies on the broker to deliver the headers
    that were published, on handlers to leave the propagator's fields of the headers, and on the
    documented laws of propagators ([Propagates]), which [unary_propagates] shows can hold.
    Routing is RabbitMQ's: a broker is a parameter with documented laws
    ([Topology.documented]), which [example_broker_documented] shows can hold. *)

From Stdlib Require Export ZArith Lia Bool List String Ascii.
From stdpp Require Export base tactics option list gmap strings fin_maps.
Export ListNotations.
#[global] Open Scope Z_scope.

(** ** Machine integers *)

(** Two's complement reduction of [z] to [w] bits, signed: the conversion to a signed integer
    type of width [w] and the overflow of its arithmetic. *)
Definition wrap (w z : Z) : Z := (z + 2 ^ (w - 1)) mod 2 ^ w - 2 ^ (w - 1).

Definition MaxInt32 : Z := 2147483647.
Definition MinInt32 : Z := -2147483648.
Definition MaxInt64 : Z := 9223372036854775807.
Definition MinInt64 : Z := -9223372036854775808.

(** Go's [int] and [time.Duration] are 64-bit on the platforms the library targets. *)
Definition in_int64 (z : Z) : Prop := MinInt64 <= z <= MaxInt64.
Definition in_int32 (z : Z) : Prop := MinInt32 <= z <= MaxInt32.

Lemma wrap64_id z : in_int64 z -> wrap 64 z = z.
Proof.
  unfold in_int64, MinInt64, MaxInt64, wrap. intros H.
  change (2 ^ (64 - 1)) with 9223372036854775808. change (2 ^ 64) with 18446744073709551616.
  rewrite Z.mod_small by lia. lia.
Qed.

Lemma wrap32_id z : in_int32 z -> wrap 32 z = z.
Proof.
  unfold in_int32, MinInt32, MaxInt32, wrap. intros H.
  change (2 ^ (32 - 1)) with 2147483648. change (2 ^ 32) with 4294967296.
  rewrite Z.mod_small by lia. lia.
Qed.

Lemma wrap64_range z : in_int64 (wrap 64 z).
Proof.
  unfold in_int64, MinInt64, MaxInt64, wrap.
  change (2 ^ (64 - 1)) with 9223372036854775808. change (2 ^ 64) with 18446744073709551616.
  pose proof (Z.mod_pos_bound (z + 9223372036854775808) 18446744073709551616). lia.
Qed.

(** ** Counting *)

Definition count {A} (P : A -> bool) (gs : list A) : nat := length (List.filter P gs).

Lemma count_insert {A} (P : A -> bool) gs (i : nat) g g' :
  gs !! i = Some g ->
  (count P (<[i := g']> gs) + Nat.b2n (P g) = count P gs + Nat.b2n (P g'))%nat.
Proof.
  unfold count. revert i. induction gs as [|g0 gs IH]; intros [|i]; simpl; try done.
  - intros [= ->]. destruct (P g), (P g'); simpl; lia.
  - intros Hi. specialize (IH i Hi). destruct (P g0); simpl; lia.
Qed.

Lemma count_app {A} (P : A -> bool) gs gs' : count P (gs ++ gs') = (count P gs + count P gs')%nat.
Proof. unfold count. by rewrite List.filter_app, length_app. Qed.

Lemma count_none {A} (P : A -> bool) gs : (forall (i : nat) g, gs !! i = Some g -> P g = false) -> count P gs = O.
Proof.
  unfold count. induction gs as [|g gs IH]; intros H; simpl; [done|].
  rewrite (H O g) by done. apply IH. intros i. exact (H (Datatypes.S i)).
Qed.

Lemma count_zero {A} (P : A -> bool) gs (i : nat) g : count P gs = O -> gs !! i = Some g -> P g = false.
Proof.
  unfold count. revert i. induction gs as [|g0 gs IH]; intros [|i]; simpl; try done.
  - intros H [= ->]. by destruct (P g).
  - intros H. apply IH. destruct (P g0); done.
Qed.

Lemma count_some {A} (P : A -> bool) gs : (0 < count P gs)%nat -> exists (i : nat) g, gs !! i = Some g /\ P g = true.
Proof.
  unfold count. induction gs as [|g gs IH]; simpl; [lia|]. destruct (P g) eqn:Hg.
  - intros _. by exists O, g.
  - intros H. destruct (IH H) as (i & g' & Hi & Hg'). by exists (Datatypes.S i), g'.
Qed.

Lemma count_pos {A} (P : A -> bool) gs (i : nat) g : gs !! i = Some g -> P g = true -> (0 < count P gs)%nat.
Proof.
  intros Hi Hg. destruct (count P gs) eqn:Hc; [|lia]. pose proof (count_zero _ _ _ _ Hc Hi). congruence.
Qed.

(** The positions that are counted, each listed once. *)
Lemma count_positions {A} (P : A -> bool) gs : exists l : list nat,
  NoDup l /\ (forall i : nat, i ∈ l <-> exists g, gs !! i = Some g /\ P g = true) /\
  length l = count P gs.
Proof.
  unfold count. induction gs as [|g gs (l & Hd & Hl & Hn)].
  - exists []. split; [constructor|]. split; [|done]. intros i. split; [set_solver|by intros (g & ? & _)].
  - exists ((if P g then [O] else []) ++ (Datatypes.S <$> l)). split_and!.
    + apply NoDup_app. split_and!; [destruct (P g); [apply NoDup_singleton|constructor]| |].
      * intros i Hi Hs. apply list_elem_of_fmap in Hs as (j & -> & _). destruct (P g); set_solver.
      * by apply (NoDup_fmap_2 Datatypes.S).
    + intros [|i]; rewrite elem_of_app, list_elem_of_fmap; cbn [lookup list_lookup].
      * split; [intros [H|(? & ? & _)]|intros (g' & [= <-] & ->); left; by left]; [|done].
        exists g. split; [done|]. destruct (P g); [done|set_solver].
      * change ((g :: gs) !! Datatypes.S i) with (gs !! i). rewrite <- Hl. split.
        -- intros [H|(j & [= ->] & Hj)]; [destruct (P g); set_solver|done].
        -- intros H. right. eauto.
    + rewrite length_app, length_fmap, Hn. simpl. destruct (P g); simpl; lia.
Qed.
