(* ===== verification/Prog.v ===== *)
(** * Prog: effectful Go code as programs over an effect signature. *)
From S2P Require Import Prelude.

(** ** Syntax *)

(** A program over the signature [E]: it returns, performs an operation of [E] and
    continues with the answer, runs a [for] loop ([inl] goes round again, [inr] leaves it),
    or starts a goroutine. *)
Inductive prog (E : Type -> Type) (A : Type) : Type :=
| Ret (a : A)
| Vis (X : Type) (e : E X) (k : X -> prog E A)
| Iter (L R : Type) (body : L -> prog E (L + R)) (l : L) (k : R -> prog E A)
| Go (child : prog E unit) (k : prog E A).

Arguments Ret {E A} a.
Arguments Vis {E A X} e k.
Arguments Iter {E A L R} body l k.
Arguments Go {E A} child k.

Fixpoint bind {E A B} (p : prog E A) (f : A -> prog E B) : prog E B :=
  match p with
  | Ret a => f a
  | Vis e k => Vis e (fun x => bind (k x) f)
  | Iter body l k => Iter body l (fun r => bind (k r) f)
  | Go child k => Go child (bind k f)
  end.

(** What a [for] loop does after one round of its body. *)
Definition loop_next {E A L R} (body : L -> prog E (L + R)) (k : R -> prog E A) (r : L + R)
  : prog E A :=
  match r with
  | inl l => Iter body l k
  | inr b => k b
  end.

Definition loop {E L R} (body : L -> prog E (L + R)) (l : L) : prog E R := Iter body l Ret.

(** Starts a goroutine. *)
Definition go {E} (child : prog E unit) : prog E unit := Go child (Ret tt).

Declare Scope go_scope.
Delimit Scope go_scope with go.
Notation "'let!' x := p 'in' k" := (bind p (fun x => k))
  (at level 10, x name, p at level 100, k at level 200) : go_scope.
Notation "'let!' ' x := p 'in' k" := (bind p (fun x => k))
  (at level 10, x strict pattern, p at level 100, k at level 200) : go_scope.
Notation "p ;;; k" := (bind p (fun _ => k))
  (at level 100, k at level 200, right associativity) : go_scope.

(** ** Signatures *)

Inductive sum1 (E F : Type -> Type) (X : Type) : Type :=
| inl1 (e : E X)
| inr1 (f : F X).
Arguments inl1 {E F X} e.
Arguments inr1 {E F X} f.
Infix "+'" := sum1 (at level 50, left associativity) : type_scope.

(** [E -< F]: the operations of [E] are among those of [F]. *)
Class SubE (E F : Type -> Type) : Type := mkSubE {
  inject : forall X, E X -> F X;
  project : forall X, F X -> option (E X);
  project_inject : forall X (e : E X), project X (inject X e) = Some e
}.
Arguments inject {E F _ X} e.
Arguments project {E F _ X} f.
Arguments mkSubE {E F} inject project project_inject.
Infix "-<" := SubE (at level 70, no associativity) : type_scope.

#[export] Instance SubE_refl E : E -< E | 0 :=
  mkSubE (fun _ e => e) (fun _ e => Some e) (fun _ _ => eq_refl).

#[export] Instance SubE_left E F G (S : E -< F) : E -< (F +' G) | 1 :=
  mkSubE (fun _ e => inl1 (inject e))
    (fun _ fg => match fg with inl1 f => project f | inr1 _ => None end)
    (fun _ e => project_inject _ e).

#[export] Instance SubE_right E F G (S : E -< G) : E -< (F +' G) | 2 :=
  mkSubE (fun _ e => inr1 (inject e))
    (fun _ fg => match fg with inl1 _ => None | inr1 g => project g end)
    (fun _ e => project_inject _ e).

Definition trigger {E F} `{E -< F} {X} (e : E X) : prog F X := Vis (inject e) Ret.

(** ** One goroutine *)

(** The meaning of a signature: [sem e s x s'] when [e], performed in state [s], may answer
    [x] and leave [s'].  An operation with no answer blocks. *)
Definition semantics (E : Type -> Type) (S : Type) := forall X, E X -> S -> X -> S -> Prop.

Definition sem_sum {E F S} (m1 : semantics E S) (m2 : semantics F S) : semantics (E +' F) S :=
  fun X ef =>
    match ef with
    | inl1 e => m1 X e
    | inr1 f => m2 X f
    end.

Section sequential.
Context {E : Type -> Type} {S : Type} (sem : semantics E S).

(** [runs p s a s']: the goroutine that executes [p] from [s] may return [a] in [s'].  The
    goroutines it starts are part of the environment, which answers its operations. *)
Inductive runs : forall A : Type, prog E A -> S -> A -> S -> Prop :=
| runs_ret A (a : A) s : runs A (Ret a) s a s
| runs_vis A X (e : E X) (k : X -> prog E A) s x s1 a s2 :
    sem X e s x s1 -> runs A (k x) s1 a s2 -> runs A (Vis e k) s a s2
| runs_again A L R (body : L -> prog E (L + R)) l (k : R -> prog E A) s l' s1 a s2 :
    runs _ (body l) s (inl l') s1 -> runs A (Iter body l' k) s1 a s2 ->
    runs A (Iter body l k) s a s2
| runs_leave A L R (body : L -> prog E (L + R)) l (k : R -> prog E A) s b s1 a s2 :
    runs _ (body l) s (inr b) s1 -> runs A (k b) s1 a s2 -> runs A (Iter body l k) s a s2
| runs_go A child (k : prog E A) s a s' : runs A k s a s' -> runs A (Go child k) s a s'.
#[local] Arguments runs {A} p s a s'.

Lemma runs_bind {A B} (p : prog E A) (f : A -> prog E B) s a s1 b s2 :
  runs p s a s1 -> runs (f a) s1 b s2 -> runs (bind p f) s b s2.
Proof.
  intros Hp Hf. induction Hp; simpl; eauto using runs.
Qed.

(** The weakest precondition of [p] for [Q], over every answer of the environment; a loop
    needs an invariant. *)
Fixpoint wp {A} (p : prog E A) (s : S) (Q : A -> S -> Prop) {struct p} : Prop :=
  match p with
  | Ret a => Q a s
  | Vis e k => forall x s', sem _ e s x s' -> wp (k x) s' Q
  | @Iter _ _ L R body l k =>
      exists I : L -> S -> Prop,
        I l s /\
        forall l1 s1, I l1 s1 ->
          wp (body l1) s1 (fun r s2 =>
            match r with
            | inl l2 => I l2 s2
            | inr b => wp (k b) s2 Q
            end)
  | Go _ k => wp k s Q
  end.

Lemma wp_mono {A} (p : prog E A) s (Q Q' : A -> S -> Prop) :
  (forall a s', Q a s' -> Q' a s') -> wp p s Q -> wp p s Q'.
Proof.
  revert s Q Q'.
  induction p as [A a|A X e k IH|A L R body IHb l k IHk|A child _ k IH];
    intros s Q Q' HQ; simpl.
  - apply HQ.
  - intros H x s' Hx. eapply IH; [exact HQ|]. by apply H.
  - intros (I & HI & Hstep). exists I. split; [done|].
    intros l1 s1 H1. eapply IHb; [|by apply Hstep].
    intros [l2|b] s2; simpl; [done|]. by apply IHk.
  - by apply IH.
Qed.

Lemma wp_bind {A B} (p : prog E A) (f : A -> prog E B) s Q :
  wp p s (fun a s' => wp (f a) s' Q) -> wp (bind p f) s Q.
Proof.
  revert s. revert f Q.
  induction p as [A a|A X e k IH|A L R body IHb l k IHk|A child _ k IH]; intros f Q s; simpl.
  - done.
  - intros H x s' Hx. apply IH. by apply H.
  - intros (I & HI & Hstep). exists I. split; [done|].
    intros l1 s1 H1. eapply wp_mono; [|by apply Hstep].
    intros [l2|b] s2; simpl; [done|]. apply IHk.
  - apply IH.
Qed.

(** A program with a specification, in last position. *)
Lemma wp_spec {A} (p : prog E A) s (R Q : A -> S -> Prop) :
  wp p s R -> (forall a s', R a s' -> Q a s') -> wp p s Q.
Proof. intros Hp Hf. by eapply wp_mono. Qed.

(** Sequencing with a specification of the first part. *)
Lemma wp_seq {A B} (p : prog E A) (f : A -> prog E B) s (R : A -> S -> Prop) Q :
  wp p s R -> (forall a s', R a s' -> wp (f a) s' Q) -> wp (bind p f) s Q.
Proof. intros Hp Hf. apply wp_bind. by eapply wp_mono. Qed.

Theorem wp_sound {A} (p : prog E A) s a s' Q : runs p s a s' -> wp p s Q -> Q a s'.
Proof.
  intros Hr. revert Q.
  induction Hr as [A a s|A X e k s x s1 a s2 Hx _ IH|A L R body l k s l' s1 a s2 _ IHb _ IHk
    |A L R body l k s b s1 a s2 _ IHb _ IHk|A child k s a s' _ IH]; simpl; intros Q H.
  - done.
  - by apply IH, H.
  - destruct H as (I & HI & Hstep). apply IHk. exists I. split; [|done].
    exact (IHb _ (Hstep _ _ HI)).
  - destruct H as (I & HI & Hstep). apply IHk. exact (IHb _ (Hstep _ _ HI)).
  - by apply IH.
Qed.

(** A program without loops, whose operations never block, returns. *)
Fixpoint loopfree {A} (p : prog E A) : Prop :=
  match p with
  | Ret _ => True
  | Vis e k => forall x, loopfree (k x)
  | Iter _ _ _ => False
  | Go _ k => loopfree k
  end.

Lemma loopfree_bind {A B} (p : prog E A) (f : A -> prog E B) :
  loopfree p -> (forall a, loopfree (f a)) -> loopfree (bind p f).
Proof. induction p; simpl; naive_solver. Qed.

Lemma loopfree_runs {A} (p : prog E A) s :
  (forall X (e : E X) s, exists x s', sem X e s x s') -> loopfree p ->
  exists a s', runs p s a s'.
Proof.
  intros Hsem. revert s. induction p as [A a|A X e k IH| |A child _ k IH]; simpl; intros s Hp.
  - exists a, s. constructor.
  - destruct (Hsem X e s) as (x & s1 & Hx). destruct (IH x s1 (Hp x)) as (a & s2 & H).
    exists a, s2. by eapply runs_vis.
  - done.
  - destruct (IH s Hp) as (a & s' & H). exists a, s'. by constructor.
Qed.
End sequential.

Arguments runs {E S} sem {A} p s a s'.
Arguments wp {E S} sem {A} p s Q : simpl nomatch.

(** ** Traces *)

(** An operation that was performed, with its answer. *)
Inductive event (E : Type -> Type) : Type :=
| Ev (X : Type) (e : E X) (x : X).
Arguments Ev {E X} e x.

(** The operations of a goroutine so far, the latest first. *)
Definition trace (E : Type -> Type) : Type := list (event E).

(** The environment may answer [e] with [x] after the history [t]. *)
Definition environment (E : Type -> Type) : Type := forall X, E X -> X -> trace E -> Prop.

(** Any answer at any time: what other goroutines, the broker and the clock do is arbitrary. *)
Definition anything {E} : environment E := fun _ _ _ _ => True.

Definition traced {E} (env : environment E) : semantics E (trace E) :=
  fun X e t x t' => env X e x t /\ t' = Ev e x :: t.

(** What a trace shows of the operations of a sub-signature, oldest first. *)
Definition shown {E F B} {S : E -< F} (f : forall X, E X -> X -> list B) (ev : event F) : list B :=
  match ev with
  | Ev e x => match project e with Some e' => f _ e' x | None => [] end
  end.

Fixpoint observed {E F B} {S : E -< F} (f : forall X, E X -> X -> list B) (t : trace F) : list B :=
  match t with
  | [] => []
  | ev :: t => observed f t ++ shown f ev
  end.

#[global] Arguments shown : simpl never.

Lemma observed_app {E F B} {S : E -< F} (f : forall X, E X -> X -> list B) (l t : trace F) :
  observed f (l ++ t) = observed f t ++ observed f l.
Proof. induction l as [|ev l IH]; simpl; [by rewrite app_nil_r|]. by rewrite IH, app_assoc. Qed.

(** Nothing is observed of events that show nothing. *)
Lemma observed_nothing {E F B} {S : E -< F} (f : forall X, E X -> X -> list B) (l : trace F) :
  Forall (fun ev => shown f ev = []) l -> observed f l = [].
Proof. induction 1 as [|ev l Hev _ IH]; simpl; [done|]. by rewrite IH, Hev. Qed.

Lemma shown_trigger {E F B} {S : E -< F} (f : forall X, E X -> X -> list B) X (e : E X) x :
  shown f (Ev (inject e) x) = f X e x.
Proof. unfold shown. by rewrite project_inject. Qed.

(** [since t t' P]: the trace grew from [t] to [t'] by events that satisfy [P]. *)
Definition since {F} (t t' : trace F) (P : trace F -> Prop) : Prop :=
  exists l, t' = (l ++ t)%list /\ P l.

Lemma since_here {F} (t : trace F) (P : trace F -> Prop) : P [] -> since t t P.
Proof. intros H. by exists []. Qed.

Lemma since_cons {F} (ev : event F) (t t' : trace F) (P : trace F -> Prop) :
  since t t' (fun l => P (ev :: l)) -> since t (ev :: t') P.
Proof. intros (l & -> & H). by exists (ev :: l). Qed.

Lemma since_app {F} (l1 t t' : trace F) (P : trace F -> Prop) :
  since t t' (fun l => P (l1 ++ l)%list) -> since t (l1 ++ t')%list P.
Proof. intros (l & -> & H). exists (l1 ++ l)%list. by rewrite app_assoc. Qed.

Lemma since_trans {F} (t t1 t2 : trace F) (P1 P2 P : trace F -> Prop) :
  since t t1 P1 -> since t1 t2 P2 -> (forall l1 l2, P1 l1 -> P2 l2 -> P (l2 ++ l1)%list) ->
  since t t2 P.
Proof.
  intros (l1 & -> & H1) (l2 & -> & H2) H. exists (l2 ++ l1)%list. rewrite app_assoc. auto.
Qed.

Lemma since_mono {F} (t t' : trace F) (P P' : trace F -> Prop) :
  since t t' P -> (forall l, P l -> P' l) -> since t t' P'.
Proof. intros (l & -> & H) HP. exists l. auto. Qed.

(** What a run records, the environment allowed. *)
Lemma traced_grows {F} (env : environment F) {A} (p : prog F A) t a t' :
  runs (traced env) p t a t' ->
  since t t' (Forall (fun ev => match ev with Ev e x => exists before, env _ e x before end)).
Proof.
  intros H. induction H as [A a s|A X e k s x s1 a s2 [Henv ->] _ IH
    |A L R body l k s l' s1 a s2 _ IHb _ IHk|A L R body l k s b s1 a s2 _ IHb _ IHk|A child k s a s' _ IH].
  - by apply since_here, Forall_nil_2.
  - destruct IH as (l & -> & Hl). exists (l ++ [Ev e x])%list. rewrite <- app_assoc. split; [done|].
    apply Forall_app_2; [done|]. apply Forall_singleton. eauto.
  - eapply since_trans; [exact IHb|exact IHk|]. intros l1 l2 H1 H2. by apply Forall_app_2.
  - eapply since_trans; [exact IHb|exact IHk|]. intros l1 l2 H1 H2. by apply Forall_app_2.
  - done.
Qed.

Lemma traced_answers {F} (env : environment F) {A} (p : prog F A) a t :
  runs (traced env) p [] a t ->
  Forall (fun ev => match ev with Ev e x => exists before, env _ e x before end) t.
Proof. intros (l & -> & Hl)%traced_grows. by rewrite app_nil_r. Qed.

(** The events of a program, given one by one. *)
Ltac since_events := repeat first [apply since_here | apply since_cons | apply since_app].

Section traces.
Context {F : Type -> Type} (env : environment F).

Lemma wp_trigger {E} {S : E -< F} {X} (e : E X) t Q :
  (forall x, Q x (Ev (inject e) x :: t)) -> wp (traced env) (trigger e) t Q.
Proof. intros H x t' [_ ->]. apply H. Qed.

Lemma wp_op {E} {S : E -< F} {X B} (e : E X) (f : X -> prog F B) t Q :
  (forall x, wp (traced env) (f x) (Ev (inject e) x :: t) Q) ->
  wp (traced env) (bind (trigger e) f) t Q.
Proof. intros H x t' [_ ->]. apply H. Qed.

Lemma wp_ret {A} (a : A) t (Q : A -> trace F -> Prop) : Q a t -> wp (traced env) (Ret a) t Q.
Proof. done. Qed.

Lemma wp_go {B} (child : prog F unit) (f : unit -> prog F B) t Q :
  wp (traced env) (f tt) t Q -> wp (traced env) (bind (go child) f) t Q.
Proof. done. Qed.

Lemma wp_bind_ret {A B} (a : A) (f : A -> prog F B) t Q :
  wp (traced env) (f a) t Q -> wp (traced env) (bind (Ret a) f) t Q.
Proof. done. Qed.
End traces.

(** One step of a program against the arbitrary environment: the next operation with any
    answer, a returned value, or the first part of a sequence. *)
Ltac wp_step :=
  lazymatch goal with
  | |- wp _ (bind (Ret _) _) _ _ => apply wp_bind_ret
  | |- wp _ (bind (go _) _) _ _ => apply wp_go
  | |- wp _ (bind (bind _ _) _) _ _ => apply wp_bind
  | |- wp _ (bind (trigger _) _) _ _ => apply wp_op; intros ?
  | |- wp _ (trigger _) _ _ => apply wp_trigger; intros ?
  | |- wp _ (Ret _) _ _ => apply wp_ret
  end.

(** Computes what a concrete list of events shows. *)
Ltac observe :=
  since_events; repeat progress (simpl; rewrite ?observed_app); unfold shown; simpl;
  rewrite ?app_nil_r; simpl.

(** Splits on the answers that the program inspects next. *)
Ltac wp_split :=
  match goal with
  | |- wp _ (match ?x with _ => _ end) _ _ => is_var x; destruct x
  | |- wp _ (bind (match ?x with _ => _ end) _) _ _ => is_var x; destruct x
  end.

Ltac wp_all := repeat first [progress cbv beta iota zeta | wp_step | wp_split].

(** ** Execution *)

(** An environment that answers every operation, or refuses it. *)
Definition handler (E : Type -> Type) (S : Type) := forall X, E X -> S -> option (X * S).

Definition handler_sum {E F S} (h1 : handler E S) (h2 : handler F S) : handler (E +' F) S :=
  fun X ef =>
    match ef with
    | inl1 e => h1 X e
    | inr1 f => h2 X f
    end.

Section execution.
Context {E : Type -> Type} {S : Type} (h : handler E S) (fuel : nat).

(** Runs one goroutine against [h]; every loop goes round at most [fuel] times. *)
Fixpoint interp {A} (p : prog E A) (s : S) {struct p} : option (A * S) :=
  match p with
  | Ret a => Some (a, s)
  | Vis e k =>
      match h _ e s with
      | Some (x, s') => interp (k x) s'
      | None => None
      end
  | Iter body l k =>
      (fix rounds (n : nat) l s :=
         match n with
         | O => None
         | Datatypes.S n =>
             match interp (body l) s with
             | Some (inl l', s') => rounds n l' s'
             | Some (inr b, s') => interp (k b) s'
             | None => None
             end
         end) fuel l s
  | Go _ k => interp k s
  end.

Lemma interp_bind {A B} (p : prog E A) (f : A -> prog E B) s :
  interp (bind p f) s
    = match interp p s with
      | Some (a, s') => interp (f a) s'
      | None => None
      end.
Proof.
  revert f s. induction p as [A a|A X e k IH|A L R body IHb l k IHk|A child _ k IH];
    intros f s; simpl; [done| | |apply IH].
  - destruct (h X e s) as [[x s1]|]; [apply IH|done].
  - generalize fuel. intros n. revert l s. induction n as [|n IHn]; intros l s; [done|].
    destruct (interp (body l) s) as [[[l'|r] s1]|]; [apply IHn|apply IHk|done].
Qed.

(** A loop ends when every round of its body ends and a measure decreases. *)
Lemma interp_loop {L R} (body : L -> prog E (L + R)) (I : L -> S -> Prop) (m : L -> S -> nat) :
  (forall l s, I l s ->
     exists r s', interp (body l) s = Some (r, s') /\
       match r with
       | inl l' => I l' s' /\ (m l' s' < m l s)%nat
       | inr _ => True
       end) ->
  forall l s, I l s -> (m l s < fuel)%nat ->
  exists b s', interp (loop body l) s = Some (b, s').
Proof.
  intros Hround. unfold loop. simpl. generalize fuel at 1 2. intros n.
  induction n as [|n IHn]; intros l s HI Hm; [lia|].
  destruct (Hround l s HI) as ([l'|b] & s' & Hb & Hr); rewrite Hb; [|eauto].
  destruct Hr as [HI' Hlt]. apply IHn; [done|lia].
Qed.

(** [p] ends when it is run from [s]. *)
Definition returns {A} (p : prog E A) (s : S) : Prop := exists a s', interp p s = Some (a, s').

Lemma returns_bind {A B} (p : prog E A) (f : A -> prog E B) s :
  returns p s -> (forall a s', returns (f a) s') -> returns (bind p f) s.
Proof. intros (a & s' & Hp) Hf. unfold returns. rewrite interp_bind, Hp. apply Hf. Qed.

(** What the interpreter computes is a run, for every semantics the handler obeys; [view]
    forgets what only the handler keeps. *)
Lemma interp_runs {T} (sem : semantics E T) (view : S -> T) :
  (forall X (e : E X) s x s', h X e s = Some (x, s') -> sem X e (view s) x (view s')) ->
  forall A (p : prog E A) s a s', interp p s = Some (a, s') -> runs sem p (view s) a (view s').
Proof.
  intros Hh A p.
  induction p as [A a|A X e k IH|A L R body IHb l k IHk|A child _ k IH]; intros s b s'; simpl.
  - intros [= <- <-]. constructor.
  - destruct (h X e s) as [[x s1]|] eqn:He; [|done]. intros Hk.
    eapply runs_vis; [by apply Hh|]. by apply IH.
  - generalize fuel. intros n. revert l s.
    induction n as [|n IHn]; intros l s; [done|].
    destruct (interp (body l) s) as [[[l'|r] s1]|] eqn:Hb; [| |done]; intros Hk.
    + eapply runs_again; [by apply IHb|]. by apply IHn.
    + eapply runs_leave; [by apply IHb|]. by apply IHk.
  - intros Hk. constructor. by apply IH.
Qed.
End execution.

(** Answers computed from the operation and the history. *)
Definition strategy (E : Type -> Type) : Type := forall X, E X -> trace E -> X.

Definition scripted {E} (answer : strategy E) : handler E (trace E) :=
  fun X e t => Some (answer X e t, Ev e (answer X e t) :: t).

Lemma scripted_traced {E} (answer : strategy E) X (e : E X) t x t' :
  scripted answer X e t = Some (x, t') -> traced anything X e t x t'.
Proof. unfold scripted, traced, anything. naive_solver. Qed.

(** A scripted execution is a run against the arbitrary environment. *)
Lemma scripted_runs {E A} (answer : strategy E) fuel (p : prog E A) t a t' :
  interp (scripted answer) fuel p t = Some (a, t') -> runs (traced anything) p t a t'.
Proof. apply (interp_runs _ _ _ (fun t => t)). apply scripted_traced. Qed.

(** ... and against every environment that allows the script's answers. *)
Lemma scripted_runs_in {E A} (env : environment E) (answer : strategy E) fuel
    (p : prog E A) t a t' :
  (forall X (e : E X) t, env X e (answer X e t) t) ->
  interp (scripted answer) fuel p t = Some (a, t') -> runs (traced env) p t a t'.
Proof.
  intros Henv. apply (interp_runs _ _ _ (fun t => t)).
  unfold scripted, traced. naive_solver.
Qed.

(** A program without loops ends against every strategy of the environment. *)
Lemma loopfree_scripted {E A} (answer : strategy E) fuel (p : prog E A) t :
  loopfree p -> exists a t', interp (scripted answer) fuel p t = Some (a, t').
Proof.
  revert t. induction p as [A a|A X e k IH| |A child _ k IH]; simpl; intros t Hp;
    [eauto|by apply IH|done|by apply IH].
Qed.

Lemma loopfree_returns {E A} (answer : strategy E) fuel (p : prog E A) t :
  loopfree p -> returns (scripted answer) fuel p t.
Proof. apply loopfree_scripted. Qed.
