(* ===== verification/Machine.v ===== *)
(** * Machine: goroutines that interleave over shared state, and a logic for them.

    A configuration is the list of goroutines and the state they share.  One step lets one
    goroutine perform one operation, go round a loop or start a goroutine.  [cwp] is a weakest
    precondition over a per-goroutine ghost value (what the goroutine owns); [adequacy] turns
    [cwp] proofs of the goroutines into an invariant of every reachable configuration. *)
From S2P Require Import Prelude Prog.

Section machine.
Context {E : Type -> Type} {S : Type} (sem : semantics E S).

(** [tstep p s p' s' new]: goroutine [p] steps to [p'] and starts the goroutines [new]. *)
Inductive tstep : prog E unit -> S -> prog E unit -> S -> list (prog E unit) -> Prop :=
| tstep_op X (e : E X) k s x s' : sem X e s x s' -> tstep (Vis e k) s (k x) s' []
| tstep_loop L R (body : L -> prog E (L + R)) l k s :
    tstep (Iter body l k) s (bind (body l) (loop_next body k)) s []
| tstep_go child k s : tstep (Go child k) s k s [child].

Definition config : Type := list (prog E unit) * S.

Inductive step : config -> config -> Prop :=
| step_thread ts s i p p' s' new :
    ts !! i = Some p -> tstep p s p' s' new -> step (ts, s) (<[i := p']> ts ++ new, s').

Definition reachable : config -> config -> Prop := rtc step.

(** Executes the schedule [sched], one goroutine index per step, against a handler. *)
Definition thread_step (h : handler E S) (p : prog E unit) (s : S)
  : option (prog E unit * S * list (prog E unit)) :=
  match p with
  | Ret _ => None
  | Vis e k =>
      match h _ e s with
      | Some (x, s') => Some (k x, s', [])
      | None => None
      end
  | Iter body l k => Some (bind (body l) (loop_next body k), s, [])
  | Go child k => Some (k, s, [child])
  end.

Fixpoint schedule (h : nat -> handler E S) (sched : list nat) (c : config) : option config :=
  match sched with
  | [] => Some c
  | i :: sched =>
      match c.1 !! i with
      | None => None
      | Some p =>
          match thread_step (h (length sched)) p c.2 with
          | Some (p', s', new) => schedule h sched (<[i := p']> c.1 ++ new, s')
          | None => None
          end
      end
  end.

(** The environment may answer differently at every step: [h n] answers the step after which
    [n] steps of the schedule are left. *)
Lemma schedule_reachable (h : nat -> handler E S) :
  (forall n X (e : E X) s x s', h n X e s = Some (x, s') -> sem X e s x s') ->
  forall sched c c', schedule h sched c = Some c' -> reachable c c'.
Proof.
  intros Hh sched. induction sched as [|i sched IH]; intros [ts s] c'; simpl.
  - intros [= <-]. apply rtc_refl.
  - destruct (ts !! i) as [p|] eqn:Hi; [|done].
    destruct (thread_step _ p s) as [[[p' s'] new]|] eqn:Hp; [|done].
    intros Hrest. eapply rtc_l; [|by apply IH].
    econstructor; [done|].
    destruct p as [a|X e k|L R body l k|child k]; simpl in Hp.
    + done.
    + destruct (h _ X e s) as [[x s1]|] eqn:He; [|done]. simplify_eq.
      constructor. by eapply Hh.
    + simplify_eq. constructor.
    + simplify_eq. constructor.
Qed.
End machine.

(** ** The logic *)

(** [op X e g Q]: a goroutine that owns [g] may perform [e], and then [Q] holds of the answer
    and of what it owns.  [fork g gp gc] splits what the parent owns when it starts a
    goroutine, [turn] is what a goroutine may own at the head of a loop, and [fin] what it may
    own when it ends. *)
Record logic (E : Type -> Type) (G : Type) : Type := mkLogic {
  op : forall X, E X -> G -> (X -> G -> Prop) -> Prop;
  op_mono : forall X (e : E X) g (Q Q' : X -> G -> Prop),
    (forall x g', Q x g' -> Q' x g') -> op X e g Q -> op X e g Q';
  fork : G -> G -> G -> Prop;
  turn : G -> Prop;
  fin : G -> Prop;
}.
Arguments op {E G} _ X e g Q.
Arguments op_mono {E G} _ X e g Q Q'.
Arguments fork {E G} _ g gp gc.
Arguments turn {E G} _ g.
Arguments fin {E G} _ g.

Section cwp.
Context {E : Type -> Type} {G : Type} (L : logic E G).

Fixpoint cwp {A} (p : prog E A) (g : G) (Q : A -> G -> Prop) {struct p} : Prop :=
  match p with
  | Ret a => Q a g
  | Vis e k => op L _ e g (fun x g' => cwp (k x) g' Q)
  | @Iter _ _ M R body l k =>
      exists I : M -> G -> Prop,
        I l g /\
        forall l1 g1, I l1 g1 ->
          turn L g1 /\
          cwp (body l1) g1 (fun r g2 =>
            match r with
            | inl l2 => I l2 g2
            | inr b => cwp (k b) g2 Q
            end)
  | Go child k =>
      exists gp gc, fork L g gp gc /\ cwp child gc (fun _ g' => fin L g') /\ cwp k gp Q
  end.

Lemma cwp_mono {A} (p : prog E A) g (Q Q' : A -> G -> Prop) :
  (forall a g', Q a g' -> Q' a g') -> cwp p g Q -> cwp p g Q'.
Proof.
  revert g Q Q'.
  induction p as [A a|A X e k IH|A M R body IHb l k IHk|A child _ k IH];
    intros g Q Q' HQ; simpl.
  - apply HQ.
  - apply op_mono. intros x g' H. by eapply IH.
  - intros (I & HI & Hstep). exists I. split; [done|].
    intros l1 g1 H1. destruct (Hstep l1 g1 H1) as [Ht Hb]. split; [exact Ht|]. eapply IHb; [|exact Hb].
    intros [l2|b] g2; simpl; [done|]. by apply IHk.
  - intros (gp & gc & Hf & Hc & Hk). exists gp, gc. do 2 (split; [done|]). by eapply IH.
Qed.

Lemma cwp_bind {A B} (p : prog E A) (f : A -> prog E B) g Q :
  cwp p g (fun a g' => cwp (f a) g' Q) -> cwp (bind p f) g Q.
Proof.
  revert f g Q.
  induction p as [A a|A X e k IH|A M R body IHb l k IHk|A child _ k IH]; intros f g Q; simpl.
  - done.
  - apply op_mono. intros x g' H. by apply IH.
  - intros (I & HI & Hstep). exists I. split; [done|].
    intros l1 g1 H1. destruct (Hstep l1 g1 H1) as [Ht Hb]. split; [exact Ht|].
    eapply cwp_mono; [|exact Hb]. intros [l2|b] g2; simpl; [done|]. apply IHk.
  - intros (gp & gc & Hf & Hc & Hk). exists gp, gc. do 2 (split; [done|]). by apply IH.
Qed.

Lemma cwp_seq {A B} (p : prog E A) (f : A -> prog E B) g (R : A -> G -> Prop) Q :
  cwp p g R -> (forall a g', R a g' -> cwp (f a) g' Q) -> cwp (bind p f) g Q.
Proof. intros Hp Hf. apply cwp_bind. by eapply cwp_mono. Qed.
End cwp.

Lemma cwp_op {E F G} (L : logic F G) {S : E -< F} {A X} (e : E X) (f : X -> prog F A) g Q :
  op L X (inject e) g (fun x g' => cwp L (f x) g' Q) -> cwp L (bind (trigger e) f) g Q.
Proof. done. Qed.

Lemma cwp_trigger {E F G} (L : logic F G) {S : E -< F} {X} (e : E X) g (Q : X -> G -> Prop) :
  op L X (inject e) g Q -> cwp L (trigger e) g Q.
Proof. done. Qed.

(** Every operation that a program may perform satisfies [P], and it starts no goroutines. *)
Fixpoint all_ops {E : Type -> Type} (P : forall X, E X -> Prop) {A} (p : prog E A) : Prop :=
  match p with
  | Ret _ => True
  | Vis e k => P _ e /\ forall x, all_ops P (k x)
  | Iter body _ k => (forall l, all_ops P (body l)) /\ forall r, all_ops P (k r)
  | Go _ _ => False
  end.

Lemma all_ops_bind {E A B} (P : forall X, E X -> Prop) (p : prog E A) (f : A -> prog E B) :
  all_ops P p -> (forall a, all_ops P (f a)) -> all_ops P (bind p f).
Proof. induction p; simpl; naive_solver. Qed.

(** A goroutine that performs only operations that leave what it owns alone. *)
Lemma cwp_all_ops {E G} (L : logic E G) (P : forall X, E X -> Prop) {A} (p : prog E A) g
    (Q : A -> G -> Prop) :
  (forall X (e : E X) (Q : X -> G -> Prop), P X e -> (forall x, Q x g) -> op L X e g Q) ->
  turn L g -> all_ops P p -> (forall a, Q a g) -> cwp L p g Q.
Proof.
  intros HP Ht. revert Q.
  induction p as [A a|A X e k IH|A M R body IHb l k IHk|A child _ k IH]; simpl; intros Q Hp HQ.
  - apply HQ.
  - destruct Hp as [He Hk]. apply HP; [done|]. intros x. by apply IH.
  - destruct Hp as [Hb Hk]. exists (fun _ g' => g' = g). split; [done|].
    intros l1 g1 ->. split; [done|]. apply IHb; [done|]. intros [l2|r]; [done|]. by apply IHk.
  - done.
Qed.

(** ** Two logics at once *)

Section both.
Context {E : Type -> Type} {G1 G2 : Type} (L1 : logic E G1) (L2 : logic E G2).

Definition both_op (X : Type) (e : E X) (g : G1 * G2) (Q : X -> G1 * G2 -> Prop) : Prop :=
  exists Q1 Q2, op L1 X e g.1 Q1 /\ op L2 X e g.2 Q2 /\
    forall x g1 g2, Q1 x g1 -> Q2 x g2 -> Q x (g1, g2).

Lemma both_op_mono X (e : E X) g (Q Q' : X -> G1 * G2 -> Prop) :
  (forall x g', Q x g' -> Q' x g') -> both_op X e g Q -> both_op X e g Q'.
Proof. intros HQ (Q1 & Q2 & H1 & H2 & H). exists Q1, Q2. auto. Qed.

Definition both : logic E (G1 * G2) := {|
  op := both_op;
  op_mono := both_op_mono;
  fork := fun g gp gc => fork L1 g.1 gp.1 gc.1 /\ fork L2 g.2 gp.2 gc.2;
  turn := fun g => turn L1 g.1 /\ turn L2 g.2;
  fin := fun g => fin L1 g.1 /\ fin L2 g.2
|}.

(** A program that obeys each logic obeys both. *)
Lemma cwp_both {A} (p : prog E A) g1 g2 (Q1 : A -> G1 -> Prop) (Q2 : A -> G2 -> Prop) :
  cwp L1 p g1 Q1 -> cwp L2 p g2 Q2 -> cwp both p (g1, g2) (fun a g => Q1 a g.1 /\ Q2 a g.2).
Proof.
  revert g1 g2 Q1 Q2.
  induction p as [A a|A X e k IH|A M R body IHb l k IHk|A child IHc k IH]; simpl; intros g1 g2 Q1 Q2.
  - done.
  - intros H1 H2. eexists _, _. split; [exact H1|]. split; [exact H2|]. simpl. auto.
  - intros (I1 & HI1 & Hb1) (I2 & HI2 & Hb2).
    exists (fun l g => I1 l g.1 /\ I2 l g.2). split; [done|].
    intros l1 [h1 h2] [H1 H2]. destruct (Hb1 _ _ H1) as [Ht1 Hc1]. destruct (Hb2 _ _ H2) as [Ht2 Hc2].
    split; [done|]. eapply cwp_mono; [|exact (IHb _ _ _ _ _ Hc1 Hc2)].
    intros [l2|b] [h1' h2'] [H1' H2']; simpl; [done|]. by apply IHk.
  - intros (gp1 & gc1 & Hf1 & Hc1 & Hk1) (gp2 & gc2 & Hf2 & Hc2 & Hk2).
    exists (gp1, gp2), (gc1, gc2). split; [done|]. split; [|by apply IH].
    exact (IHc _ _ _ _ Hc1 Hc2).
Qed.

Context {S : Type} (sem : semantics E S).
Context (inv1 : S -> list G1 -> Prop) (inv2 : S -> list G2 -> Prop).

Definition both_inv (s : S) (gs : list (G1 * G2)) : Prop := inv1 s gs.*1 /\ inv2 s gs.*2.

Lemma both_inv_op :
  (forall s gs i g X (e : E X) Q x s', inv1 s gs -> gs !! i = Some g -> op L1 X e g Q ->
     sem X e s x s' -> exists g', Q x g' /\ inv1 s' (<[i := g']> gs)) ->
  (forall s gs i g X (e : E X) Q x s', inv2 s gs -> gs !! i = Some g -> op L2 X e g Q ->
     sem X e s x s' -> exists g', Q x g' /\ inv2 s' (<[i := g']> gs)) ->
  forall s gs i g X (e : E X) Q x s', both_inv s gs -> gs !! i = Some g -> op both X e g Q ->
    sem X e s x s' -> exists g', Q x g' /\ both_inv s' (<[i := g']> gs).
Proof.
  intros Hop1 Hop2 s gs i [g1 g2] X e Q x s' [Hi1 Hi2] Hi (Q1 & Q2 & H1 & H2 & HQ) Hx.
  destruct (Hop1 _ _ i g1 _ _ _ _ _ Hi1 ltac:(by rewrite list_lookup_fmap, Hi) H1 Hx) as (g1' & Hg1 & Hi1').
  destruct (Hop2 _ _ i g2 _ _ _ _ _ Hi2 ltac:(by rewrite list_lookup_fmap, Hi) H2 Hx) as (g2' & Hg2 & Hi2').
  exists (g1', g2'). split; [auto|]. unfold both_inv. by rewrite !list_fmap_insert.
Qed.

Lemma both_inv_fork :
  (forall s gs i g gp gc, inv1 s gs -> gs !! i = Some g -> fork L1 g gp gc -> inv1 s (<[i := gp]> gs ++ [gc])) ->
  (forall s gs i g gp gc, inv2 s gs -> gs !! i = Some g -> fork L2 g gp gc -> inv2 s (<[i := gp]> gs ++ [gc])) ->
  forall s gs i g gp gc, both_inv s gs -> gs !! i = Some g -> fork both g gp gc ->
    both_inv s (<[i := gp]> gs ++ [gc]).
Proof.
  intros Hf1 Hf2 s gs i [g1 g2] [gp1 gp2] [gc1 gc2] [Hi1 Hi2] Hi [H1 H2]. unfold both_inv.
  rewrite !fmap_app, !list_fmap_insert. split.
  - eapply Hf1; [exact Hi1| |exact H1]. by rewrite list_lookup_fmap, Hi.
  - eapply Hf2; [exact Hi2| |exact H2]. by rewrite list_lookup_fmap, Hi.
Qed.
End both.

(** ** Code that leaves a goroutine with what it had *)

Section keeps.
Context {E : Type -> Type} {G : Type} (L : logic E G) (ready : G -> Prop).

(** [keeps_from p]: [p] can be run by a goroutine that is [ready], and leaves it with what it
    owned. *)
Definition keeps_from {A} (p : prog E A) : Prop :=
  forall g (Q : A -> G -> Prop), ready g -> (forall a, Q a g) -> cwp L p g Q.

Lemma keeps_bind {A B} (p : prog E A) (f : A -> prog E B) :
  keeps_from p -> (forall a, keeps_from (f a)) -> keeps_from (bind p f).
Proof. intros Hp Hf g Q Hg HQ. apply cwp_bind, Hp; [done|]. intros a. by apply Hf. Qed.

Lemma keeps_ret {A} (a : A) : keeps_from (Ret a).
Proof. intros g Q _ HQ. apply HQ. Qed.

Lemma keeps_trigger {X F} `{F -< E} (e : F X) :
  (forall g (Q : X -> G -> Prop), ready g -> (forall x, Q x g) -> op L X (inject e) g Q) ->
  keeps_from (trigger e).
Proof. intros He g Q Hg HQ. by apply cwp_trigger, He. Qed.

Lemma keeps_loop {M R} (body : M -> prog E (M + R)) l :
  (forall g, ready g -> turn L g) -> (forall l, keeps_from (body l)) -> keeps_from (loop body l).
Proof.
  intros Ht Hb g Q Hg HQ. exists (fun _ g' => g' = g). split; [done|].
  intros l1 g1 ->. split; [by apply Ht|]. apply Hb; [done|]. intros [l2|b]; [done|apply HQ].
Qed.

Lemma keeps_go child g0 :
  (forall g, fork L g g g0) -> cwp L child g0 (fun _ g => fin L g) -> keeps_from (go child).
Proof. intros Hf Hc g Q Hg HQ. exists g, g0. split; [done|]. split; [done|]. apply HQ. Qed.
End keeps.

Create HintDb keeps.

(** Proves [keeps_from] of code that performs idle operations and calls code of the database. *)
Ltac keep_trigger :=
  apply keeps_trigger; intros ? ? ? ?; cbv beta in *; subst;
  solve [assumption | split; [done|assumption]].
Ltac keep_step :=
  lazymatch goal with
  | |- keeps_from _ _ (Ret _) => apply keeps_ret
  | |- keeps_from _ _ (bind (trigger _) _) => apply keeps_bind; [keep_trigger|intros ?]
  | |- keeps_from _ _ (bind _ _) => apply keeps_bind; [|intros ?]
  | |- keeps_from _ _ (trigger _) => keep_trigger
  | |- keeps_from _ _ (loop _ _) => apply keeps_loop; [by intros ? -> || done|intros ?]
  | |- keeps_from _ _ (match ?x with _ => _ end) => destruct x
  | |- keeps_from _ _ (let _ := _ in _) => cbv zeta
  | |- keeps_from _ _ _ => solve [auto with keeps]
  end.
Ltac keep := repeat keep_step.

(** ** Code that performs only certain operations *)

(** Every operation of [p], and of the goroutines it starts, satisfies [P]. *)
Fixpoint everywhere {E : Type -> Type} (P : forall X, E X -> Prop) {A} (p : prog E A) : Prop :=
  match p with
  | Ret _ => True
  | Vis e k => P _ e /\ forall x, everywhere P (k x)
  | Iter body _ k => (forall l, everywhere P (body l)) /\ forall r, everywhere P (k r)
  | Go child k => everywhere P child /\ everywhere P k
  end.

Section everywhere.
Context {E : Type -> Type} (P : forall X, E X -> Prop).

Lemma everywhere_ret {A} (a : A) : everywhere P (Ret a).
Proof. done. Qed.

Lemma everywhere_bind {A B} (p : prog E A) (f : A -> prog E B) :
  everywhere P p -> (forall a, everywhere P (f a)) -> everywhere P (bind p f).
Proof. induction p; simpl; naive_solver. Qed.

Lemma everywhere_trigger {X F} `{F -< E} (e : F X) : P X (inject e) -> everywhere P (trigger e).
Proof. done. Qed.

Lemma everywhere_loop {L R} (body : L -> prog E (L + R)) l :
  (forall l, everywhere P (body l)) -> everywhere P (loop body l).
Proof. done. Qed.

Lemma everywhere_go (child : prog E unit) : everywhere P child -> everywhere P (go child).
Proof. done. Qed.

(** A goroutine that performs, and whose children perform, only operations that leave what it
    owns alone. *)
Lemma everywhere_keeps {G} (L : logic E G) (ready : G -> Prop) g0 {A} (p : prog E A) :
  (forall X (e : E X) g (Q : X -> G -> Prop), ready g -> P X e -> (forall x, Q x g) -> op L X e g Q) ->
  (forall g, ready g -> fork L g g g0) -> (forall g, ready g -> turn L g) -> ready g0 -> fin L g0 ->
  everywhere P p -> forall g (Q : A -> G -> Prop), ready g -> (forall a, Q a g) -> cwp L p g Q.
Proof.
  intros HP Hfork Hturn Hg0 Hfin.
  induction p as [A a|A X e k IH|A M R body IHb l k IHk|A child IHc k IH]; simpl; intros Hp g Q Hg HQ.
  - apply HQ.
  - destruct Hp as [He Hk]. apply HP; [done|done|]. intros x. by apply IH.
  - destruct Hp as [Hb Hk]. exists (fun _ g' => g' = g). split; [done|].
    intros l1 g1 ->. split; [by apply Hturn|]. apply IHb; [done|done|]. intros [l2|r]; [done|]. by apply IHk.
  - destruct Hp as [Hc Hk]. exists g, g0. split; [by apply Hfork|]. split; [|by apply IH].
    by apply IHc.
Qed.
End everywhere.

Create HintDb scan.

(** Proves [everywhere] of code, one construct at a time. *)
Ltac scan_step :=
  lazymatch goal with
  | |- everywhere _ (Ret _) => apply everywhere_ret
  | |- everywhere _ (bind _ _) => apply everywhere_bind; [|intros ?]
  | |- everywhere _ (trigger _) => apply everywhere_trigger; exact I
  | |- everywhere _ (loop _ _) => apply everywhere_loop; intros ?
  | |- everywhere _ (go _) => apply everywhere_go
  | |- everywhere _ (match ?x with _ => _ end) => destruct x
  | |- everywhere _ (let _ := _ in _) => cbv zeta
  | |- everywhere _ _ => solve [auto with scan]
  end.
Ltac scan := repeat scan_step.

(** ** Adequacy *)

Section adequacy.
Context {E : Type -> Type} {S G : Type} (sem : semantics E S) (L : logic E G).
(** [inv s gs]: the shared state [s] agrees with what the goroutines own. *)
Context (inv : S -> list G -> Prop).

Hypothesis inv_op : forall s gs i g X (e : E X) Q x s',
  inv s gs -> gs !! i = Some g -> op L X e g Q -> sem X e s x s' ->
  exists g', Q x g' /\ inv s' (<[i := g']> gs).
Hypothesis inv_fork : forall s gs i g gp gc,
  inv s gs -> gs !! i = Some g -> fork L g gp gc -> inv s (<[i := gp]> gs ++ [gc]).

Definition threads_ok (ts : list (prog E unit)) (gs : list G) : Prop :=
  Forall2 (fun p g => cwp L p g (fun _ g' => fin L g')) ts gs.

Lemma step_ok ts s ts' s' gs :
  step sem (ts, s) (ts', s') -> threads_ok ts gs -> inv s gs ->
  exists gs', threads_ok ts' gs' /\ inv s' gs'.
Proof.
  intros Hstep Hok Hinv. inversion Hstep as [? ? i p p' ? new Hi Ht]; subst.
  destruct (Forall2_lookup_l _ _ _ _ _ Hok Hi) as (g & Hg & Hp).
  destruct Ht as [X e k s x s' Hx|M R body l k s|child k s]; simpl in Hp.
  - destruct (inv_op _ _ _ _ _ _ _ _ _ Hinv Hg Hp Hx) as (g' & Hk & Hinv').
    exists (<[i := g']> gs). split; [|done].
    rewrite app_nil_r. by apply Forall2_insert.
  - destruct Hp as (I & HI & Hround). exists gs. split; [|done].
    rewrite app_nil_r, <- (list_insert_id gs i g Hg). apply Forall2_insert; [done|].
    apply cwp_bind. eapply cwp_mono; [|by apply (Hround l g HI)].
    intros [l2|b] g2 H2; simpl; [|done]. exists I. by split.
  - destruct Hp as (gp & gc & Hf & Hc & Hk).
    exists (<[i := gp]> gs ++ [gc]). split; [|by eapply inv_fork].
    apply Forall2_app; [by apply Forall2_insert|]. by constructor.
Qed.

Theorem adequacy ts s ts' s' gs :
  reachable sem (ts, s) (ts', s') -> threads_ok ts gs -> inv s gs ->
  exists gs', threads_ok ts' gs' /\ inv s' gs'.
Proof.
  intros Hr. remember (ts, s) as c eqn:Hc. remember (ts', s') as c' eqn:Hc'.
  revert ts s gs Hc. induction Hr as [c|c [ts1 s1] c' Hstep _ IH]; intros ts s gs ->.
  - simplify_eq. eauto.
  - intros Hok Hinv. destruct (step_ok _ _ _ _ _ Hstep Hok Hinv) as (gs1 & H1 & H2).
    by eapply IH.
Qed.
End adequacy.
