(* ===== verification/AmqpData.v ===== *)
(** * AmqpData: the data types of amqp091-go that the library reads and builds.

    Strings are Go byte strings; integers are [Z] with their width in the field's comment;
    times and durations are [Z] counts of nanoseconds.  A [Table] is a Go map: [None] is the
    nil map.  Where a map is mutated through an alias, the component that does it models the
    reference (see [Dial]); elsewhere tables are passed by value. *)
From S2P Require Import Prelude.

Definition bytes : Type := list Ascii.ascii.

(** Opaque handles to objects of amqp091-go and crypto/tls. *)
Abbreviation conn := nat (only parsing).
Abbreviation channel := nat (only parsing).
Abbreviation delivery_tag := nat (only parsing).

(** [interface{}] values that may sit in an AMQP table: the dynamic types that the library's
    type switches distinguish, and [VOther] for the rest (integers of other widths, floats,
    decimals, times, nested tables, ...), with what [fmt.Sprint] prints for them. *)
Inductive value : Type :=
| VInt32 (z : Z)
| VInt64 (z : Z)
| VInt (z : Z)
| VString (s : string)
| VBytes (b : bytes)
| VBool (b : bool)
| VOther (printed : string).

#[export] Instance value_eq_dec : EqDecision value.
Proof. solve_decision. Defined.

Abbreviation table := (gmap string value).
Abbreviation Table := (option table).

(** [len], lookup and [range] treat the nil map as the empty one. *)
Definition tbl (t : Table) : table := default ∅ t.

(** An outgoing message (amqp.Publishing). *)
Module Publishing.
Record t := mk {
  Headers : Table;
  ContentType : string;
  ContentEncoding : string;
  DeliveryMode : Z; (* uint8 *)
  Priority : Z; (* uint8 *)
  CorrelationId : string;
  ReplyTo : string;
  Expiration : string;
  MessageId : string;
  Timestamp : Z;
  Type_ : string;
  UserId : string;
  AppId : string;
  Body : bytes
}.
End Publishing.

(** An incoming message (amqp.Delivery), without the fields the library does not read. *)
Module Delivery.
Record t := mk {
  Headers : Table;
  ContentType : string;
  ContentEncoding : string;
  DeliveryMode : Z; (* uint8 *)
  Priority : Z; (* uint8 *)
  CorrelationId : string;
  ReplyTo : string;
  Expiration : string;
  MessageId : string;
  Timestamp : Z;
  Type_ : string;
  UserId : string;
  AppId : string;
  DeliveryTag : delivery_tag;
  Redelivered : bool;
  Exchange : string;
  RoutingKey : string;
  Body : bytes
}.
End Delivery.

(** An unroutable message handed back by the broker (amqp.Return). *)
Module Return_.
Record t := mk {
  ReplyCode : Z; (* uint16 *)
  ReplyText : string;
  Exchange : string;
  RoutingKey : string;
  ContentType : string;
  ContentEncoding : string;
  Headers : Table;
  DeliveryMode : Z; (* uint8 *)
  Priority : Z; (* uint8 *)
  CorrelationId : string;
  ReplyTo : string;
  Expiration : string;
  MessageId : string;
  Timestamp : Z;
  Type_ : string;
  UserId : string;
  AppId : string;
  Body : bytes
}.
End Return_.

(** amqp.Persistent and amqp.PreconditionFailed. *)
Definition Persistent : Z := 2.
Definition PreconditionFailed : Z := 406.

(** Go durations. *)
Definition Nanosecond : Z := 1.
Definition Millisecond : Z := 1000000.
Definition Second : Z := 1000 * Millisecond.
Definition Minute : Z := 60 * Second.
