(* ===== verification/Errors.v ===== *)
(** * Errors: Go error values and pkg/rabbitmq/errors.go.

    An [error] is a non-nil Go error; a Go variable of type [error] is an [option error].  The
    constructors are the dynamic types the library builds or inspects; [EForeign] is any error
    type from elsewhere (a handler's, amqp091-go's), described by what [errors.Is] and
    [errors.As] can observe of it: its [Is] and [As] methods and what it unwraps to. *)
From S2P Require Import Prelude AmqpData.

(** pkg/rabbitmq/publisher.go: ReturnedMessage. *)
Module ReturnedMessage.
Record t := mk {
  ReplyCode : Z; (* uint16 *)
  ReplyText : string;
  Exchange : string;
  RoutingKey : string;
  Message : Publishing.t
}.
End ReturnedMessage.

(** The two errors of package context. *)
Inductive ctx_error : Type := Canceled | DeadlineExceeded.

#[export] Instance ctx_error_eq_dec : EqDecision ctx_error.
Proof. solve_decision. Defined.

(** The arguments of [fmt.Errorf] other than the wrapped errors. *)
Inductive errorf_arg : Type :=
| AStr (s : string)
| AInt (z : Z)
| AAny (printed : string).

#[warnings="-register-all"]
Inductive error : Type :=
| ENew (msg : string)                             (* errors.New(msg) *)
| ECtx (c : ctx_error)                            (* context.Canceled, context.DeadlineExceeded *)
| EAmqp (code : Z) (reason : string)              (* *amqp.Error *)
| EErrorf (format : string) (args : list errorf_arg) (wrapped : list error)
                                                  (* fmt.Errorf; [wrapped]: the %w arguments *)
| ENonRetryable (err : option error)              (* &NonRetryableError{Err: err} *)
| ENonRetryableNil                                (* a nil *NonRetryableError in an interface *)
| EReturned (r : ReturnedMessage.t)               (* *PublishReturnedError *)
| EForeign (name : string) (is_method : ctx_error -> bool) (as_method : bool)
    (as_amqp_method : option (Z * string)) (wrapped : list error).

(** A Go call that returns a value and an error: exactly one of them. *)
Inductive result (A : Type) : Type :=
| Ok (a : A)
| Err (e : error).
Arguments Ok {A} a.
Arguments Err {A} e.

(** ** errors.go *)

(** [e] is the receiver: [None] is the nil pointer, [Some err] points to a struct. *)
Definition NonRetryableError_Unwrap (e : option (option error)) : option error :=
  match e with
  | None => None
  | Some err => err
  end.

(** [render] is the dynamic dispatch [e.Err.Error()]. *)
Definition NonRetryableError_Error (render : error -> string) (e : option (option error)) : string :=
  match e with
  | None => "non-retryable error"
  | Some None => "non-retryable error"
  | Some (Some err) => render err
  end.

Definition NewNonRetryableError (err : option error) : error := ENonRetryable err.

(** What package errors sees when it unwraps: the non-nil results of [Unwrap() error] or
    [Unwrap() []error]. *)
Definition unwrap (e : error) : list error :=
  match e with
  | EErrorf _ _ wrapped => wrapped
  | ENonRetryable err => option_list (NonRetryableError_Unwrap (Some err))
  | ENonRetryableNil => option_list (NonRetryableError_Unwrap None)
  | EForeign _ _ _ _ wrapped => wrapped
  | _ => []
  end.

(** [errors.As(err, &target)] with [target] a [*NonRetryableError], on a non-nil error. *)
Fixpoint as_nonretryable (e : error) : bool :=
  match e with
  | ENonRetryable _ | ENonRetryableNil => true
  | EErrorf _ _ wrapped => existsb as_nonretryable wrapped
  | EForeign _ _ as_method _ wrapped => as_method || existsb as_nonretryable wrapped
  | _ => false
  end.

Definition IsNonRetryable (err : option error) : bool :=
  match err with
  | None => false
  | Some e => as_nonretryable e
  end.

(** [errors.Is(err, target)] with [target] one of the context errors. *)
Fixpoint errors_Is (e : error) (target : ctx_error) : bool :=
  match e with
  | ECtx c => bool_decide (c = target)
  | EErrorf _ _ wrapped => existsb (fun e' => errors_Is e' target) wrapped
  | ENonRetryable (Some e') => errors_Is e' target
  | EForeign _ is_method _ _ wrapped =>
      is_method target || existsb (fun e' => errors_Is e' target) wrapped
  | _ => false
  end.

(** [errors.As(err, &aerr)] with [aerr] an [*amqp.Error]: the first one in the chain. *)
Fixpoint as_amqp (e : error) : option (Z * string) :=
  match e with
  | EAmqp code reason => Some (code, reason)
  | EErrorf _ _ wrapped =>
      (fix first (es : list error) :=
         match es with
         | [] => None
         | e' :: es => match as_amqp e' with Some r => Some r | None => first es end
         end) wrapped
  | ENonRetryable (Some e') => as_amqp e'
  | EForeign _ _ _ (Some r) _ => Some r
  | EForeign _ _ _ None wrapped =>
      (fix first (es : list error) :=
         match es with
         | [] => None
         | e' :: es => match as_amqp e' with Some r => Some r | None => first es end
         end) wrapped
  | _ => None
  end.

(** ** The error tree *)

(** [in_tree e e']: [e'] is [e] or an error that unwrapping [e] reaches. *)
Inductive in_tree : error -> error -> Prop :=
| in_tree_here e : in_tree e e
| in_tree_under e e1 e2 : In e1 (unwrap e) -> in_tree e1 e2 -> in_tree e e2.

(** An error whose presence makes a failure final. *)
Definition marks_nonretryable (e : error) : Prop :=
  match e with
  | ENonRetryable _ | ENonRetryableNil => True
  | EForeign _ _ as_method _ _ => as_method = true
  | _ => False
  end.

(** Induction over the error tree. *)
Section error_rect.
Context (P : error -> Prop).
Hypothesis step : forall e, (forall e', In e' (unwrap e) -> P e') -> P e.

Fixpoint error_tree_ind (e : error) : P e :=
  let all := fix all (es : list error) : forall e', In e' es -> P e' :=
    match es with
    | [] => fun _ H => match H with end
    | e0 :: es => fun e' H =>
        match H with
        | or_introl Heq => eq_ind e0 P (error_tree_ind e0) e' Heq
        | or_intror H => all es e' H
        end
    end in
  step e
    match e return forall e', In e' (unwrap e) -> P e' with
    | EErrorf _ _ wrapped => all wrapped
    | ENonRetryable (Some e1) => fun e' H =>
        match H with
        | or_introl Heq => eq_ind e1 P (error_tree_ind e1) e' Heq
        | or_intror H => match H with end
        end
    | EForeign _ _ _ _ wrapped => all wrapped
    | _ => fun _ H => match H with end
    end.
End error_rect.

(** ** Properties *)

(** One level of [errors.As]: the error itself, or something it unwraps to. *)
Lemma as_nonretryable_unwrap e :
  as_nonretryable e = true <->
  marks_nonretryable e \/ existsb as_nonretryable (unwrap e) = true.
Proof.
  destruct e as [| | | |[]| | |? ? [] ? ?]; simpl; naive_solver.
Qed.

(** C38: [IsNonRetryable] holds of exactly the errors whose tree (the error, what it wraps, what
    that wraps, ..., through [errors.Join] and multi-%w nodes alike) contains a
    [*NonRetryableError], nil pointers included, or an error whose own [As] method claims to
    be one; and never of the nil error. *)
Theorem IsNonRetryable_iff (err : option error) :
  IsNonRetryable err = true <->
  exists e e', err = Some e /\ in_tree e e' /\ marks_nonretryable e'.
Proof.
  split.
  - destruct err as [e|]; [|done]. simpl. intros He.
    enough (exists e', in_tree e e' /\ marks_nonretryable e') by naive_solver.
    revert He. induction e as [e IH] using error_tree_ind. intros He.
    apply as_nonretryable_unwrap in He as [He|He]; [eauto using in_tree|].
    apply existsb_exists in He as (e1 & Hin & He1).
    destruct (IH e1 Hin He1) as (e' & Ht & Hm). eauto using in_tree.
  - intros (e & e' & -> & Ht & Hm). simpl.
    induction Ht as [e|e e1 e2 Hin _ IH]; apply as_nonretryable_unwrap; [by left|right].
    apply existsb_exists. eauto.
Qed.
