(* ===== verification/Retry.v ===== *)
(** * Retry: the retry-count header (internal/amqpx/retry.go). *)
From S2P Require Import Prelude AmqpData Errors.

Definition RetryCountHeader : string := "x-retry-count".

(** Conversions to [int] of an [int32] or [int64] keep the value on 64-bit platforms. *)
Definition ReadRetryCount (headers : Table) : Z :=
  match headers with
  | None => 0
  | Some h =>
      match h !! RetryCountHeader with
      | None => 0
      | Some (VInt32 v) => v
      | Some (VInt64 v) => v
      | Some (VInt v) => v
      | Some _ => 0
      end
  end.

Definition NextRetryHeaders (original : Table) (count : Z) : result Table :=
  if bool_decide (count > MaxInt32) || bool_decide (count < MinInt32) then
    Err (EErrorf "rabbitmq: retry count out of int32 range: %d" [AInt count] [])
  else
    let headers : table := ∅ in
    let headers := tbl original ∪ headers in (* maps.Copy *)
    Ok (Some (<[RetryCountHeader := VInt32 (wrap 32 count)]> headers)).

(** ** Properties *)

Lemma NextRetryHeaders_spec original count :
  NextRetryHeaders original count =
    if bool_decide (in_int32 count)
    then Ok (Some (<[RetryCountHeader := VInt32 count]> (tbl original)))
    else Err (EErrorf "rabbitmq: retry count out of int32 range: %d" [AInt count] []).
Proof.
  unfold NextRetryHeaders. rewrite (right_id_L ∅ (∪)).
  destruct (decide (in_int32 count)) as [Hc|Hc].
  - rewrite (bool_decide_true (in_int32 _)), wrap32_id by done. unfold in_int32 in Hc.
    rewrite !bool_decide_false by lia. done.
  - rewrite (bool_decide_false (in_int32 _)) by done. unfold in_int32 in Hc.
    destruct (decide (count > MaxInt32)).
    + by rewrite bool_decide_true.
    + rewrite (bool_decide_true (count < _)) by lia. by rewrite orb_true_r.
Qed.

(** Writing a retry count and reading it back gives the count, for every count that fits the
    header's int32. *)
Theorem NextRetryHeaders_roundtrip original count :
  in_int32 count ->
  exists headers, NextRetryHeaders original count = Ok headers /\ ReadRetryCount headers = count.
Proof.
  intros Hc. rewrite NextRetryHeaders_spec, bool_decide_true by done.
  eexists. split; [done|]. simpl. by rewrite lookup_insert_eq.
Qed.

Lemma NextRetryHeaders_roundtrip_witness :
  exists headers, NextRetryHeaders (Some {[ "foo" := VString "bar" ]}) 2 = Ok headers
    /\ ReadRetryCount headers = 2.
Proof.
  apply (NextRetryHeaders_roundtrip (Some {[ "foo" := VString "bar" ]}) 2). unfold in_int32.
  unfold MinInt32, MaxInt32. lia.
Defined.

(** The next headers differ from the original ones in the retry counter only, and a count
    that does not fit in 32 bits is an error, never a truncated header. *)
Theorem NextRetryHeaders_frame original count :
  match NextRetryHeaders original count with
  | Ok headers =>
      in_int32 count /\
      forall k, tbl headers !! k =
        if decide (k = RetryCountHeader) then Some (VInt32 count) else tbl original !! k
  | Err _ => ~ in_int32 count
  end.
Proof.
  rewrite NextRetryHeaders_spec. case_bool_decide as Hc; [|done].
  split; [done|]. intros k. simpl.
  destruct (decide (k = RetryCountHeader)) as [->|]; [apply lookup_insert_eq|].
  by apply lookup_insert_ne.
Qed.

Example ReadRetryCount_unexpected : ReadRetryCount (Some {[ RetryCountHeader := VString "nope" ]}) = 0.
Proof. reflexivity. Qed.
