(* ===== verification/Amqp.v ===== *)
(** * Amqp: the operations of amqp091-go, of the clock, of contexts and of the logger.

    amqp091-go is not part of the repository: its methods are operations whose answers the
    environment chooses.  Where the library drops an error with [_ =], the operation has no
    answer; a Go pair of a value and an error is a [result]. *)
From S2P Require Import Prelude AmqpData Errors Prog.

(** Contexts, as far as the library builds them. *)
Inductive context : Type :=
| Background                               (* context.Background() *)
| CtxValue (n : nat)                       (* a caller's or an Instrumentation's context *)
| WithCancel (parent : context)            (* context.WithCancel(parent) *)
| WithTimeout (parent : context) (d : Z).  (* context.WithTimeout(parent, d) *)

(** Channels of deliveries, of close notifications and of returned messages, and deferred
    confirmations, are handles. *)
Inductive amqpE : Type -> Type :=
(* *amqp.Connection *)
| ConnIsClosed (c : conn) : amqpE bool
| ConnClose (c : conn) : amqpE unit
| ConnChannel (c : conn) : amqpE (result channel)
| ConnNotifyClose (c : conn) : amqpE nat
(* *amqp.Channel *)
| ChIsClosed (ch : channel) : amqpE bool
| ChClose (ch : channel) : amqpE unit
| ChQos (ch : channel) (prefetchCount prefetchSize : Z) (global_ : bool) : amqpE (option error)
| ChConfirm (ch : channel) (noWait : bool) : amqpE (option error)
| ChExchangeDeclare (ch : channel) (name kind : string)
    (durable autoDelete internal noWait : bool) (args : Table) : amqpE (option error)
| ChQueueDeclare (ch : channel) (name : string)
    (durable autoDelete exclusive noWait : bool) (args : Table) : amqpE (option error)
| ChQueueBind (ch : channel) (name key exchange : string) (noWait : bool) (args : Table)
    : amqpE (option error)
| ChConsume (ch : channel) (queue consumer : string)
    (autoAck exclusive noLocal noWait : bool) (args : Table) : amqpE (result nat)
| ChNotifyClose (ch : channel) : amqpE nat
| ChNotifyReturn (ch : channel) : amqpE nat
| ChPublish (ch : channel) (ctx : context) (exchange key : string) (mandatory immediate : bool)
    (msg : Publishing.t) : amqpE (option error)
| ChPublishDeferred (ch : channel) (ctx : context) (exchange key : string)
    (mandatory immediate : bool) (msg : Publishing.t) : amqpE (result (option nat))
(* *amqp.DeferredConfirmation *)
| DcWaitContext (dc : nat) (ctx : context) : amqpE (result bool)
(* amqp.Delivery *)
| DeliveryAck (tag : delivery_tag) (multiple : bool) : amqpE unit
| DeliveryNack (tag : delivery_tag) (multiple requeue : bool) : amqpE unit.

Inductive sysE : Type -> Type :=
| TimeNow : sysE Z
(* select { case <-ctx.Done(): true; default: false } *)
| CtxPoll (ctx : context) : sysE bool
(* select { case <-ctx.Done(): true; case <-timer.C: false } with a new timer of d *)
| CtxOrTimer (ctx : context) (d : Z) : sysE bool
(* ctx.Err() after ctx.Done() *)
| CtxErr (ctx : context) : sysE ctx_error.

(** pkg/rabbitmq/logging: fields and the Logger interface. *)
Inductive field_value : Type :=
| FString (s : string)
| FInt (z : Z)
| FInt64 (z : Z)
| FBool (b : bool)
| FDuration (d : Z)
| FError (e : option error)
| FAny (printed : string).

Record Field : Type := mkField { Key : string; Value : field_value }.

Definition logString (key value : string) : Field := mkField key (FString value).
Definition logInt (key : string) (value : Z) : Field := mkField key (FInt value).
Definition logInt64 (key : string) (value : Z) : Field := mkField key (FInt64 value).
Definition logBool (key : string) (value : bool) : Field := mkField key (FBool value).
Definition logDuration (key : string) (value : Z) : Field := mkField key (FDuration value).
Definition logAny (key : string) (printed : string) : Field := mkField key (FAny printed).
Definition logErr (err : option error) : Field := mkField "error" (FError err).

Inductive level : Type := Debug | Info | Warn | Error.

(** The methods of the configured Logger. *)
Inductive logE : Type -> Type :=
| Log (l : level) (ctx : context) (msg : string) (fields : list Field) : logE unit.

Abbreviation log_info ctx msg fields := (trigger (Log Info ctx msg fields)).
Abbreviation log_warn ctx msg fields := (trigger (Log Warn ctx msg fields)).
Abbreviation log_error ctx msg fields := (trigger (Log Error ctx msg fields)).

(** ** A concrete environment *)

(** A broker that accepts everything: the answers of the concrete runs. *)
Definition good_amqp {X} (e : amqpE X) : X :=
  match e with
  | ConnIsClosed _ => false
  | ConnClose _ => tt
  | ConnChannel _ => Ok 1%nat
  | ConnNotifyClose _ => 2%nat
  | ChIsClosed _ => false
  | ChClose _ => tt
  | ChQos _ _ _ _ => None
  | ChConfirm _ _ => None
  | ChExchangeDeclare _ _ _ _ _ _ _ _ => None
  | ChQueueDeclare _ _ _ _ _ _ _ => None
  | ChQueueBind _ _ _ _ _ _ => None
  | ChConsume _ _ _ _ _ _ _ _ => Ok 3%nat
  | ChNotifyClose _ => 4%nat
  | ChNotifyReturn _ => 5%nat
  | ChPublish _ _ _ _ _ _ _ => None
  | ChPublishDeferred _ _ _ _ _ _ _ => Ok (Some 6%nat)
  | DcWaitContext _ _ => Ok true
  | DeliveryAck _ _ => tt
  | DeliveryNack _ _ _ => tt
  end.
