(* ===== verification/Topology.v ===== *)
(** * Topology: queue declarations (pkg/rabbitmq/topology.go), and where dead letters go on a
    broker with documented routing. *)
From S2P Require Import Prelude AmqpData Errors Prog Config Amqp.
Local Open Scope string_scope.
Local Open Scope go_scope.

(** wrapQueueDeclareErr; the quoted queue names are kept as arguments of the format. *)
Definition wrapQueueDeclareErr (queueName : string) (err : error) : error :=
  match as_amqp err with
  | Some (code, _) =>
      if bool_decide (code = PreconditionFailed) then
        EErrorf "declare queue %q: %w (queue already exists with different arguments; delete %q on the broker, then restart)"
          [AStr queueName; AStr queueName] [err]
      else EErrorf "declare queue: %w" [] [err]
  | None => EErrorf "declare queue: %w" [] [err]
  end.

Section topology.
Context {E : Type -> Type} `{amqpE -< E}.

(** The second half of declareQueueTopology: the queue itself and its binding. *)
Definition declareQueue (ch : channel) (cfg : Config.t) (queueName routingKey : string)
    (queueArgs : Table) : prog E (option error) :=
  let! err := trigger (ChQueueDeclare ch queueName true false false false queueArgs) in
  match err with
  | Some err => Ret (Some (wrapQueueDeclareErr queueName err))
  | None =>
      let! err := trigger (ChQueueBind ch queueName routingKey (Config.Exchange cfg) false None) in
      match err with
      | Some err => Ret (Some (EErrorf "bind queue: %w" [] [err]))
      | None => Ret None
      end
  end.

Definition declareQueueTopology (ch : channel) (cfg : Config.t) (queueName routingKey : string)
  : prog E (option error) :=
  if negb (Config.DisableDeadLetter cfg) then
    let dlxName := Config.Exchange cfg ++ Config.DeadLetterExchangeSuffix cfg in
    let! err := trigger (ChExchangeDeclare ch dlxName deadLetterExchangeType
                           true false false false None) in
    match err with
    | Some err => Ret (Some (EErrorf "declare dead-letter exchange: %w" [] [err]))
    | None =>
        let dlqName := queueName ++ Config.DeadLetterQueueSuffix cfg in
        let! err := trigger (ChQueueDeclare ch dlqName true false false false None) in
        match err with
        | Some err => Ret (Some (EErrorf "declare dead-letter queue: %w" [] [err]))
        | None =>
            let! err := trigger (ChQueueBind ch dlqName routingKey dlxName false None) in
            match err with
            | Some err => Ret (Some (EErrorf "bind dead-letter queue: %w" [] [err]))
            | None =>
                declareQueue ch cfg queueName routingKey
                  (Some (<["x-dead-letter-exchange" := VString dlxName]>
                         {["x-dead-letter-routing-key" := VString routingKey]}))
            end
        end
    end
  else declareQueue ch cfg queueName routingKey None.

(** Consumer.declareConsumerTopology, with [c.cfg] as [cfg]. *)
Definition declareConsumerTopology (cfg : Config.t) (ch : channel) (queueName routingKey : string)
  : prog E (result (nat * nat)) :=
  let! err := declareQueueTopology ch cfg queueName routingKey in
  match err with
  | Some err => Ret (Err err)
  | None =>
      let! msgs := trigger (ChConsume ch queueName "" false false false false None) in
      match msgs with
      | Err err => Ret (Err err)
      | Ok msgs =>
          let! chanClose := trigger (ChNotifyClose ch) in
          Ret (Ok (msgs, chanClose))
      end
  end.
End topology.

(** ** Properties *)

(** A declaration and its parameters: the abstract content of a topology. *)
Inductive declaration : Type :=
| DExchange (name kind : string) (durable : bool)
| DQueue (name : string) (durable : bool) (args : Table)
| DBind (queue key exchange : string).

(** The declarations that make up a topology, in order. *)
Definition topology (cfg : Config.t) (queueName routingKey : string) : list declaration :=
  let dlxName := Config.Exchange cfg ++ Config.DeadLetterExchangeSuffix cfg in
  let dlqName := queueName ++ Config.DeadLetterQueueSuffix cfg in
  if Config.DisableDeadLetter cfg then
    [DQueue queueName true None; DBind queueName routingKey (Config.Exchange cfg)]
  else
    [DExchange dlxName deadLetterExchangeType true; DQueue dlqName true None; DBind dlqName routingKey dlxName;
     DQueue queueName true
       (Some (<["x-dead-letter-exchange" := VString dlxName]>
              {["x-dead-letter-routing-key" := VString routingKey]}));
     DBind queueName routingKey (Config.Exchange cfg)].

Definition succeeded (err : option error) : bool :=
  match err with
  | None => true
  | Some _ => false
  end.

(** [l] when the operation is one on the channel [ch], nothing otherwise. *)
Definition on (ch ch' : channel) {A} (l : list A) : list A := if Nat.eqb ch ch' then l else [].

Lemma on_same ch {A} (l : list A) : on ch ch l = l.
Proof. unfold on. by rewrite Nat.eqb_refl. Qed.

(** What an operation declared on the channel [ch], and whether the broker accepted it. *)
Definition declared (ch : channel) (X : Type) (e : amqpE X) : X -> list (declaration * bool) :=
  match e with
  | ChExchangeDeclare ch' name kind durable _ _ _ _ => fun err =>
      on ch ch' [(DExchange name kind durable, succeeded err)]
  | ChQueueDeclare ch' name durable _ _ _ args => fun err =>
      on ch ch' [(DQueue name durable args, succeeded err)]
  | ChQueueBind ch' name key exchange _ _ => fun err =>
      on ch ch' [(DBind name key exchange, succeeded err)]
  | _ => fun _ => []
  end.

(** [attempted ds log ok]: the steps of [ds] were tried in order, up to the first one that the
    broker refused; [ok] when none was. *)
Inductive attempted {D : Type} : list D -> list (D * bool) -> bool -> Prop :=
| attempted_all : attempted [] [] true
| attempted_refused d ds : attempted (d :: ds) [(d, false)] false
| attempted_accepted d ds log ok : attempted ds log ok -> attempted (d :: ds) ((d, true) :: log) ok.

Section topology_proofs.
Context {E : Type -> Type} {S : amqpE -< E} (env : environment E).

(** An event that declares something. *)
Definition declares (ch : channel) (ev : event E) : Prop := shown (declared ch) ev <> [].

Lemma declareQueueTopology_wp ch cfg queueName routingKey t :
  wp (traced env) (declareQueueTopology ch cfg queueName routingKey) t (fun err t' =>
    since t t' (fun l => Forall (declares ch) l /\
      attempted (topology cfg queueName routingKey) (observed (declared ch) l) (succeeded err))).
Proof.
  unfold declareQueueTopology, declareQueue, topology, declares.
  destruct (Config.DisableDeadLetter cfg); simpl;
    repeat (intros [?|] ? [_ ->]; simpl); since_events;
    simpl; rewrite !shown_trigger; simpl; rewrite !on_same; simpl;
    (split; [repeat (apply Forall_cons_2; [rewrite shown_trigger; simpl; by rewrite on_same|]); apply Forall_nil_2
            |repeat constructor]).
Qed.

Lemma declareQueueTopology_attempted ch cfg queueName routingKey err t :
  runs (traced env) (declareQueueTopology ch cfg queueName routingKey) [] err t ->
  attempted (topology cfg queueName routingKey) (observed (declared ch) t) (succeeded err).
Proof.
  intros Hrun. pose proof (wp_sound _ _ _ _ _ _ Hrun
    (declareQueueTopology_wp ch cfg queueName routingKey [])) as (l & -> & _ & Hl).
  by rewrite app_nil_r.
Qed.

(** The consumers that were started: channel, queue and delivery stream. *)
Definition consumed {X} (e : amqpE X) : X -> list (channel * string * option nat) :=
  match e with
  | ChConsume ch queue _ _ _ _ _ _ => fun res =>
      [(ch, queue, match res with Ok msgs => Some msgs | Err _ => None end)]
  | _ => fun _ => []
  end.

Lemma declares_consumes_nothing ch l : Forall (declares ch) l -> observed (@consumed) l = [].
Proof.
  intros Hl. apply observed_nothing. eapply Forall_impl; [exact Hl|].
  intros [X e x]. unfold declares, shown. simpl. generalize (project e). clear e.
  intros [e|]; [|done]. revert x. by destruct e.
Qed.

(** C25: The topology is declared in order, stopping at the first refusal: the dead-letter
    exchange, the dead-letter queue and its binding (unless dead-lettering is off), then the
    queue with its dead-letter arguments and its binding.  Consuming starts only when the
    broker accepted all of it, and every refusal is reported. *)
Theorem declareConsumerTopology_order cfg ch queueName routingKey res t :
  runs (traced env) (declareConsumerTopology cfg ch queueName routingKey) [] res t ->
  exists ok, attempted (topology cfg queueName routingKey) (observed (declared ch) t) ok /\
    observed (@consumed) t =
      (if ok then [(ch, queueName, match res with Ok (msgs, _) => Some msgs | Err _ => None end)]
       else []) /\
    (ok = false -> exists e, res = Err e).
Proof.
  intros Hrun. refine (wp_sound _ _ _ _ _ (fun res t => exists ok, attempted _ (observed _ t) ok /\
    observed _ t = (if ok then [(ch, queueName, match res with Ok (msgs, _) => Some msgs | Err _ => None end)]
       else []) /\ (ok = false -> exists e, res = Err e)) Hrun _).
  unfold declareConsumerTopology. eapply wp_seq; [apply declareQueueTopology_wp|].
  intros [e|] t1 (l & -> & Hl & Ha); rewrite app_nil_r; pose proof (declares_consumes_nothing ch l Hl) as Hn.
  - apply wp_ret. exists false. rewrite Hn. eauto.
  - wp_step. destruct x as [msgs|e]; wp_all; exists true; simpl; rewrite !shown_trigger; simpl;
      rewrite !app_nil_r, Hn; simpl; done.
Qed.
End topology_proofs.

(** ** Routing *)

(** The declarations that the broker accepted. *)
Definition accepted (log : list (declaration * bool)) : list declaration :=
  omap (fun d => if (d.2 : bool) then Some d.1 else None) log.

(** What the code relies on of the broker.  [ds] is what was declared on it; [routes ds x k] are
    the queues that a message published to the exchange [x] with the key [k] goes to, and
    [dead_letters ds q] those that a message rejected from the queue [q] without requeueing
    goes to. *)
Record broker : Type := mkBroker {
  routes : list declaration -> string -> string -> list string;
  dead_letters : list declaration -> string -> list string
}.

(** The broker refuses to declare an exchange or a queue again with other parameters
    (PRECONDITION_FAILED), so what it accepted is consistent. *)
Record consistent (ds : list declaration) : Prop := {
  one_exchange : forall x kind kind' durable durable',
    In (DExchange x kind durable) ds -> In (DExchange x kind' durable') ds -> kind = kind' /\ durable = durable';
  one_queue : forall q args args' durable durable',
    In (DQueue q durable args) ds -> In (DQueue q durable' args') ds -> durable = durable' /\ args = args'
}.

(** The documented behaviour of RabbitMQ: a direct exchange routes by equality of keys; a queue
    with a dead-letter exchange and a dead-letter routing key has its rejected messages
    published to that exchange with that key; a queue without one drops them. *)
Record documented (b : broker) : Prop := {
  direct_routing : forall ds x durable k q, consistent ds -> In (DExchange x "direct" durable) ds ->
    (In q (routes b ds x k) <-> In (DBind q k x) ds);
  dead_lettering : forall ds q durable args x k, consistent ds -> In (DQueue q durable args) ds ->
    tbl args !! "x-dead-letter-exchange" = Some (VString x) ->
    tbl args !! "x-dead-letter-routing-key" = Some (VString k) ->
    forall q', In q' (dead_letters b ds q) <-> In q' (routes b ds x k);
  no_dead_lettering : forall ds q durable args, consistent ds -> In (DQueue q durable args) ds ->
    tbl args !! "x-dead-letter-exchange" = None -> dead_letters b ds q = []
}.

Lemma attempted_accepted_all ds log : attempted ds log true -> accepted log = ds.
Proof.
  remember true as ok eqn:Hok. intros H. induction H; simpl; [done|done|by rewrite IHattempted].
Qed.

(** The queue's arguments when dead-lettering is on. *)
Definition dead_letter_args (cfg : Config.t) (key : string) : Table :=
  Some (<["x-dead-letter-exchange" := VString (Config.Exchange cfg ++ Config.DeadLetterExchangeSuffix cfg)]>
         {["x-dead-letter-routing-key" := VString key]}).

Section routing.
Context {E : Type -> Type} {S : amqpE -< E} (env : environment E) (b : broker).
Context (rabbitmq : documented b).

(** What a successful declaration leaves on the broker. *)
Lemma declared_all ch cfg q key t ds :
  runs (traced env) (declareQueueTopology ch cfg q key) [] None t ->
  incl (accepted (observed (declared ch) t)) ds -> incl (topology cfg q key) ds.
Proof. intros Hrun. by rewrite (attempted_accepted_all _ _ (declareQueueTopology_attempted _ _ _ _ _ _ _ Hrun)). Qed.

Lemma topology_dead_letters cfg q key ds :
  Config.DisableDeadLetter cfg = false -> incl (topology cfg q key) ds -> consistent ds ->
  forall q', In q' (dead_letters b ds q) <->
    In (DBind q' key (Config.Exchange cfg ++ Config.DeadLetterExchangeSuffix cfg)) ds.
Proof.
  intros Hd Hin Hc q'. unfold topology in Hin. rewrite Hd in Hin.
  rewrite (dead_lettering _ rabbitmq ds q true (dead_letter_args cfg key)
    (Config.Exchange cfg ++ Config.DeadLetterExchangeSuffix cfg) key Hc).
  - apply (direct_routing _ rabbitmq ds _ true key q' Hc). apply Hin. simpl. tauto.
  - apply Hin. simpl. tauto.
  - simpl. by rewrite lookup_insert_eq.
  - simpl. by rewrite lookup_insert_ne, lookup_singleton_eq.
Qed.

(** C26: Dead letters arrive.  When [declareQueueTopology] has succeeded for a queue, then on a broker
    with these and any other consistent declarations, a message that is rejected from the queue
    arrives in the queue's dead-letter queue, and apart from it only in queues that somebody
    else bound to the dead-letter exchange with the same key; it is dropped when dead-lettering
    is off.  If the exchange is a direct one, a message published to it with the key arrives in
    the queue. *)
Theorem dead_letter_route cfg ch q key t ds :
  runs (traced env) (declareQueueTopology ch cfg q key) [] None t ->
  incl (accepted (observed (declared ch) t)) ds -> consistent ds ->
  (if Config.DisableDeadLetter cfg then dead_letters b ds q = []
   else In (q ++ Config.DeadLetterQueueSuffix cfg) (dead_letters b ds q) /\
     forall q', In q' (dead_letters b ds q) ->
       In (DBind q' key (Config.Exchange cfg ++ Config.DeadLetterExchangeSuffix cfg)) ds) /\
  (forall durable, In (DExchange (Config.Exchange cfg) "direct" durable) ds ->
     In q (routes b ds (Config.Exchange cfg) key)).
Proof.
  intros Hrun Hacc Hc. pose proof (declared_all _ _ _ _ _ _ Hrun Hacc) as Hin. split.
  - destruct (Config.DisableDeadLetter cfg) eqn:Hd.
    + unfold topology in Hin. rewrite Hd in Hin.
      apply (no_dead_lettering _ rabbitmq ds q true None Hc); [|done]. apply Hin. simpl. tauto.
    + pose proof (topology_dead_letters _ _ _ _ Hd Hin Hc) as Hq. split; [|intros q'; apply Hq].
      apply Hq, Hin. unfold topology. rewrite Hd. simpl. tauto.
  - intros durable Hx. apply (direct_routing _ rabbitmq ds _ durable key q Hc Hx). apply Hin.
    unfold topology. destruct (Config.DisableDeadLetter cfg); simpl; tauto.
Qed.

(** C27: Dead-letter queues are shared by the queues that are bound with the same key.  When
    [declareQueueTopology] has succeeded for two queues with one routing key, a message that is
    rejected from either queue arrives in the dead-letter queue of the other one too, although
    the other one's consumers never saw it fail. *)
Theorem dead_letter_queues_mix cfg ch1 ch2 q1 q2 key t1 t2 ds :
  Config.DisableDeadLetter cfg = false ->
  runs (traced env) (declareQueueTopology ch1 cfg q1 key) [] None t1 ->
  runs (traced env) (declareQueueTopology ch2 cfg q2 key) [] None t2 ->
  incl (accepted (observed (declared ch1) t1)) ds -> incl (accepted (observed (declared ch2) t2)) ds ->
  consistent ds ->
  In (q2 ++ Config.DeadLetterQueueSuffix cfg) (dead_letters b ds q1) /\
  In (q1 ++ Config.DeadLetterQueueSuffix cfg) (dead_letters b ds q2).
Proof.
  intros Hd Hrun1 Hrun2 Ha1 Ha2 Hc.
  pose proof (declared_all _ _ _ _ _ _ Hrun1 Ha1) as Hin1. pose proof (declared_all _ _ _ _ _ _ Hrun2 Ha2) as Hin2.
  split; [apply (topology_dead_letters _ _ _ _ Hd Hin1 Hc), Hin2|apply (topology_dead_letters _ _ _ _ Hd Hin2 Hc), Hin1];
    unfold topology; rewrite Hd; simpl; tauto.
Qed.
End routing.

(** The hint about existing queues is given exactly when the broker's error, or one that it
    wraps, is PRECONDITION_FAILED; and the wrapped error keeps everything that callers test:
    its AMQP code, its context errors and its non-retryable mark. *)
Theorem wrapQueueDeclareErr_spec queueName err :
  (exists format args, wrapQueueDeclareErr queueName err = EErrorf format args [err] /\
     (args = [AStr queueName; AStr queueName] <->
      exists reason, as_amqp err = Some (PreconditionFailed, reason)) /\
     (args = [] \/ args = [AStr queueName; AStr queueName])) /\
  as_amqp (wrapQueueDeclareErr queueName err) = as_amqp err /\
  (forall c, errors_Is (wrapQueueDeclareErr queueName err) c = errors_Is err c) /\
  IsNonRetryable (Some (wrapQueueDeclareErr queueName err)) = IsNonRetryable (Some err).
Proof.
  unfold wrapQueueDeclareErr.
  destruct (as_amqp err) as [[code reason]|] eqn:Ha;
    [destruct (decide (code = PreconditionFailed)) as [->|Hne];
     [rewrite bool_decide_true by done|rewrite bool_decide_false by done]|];
    (split; [eexists _, _; split; [done|]; naive_solver|]);
    simpl; rewrite Ha; split_and!; intros; rewrite ?orb_false_r; done.
Qed.

(** ** A concrete broker *)

(** The operations of [p] against a broker that accepts everything. *)
Definition accepted_run {A} (p : prog amqpE A) : trace amqpE :=
  match interp (scripted (fun X e _ => good_amqp e)) 0 p [] with
  | Some (_, t) => t
  | None => []
  end.

Lemma declareConsumerTopology_order_witness :
  exists ok, attempted (topology example_config "users" "user.*")
      (observed (declared 1)
         (accepted_run (declareConsumerTopology example_config 1 "users" "user.*"))) ok /\
    observed (@consumed) (accepted_run (declareConsumerTopology example_config 1 "users" "user.*"))
      = (if ok then [(1%nat, "users", Some 3%nat)] else []) /\
    (ok = false -> exists e, Ok (3%nat, 4%nat) = Err e).
Proof.
  apply (declareConsumerTopology_order anything example_config 1 "users" "user.*" (Ok (3%nat, 4%nat))).
  apply (scripted_runs (fun X e _ => good_amqp e) 0). reflexivity.
Defined.

(** A broker with direct exchanges only, for the concrete cases. *)
Definition example_routes (ds : list declaration) (x k : string) : list string :=
  if existsb (fun d => match d with DExchange x' kind _ => String.eqb x' x && String.eqb kind "direct" | _ => false end) ds
  then omap (fun d => match d with
                      | DBind q k' x' => if String.eqb k' k && String.eqb x' x then Some q else None
                      | _ => None
                      end) ds
  else [].

Definition example_dead_letters (ds : list declaration) (args : Table) : list string :=
  match tbl args !! "x-dead-letter-exchange", tbl args !! "x-dead-letter-routing-key" with
  | Some (VString x), Some (VString k) => example_routes ds x k
  | _, _ => []
  end.

Definition example_broker : broker := {|
  routes := example_routes;
  dead_letters := fun ds q =>
    flat_map (fun d => match d with
                       | DQueue q' _ args => if String.eqb q' q then example_dead_letters ds args else []
                       | _ => []
                       end) ds
|}.

Lemma example_broker_dead_letters ds q durable args : consistent ds -> In (DQueue q durable args) ds ->
  forall q', In q' (dead_letters example_broker ds q) <-> In q' (example_dead_letters ds args).
Proof.
  intros Hc Hq q'. simpl. rewrite in_flat_map. split.
  - intros (d & Hd & Hin). destruct d as [|q0 durable0 args0|]; [done| |done].
    destruct (String.eqb_spec q0 q) as [->|]; [|done].
    by destruct (one_queue _ Hc _ _ _ _ _ Hq Hd) as [_ ->].
  - intros Hin. exists (DQueue q durable args). split; [done|]. by rewrite String.eqb_refl.
Qed.

Lemma example_broker_documented : documented example_broker.
Proof.
  split.
  - intros ds x durable k q Hc Hx. simpl. unfold example_routes. rewrite (proj2 (existsb_exists _ _)).
    + rewrite <- !list_elem_of_In, list_elem_of_omap. split.
      * intros (d & Hd & Heq). destruct d as [| |q0 k0 x0]; try done.
        destruct (String.eqb_spec k0 k) as [->|], (String.eqb_spec x0 x) as [->|]; by simplify_eq/=.
      * intros Hd. exists (DBind q k x). split; [done|]. simpl. by rewrite !String.eqb_refl.
    + eexists. split; [exact Hx|]. simpl. by rewrite !String.eqb_refl.
  - intros ds q durable args x k Hc Hq Hx Hk q'. rewrite (example_broker_dead_letters _ _ _ _ Hc Hq).
    unfold example_dead_letters. by rewrite Hx, Hk.
  - intros ds q durable args Hc Hq Hx. destruct (dead_letters example_broker ds q) as [|q' l] eqn:Hl; [done|].
    assert (Hin : In q' (dead_letters example_broker ds q)) by (rewrite Hl; by left).
    apply (example_broker_dead_letters _ _ _ _ Hc Hq) in Hin. unfold example_dead_letters in Hin. by rewrite Hx in Hin.
Qed.

(** Two declarations that the broker accepts next to each other. *)
Definition agrees (d d' : declaration) : Prop :=
  match d, d' with
  | DExchange x kind durable, DExchange x' kind' durable' => x = x' -> kind = kind' /\ durable = durable'
  | DQueue q durable args, DQueue q' durable' args' => q = q' -> durable = durable' /\ args = args'
  | _, _ => True
  end.

Lemma agreeing ds : Forall (fun d => Forall (agrees d) ds) ds -> consistent ds.
Proof.
  intros Hds. rewrite List.Forall_forall in Hds.
  assert (H : forall d d', In d ds -> In d' ds -> agrees d d').
  { intros d d' Hd. specialize (Hds d Hd). rewrite List.Forall_forall in Hds. apply Hds. }
  split; intros n k k' u u' H1 H2; by apply (H _ _ H1 H2).
Qed.

Ltac agree :=
  apply agreeing; repeat first [apply List.Forall_nil | apply List.Forall_cons];
  first [exact I | by split | intros H; exfalso; revert H; vm_compute; discriminate].

Definition declared_run (cfg : Config.t) (queue key : string) : trace amqpE :=
  accepted_run (declareQueueTopology 1 cfg queue key).

Lemma declared_runs cfg queue key : Config.DisableDeadLetter cfg = false ->
  runs (traced anything) (declareQueueTopology 1 cfg queue key) [] None (declared_run cfg queue key).
Proof.
  intros Hd. apply (scripted_runs (fun X e _ => good_amqp e) 0). unfold declared_run, accepted_run, declareQueueTopology.
  by rewrite Hd.
Qed.

Lemma declared_run_accepted cfg queue key : Config.DisableDeadLetter cfg = false ->
  accepted (observed (declared 1) (declared_run cfg queue key)) = topology cfg queue key.
Proof.
  intros Hd. by apply attempted_accepted_all, (declareQueueTopology_attempted anything _ _ _ _ None), declared_runs.
Qed.

Lemma dead_letter_route_witness :
  let ds := accepted (observed (declared 1) (declared_run (normalize example_config) "users" "user.*")) in
  dead_letters example_broker ds "users" = ["users.dlq"] /\
  In "users.dlq" (dead_letters example_broker ds "users") /\
  forall q', In q' (dead_letters example_broker ds "users") -> In (DBind q' "user.*" "events.dlx") ds.
Proof.
  split; [vm_compute; reflexivity|].
  apply (dead_letter_route anything example_broker example_broker_documented (normalize example_config) 1
    "users" "user.*" (declared_run (normalize example_config) "users" "user.*")).
  - by apply declared_runs.
  - by intros d.
  - rewrite declared_run_accepted by done. agree.
Defined.

(** Two queues that are bound with one key. *)
Definition two_queues : list declaration :=
  (accepted (observed (declared 1) (declared_run (normalize example_config) "mail" "user.created")) ++
   accepted (observed (declared 1) (declared_run (normalize example_config) "audit" "user.created")))%list.

Lemma dead_letter_queues_mix_witness :
  dead_letters example_broker two_queues "mail" = ["mail.dlq"; "audit.dlq"] /\
  In "audit.dlq" (dead_letters example_broker two_queues "mail") /\
  In "mail.dlq" (dead_letters example_broker two_queues "audit").
Proof.
  split; [vm_compute; reflexivity|].
  apply (dead_letter_queues_mix anything example_broker example_broker_documented (normalize example_config) 1 1
    "mail" "audit" "user.created" (declared_run (normalize example_config) "mail" "user.created")
    (declared_run (normalize example_config) "audit" "user.created")).
  - reflexivity.
  - by apply declared_runs.
  - by apply declared_runs.
  - apply incl_appl, incl_refl.
  - apply incl_appr, incl_refl.
  - unfold two_queues. rewrite !declared_run_accepted by done. agree.
Defined.
