(* ===== verification/Instr.v ===== *)
(** * Instr: the Instrumentation interface (pkg/rabbitmq/instrumentation.go).

    A header table handed to an Instrumentation is shared with the message: the answer of
    [StartPublish] and [StartConsume] carries what the call left in the table. *)
From S2P Require Import Prelude AmqpData Errors Prog Config Amqp.

Module PublishContext.
Record t := mk {
  Exchange : string;
  RoutingKey : string;
  BodySize : Z;
  Headers : Table
}.
End PublishContext.

Module DeliveryContext.
Record t := mk {
  Queue : string;
  RoutingKey : string;
  BodySize : Z;
  RetryCount : Z;
  Headers : Table
}.
End DeliveryContext.

Module ConsumeResult.
Record t := mk {
  Err_ : option error;
  DeadLettered : bool;
  NonRetryable : bool;
  Acked : bool;
  Nacked : bool;
  Requeued : bool;
  Retried : bool
}.
Definition zero : t := mk None false false false false false false.
End ConsumeResult.

(** A Go func value: its code and the values of the variables it captures. *)
Inductive capture : Type :=
| CapInt (z : Z)
| CapString (s : string)
| CapContext (ctx : context).

Record callback : Type := mkCallback { cb_code : nat; cb_captured : list capture }.

(** What a start call returns: the context, the completion callback, and the header table as
    the call left it. *)
Record started : Type := mkStarted {
  started_ctx : context;
  started_end : callback;
  started_headers : Table
}.

Inductive instrE : Type -> Type :=
| StartPublish (instr : Instrumentation) (ctx : context) (p : PublishContext.t) : instrE started
| EndPublish (cb : callback) (err : option error) : instrE unit
| StartConsume (instr : Instrumentation) (ctx : context) (d : DeliveryContext.t) : instrE started
| EndConsume (cb : callback) (result : ConsumeResult.t) : instrE unit.

(** [NopInstrumentation.StartPublish] and [StartConsume]: the context is returned unchanged,
    the headers are not touched, and the callback does nothing. *)
Definition NopStartPublish {E} (ctx : context) (p : PublishContext.t)
  : prog E (context * (option error -> prog E unit)) :=
  Ret (ctx, fun _ => Ret tt).

Definition NopStartConsume {E} (ctx : context) (d : DeliveryContext.t)
  : prog E (context * (ConsumeResult.t -> prog E unit)) :=
  Ret (ctx, fun _ => Ret tt).
