(* ===== verification/Dial.v ===== *)
(** * Dial: opening connections (internal/amqpx/connection.go: Dial, DeclareExchange).

    [Dial] races the handshake, which runs in a goroutine of its own, against a timer.  The
    goroutine hands its result over through a channel of capacity one. *)
From S2P Require Import Prelude AmqpData Errors Prog Machine Amqp.
Local Open Scope string_scope.
Local Open Scope go_scope.

Module DialOptions.
Record t := mk {
  URL : string;
  TLSClientConfig : option nat;
  Heartbeat : Z;
  Locale : string;
  ClientProperties : option nat; (* a reference to the caller's table *)
  ConnectionName : string;
  SASL : list nat;
  DialTimeout : Z;
  ConnectionTimeout : Z
}.
End DialOptions.

(** amqp.Config as [Dial] fills it; its [Dial] function is determined by the timeout it
    captures. *)
Module AmqpConfig.
Record t := mk {
  TLSClientConfig : option nat;
  Heartbeat : Z;
  Locale : string;
  SASL : list nat;
  DialTimeout : Z;
  Properties : option nat (* a reference to a table *)
}.
End AmqpConfig.

Inductive dialE : Type -> Type :=
| TableMake : dialE nat                                     (* amqp.Table{} *)
| TableSet (table : nat) (key : string) (v : value) : dialE unit
| DialConfig (url : string) (cfg : AmqpConfig.t) : dialE (result conn)
| ResultMake : dialE nat                                    (* make(chan result, 1) *)
(* select { case resultChan <- res: true; default: false } *)
| ResultTrySend (resultChan : nat) (res : result conn) : dialE bool
(* select { case res := <-resultChan: Some res; case <-time.After(d): None } *)
| ResultOrTimeout (resultChan : nat) (d : Z) : dialE (option (result conn)).

Section dial.
Context {E : Type -> Type} `{dialE -< E} `{amqpE -< E}.

(** The goroutine of [Dial]. *)
Definition dialer (url : string) (amqpCfg : AmqpConfig.t) (resultChan : nat) : prog E unit :=
  let! res := trigger (DialConfig url amqpCfg) in
  let! sent := trigger (ResultTrySend resultChan res) in
  if (sent : bool) then Ret tt
  else
    match res with
    | Ok conn => trigger (ConnClose conn)
    | Err _ => Ret tt
    end.

(** The properties of the connection: the caller's table, with the connection name written
    into it. *)
Definition dialProperties (opts : DialOptions.t) : prog E (option nat) :=
  let properties := DialOptions.ClientProperties opts in
  if bool_decide (DialOptions.ConnectionName opts = "") then Ret properties
  else
    let! properties :=
      match properties with
      | Some t => Ret t
      | None => trigger TableMake
      end in
    trigger (TableSet properties "connection_name" (VString (DialOptions.ConnectionName opts))) ;;;
    Ret (Some properties).

Definition Dial (opts : DialOptions.t) : prog E (result conn) :=
  let! properties := dialProperties opts in
  let amqpCfg :=
    {| AmqpConfig.TLSClientConfig := DialOptions.TLSClientConfig opts;
       AmqpConfig.Heartbeat := DialOptions.Heartbeat opts;
       AmqpConfig.Locale := DialOptions.Locale opts;
       AmqpConfig.SASL := DialOptions.SASL opts;
       AmqpConfig.DialTimeout := DialOptions.DialTimeout opts;
       AmqpConfig.Properties := properties |} in
  let! resultChan := trigger ResultMake in
  go (dialer (DialOptions.URL opts) amqpCfg resultChan) ;;;
  let! res := trigger (ResultOrTimeout resultChan (DialOptions.ConnectionTimeout opts)) in
  match res with
  | Some res => Ret res
  | None =>
      Ret (Err (ENew "rabbitmq: connection timeout: broker may not be running or is unreachable"))
  end.

Definition DeclareExchange (conn : conn) (name kind : string) : prog E (option error) :=
  let! ch := trigger (ConnChannel conn) in
  match ch with
  | Err err => Ret (Some err)
  | Ok ch =>
      let! err := trigger (ChExchangeDeclare ch name kind true false false false None) in
      trigger (ChClose ch) ;;;
      Ret err
  end.
End dial.
