(* ===== verification/Consumer.v ===== *)
(** * Consumer: consuming, retrying and dead-lettering (pkg/rabbitmq/consumer.go). *)
From S2P Require Import Prelude AmqpData Errors Prog Machine MaskURL Retry Config Amqp Topology Instr Dial.
Local Open Scope string_scope.
Local Open Scope Z_scope.
Local Open Scope go_scope.

(** ** Data *)

(** The view of a delivery that handlers get. *)
Module Message.
Record t := mk {
  Body : bytes;
  Headers : Table;
  ContentType : string;
  ContentEncoding : string;
  DeliveryMode : Z;
  Priority : Z;
  CorrelationID : string;
  ReplyTo : string;
  Expiration : string;
  MessageID : string;
  Timestamp : Z;
  Type_ : string;
  UserID : string;
  AppID : string;
  RoutingKey : string;
  Exchange : string;
  Redelivered : bool;
  RetryCount : Z
}.
End Message.

(** How a handler ends. *)
Inductive outcome : Type :=
| Returned (err : option error)
| Panicked (recovered : string).

(** The header table and the body that a handler gets are those of the delivery: it may write
    to them, and [handled] carries what it leaves. *)
Record handled : Type := mkHandled {
  handled_outcome : outcome;
  handled_headers : Table;
  handled_body : bytes
}.

(** What the select of a consume loop receives; a closed Go channel delivers [None]. *)
Inductive session_event : Type :=
| SessionDone
| SessionClosed (closeErr : option error)
| SessionDelivery (msg : option Delivery.t).

Inductive watch_event : Type :=
| WatchDone
| WatchClosed (closeErr : option error).

Inductive acquire_event : Type :=
| Acquired
| AcquireDone
| AcquireClosed (closeErr : option error).

(** ** Operations on the shared fields of a Consumer and on its Go channels *)

Inductive consE : Type -> Type :=
(* connMu, connection *)
| ConnMuLock : consE unit
| ConnMuUnlock : consE unit
| ConnMuRLock : consE unit
| ConnMuRUnlock : consE unit
| LoadConnection : consE (option conn)
| StoreConnection (c : conn) : consE unit
(* reconnecting *)
| ReconnectingCompareAndSwap (old new : bool) : consE bool
| ReconnectingStore (b : bool) : consE unit
(* cancel, wg *)
| CancelCtx : consE unit
| WgAdd : consE unit
| WgDone : consE unit
| WgWait : consE unit
(* the selects of watchConnection, consumeOnce and consumeOnceConcurrent *)
| WatchSelect (ctx : context) (notifyClose : nat) : consE watch_event
| SessionSelect (ctx : context) (chanClose msgs : nat) : consE session_event
| SemSelect (sem : nat) (ctx : context) (chanClose : nat) : consE acquire_event
(* sem := make(chan struct{}, workers); <-sem; inflight *)
| SemMake (workers : Z) : consE nat
| SemRelease (sem : nat) : consE unit
| InflightMake : consE nat
| InflightAdd (wg : nat) : consE unit
| InflightDone (wg : nat) : consE unit
| InflightWait (wg : nat) : consE unit.

(** The user's handler, seen from the library. *)
Inductive userE : Type -> Type :=
| CallUser (ctx : context) (m : Message.t) : userE handled
| CallUserBody (ctx : context) (body : bytes) : userE (outcome * bytes).

Abbreviation consumerE := (consE +' amqpE +' sysE +' logE +' instrE +' dialE +' userE).

Definition Handler : Type := context -> Message.t -> prog consumerE handled.
Definition MessageHandler : Type := context -> bytes -> prog consumerE (outcome * bytes).

(** The fields of a Consumer that do not change after NewConsumer. *)
Module Consumer.
Record t := mk {
  cfg : Config.t;
  instr : Instrumentation;
  instrIsNop : bool;
  ctx : context;
  retryPublish : option (channel -> string -> Delivery.t -> Z -> prog consumerE (option error))
}.
End Consumer.
Import Consumer.

(** ** Handling one delivery *)

Definition sleepContext (ctx : context) (d : Z) : prog consumerE (option error) :=
  let! done_ := trigger (CtxOrTimer ctx d) in
  if (done_ : bool) then
    let! err := trigger (CtxErr ctx) in
    Ret (Some (ECtx err))
  else Ret None.

Definition messageFromDelivery (msg : Delivery.t) (retryCount : Z) : Message.t :=
  {| Message.Body := Delivery.Body msg;
     Message.Headers := Delivery.Headers msg;
     Message.ContentType := Delivery.ContentType msg;
     Message.ContentEncoding := Delivery.ContentEncoding msg;
     Message.DeliveryMode := Delivery.DeliveryMode msg;
     Message.Priority := Delivery.Priority msg;
     Message.CorrelationID := Delivery.CorrelationId msg;
     Message.ReplyTo := Delivery.ReplyTo msg;
     Message.Expiration := Delivery.Expiration msg;
     Message.MessageID := Delivery.MessageId msg;
     Message.Timestamp := Delivery.Timestamp msg;
     Message.Type_ := Delivery.Type_ msg;
     Message.UserID := Delivery.UserId msg;
     Message.AppID := Delivery.AppId msg;
     Message.RoutingKey := Delivery.RoutingKey msg;
     Message.Exchange := Delivery.Exchange msg;
     Message.Redelivered := Delivery.Redelivered msg;
     Message.RetryCount := retryCount |}.

(** The delivery after someone wrote to its header table and body. *)
Definition with_shared (msg : Delivery.t) (headers : Table) (body : bytes) : Delivery.t :=
  {| Delivery.Headers := headers;
     Delivery.ContentType := Delivery.ContentType msg;
     Delivery.ContentEncoding := Delivery.ContentEncoding msg;
     Delivery.DeliveryMode := Delivery.DeliveryMode msg;
     Delivery.Priority := Delivery.Priority msg;
     Delivery.CorrelationId := Delivery.CorrelationId msg;
     Delivery.ReplyTo := Delivery.ReplyTo msg;
     Delivery.Expiration := Delivery.Expiration msg;
     Delivery.MessageId := Delivery.MessageId msg;
     Delivery.Timestamp := Delivery.Timestamp msg;
     Delivery.Type_ := Delivery.Type_ msg;
     Delivery.UserId := Delivery.UserId msg;
     Delivery.AppId := Delivery.AppId msg;
     Delivery.DeliveryTag := Delivery.DeliveryTag msg;
     Delivery.Redelivered := Delivery.Redelivered msg;
     Delivery.Exchange := Delivery.Exchange msg;
     Delivery.RoutingKey := Delivery.RoutingKey msg;
     Delivery.Body := body |}.

(** callHandler: the handler's error, and the delivery as the handler left it.  A panic is
    recovered and becomes an error that wraps nothing (the format verb is %v). *)
Definition callHandler (ctx : context) (msg : Delivery.t) (retryCount : Z) (handler : Handler)
  : prog consumerE (option error * Delivery.t) :=
  let! h := handler ctx (messageFromDelivery msg retryCount) in
  let msg := with_shared msg (handled_headers h) (handled_body h) in
  match handled_outcome h with
  | Returned err => Ret (err, msg)
  | Panicked recovered =>
      log_error ctx "message handler panic recovered" [logAny "panic" recovered] ;;;
      Ret (Some (EErrorf "rabbitmq: message handler panic: %v" [AAny recovered] []), msg)
  end.

(** The retry copy of a delivery. *)
Definition retryPublishing (headers : Table) (original : Delivery.t) : Publishing.t :=
  {| Publishing.Headers := headers;
     Publishing.ContentType := Delivery.ContentType original;
     Publishing.ContentEncoding := Delivery.ContentEncoding original;
     Publishing.DeliveryMode :=
       if bool_decide (Delivery.DeliveryMode original = 0) then Persistent
       else Delivery.DeliveryMode original;
     Publishing.Priority := Delivery.Priority original;
     Publishing.CorrelationId := Delivery.CorrelationId original;
     Publishing.ReplyTo := Delivery.ReplyTo original;
     Publishing.Expiration := Delivery.Expiration original;
     Publishing.MessageId := Delivery.MessageId original;
     Publishing.Timestamp := Delivery.Timestamp original;
     Publishing.Type_ := Delivery.Type_ original;
     Publishing.UserId := Delivery.UserId original;
     Publishing.AppId := Delivery.AppId original;
     Publishing.Body := Delivery.Body original |}.

Definition republishWithRetry (c : Consumer.t) (ch : channel) (routingKey : string)
    (original : Delivery.t) (newRetryCount : Z) : prog consumerE (option error) :=
  match NextRetryHeaders (Delivery.Headers original) newRetryCount with
  | Err err => Ret (Some err)
  | Ok headers =>
      let pub := retryPublishing headers original in
      let! dc := trigger (ChPublishDeferred ch (ctx c) (Config.Exchange (cfg c)) routingKey
                            false false pub) in
      match dc with
      | Err err => Ret (Some err)
      | Ok None =>
          Ret (Some (ENew "rabbitmq: publisher confirms not enabled on retry channel"))
      | Ok (Some dc) =>
          let! acked := trigger (DcWaitContext dc
                          (WithTimeout (ctx c) (Config.PublishConfirmTimeout (cfg c)))) in
          match acked with
          | Err err => Ret (Some err)
          | Ok acked =>
              if (acked : bool) then Ret None
              else Ret (Some (ENew "rabbitmq: retry publish was not acknowledged by broker"))
          end
      end
  end.

Definition publishRetry (c : Consumer.t) (ch : channel) (routingKey : string)
    (original : Delivery.t) (newRetryCount : Z) : prog consumerE (option error) :=
  match retryPublish c with
  | Some f => f ch routingKey original newRetryCount
  | None => republishWithRetry c ch routingKey original newRetryCount
  end.

Definition handleHandlerError (c : Consumer.t) (ctx : context) (ch : channel)
    (queueName routingKey : string) (msg : Delivery.t) (retryCount : Z) (handlerErr : error)
  : prog consumerE ConsumeResult.t :=
  let nonRetryable := IsNonRetryable (Some handlerErr) in
  let retriesExhausted := bool_decide (retryCount >= Config.MaxRetries (cfg c)) in
  log_error ctx "message handler failed"
    [logErr (Some handlerErr); logString "queue" queueName; logInt "retry_count" retryCount;
     logInt "max_retries" (Config.MaxRetries (cfg c)); logBool "retryable" (negb nonRetryable)] ;;;
  if nonRetryable || retriesExhausted then
    (if retriesExhausted && negb nonRetryable then
       log_error ctx "max retries exceeded, dead-lettering message"
         [logString "queue" queueName; logInt "retry_count" retryCount]
     else Ret tt) ;;;
    trigger (DeliveryNack (Delivery.DeliveryTag msg) false false) ;;;
    Ret (ConsumeResult.mk (Some handlerErr) true nonRetryable false true false false)
  else
    let! pubErr := publishRetry c ch routingKey msg (wrap 64 (retryCount + 1)) in
    match pubErr with
    | Some pubErr =>
        log_error ctx "failed to republish message for retry"
          [logErr (Some pubErr); logString "queue" queueName; logInt "retry_count" retryCount] ;;;
        trigger (DeliveryNack (Delivery.DeliveryTag msg) false true) ;;;
        Ret (ConsumeResult.mk (Some handlerErr) false nonRetryable false true true false)
    | None =>
        trigger (DeliveryAck (Delivery.DeliveryTag msg) false) ;;;
        Ret (ConsumeResult.mk (Some handlerErr) false nonRetryable true false false true)
    end.

(** The routing key a delivery is retried with: its own, or that of the binding. *)
Definition deliveryRoutingKey (msg : Delivery.t) (routingKey : string) : string :=
  if bool_decide (Delivery.RoutingKey msg = "") then routingKey else Delivery.RoutingKey msg.

Definition handleDelivery (c : Consumer.t) (ch : channel) (queueName routingKey : string)
    (msg : Delivery.t) (handler : Handler) : prog consumerE unit :=
  let retryCount := ReadRetryCount (Delivery.Headers msg) in
  let deliveryRoutingKey := deliveryRoutingKey msg routingKey in
  let! '(hctx, end_, msg) :=
    if instrIsNop c then Ret (ctx c, None, msg)
    else
      let delivery :=
        {| DeliveryContext.Queue := queueName;
           DeliveryContext.RoutingKey := deliveryRoutingKey;
           DeliveryContext.BodySize := Z.of_nat (length (Delivery.Body msg));
           DeliveryContext.RetryCount := retryCount;
           DeliveryContext.Headers := Delivery.Headers msg |} in
      let! s := trigger (StartConsume (instr c) (ctx c) delivery) in
      Ret (started_ctx s, Some (started_end s),
           with_shared msg (started_headers s) (Delivery.Body msg)) in
  let! '(handlerErr, msg) := callHandler hctx msg retryCount handler in
  let! result :=
    match handlerErr with
    | Some handlerErr =>
        handleHandlerError c hctx ch queueName deliveryRoutingKey msg retryCount handlerErr
    | None =>
        trigger (DeliveryAck (Delivery.DeliveryTag msg) false) ;;;
        Ret (ConsumeResult.mk None false false true false false false)
    end in
  match end_ with
  | Some end_ => trigger (EndConsume end_ result)
  | None => Ret tt
  end.

(** ** Construction *)

(** The Consumer that NewConsumer builds from a normalized configuration, for the parent
    context [pctx]: no test hook, and the instrumentation resolved. *)
Definition consumerOf (cfg : Config.t) (pctx : context) : Consumer.t :=
  let instr := instrumentation cfg in
  {| cfg := cfg;
     instr := instr;
     instrIsNop := isNopInstrumentation instr;
     ctx := WithCancel pctx;
     retryPublish := None |}.
