(* ===== verification/Session.v ===== *)
(** * Session: connections and consume loops of a Consumer (pkg/rabbitmq/consumer.go). *)
From S2P Require Import Prelude AmqpData Errors Prog Machine MaskURL Retry Config Amqp Topology Instr Dial Consumer.
Import Consumer.Consumer.
Local Open Scope string_scope.
Local Open Scope Z_scope.
Local Open Scope go_scope.

(** ** Connecting *)

(** The options that connect passes to Dial. *)
Definition dialOptions (cfg : Config.t) : DialOptions.t :=
  {| DialOptions.URL := Config.URL cfg;
     DialOptions.TLSClientConfig := Config.TLSClientConfig cfg;
     DialOptions.Heartbeat := Config.Heartbeat cfg;
     DialOptions.Locale := Config.Locale cfg;
     DialOptions.ClientProperties := Config.ClientProperties cfg;
     DialOptions.ConnectionName := Config.ConnectionName cfg;
     DialOptions.SASL := Config.SASL cfg;
     DialOptions.DialTimeout := Config.DialTimeout cfg;
     DialOptions.ConnectionTimeout := Config.ConnectionTimeout cfg |}.

(** The body of connect, between locking and unlocking connMu. *)
Definition connectLocked (c : Consumer.t) : prog consumerE (option error) :=
  let masked := MaskURL (Config.URL (cfg c)) in
  let! res := Dial (dialOptions (cfg c)) in
  match res with
  | Err err =>
      log_error (ctx c) "failed to connect to RabbitMQ"
        [logErr (Some err); logString "url" masked] ;;;
      Ret (Some err)
  | Ok conn =>
      trigger (StoreConnection conn) ;;;
      let! err :=
        if Config.SkipExchangeDeclare (cfg c) then Ret None
        else DeclareExchange conn (Config.Exchange (cfg c)) (Config.ExchangeType (cfg c)) in
      match err with
      | Some err =>
          log_error (ctx c) "failed to declare exchange"
            [logErr (Some err); logString "exchange" (Config.Exchange (cfg c))] ;;;
          trigger (ConnClose conn) ;;;
          Ret (Some err)
      | None =>
          log_info (ctx c) "connected to RabbitMQ"
            [logString "exchange" (Config.Exchange (cfg c))] ;;;
          Ret None
      end
  end.

Definition connect (c : Consumer.t) : prog consumerE (option error) :=
  trigger ConnMuLock ;;;
  let! err := connectLocked c in
  trigger ConnMuUnlock ;;;
  Ret err.

(** [backoff *= 2], capped. *)
Definition next_backoff (max backoff : Z) : Z :=
  let backoff := wrap 64 (backoff * 2) in
  if bool_decide (backoff > max) then max else backoff.

(** One round of the loop of reconnect. *)
Definition reconnect_round (c : Consumer.t) (backoff : Z) : prog consumerE (Z + unit) :=
  let! stopped := trigger (CtxPoll (ctx c)) in
  if (stopped : bool) then Ret (inr tt)
  else
    log_info (ctx c) "attempting to reconnect to RabbitMQ" [logDuration "backoff" backoff] ;;;
    let! err := sleepContext (ctx c) backoff in
    match err with
    | Some _ => Ret (inr tt)
    | None =>
        let! err := connect c in
        match err with
        | None =>
            log_info (ctx c) "successfully reconnected to RabbitMQ" [] ;;;
            Ret (inr tt)
        | Some _ => Ret (inl (next_backoff (Config.ReconnectMaxBackoff (cfg c)) backoff))
        end
    end.

Definition reconnect (c : Consumer.t) : prog consumerE unit :=
  let! swapped := trigger (ReconnectingCompareAndSwap false true) in
  if negb swapped then Ret tt
  else
    loop (reconnect_round c) initialReconnectBackoff ;;;
    trigger (ReconnectingStore false).

(** The connection, read under the lock. *)
Definition currentConnection : prog consumerE (option conn) :=
  trigger ConnMuRLock ;;;
  let! conn := trigger LoadConnection in
  trigger ConnMuRUnlock ;;;
  Ret conn.

Definition watch_round (c : Consumer.t) (_ : unit) : prog consumerE (unit + unit) :=
  let! conn := currentConnection in
  match conn with
  | None =>
      let! stopped := trigger (CtxOrTimer (ctx c) reconnectIdleWait) in
      if (stopped : bool) then Ret (inr tt) else Ret (inl tt)
  | Some conn =>
      let! notifyClose := trigger (ConnNotifyClose conn) in
      let! ev := trigger (WatchSelect (ctx c) notifyClose) in
      match ev with
      | WatchDone => Ret (inr tt)
      | WatchClosed (Some closeErr) =>
          log_error (ctx c) "RabbitMQ connection closed unexpectedly" [logErr (Some closeErr)] ;;;
          reconnect c ;;;
          Ret (inl tt)
      | WatchClosed None =>
          log_info (ctx c) "RabbitMQ connection closed gracefully" [] ;;;
          Ret (inr tt)
      end
  end.

Definition watchConnection (c : Consumer.t) : prog consumerE unit := loop (watch_round c) tt.

Definition NewConsumer (pctx : option context) (config : Config.t) : prog consumerE (result Consumer.t) :=
  let pctx := default Background pctx in
  match validate config with
  | Some err => Ret (Err err)
  | None =>
      let c := consumerOf (normalize config) pctx in
      let! err := connect c in
      match err with
      | Some err =>
          trigger CancelCtx ;;;
          Ret (Err err)
      | None =>
          go (watchConnection c) ;;;
          Ret (Ok c)
      end
  end.

(** [c] is the receiver, which may be the nil pointer. *)
Definition Check_ (c : option Consumer.t) : prog consumerE (option error) :=
  match c with
  | None => Ret (Some (ENew "rabbitmq: consumer is nil"))
  | Some c =>
      trigger ConnMuRLock ;;;
      let! conn := trigger LoadConnection in
      let! err :=
        match conn with
        | None => Ret (Some (ENew "rabbitmq: connection is nil"))
        | Some conn =>
            let! closed := trigger (ConnIsClosed conn) in
            Ret (if (closed : bool) then Some (ENew "rabbitmq: connection is closed") else None)
        end in
      trigger ConnMuRUnlock ;;;
      Ret err
  end.

Definition Close (c : Consumer.t) : prog consumerE unit :=
  trigger CancelCtx ;;;
  trigger WgWait ;;;
  trigger ConnMuLock ;;;
  let! conn := trigger LoadConnection in
  match conn with
  | Some conn =>
      trigger (ConnClose conn) ;;;
      log_info (ctx c) "RabbitMQ consumer connection closed" []
  | None => Ret tt
  end ;;;
  trigger ConnMuUnlock.

(** ** Sessions *)

(** The connection when it is usable. *)
Definition usableConnection : prog consumerE (option conn) :=
  let! conn := currentConnection in
  match conn with
  | None => Ret None
  | Some conn =>
      let! closed := trigger (ConnIsClosed conn) in
      Ret (if (closed : bool) then None else Some conn)
  end.

(** What a closed channel ends the session with. *)
Definition closedError (closeErr : option error) : error :=
  match closeErr with
  | Some closeErr => closeErr
  | None => ENew "rabbitmq: channel closed"
  end.

(** Quality of service, confirms, topology and consumer of a session. *)
Definition setupSession (c : Consumer.t) (ch : channel) (prefetch : Z) (queueName routingKey : string)
  : prog consumerE (result (nat * nat)) :=
  let! err := trigger (ChQos ch prefetch 0 false) in
  match err with
  | Some err => Ret (Err err)
  | None =>
      let! err :=
        if bool_decide (Config.MaxRetries (cfg c) > 0) then
          let! err := trigger (ChConfirm ch false) in
          Ret (option_map (fun err => EErrorf "enable confirms for retry publisher: %w" [] [err]) err)
        else Ret None in
      match err with
      | Some err => Ret (Err err)
      | None => declareConsumerTopology (cfg c) ch queueName routingKey
      end
  end.

(** One round of the loop of consumeOnce. *)
Definition session_round (c : Consumer.t) (ch : channel) (queueName routingKey : string)
    (handler : Handler) (msgs chanClose : nat) (_ : unit) : prog consumerE (unit + error) :=
  let! ev := trigger (SessionSelect (ctx c) chanClose msgs) in
  match ev with
  | SessionDone => Ret (inr (ECtx Canceled))
  | SessionClosed closeErr => Ret (inr (closedError closeErr))
  | SessionDelivery None => Ret (inr (ENew "rabbitmq: message channel closed"))
  | SessionDelivery (Some msg) =>
      handleDelivery c ch queueName routingKey msg handler ;;;
      Ret (inl tt)
  end.

Definition consumeOnce (c : Consumer.t) (queueName routingKey : string) (handler : Handler)
  : prog consumerE (option error) :=
  let! conn := usableConnection in
  match conn with
  | None => Ret (Some (ENew "rabbitmq: connection not available"))
  | Some conn =>
      let! ch := trigger (ConnChannel conn) in
      match ch with
      | Err err => Ret (Some err)
      | Ok ch =>
          let! err :=
            let! setup := setupSession c ch (Config.PrefetchCount (cfg c)) queueName routingKey in
            match setup with
            | Err err => Ret err
            | Ok (msgs, chanClose) =>
                log_info (ctx c) "started consuming"
                  [logString "queue" queueName; logString "routingKey" routingKey] ;;;
                loop (session_round c ch queueName routingKey handler msgs chanClose) tt
            end in
          trigger (ChClose ch) ;;;
          Ret (Some err)
      end
  end.

(** The goroutine of one delivery: the deferred calls run last registered first. *)
Definition worker (c : Consumer.t) (ch : channel) (queueName routingKey : string)
    (handler : Handler) (sem inflight : nat) (delivery : Delivery.t) : prog consumerE unit :=
  handleDelivery c ch queueName routingKey delivery handler ;;;
  trigger (SemRelease sem) ;;;
  trigger (InflightDone inflight).

(** One round of the loop of consumeOnceConcurrent. *)
Definition dispatch_round (c : Consumer.t) (ch : channel) (queueName routingKey : string)
    (handler : Handler) (msgs chanClose sem inflight : nat) (_ : unit)
  : prog consumerE (unit + error) :=
  let! ev := trigger (SessionSelect (ctx c) chanClose msgs) in
  match ev with
  | SessionDone => Ret (inr (ECtx Canceled))
  | SessionClosed closeErr => Ret (inr (closedError closeErr))
  | SessionDelivery None => Ret (inr (ENew "rabbitmq: message channel closed"))
  | SessionDelivery (Some msg) =>
      let! acquired := trigger (SemSelect sem (ctx c) chanClose) in
      match acquired with
      | AcquireDone => Ret (inr (ECtx Canceled))
      | AcquireClosed closeErr => Ret (inr (closedError closeErr))
      | Acquired =>
          trigger (InflightAdd inflight) ;;;
          go (worker c ch queueName routingKey handler sem inflight msg) ;;;
          Ret (inl tt)
      end
  end.

Definition consumeOnceConcurrent (c : Consumer.t) (queueName routingKey : string) (workers : Z)
    (handler : Handler) : prog consumerE (option error) :=
  let! conn := usableConnection in
  match conn with
  | None => Ret (Some (ENew "rabbitmq: connection not available"))
  | Some conn =>
      let! ch := trigger (ConnChannel conn) in
      match ch with
      | Err err => Ret (Some err)
      | Ok ch =>
          let! err :=
            let prefetch := Z.max (Config.PrefetchCount (cfg c)) workers in
            let! setup := setupSession c ch prefetch queueName routingKey in
            match setup with
            | Err err => Ret err
            | Ok (msgs, chanClose) =>
                log_info (ctx c) "started consuming (concurrent)"
                  [logString "queue" queueName; logString "routingKey" routingKey;
                   logInt "workers" workers] ;;;
                let! sem := trigger (SemMake workers) in
                let! inflight := trigger InflightMake in
                let! err :=
                  loop (dispatch_round c ch queueName routingKey handler msgs chanClose sem inflight) tt in
                trigger (InflightWait inflight) ;;;
                Ret err
            end in
          trigger (ChClose ch) ;;;
          Ret (Some err)
      end
  end.

(** ** Consume loops *)

(** One round of the loops of Consume and ConsumeConcurrent, around a session. *)
Definition consume_round (c : Consumer.t) (queueName : string)
    (session : prog consumerE (option error)) (_ : unit) : prog consumerE (unit + option error) :=
  let! stopped := trigger (CtxPoll (ctx c)) in
  if (stopped : bool) then Ret (inr None)
  else
    let! err := session in
    match err with
    | None => Ret (inl tt)
    | Some err =>
        if errors_Is err Canceled then Ret (inr None)
        else
          log_error (ctx c) "consumer error, restarting"
            [logErr (Some err); logString "queue" queueName] ;;;
          let! err := sleepContext (ctx c) consumerRestartSleep in
          match err with
          | Some _ => Ret (inr None)
          | None => Ret (inl tt)
          end
    end.

(** Handlers may be nil. *)
Definition Consume (c : Consumer.t) (queueName routingKey : string) (handler : option Handler)
  : prog consumerE (option error) :=
  match handler with
  | None => Ret (Some (ENew "rabbitmq: nil message handler"))
  | Some handler =>
      trigger WgAdd ;;;
      let! err := loop (consume_round c queueName (consumeOnce c queueName routingKey handler)) tt in
      trigger WgDone ;;;
      Ret err
  end.

(** The handler that ConsumeBody builds. *)
Definition bodyHandler (handler : MessageHandler) : Handler := fun hctx msg =>
  let! '(o, body) := handler hctx (Message.Body msg) in
  Ret (mkHandled o (Message.Headers msg) body).

Definition ConsumeBody (c : Consumer.t) (queueName routingKey : string) (handler : option MessageHandler)
  : prog consumerE (option error) :=
  match handler with
  | None => Ret (Some (ENew "rabbitmq: nil message handler"))
  | Some handler => Consume c queueName routingKey (Some (bodyHandler handler))
  end.

Definition ConsumeConcurrent (c : Consumer.t) (queueName routingKey : string) (workers : Z)
    (handler : option Handler) : prog consumerE (option error) :=
  match handler with
  | None => Ret (Some (ENew "rabbitmq: nil message handler"))
  | Some handler =>
      if bool_decide (workers <= 1) then Consume c queueName routingKey (Some handler)
      else
        trigger WgAdd ;;;
        let! err :=
          loop (consume_round c queueName
                  (consumeOnceConcurrent c queueName routingKey workers handler)) tt in
        trigger WgDone ;;;
        Ret err
  end.

Definition ConsumeBodyConcurrent (c : Consumer.t) (queueName routingKey : string) (workers : Z)
    (handler : option MessageHandler) : prog consumerE (option error) :=
  match handler with
  | None => Ret (Some (ENew "rabbitmq: nil message handler"))
  | Some handler =>
      ConsumeConcurrent c queueName routingKey workers (Some (bodyHandler handler))
  end.
