(* ===== verification/Script.v ===== *)
(** * Script: scripted environments for the concrete runs of the other files. *)
From S2P Require Import Prelude AmqpData Errors Prog Config Amqp Instr Dial Consumer.
Local Open Scope string_scope.

(** A quiet system: contexts stay alive and timers fire. *)
Definition good_sys {X} (e : sysE X) : X :=
  match e with
  | TimeNow => 0%Z
  | CtxPoll _ => false
  | CtxOrTimer _ _ => false
  | CtxErr _ => Canceled
  end.

Definition good_log {X} (e : logE X) : X :=
  match e with
  | Log _ _ _ _ => tt
  end.

(** An instrumentation that leaves the headers alone. *)
Definition good_instr {X} (e : instrE X) : X :=
  match e with
  | StartPublish _ _ p => mkStarted (CtxValue 1) (mkCallback 1 []) (PublishContext.Headers p)
  | EndPublish _ _ => tt
  | StartConsume _ _ d => mkStarted (CtxValue 1) (mkCallback 1 []) (DeliveryContext.Headers d)
  | EndConsume _ _ => tt
  end.

Definition good_dial {X} (e : dialE X) : X :=
  match e with
  | TableMake => 1%nat
  | TableSet _ _ _ => tt
  | DialConfig _ _ => Ok 1%nat
  | ResultMake => 1%nat
  | ResultTrySend _ _ => true
  | ResultOrTimeout _ _ => Some (Ok 1%nat)
  end.

(** A Consumer whose connection is 1, and whose select finds its context cancelled. *)
Definition good_cons {X} (e : consE X) : X :=
  match e with
  | ConnMuLock => tt
  | ConnMuUnlock => tt
  | ConnMuRLock => tt
  | ConnMuRUnlock => tt
  | LoadConnection => Some 1%nat
  | StoreConnection _ => tt
  | ReconnectingCompareAndSwap _ _ => true
  | ReconnectingStore _ => tt
  | CancelCtx => tt
  | WgAdd => tt
  | WgDone => tt
  | WgWait => tt
  | WatchSelect _ _ => WatchDone
  | SessionSelect _ _ _ => SessionDone
  | SemSelect _ _ _ => Acquired
  | SemMake _ => 1%nat
  | SemRelease _ => tt
  | InflightMake => 1%nat
  | InflightAdd _ => tt
  | InflightDone _ => tt
  | InflightWait _ => tt
  end.

(** A user whose handler ends with [o]. *)
Definition good_user (o : outcome) {X} (e : userE X) : X :=
  match e with
  | CallUser _ m => mkHandled o (Message.Headers m) (Message.Body m)
  | CallUserBody _ body => (o, body)
  end.

(** The whole environment of a Consumer: [amqp] and [cons] answer in place of the good broker
    and Consumer where they answer at all. *)
Definition script (o : outcome) (amqp : forall X, amqpE X -> option X)
    (cons : forall X, consE X -> trace consumerE -> option X)
    X (e : consumerE X) (t : trace consumerE) : X :=
  match e with
  | inr1 u => good_user o u
  | inl1 (inr1 d) => good_dial d
  | inl1 (inl1 (inr1 i)) => good_instr i
  | inl1 (inl1 (inl1 (inr1 l))) => good_log l
  | inl1 (inl1 (inl1 (inl1 (inr1 s)))) => good_sys s
  | inl1 (inl1 (inl1 (inl1 (inl1 (inr1 a))))) => default (good_amqp a) (amqp _ a)
  | inl1 (inl1 (inl1 (inl1 (inl1 (inl1 c))))) => default (good_cons c) (cons _ c t)
  end.

Definition as_usual {E : Type -> Type} : forall X, E X -> option X := fun _ _ => None.
Definition as_before {E F : Type -> Type} : forall X, E X -> trace F -> option X :=
  fun _ _ _ => None.

(** The trace of a program run against a script; empty when it does not end. *)
Definition trace_of {A} (answer : strategy consumerE) (fuel : nat)
    (p : prog consumerE A) : trace consumerE :=
  match interp (scripted answer) fuel p [] with
  | Some (_, t) => t
  | None => []
  end.

(** A delivery that was retried [r] times, or never when [r] is [None]. *)
Definition example_delivery (r : option Z) : Delivery.t :=
  {| Delivery.Headers := match r with Some r => Some {["x-retry-count" := VInt32 r]} | None => None end;
     Delivery.ContentType := "application/json";
     Delivery.ContentEncoding := "";
     Delivery.DeliveryMode := 2;
     Delivery.Priority := 0;
     Delivery.CorrelationId := "corr";
     Delivery.ReplyTo := "";
     Delivery.Expiration := "";
     Delivery.MessageId := "msg-1";
     Delivery.Timestamp := 0;
     Delivery.Type_ := "event";
     Delivery.UserId := "";
     Delivery.AppId := "";
     Delivery.DeliveryTag := 42;
     Delivery.Redelivered := false;
     Delivery.Exchange := "events";
     Delivery.RoutingKey := "user.created";
     Delivery.Body := ["b"%char] |}.

Definition example_consumer : Consumer.t := consumerOf (normalize example_config) Background.
