(* ===== verification/Delivery.v ===== *)
(** * Delivery: what happens to one delivery, as an abstract specification that the handling
    code of [Consumer] refines. *)
From S2P Require Import Prelude AmqpData Errors Prog Retry Config Amqp Instr Consumer.
Import Consumer.Consumer.

(** ** Observations *)

(** What the outside sees of the handling of a delivery: every operation but logging and
    reading the clock. *)
Inductive act : Type :=
| AStart (pctx : context) (d : DeliveryContext.t) (s : started)
| AHandled (hctx : context) (m : Message.t) (h : handled)
| APublish (ch : channel) (pctx : context) (exchange key : string) (mandatory immediate : bool)
    (p : Publishing.t) (dc : result (option nat))
| AWait (dc : nat) (wctx : context) (acked : result bool)
| AAck (tag : delivery_tag) (multiple : bool)
| ANack (tag : delivery_tag) (multiple requeue : bool)
| AEnd (cb : callback) (r : ConsumeResult.t)
| AOther.

Definition amqp_act {X} (e : amqpE X) : X -> list act :=
  match e with
  | ChPublishDeferred ch pctx exchange key mandatory immediate p => fun dc =>
      [APublish ch pctx exchange key mandatory immediate p dc]
  | DcWaitContext dc wctx => fun acked => [AWait dc wctx acked]
  | DeliveryAck tag multiple => fun _ => [AAck tag multiple]
  | DeliveryNack tag multiple requeue => fun _ => [ANack tag multiple requeue]
  | _ => fun _ => [AOther]
  end.

Definition instr_act {X} (e : instrE X) : X -> list act :=
  match e with
  | StartConsume _ pctx d => fun s => [AStart pctx d s]
  | EndConsume cb r => fun _ => [AEnd cb r]
  | _ => fun _ => [AOther]
  end.

Definition user_act {X} (e : userE X) : X -> list act :=
  match e with
  | CallUser hctx m => fun h => [AHandled hctx m h]
  | _ => fun _ => [AOther]
  end.

Definition acts (X : Type) (e : consumerE X) : X -> list act :=
  match e with
  | inr1 u => user_act u
  | inl1 (inr1 _) => fun _ => [AOther]
  | inl1 (inl1 (inr1 i)) => instr_act i
  | inl1 (inl1 (inl1 (inr1 _))) => fun _ => []
  | inl1 (inl1 (inl1 (inl1 (inr1 s)))) =>
      match s with TimeNow => fun _ => [] | _ => fun _ => [AOther] end
  | inl1 (inl1 (inl1 (inl1 (inl1 (inr1 a))))) => amqp_act a
  | inl1 (inl1 (inl1 (inl1 (inl1 (inl1 _))))) => fun _ => [AOther]
  end.

(** ** Specification *)

(** The retry copy of [msg] that carries the count [n], if the count fits the header. *)
Definition retry_copy (msg : Delivery.t) (n : Z) : option Publishing.t :=
  if bool_decide (in_int32 n) then
    Some (retryPublishing
            (Some (<[RetryCountHeader := VInt32 n]> (tbl (Delivery.Headers msg)))) msg)
  else None.

(** Whether a publish call hands over a message that the broker may accept. *)
Section story.
Context (c : Consumer.t) (ch : channel) (key : string).

Let publish (p : Publishing.t) (dc : result (option nat)) : act :=
  APublish ch (ctx c) (Config.Exchange (cfg c)) key false false p dc.
Let wait (dc : nat) (acked : result bool) : act :=
  AWait dc (WithTimeout (ctx c) (Config.PublishConfirmTimeout (cfg c))) acked.

(** [retry_attempt msg n log ok]: publishing the retry copy of [msg] with count [n] is seen as
    [log]; [ok] when the broker confirmed it. *)
Inductive retry_attempt (msg : Delivery.t) (n : Z) : list act -> bool -> Prop :=
| retry_count_overflow : retry_copy msg n = None -> retry_attempt msg n [] false
| retry_not_sent p e :
    retry_copy msg n = Some p -> retry_attempt msg n [publish p (Err e)] false
| retry_no_confirms p :
    retry_copy msg n = Some p -> retry_attempt msg n [publish p (Ok None)] false
| retry_not_confirmed p dc e :
    retry_copy msg n = Some p ->
    retry_attempt msg n [publish p (Ok (Some dc)); wait dc (Err e)] false
| retry_refused p dc :
    retry_copy msg n = Some p ->
    retry_attempt msg n [publish p (Ok (Some dc)); wait dc (Ok false)] false
| retry_confirmed p dc :
    retry_copy msg n = Some p ->
    retry_attempt msg n [publish p (Ok (Some dc)); wait dc (Ok true)] true.

(** The failure [e] of a delivery that was retried [r] times is final. *)
Definition is_final (r : Z) (e : error) : bool :=
  IsNonRetryable (Some e) || bool_decide (r >= Config.MaxRetries (cfg c)).

(** [settled msg r err log res]: a delivery (as the handler left it) that was retried [r]
    times before, and whose handler returned [err], is settled by [log] with result [res]. *)
Inductive settled (msg : Delivery.t) (r : Z) : option error -> list act -> ConsumeResult.t -> Prop :=
| settled_ok :
    settled msg r None [AAck (Delivery.DeliveryTag msg) false]
      (ConsumeResult.mk None false false true false false false)
| settled_dead_letter e :
    is_final r e = true ->
    settled msg r (Some e) [ANack (Delivery.DeliveryTag msg) false false]
      (ConsumeResult.mk (Some e) true (IsNonRetryable (Some e)) false true false false)
| settled_retried e log :
    is_final r e = false -> retry_attempt msg (wrap 64 (r + 1)) log true ->
    settled msg r (Some e) (log ++ [AAck (Delivery.DeliveryTag msg) false])
      (ConsumeResult.mk (Some e) false false true false false true)
| settled_requeued e log :
    is_final r e = false -> retry_attempt msg (wrap 64 (r + 1)) log false ->
    settled msg r (Some e) (log ++ [ANack (Delivery.DeliveryTag msg) false true])
      (ConsumeResult.mk (Some e) false false false true true false).
End story.

(** The error a handler outcome amounts to. *)
Definition outcome_error (o : outcome) : option error :=
  match o with
  | Returned err => err
  | Panicked recovered => Some (EErrorf "rabbitmq: message handler panic: %v" [AAny recovered] [])
  end.

(** The user's handler as the library sees it: any answer is possible. *)
Definition userHandler : Handler := fun hctx m => trigger (CallUser hctx m).

(** [delivered c ch q key msg log]: the handling of [msg], taken from queue [q] whose binding
    key is [key], is seen as [log]: the instrumentation starts (unless it is the no-op one), the
    handler runs once, on the delivery's view, the delivery is settled, and the
    instrumentation's callback gets the result. *)
Inductive delivered (c : Consumer.t) (ch : channel) (q key : string) (msg : Delivery.t)
  : list act -> Prop :=
| delivered_plain h log res :
    instrIsNop c = true ->
    settled c ch (deliveryRoutingKey msg key) (with_shared msg (handled_headers h) (handled_body h))
      (ReadRetryCount (Delivery.Headers msg)) (outcome_error (handled_outcome h)) log res ->
    delivered c ch q key msg
      (AHandled (ctx c) (messageFromDelivery msg (ReadRetryCount (Delivery.Headers msg))) h :: log)
| delivered_instrumented s h log res :
    instrIsNop c = false ->
    settled c ch (deliveryRoutingKey msg key) (with_shared msg (handled_headers h) (handled_body h))
      (ReadRetryCount (Delivery.Headers msg)) (outcome_error (handled_outcome h)) log res ->
    delivered c ch q key msg
      (AStart (ctx c) {| DeliveryContext.Queue := q;
                 DeliveryContext.RoutingKey := deliveryRoutingKey msg key;
                 DeliveryContext.BodySize := Z.of_nat (length (Delivery.Body msg));
                 DeliveryContext.RetryCount := ReadRetryCount (Delivery.Headers msg);
                 DeliveryContext.Headers := Delivery.Headers msg |} s
       :: AHandled (started_ctx s)
            (messageFromDelivery (with_shared msg (started_headers s) (Delivery.Body msg))
               (ReadRetryCount (Delivery.Headers msg))) h
       :: log ++ [AEnd (started_end s) res]).

(** ** Refinement *)

Create HintDb delivery.
#[export] Hint Constructors retry_attempt settled delivered : delivery.

Section refinement.
Context (c : Consumer.t) (env : environment consumerE).
Hypothesis no_hook : retryPublish c = None.

Lemma republishWithRetry_wp ch key msg n t :
  wp (traced env) (republishWithRetry c ch key msg n) t (fun err t' =>
    since t t' (fun l => retry_attempt c ch key msg n (observed acts l)
                           (match err with None => true | Some _ => false end))).
Proof.
  unfold republishWithRetry. rewrite NextRetryHeaders_spec.
  destruct (bool_decide (in_int32 n)) eqn:Hn; [|by since_events; constructor; unfold retry_copy; rewrite Hn].
  assert (Hcopy : retry_copy msg n = Some (retryPublishing
    (Some (<[RetryCountHeader:=VInt32 n]> (tbl (Delivery.Headers msg)))) msg))
    by (unfold retry_copy; by rewrite Hn).
  wp_all; observe; by econstructor.
Qed.

(** The log lines around the retry decision show nothing. *)
Lemma handleHandlerError_wp hctx ch q key msg r e t :
  wp (traced env) (handleHandlerError c hctx ch q key msg r e) t (fun res t' =>
    since t t' (fun l => settled c ch key msg r (Some e) (observed acts l) res)).
Proof.
  unfold handleHandlerError. cbv zeta. wp_step.
  change (IsNonRetryable (Some e) || bool_decide (r >= Config.MaxRetries (cfg c)))
    with (is_final c r e).
  destruct (is_final c r e) eqn:Hfinal.
  - destruct (_ && _); wp_all; observe; by constructor.
  - assert (Hnon : IsNonRetryable (Some e) = false) by (by apply orb_false_iff in Hfinal as []).
    unfold publishRetry. rewrite no_hook, Hnon.
    eapply wp_seq; [apply republishWithRetry_wp|].
    intros [e'|] t2 (l & -> & Hl); wp_all; observe; rewrite <- ?app_assoc; by constructor.
Qed.

Lemma callHandler_wp hctx msg r t :
  wp (traced env) (callHandler hctx msg r userHandler) t (fun res t' =>
    exists h,
      res = (outcome_error (handled_outcome h),
             with_shared msg (handled_headers h) (handled_body h)) /\
      since t t' (fun l => observed acts l = [AHandled hctx (messageFromDelivery msg r) h])).
Proof.
  unfold callHandler, userHandler. wp_step. destruct x as [[err|recovered] hh hb];
    cbn [handled_outcome handled_headers handled_body].
  - exists (mkHandled (Returned err) hh hb). split; [done|]. by observe.
  - wp_all. exists (mkHandled (Panicked recovered) hh hb). split; [done|]. by observe.
Qed.

(** What follows the handler: the delivery is settled and the callback gets the result. *)
Lemma settle_wp hctx ch q key msg r err (k : ConsumeResult.t -> prog consumerE unit) t Q :
  (forall res t', since t t' (fun l => settled c ch key msg r err (observed acts l) res) ->
     wp (traced env) (k res) t' Q) ->
  wp (traced env)
    (bind (match err with
           | Some e => handleHandlerError c hctx ch q key msg r e
           | None =>
               bind (trigger (DeliveryAck (Delivery.DeliveryTag msg) false)) (fun _ =>
               Ret (ConsumeResult.mk None false false true false false false))
           end) k) t Q.
Proof.
  intros Hk. eapply wp_seq; [|exact Hk]. destruct err as [e|].
  - apply handleHandlerError_wp.
  - wp_all. observe. constructor.
Qed.

Lemma handleDelivery_wp ch q key msg t :
  wp (traced env) (handleDelivery c ch q key msg userHandler) t (fun _ t' =>
    since t t' (fun l => delivered c ch q key msg (observed acts l))).
Proof.
  unfold handleDelivery. cbv zeta. destruct (instrIsNop c) eqn:Hnop.
  - wp_step. eapply wp_seq; [apply callHandler_wp|]. cbv beta iota.
    intros _ t1 (h & -> & l1 & -> & Hl1). apply settle_wp.
    intros res t2 (l2 & -> & Hl2). wp_all. observe. rewrite Hl1. by eapply delivered_plain.
  - do 3 wp_step. eapply wp_seq; [apply callHandler_wp|]. cbv beta iota.
    intros _ t1 (h & -> & l1 & -> & Hl1). apply settle_wp.
    intros res t2 (l2 & -> & Hl2). wp_all. observe. rewrite Hl1. simpl.
    by eapply delivered_instrumented.
Qed.
End refinement.

(** ** Termination *)

Lemma handleDelivery_loopfree c ch q key msg :
  retryPublish c = None -> loopfree (handleDelivery c ch q key msg userHandler).
Proof.
  intros no_hook.
  unfold handleDelivery, callHandler, userHandler, handleHandlerError, publishRetry, republishWithRetry.
  rewrite no_hook.
  apply loopfree_bind; [by destruct (instrIsNop _)|]. intros [[hctx end_] msg1].
  apply loopfree_bind; [by intros [[err|r] hh hb]|].
  intros [[e|] msg2]; (apply loopfree_bind; [|by destruct end_]); [|done].
  apply loopfree_bind; [done|]. intros _.
  destruct (_ || _); [by destruct (_ && _)|].
  apply loopfree_bind; [|by intros [?|]].
  simpl. destruct (NextRetryHeaders _ _); [|done].
  by intros [[?|]|?]; [intros [[]|?]| |].
Qed.
