(* ===== verification/DeliveryProps.v ===== *)
(** * DeliveryProps: what the library promises about each delivery.

    Consequences of the refinement of [Delivery], stated of the runs of [handleDelivery]:
    settlement exactly once, no loss, the retry decision. *)
From S2P Require Import Prelude AmqpData Errors Prog Retry Config Amqp Instr Consumer Delivery Script.
Import Consumer.Consumer.
Local Open Scope Z_scope.

(** ** Views of a log *)

(** The acknowledgements of a log, with their tag. *)
Definition settlement (a : act) : option (delivery_tag * bool * option bool) :=
  match a with
  | AAck tag multiple => Some (tag, multiple, None)
  | ANack tag multiple requeue => Some (tag, multiple, Some requeue)
  | _ => None
  end.

Definition settlements (log : list act) : list (delivery_tag * bool * option bool) :=
  omap settlement log.

(** The messages that were published and then confirmed by the broker. *)
Fixpoint confirmed (log : list act) : list Publishing.t :=
  match log with
  | [] => []
  | APublish _ _ _ _ _ _ p (Ok (Some dc)) :: (AWait dc' _ (Ok true) :: _) as rest =>
      if bool_decide (dc = dc') then p :: confirmed rest else confirmed rest
  | _ :: rest => confirmed rest
  end.

(** The calls of the user's handler: the message it got and how it ended. *)
Definition handler_calls (log : list act) : list (Message.t * handled) :=
  omap (fun a => match a with AHandled _ m h => Some (m, h) | _ => None end) log.

(** The result the instrumentation is given agrees with itself. *)
Definition coherent (res : ConsumeResult.t) : Prop :=
  ConsumeResult.Nacked res = negb (ConsumeResult.Acked res) /\
  ConsumeResult.Requeued res = ConsumeResult.Nacked res && negb (ConsumeResult.DeadLettered res) /\
  (ConsumeResult.DeadLettered res = true -> ConsumeResult.Nacked res = true) /\
  (ConsumeResult.Retried res = true <-> ConsumeResult.Acked res = true /\ ConsumeResult.Err_ res <> None).

Section props.
Context (cfg : Config.t) (pctx : context) (env : environment consumerE).

Abbreviation c := (consumerOf cfg pctx).

(** [handling ch q key msg t]: a run of [handleDelivery] with the operations [t]. *)
Definition handling ch q key msg (t : trace consumerE) : Prop :=
  runs (traced env) (handleDelivery (consumerOf cfg pctx) ch q key msg userHandler) [] tt t.

Lemma handling_delivered ch q key msg t :
  handling ch q key msg t -> delivered c ch q key msg (observed acts t).
Proof.
  intros Hr. pose proof (wp_sound _ _ _ _ _ _ Hr
    (handleDelivery_wp c env eq_refl ch q key msg [])) as (l & -> & Hl).
  by rewrite app_nil_r.
Qed.

Lemma retry_attempt_settlements ch key msg n log ok :
  retry_attempt c ch key msg n log ok -> settlements log = [].
Proof. by destruct 1. Qed.

Lemma settlements_app l1 l2 : settlements (l1 ++ l2) = settlements l1 ++ settlements l2.
Proof. apply omap_app. Qed.

(** The settlement that goes with a result. *)
Definition expected (tag : delivery_tag) (res : ConsumeResult.t) : delivery_tag * bool * option bool :=
  (tag, false,
   if ConsumeResult.Acked res then None else Some (ConsumeResult.Requeued res)).

Lemma settled_settlements ch key msg r err log res :
  settled c ch key msg r err log res ->
  settlements log = [expected (Delivery.DeliveryTag msg) res].
Proof.
  destruct 1 as [| |e log _ Hl|e log _ Hl]; [done..| |];
    by rewrite settlements_app, (retry_attempt_settlements _ _ _ _ _ _ Hl).
Qed.

Lemma settled_coherent ch key msg r err log res :
  settled c ch key msg r err log res -> coherent res /\ ConsumeResult.Err_ res = err.
Proof. unfold coherent. destruct 1; simpl; naive_solver. Qed.

(** The three parts of a log: before the handler, the handler, and the settlement. *)
Lemma delivered_inv ch q key msg log :
  delivered c ch q key msg log ->
  exists pre hctx m h body res post,
    log = pre ++ AHandled hctx m h :: body ++ post /\
    settled c ch (deliveryRoutingKey msg key)
      (with_shared msg (handled_headers h) (handled_body h))
      (ReadRetryCount (Delivery.Headers msg)) (outcome_error (handled_outcome h)) body res /\
    (instrIsNop c = true /\ pre = [] /\ post = [] \/
     instrIsNop c = false /\ exists d s, pre = [AStart (ctx c) d s] /\ post = [AEnd (started_end s) res]).
Proof.
  destruct 1 as [h body res Hnop Hs|s h body res Hnop Hs].
  - exists [], (ctx c). do 5 eexists. rewrite app_nil_r. split; [done|]. split; [exact Hs|]. by left.
  - eexists [_], (started_ctx s). do 5 eexists. split; [done|]. eauto 10.
Qed.

Lemma settled_calls ch key msg r err log res :
  settled c ch key msg r err log res -> handler_calls log = [].
Proof. by destruct 1 as [| |? ? ? []|? ? ? []]. Qed.

(** There is one handler call in such a log. *)
Lemma handler_calls_once ch key msg r err body res pre post hctx m0 h0 m h :
  settled c ch key msg r err body res ->
  (instrIsNop c = true /\ pre = [] /\ post = [] \/
   instrIsNop c = false /\ exists d s, pre = [AStart (ctx c) d s] /\ post = [AEnd (started_end s) res]) ->
  In (m, h) (handler_calls (pre ++ AHandled hctx m0 h0 :: body ++ post)) -> h0 = h.
Proof.
  intros Hs Hpp Hin. pose proof (settled_calls _ _ _ _ _ _ _ Hs) as Hb. unfold handler_calls in *.
  rewrite omap_app in Hin. simpl in Hin. rewrite omap_app, Hb in Hin.
  destruct Hpp as [(_ & -> & ->)|(_ & d & s & -> & ->)]; simpl in Hin; naive_solver.
Qed.

(** C1: Every delivery is settled exactly once, with its own tag and never a multiple one,
    whatever the broker, the clock, the handler and the instrumentation do; and the result
    reported to the instrumentation, after the settlement and as the last thing, says what
    the settlement was. *)
Theorem settled_exactly_once ch q key msg t :
  handling ch q key msg t ->
  exists res, settlements (observed acts t) = [expected (Delivery.DeliveryTag msg) res] /\
    coherent res /\
    (instrIsNop c = false -> exists front cb, observed acts t = front ++ [AEnd cb res]).
Proof.
  intros (pre & hctx & m & h & body & res & post & -> & Hs & Hpp)%handling_delivered%delivered_inv.
  exists res. split_and!.
  - rewrite settlements_app. cbn [settlements omap list_omap settlement].
    fold (settlements (body ++ post)).
    rewrite settlements_app, (settled_settlements _ _ _ _ _ _ _ Hs).
    destruct Hpp as [(_ & -> & ->)|(_ & d & s & -> & ->)]; done.
  - by apply (settled_coherent _ _ _ _ _ _ _ Hs).
  - destruct Hpp as [(? & _)|(_ & d & s & -> & ->)]; [congruence|]. intros _.
    exists (AStart (ctx c) d s :: AHandled hctx m h :: body), (started_end s).
    by rewrite <- !app_comm_cons.
Qed.

(** C2: Nothing is lost.  When the original delivery is acknowledged although its handler
    failed, a retry copy of it was published to the configured exchange before, with the
    delivery's own routing key, and the broker had confirmed the copy by then. *)
Theorem ack_after_confirm ch q key msg t m h e :
  handling ch q key msg t ->
  In (m, h) (handler_calls (observed acts t)) ->
  outcome_error (handled_outcome h) = Some e ->
  In (AAck (Delivery.DeliveryTag msg) false) (observed acts t) ->
  exists front back p dc,
    retry_copy (with_shared msg (handled_headers h) (handled_body h))
      (wrap 64 (ReadRetryCount (Delivery.Headers msg) + 1)) = Some p /\
    observed acts t =
      front ++ APublish ch (ctx c) (Config.Exchange cfg) (deliveryRoutingKey msg key) false false p
                 (Ok (Some dc))
            :: AWait dc (WithTimeout (ctx c) (Config.PublishConfirmTimeout cfg)) (Ok true)
            :: AAck (Delivery.DeliveryTag msg) false :: back.
Proof.
  intros (pre & hctx & m' & h' & body & res & post & -> & Hs & Hpp)%handling_delivered%delivered_inv
    Hin He Hack.
  assert (h' = h) as -> by (eapply handler_calls_once; eassumption).
  rewrite He in Hs. clear Hin He.
  assert (Hnack : forall x, In (AAck (Delivery.DeliveryTag msg) false)
      (pre ++ AHandled hctx m' h :: (x : list act) ++ post) ->
      In (AAck (Delivery.DeliveryTag msg) false) x).
  { intros x Hx. rewrite !in_app_iff in Hx. simpl in Hx. rewrite in_app_iff in Hx.
    destruct Hpp as [(_ & -> & ->)|(_ & d & s & -> & ->)]; simpl in Hx; naive_solver. }
  apply Hnack in Hack.
  inversion Hs as [|? Hf|? log Hf Ha|? log Hf Ha]; subst; simpl in Hack.
  - naive_solver.
  - inversion Ha; subst. simpl.
    exists (pre ++ [AHandled hctx m' h]), post. do 2 eexists. split; [done|].
    by rewrite <- app_assoc.
  - inversion Ha; subst; simpl in Hack; naive_solver.
Qed.

(** The settlement and the confirmed copies, by how the handler ended. *)
Definition decided (r : Z) (tag : delivery_tag) (err : option error) (log : list act) : Prop :=
  match err with
  | None => settlements log = [(tag, false, None)]
  | Some e =>
      if IsNonRetryable (Some e) || bool_decide (r >= Config.MaxRetries cfg)
      then settlements log = [(tag, false, Some false)] /\ confirmed log = []
      else settlements log
             = [(tag, false, if bool_decide (confirmed log = []) then Some true else None)]
  end.

Lemma settled_decided ch key msg r err body res pre post :
  settled c ch key msg r err body res ->
  (pre = [] /\ post = [] \/ exists x d s n, pre = [AStart x d s] /\ post = [AEnd n res]) ->
  forall hctx m h, decided r (Delivery.DeliveryTag msg) err (pre ++ AHandled hctx m h :: body ++ post).
Proof.
  intros Hs Hpp hctx m h. unfold decided.
  destruct Hs as [|e Hf|e log Hf Ha|e log Hf Ha];
    try (change (IsNonRetryable (Some e) || bool_decide (r >= Config.MaxRetries cfg)) with
           (is_final c r e); rewrite Hf);
    try (inversion Ha; subst);
    destruct Hpp as [(-> & ->)|(x & d & s & n & -> & ->)]; simpl;
    simpl; repeat (case_bool_decide; simpl; try done); done.
Qed.

(** C3: The retry decision.  The handler runs exactly once per delivery, on the delivery's
    view.  The delivery is acknowledged when it returns nil; rejected without requeue, that
    is dead-lettered, exactly when it fails with an error that is marked non-retryable or
    after [MaxRetries] retries; and requeued only when the retry copy could not be published
    and confirmed. *)
Theorem retry_decision ch q key msg t :
  handling ch q key msg t ->
  exists hdrs h,
    handler_calls (observed acts t)
      = [(messageFromDelivery (with_shared msg hdrs (Delivery.Body msg))
            (ReadRetryCount (Delivery.Headers msg)), h)] /\
    (instrIsNop c = true -> hdrs = Delivery.Headers msg) /\
    decided (ReadRetryCount (Delivery.Headers msg)) (Delivery.DeliveryTag msg)
      (outcome_error (handled_outcome h)) (observed acts t).
Proof.
  intros Hrun%handling_delivered.
  destruct Hrun as [h body res Hnop Hs|s h body res Hnop Hs].
  - exists (Delivery.Headers msg), h. split_and!; [|done|].
    + simpl. pose proof (settled_calls _ _ _ _ _ _ _ Hs) as Hb. unfold handler_calls in *.
      simpl. by rewrite Hb; destruct msg.
    + pose proof (settled_decided _ _ _ _ _ _ _ [] [] Hs (or_introl (conj eq_refl eq_refl))) as Hd.
      specialize (Hd (ctx c) (messageFromDelivery msg (ReadRetryCount (Delivery.Headers msg))) h).
      by rewrite app_nil_r in Hd.
  - exists (started_headers s), h. split_and!.
    + pose proof (settled_calls _ _ _ _ _ _ _ Hs) as Hb. unfold handler_calls in *.
      simpl. by rewrite omap_app, Hb.
    + intros Hnop'. congruence.
    + eapply (settled_decided _ _ _ _ _ _ _ [_] [_] Hs). right. by do 4 eexists.
Qed.
End props.

(** ** A concrete delivery *)

(** The delivery [d] handled by the example consumer: the handler ends with [o], the broker
    answers with [amqp] where it answers at all, and as a good broker otherwise. *)
Definition example_run (o : outcome) (amqp : forall X, amqpE X -> option X) (d : Delivery.t)
  : trace consumerE :=
  trace_of (script o amqp as_before) 0
    (handleDelivery example_consumer 1 "users" "user.created" d userHandler).

Definition example_handling (o : outcome) (amqp : forall X, amqpE X -> option X) (d : Delivery.t)
  : Prop :=
  handling (normalize example_config) Background anything 1 "users" "user.created" d
    (example_run o amqp d).

Definition failing : outcome := Returned (Some (ENew "no")).

Lemma example_first_failure : example_handling failing as_usual (example_delivery None).
Proof. apply (scripted_runs (script failing as_usual as_before) 0). reflexivity. Qed.

(** The first failure of a message: it is retried, and the original acknowledged. *)
Lemma settled_exactly_once_witness :
  settlements (observed acts (example_run failing as_usual (example_delivery None)))
    = [(42%nat, false, None)] /\
  exists res, settlements (observed acts (example_run failing as_usual (example_delivery None)))
                = [expected 42 res] /\ coherent res.
Proof.
  split; [reflexivity|].
  destruct (settled_exactly_once _ _ _ _ _ _ _ _ example_first_failure) as (res & Hs & Hc & _).
  exact (ex_intro _ res (conj Hs Hc)).
Defined.

Lemma ack_after_confirm_witness :
  exists front back p dc,
    retry_copy (example_delivery None) 1 = Some p /\
    observed acts (example_run failing as_usual (example_delivery None)) =
      front ++ APublish 1 (ctx example_consumer) "events" "user.created" false false p (Ok (Some dc))
            :: AWait dc (WithTimeout (ctx example_consumer) (5 * Second)) (Ok true)
            :: AAck 42 false :: back.
Proof.
  apply (ack_after_confirm _ _ _ _ _ _ _ _
    (messageFromDelivery (example_delivery None) 0) (mkHandled failing None ["b"%char]) (ENew "no")
    example_first_failure); [vm_compute; tauto|done|vm_compute; tauto].
Defined.

(** The third retry fails too: the message is dead-lettered. *)
Lemma example_last_failure : example_handling failing as_usual (example_delivery (Some 3)).
Proof. apply (scripted_runs (script failing as_usual as_before) 0). reflexivity. Qed.

Lemma retry_decision_witness :
  exists hdrs h,
    handler_calls (observed acts (example_run failing as_usual (example_delivery (Some 3))))
      = [(messageFromDelivery (with_shared (example_delivery (Some 3)) hdrs ["b"%char]) 3, h)] /\
    (true = true -> hdrs = Delivery.Headers (example_delivery (Some 3))) /\
    decided (normalize example_config) 3 42 (outcome_error (handled_outcome h))
      (observed acts (example_run failing as_usual (example_delivery (Some 3)))).
Proof. exact (retry_decision _ _ _ _ _ _ _ _ example_last_failure). Defined.
