(* ===== verification/SessionProps.v ===== *)
(** * SessionProps: what a consumer session does, as an abstract log that [consumeOnce] refines,
    and the loop around sessions. *)
From S2P Require Import Prelude AmqpData Errors Prog Retry Config Amqp Topology Instr Dial Consumer Session Delivery Script.
Import Consumer.Consumer.
Local Open Scope string_scope.
Local Open Scope list_scope.
Local Open Scope Z_scope.

(** ** Observations *)

Inductive setup_step : Type :=
| SetupQos (prefetch : Z)
| SetupConfirm
| SetupDeclare (d : declaration)
| SetupConsume (queue : string).

(** What the outside sees of a session. *)
Inductive session_act : Type :=
| SOpen (c : conn) (res : result channel)
| SSetup (ch : channel) (step : setup_step) (ok : bool)
| SEvent (ev : session_event)
| SAct (a : act)
| SClose (ch : channel)
(* the loop around sessions *)
| SJoin
| SLeave
| SPoll (stopped : bool)
| SSleep (d : Z) (stopped : bool)
(* concurrent sessions *)
| SSlots (workers : Z)
| SAcquire (ev : acquire_event)
| SAdd
| SWait.

Definition session_amqp {X} (e : amqpE X) : X -> list session_act :=
  match e with
  | ConnChannel c => fun res => [SOpen c res]
  | ChClose ch => fun _ => [SClose ch]
  | ChQos ch n _ _ => fun err => [SSetup ch (SetupQos n) (succeeded err)]
  | ChConfirm ch _ => fun err => [SSetup ch SetupConfirm (succeeded err)]
  | ChExchangeDeclare ch name kind durable _ _ _ _ => fun err =>
      [SSetup ch (SetupDeclare (DExchange name kind durable)) (succeeded err)]
  | ChQueueDeclare ch name durable _ _ _ args => fun err =>
      [SSetup ch (SetupDeclare (DQueue name durable args)) (succeeded err)]
  | ChQueueBind ch name key exchange _ _ => fun err =>
      [SSetup ch (SetupDeclare (DBind name key exchange)) (succeeded err)]
  | ChConsume ch queue _ _ _ _ _ _ => fun res =>
      [SSetup ch (SetupConsume queue) (match res with Ok _ => true | Err _ => false end)]
  | ConnIsClosed _ => fun _ => []
  | ChNotifyClose _ => fun _ => []
  | e => fun x => map SAct (amqp_act e x)
  end.

Definition session_cons {X} (e : consE X) : X -> list session_act :=
  match e with
  | SessionSelect _ _ _ => fun ev => [SEvent ev]
  | WgAdd => fun _ => [SJoin]
  | WgDone => fun _ => [SLeave]
  | SemMake workers => fun _ => [SSlots workers]
  | SemSelect _ _ _ => fun ev => [SAcquire ev]
  | InflightAdd _ => fun _ => [SAdd]
  | InflightWait _ => fun _ => [SWait]
  | _ => fun _ => []
  end.

Definition session_sys {X} (e : sysE X) : X -> list session_act :=
  match e with
  | CtxPoll _ => fun stopped => [SPoll stopped]
  | CtxOrTimer _ d => fun stopped => [SSleep d stopped]
  | _ => fun _ => []
  end.

Definition session_acts (X : Type) (e : consumerE X) : X -> list session_act :=
  match e with
  | inl1 (inl1 (inl1 (inl1 (inl1 (inl1 c))))) => session_cons c
  | inl1 (inl1 (inl1 (inl1 (inl1 (inr1 a))))) => session_amqp a
  | inl1 (inl1 (inl1 (inl1 (inr1 s)))) => session_sys s
  | e => fun x => map SAct (acts X e x)
  end.

(** ** Specification *)

Section spec.
Context (c : Consumer.t) (q key : string) (prefetch : Z).

(** The steps that set a session up; confirms are needed for retries only. *)
Definition setup_steps : list setup_step :=
  SetupQos prefetch ::
  (if bool_decide (Config.MaxRetries (cfg c) > 0) then [SetupConfirm] else []) ++
  map SetupDeclare (topology (cfg c) q key) ++ [SetupConsume q].

(** Deliveries that were received, each handled before the next one is received. *)
Inductive handled_all (ch : channel) : list session_act -> Prop :=
| handled_none : handled_all ch []
| handled_next work msg log :
    handled_all ch work -> delivered c ch q key msg log ->
    handled_all ch (work ++ SEvent (SessionDelivery (Some msg)) :: map SAct log).

(** The event that ends a session, and the error it ends with. *)
Inductive ends : session_event -> error -> Prop :=
| ends_done : ends SessionDone (ECtx Canceled)
| ends_closed closeErr : ends (SessionClosed closeErr) (closedError closeErr)
| ends_drained : ends (SessionDelivery None) (ENew "rabbitmq: message channel closed").

Inductive session_log : list session_act -> error -> Prop :=
| session_unavailable : session_log [] (ENew "rabbitmq: connection not available")
| session_no_channel conn err : session_log [SOpen conn (Err err)] err
| session_not_set_up conn ch setup err :
    attempted setup_steps setup false ->
    session_log (SOpen conn (Ok ch) :: map (fun s => SSetup ch s.1 s.2) setup ++ [SClose ch]) err
| session_ended conn ch setup work ev err :
    attempted setup_steps setup true -> handled_all ch work -> ends ev err ->
    session_log (SOpen conn (Ok ch) :: map (fun s => SSetup ch s.1 s.2) setup ++ work
                   ++ [SEvent ev; SClose ch]) err.

(** Deliveries that were received and given to a goroutine, each with a slot of its own. *)
Inductive dispatched_all : list session_act -> Prop :=
| dispatched_none : dispatched_all []
| dispatched_next work msg :
    dispatched_all work ->
    dispatched_all (work ++ [SEvent (SessionDelivery (Some msg)); SAcquire Acquired; SAdd]).

(** How the dispatching ends: as a session does, or while waiting for a slot. *)
Inductive dispatch_ends : list session_act -> error -> Prop :=
| dispatch_ends_received ev err : ends ev err -> dispatch_ends [SEvent ev] err
| dispatch_ends_done msg :
    dispatch_ends [SEvent (SessionDelivery (Some msg)); SAcquire AcquireDone] (ECtx Canceled)
| dispatch_ends_closed msg closeErr :
    dispatch_ends [SEvent (SessionDelivery (Some msg)); SAcquire (AcquireClosed closeErr)]
      (closedError closeErr).

Inductive concurrent_log (workers : Z) : list session_act -> error -> Prop :=
| concurrent_unavailable : concurrent_log workers [] (ENew "rabbitmq: connection not available")
| concurrent_no_channel conn err : concurrent_log workers [SOpen conn (Err err)] err
| concurrent_not_set_up conn ch setup err :
    attempted setup_steps setup false ->
    concurrent_log workers
      (SOpen conn (Ok ch) :: map (fun s => SSetup ch s.1 s.2) setup ++ [SClose ch]) err
| concurrent_ended conn ch setup work final err :
    attempted setup_steps setup true -> dispatched_all work -> dispatch_ends final err ->
    concurrent_log workers
      (SOpen conn (Ok ch) :: map (fun s => SSetup ch s.1 s.2) setup ++ SSlots workers :: work
         ++ final ++ [SWait; SClose ch]) err.
End spec.

(** The loop around sessions with the logs [sess]: it stops when the context is done, before a
    session, at the end of one that reports it or while it waits; after any other error it
    waits and starts again. *)
Inductive consume_log (sess : list session_act -> error -> Prop) : list session_act -> Prop :=
| consume_stopped : consume_log sess [SPoll true]
| consume_cancelled log err :
    sess log err -> errors_Is err Canceled = true -> consume_log sess (SPoll false :: log)
| consume_stopped_waiting log err :
    sess log err -> errors_Is err Canceled = false ->
    consume_log sess (SPoll false :: log ++ [SSleep consumerRestartSleep true])
| consume_restarted log err rest :
    sess log err -> errors_Is err Canceled = false -> consume_log sess rest ->
    consume_log sess (SPoll false :: log ++ SSleep consumerRestartSleep false :: rest).

(** ** Lemmas about the specification *)

Lemma attempted_map {D D'} (f : D -> D') ds log ok :
  attempted ds log ok -> attempted (map f ds) (map (fun s => (f s.1, s.2)) log) ok.
Proof. induction 1; simpl; by constructor. Qed.

Lemma attempted_stop {D} (ds ds' : list D) log :
  attempted ds log false -> attempted (ds ++ ds') log false.
Proof. remember false as ok eqn:Hok. induction 1; simpl; try constructor; eauto. done. Qed.

Lemma attempted_more {D} (ds ds' : list D) log log' ok :
  attempted ds log true -> attempted ds' log' ok -> attempted (ds ++ ds') (log ++ log') ok.
Proof.
  remember true as ok' eqn:Hok. induction 1; simpl; try constructor; eauto. done.
Qed.

Lemma delivered_no_other c ch q key msg log : delivered c ch q key msg log -> ~ In AOther log.
Proof.
  assert (Hs : forall k m r err body res, settled c ch k m r err body res -> ~ In AOther body).
  { intros k m r err body res Hs Hin.
    destruct Hs as [| |e l _ Ha|e l _ Ha]; simpl in Hin; try naive_solver;
      apply in_app_iff in Hin as [Hin|Hin]; simpl in Hin; try naive_solver;
      destruct Ha; simpl in Hin; naive_solver. }
  destruct 1 as [h body res _ H|s h body res _ H]; simpl.
  - intros [?|Hin]; [done|]. by eapply Hs.
  - intros [?|[?|Hin]]; [done..|]. apply in_app_iff in Hin as [Hin|[?|[]]]; [|done]. by eapply Hs.
Qed.

(** The handling of a delivery is seen by the session as it is seen by itself. *)
Lemma session_acts_handling (l : trace consumerE) :
  ~ In AOther (observed acts l) -> observed session_acts l = map SAct (observed acts l).
Proof.
  induction l as [|[X e x] l IH]; [done|]. cbn [observed]. rewrite in_app_iff, map_app.
  intros H. rewrite IH by tauto. f_equal.
  assert (Hx : ~ In AOther (acts X e x)) by (intros ?; apply H; by right).
  clear -Hx. unfold shown. simpl. revert x Hx.
  destruct e as [[[[[[e|e]|e]|e]|e]|e]|e]; simpl; [..|done]; destruct e; simpl; intros; try done; tauto.
Qed.

Lemma session_acts_declares ch (l : trace consumerE) :
  Forall (declares ch) l ->
  observed session_acts l
    = map (fun s => SSetup ch (SetupDeclare s.1) s.2) (observed (declared ch) l).
Proof.
  induction 1 as [|[X e x] l Hev _ IH]; [done|]. cbn [observed]. rewrite IH, map_app. f_equal.
  revert x Hev. unfold declares, shown. simpl.
  destruct e as [[[[[[e|e]|e]|e]|e]|e]|e]; simpl; try done.
  destruct e; simpl; try done; unfold on; destruct (Nat.eqb_spec ch ch0) as [<-|]; simpl; done.
Qed.

(** ** Refinement *)

Section refinement.
Context (c : Consumer.t) (env : environment consumerE).
Hypothesis no_hook : retryPublish c = None.

Lemma declareConsumerTopology_wp ch q key t :
  wp (traced env) (declareConsumerTopology (cfg c) ch q key) t (fun res t' =>
    since t t' (fun l => exists log, observed session_acts l = map (fun s => SSetup ch s.1 s.2) log /\
      attempted (map SetupDeclare (topology (cfg c) q key) ++ [SetupConsume q]) log
        (match res with Ok _ => true | Err _ => false end))).
Proof.
  unfold declareConsumerTopology. eapply wp_seq; [apply declareQueueTopology_wp|].
  intros err t1 (l & -> & Hl & Ha). pose proof (session_acts_declares ch l Hl) as Hs.
  apply (attempted_map SetupDeclare) in Ha.
  destruct err as [e|]; wp_step.
  - exists l. split; [done|]. eexists. split; [|by apply attempted_stop]. by rewrite Hs, map_map.
  - destruct x as [msgs|e]; wp_all; since_events; simpl; rewrite ?observed_app; simpl;
      unfold shown; simpl; rewrite ?app_nil_r, Hs;
      (eexists; split; [|eapply attempted_more; [exact Ha|apply attempted_accepted, attempted_all
                                                         ||apply attempted_refused]]);
      rewrite map_app, map_map; done.
Qed.

Lemma setupSession_wp ch prefetch q key t :
  wp (traced env) (setupSession c ch prefetch q key) t (fun res t' =>
    since t t' (fun l => exists log, observed session_acts l = map (fun s => SSetup ch s.1 s.2) log /\
      attempted (setup_steps c q key prefetch) log
        (match res with Ok _ => true | Err _ => false end))).
Proof.
  unfold setupSession, setup_steps. wp_step. destruct x as [e|].
  { wp_all. observe. exists [(SetupQos prefetch, false)]. split; [done|constructor]. }
  destruct (bool_decide (Config.MaxRetries (cfg c) > 0)); [wp_step; wp_step; destruct x as [e|]|];
    repeat wp_step; simpl.
  - observe. exists [(SetupQos prefetch, true); (SetupConfirm, false)].
    split; [done|]. do 2 constructor.
  - eapply wp_mono; [|apply declareConsumerTopology_wp].
    intros res t' (l & -> & log & Hlog & Ha). observe. rewrite Hlog.
    exists ((SetupQos prefetch, true) :: (SetupConfirm, true) :: log). split; [done|].
    do 2 constructor. done.
  - eapply wp_mono; [|apply declareConsumerTopology_wp].
    intros res t' (l & -> & log & Hlog & Ha). observe. rewrite Hlog.
    exists ((SetupQos prefetch, true) :: log). split; [done|]. constructor. done.
Qed.

Lemma session_loop_wp ch q key msgs chanClose t :
  wp (traced env) (loop (session_round c ch q key userHandler msgs chanClose) tt) t (fun err t' =>
    since t t' (fun l => exists work ev, observed session_acts l = work ++ [SEvent ev] /\
      handled_all c q key ch work /\ ends ev err)).
Proof.
  exists (fun _ t' => since t t' (fun l => handled_all c q key ch (observed session_acts l))).
  split; [apply since_here; constructor|].
  intros [] t1 (l & -> & Hl). unfold session_round. wp_step. destruct x as [|closeErr|[msg|]].
  - wp_all. observe. do 2 eexists. split; [reflexivity|]. split; [done|constructor].
  - wp_all. observe. do 2 eexists. split; [reflexivity|]. split; [done|constructor].
  - eapply wp_seq; [by apply handleDelivery_wp|]. intros [] t2 (l2 & -> & Hl2). wp_step.
    observe. rewrite (session_acts_handling l2) by by eapply delivered_no_other.
    rewrite <- app_assoc. simpl. by apply handled_next.
  - wp_all. observe. do 2 eexists. split; [reflexivity|]. split; [done|constructor].
Qed.

Lemma usableConnection_wp t :
  wp (traced env) usableConnection t (fun _ t' => since t t' (fun l => observed session_acts l = [])).
Proof. unfold usableConnection, currentConnection. wp_all; by observe. Qed.

Lemma consumeOnce_wp q key t :
  wp (traced env) (consumeOnce c q key userHandler) t (fun err t' =>
    exists e, err = Some e /\
    since t t' (fun l => session_log c q key (Config.PrefetchCount (cfg c)) (observed session_acts l) e)).
Proof.
  unfold consumeOnce. eapply wp_seq; [apply usableConnection_wp|].
  intros [conn|] t1 (l1 & -> & H1).
  2: { wp_step. eexists. split; [done|]. observe. rewrite H1. constructor. }
  wp_step. destruct x as [ch|e].
  2: { wp_step. eexists. split; [done|]. observe. rewrite H1. constructor. }
  wp_step. eapply wp_seq; [apply setupSession_wp|]. cbv beta.
  intros [[msgs chanClose]|e] t2 (l2 & -> & setup & H2 & Ha).
  - wp_step. eapply wp_spec; [apply session_loop_wp|]. cbv beta.
    intros err t3 (l3 & -> & work & ev & H3 & Hw & He). wp_all. eexists. split; [done|]. observe.
    rewrite H1, H2, H3. simpl. rewrite <- ?app_assoc. by eapply session_ended.
  - wp_all. eexists. split; [done|]. observe. rewrite H1, H2. simpl. by apply session_not_set_up.
Qed.

Lemma dispatch_loop_wp ch q key handler msgs chanClose sem inflight t :
  wp (traced env) (loop (dispatch_round c ch q key handler msgs chanClose sem inflight) tt) t
    (fun err t' => since t t' (fun l => exists work final, observed session_acts l = work ++ final /\
      dispatched_all work /\ dispatch_ends final err)).
Proof.
  exists (fun _ t' => since t t' (fun l => dispatched_all (observed session_acts l))).
  split; [apply since_here; constructor|].
  intros [] t1 (l & -> & Hl). unfold dispatch_round. wp_step. destruct x as [|closeErr|[msg|]].
  3: wp_step; destruct x as [| |closeErr].
  all: wp_all; observe; rewrite <- ?app_assoc; simpl.
  3: by apply dispatched_next.
  all: do 2 eexists; split; [reflexivity|]; split; [done|]; repeat constructor.
Qed.

Lemma consumeOnceConcurrent_wp q key workers handler t :
  wp (traced env) (consumeOnceConcurrent c q key workers handler) t (fun err t' =>
    exists e, err = Some e /\
    since t t' (fun l => concurrent_log c q key (Z.max (Config.PrefetchCount (cfg c)) workers) workers
                           (observed session_acts l) e)).
Proof.
  unfold consumeOnceConcurrent. eapply wp_seq; [apply usableConnection_wp|].
  intros [conn|] t1 (l1 & -> & H1).
  2: { wp_step. eexists. split; [done|]. observe. rewrite H1. constructor. }
  wp_step. destruct x as [ch|e].
  2: { wp_step. eexists. split; [done|]. observe. rewrite H1. constructor. }
  wp_step. eapply wp_seq; [apply setupSession_wp|]. cbv beta.
  intros [[msgs chanClose]|e] t2 (l2 & -> & setup & H2 & Ha).
  - do 3 wp_step. eapply wp_seq; [apply dispatch_loop_wp|]. cbv beta.
    intros err t3 (l3 & -> & work & final & H3 & Hw & He). wp_all. eexists. split; [done|]. observe.
    rewrite H1, H2, H3. simpl. rewrite <- ?app_assoc. simpl.
    by eapply concurrent_ended.
  - wp_all. eexists. split; [done|]. observe. rewrite H1, H2. simpl. by apply concurrent_not_set_up.
Qed.

Lemma consume_loop_wp q session (sess : list session_act -> error -> Prop) t :
  (forall t, wp (traced env) session t (fun err t' =>
     exists e, err = Some e /\ since t t' (fun l => sess (observed session_acts l) e))) ->
  wp (traced env) (loop (consume_round c q session) tt) t (fun err t' =>
    err = None /\ since t t' (fun l => consume_log sess (observed session_acts l))).
Proof.
  intros Hsession.
  exists (fun _ t' => since t t' (fun l => forall rest, consume_log sess rest ->
    consume_log sess (observed session_acts l ++ rest))).
  split; [by apply since_here|].
  intros [] t1 (l1 & -> & H1). unfold consume_round. wp_step. destruct x.
  { wp_all. split; [done|]. observe. apply H1. constructor. }
  eapply wp_seq; [apply Hsession|]. intros err t2 (e & -> & l2 & -> & H2). cbv beta iota.
  destruct (errors_Is e Canceled) eqn:He.
  { wp_all. split; [done|]. observe. rewrite <- app_assoc. apply H1.
    by eapply consume_cancelled. }
  unfold sleepContext. wp_all.
  - split; [done|]. observe. rewrite <- ?app_assoc. apply H1. by eapply consume_stopped_waiting.
  - observe. intros rest Hrest. rewrite <- ?app_assoc. apply H1. by eapply consume_restarted.
Qed.
End refinement.

(** ** Properties *)

Section props.
Context (config : Config.t) (pctx : context) (env : environment consumerE).

(** C28: A session follows its protocol.  Every run of [consumeOnce] returns an error and is a
    session log: without a usable connection it does nothing; otherwise it opens a channel,
    sets it up (quality of service, confirms when retries are configured, topology, consumer)
    up to the first refusal, handles every delivery it receives completely before it receives
    the next one, ends with the event that the error reports, and closes the channel, exactly
    once and last, on every path. *)
Theorem consumeOnce_session q key err t :
  runs (traced env) (consumeOnce (consumerOf config pctx) q key userHandler) [] err t ->
  exists e, err = Some e /\
    session_log (consumerOf config pctx) q key (Config.PrefetchCount config)
      (observed session_acts t) e.
Proof.
  intros Hrun. destruct (wp_sound _ _ _ _ _ _ Hrun
    (consumeOnce_wp (consumerOf config pctx) env eq_refl q key [])) as (e & He & l & -> & Hl).
  exists e. by rewrite app_nil_r.
Qed.

(** C29: A concurrent session follows the same protocol.  Every delivery that is received waits
    for one of [workers] slots before a goroutine gets it; however the session ends, it waits
    for the goroutines it started before it closes the channel; and the prefetch is at least
    the number of workers. *)
Theorem consumeOnceConcurrent_session q key workers handler err t :
  runs (traced env) (consumeOnceConcurrent (consumerOf config pctx) q key workers handler) [] err t ->
  exists e prefetch, err = Some e /\ workers <= prefetch /\ Config.PrefetchCount config <= prefetch /\
    concurrent_log (consumerOf config pctx) q key prefetch workers (observed session_acts t) e.
Proof.
  intros Hrun. destruct (wp_sound _ _ _ _ _ _ Hrun
    (consumeOnceConcurrent_wp (consumerOf config pctx) env q key workers handler [])) as (e & He & l & -> & Hl).
  exists e. eexists. rewrite app_nil_r. split_and!; [done| | |exact Hl]; simpl; lia.
Qed.

Lemma Consume_rounds q key err t :
  runs (traced env) (Consume (consumerOf config pctx) q key (Some userHandler)) [] err t ->
  err = None /\ exists log, observed session_acts t = SJoin :: log ++ [SLeave] /\
    consume_log (session_log (consumerOf config pctx) q key (Config.PrefetchCount config)) log.
Proof.
  intros Hrun. refine (wp_sound _ _ _ _ _ (fun err t => err = None /\ exists log, _) Hrun _).
  unfold Consume. wp_step. eapply wp_seq; [apply consume_loop_wp, consumeOnce_wp; reflexivity|].
  cbv beta. intros e t1 (-> & l & -> & Hl). wp_all. split; [done|].
  simpl. rewrite observed_app. simpl. by eexists.
Qed.

(** C30: [Consume] runs until it is stopped.  It registers with the consumer, runs sessions one
    after the other with a pause of [consumerRestartSleep] after each failure, and returns,
    always nil, exactly when the context was found done or a session ended with an error that
    is [context.Canceled]; then it deregisters. *)
Theorem Consume_log q key err t :
  runs (traced env) (Consume (consumerOf config pctx) q key (Some userHandler)) [] err t ->
  err = None /\ exists log, observed session_acts t = SJoin :: log ++ [SLeave] /\
    consume_log (session_log (consumerOf config pctx) q key (Config.PrefetchCount config)) log.
Proof. apply Consume_rounds. Qed.

(** C15: [ConsumeConcurrent] is the same loop around concurrent sessions, and exactly [Consume]
    for at most one worker. *)
Theorem ConsumeConcurrent_log q key workers err t :
  runs (traced env) (ConsumeConcurrent (consumerOf config pctx) q key workers (Some userHandler)) [] err t ->
  err = None /\ exists log, observed session_acts t = SJoin :: log ++ [SLeave] /\
    consume_log
      (if bool_decide (workers <= 1)
       then session_log (consumerOf config pctx) q key (Config.PrefetchCount config)
       else concurrent_log (consumerOf config pctx) q key
              (Z.max (Config.PrefetchCount config) workers) workers) log.
Proof.
  unfold ConsumeConcurrent. case_bool_decide; [apply Consume_rounds|].
  intros Hrun. refine (wp_sound _ _ _ _ _ (fun err t => err = None /\ exists log, _) Hrun _).
  wp_step. eapply wp_seq; [apply consume_loop_wp, consumeOnceConcurrent_wp; reflexivity|].
  cbv beta. intros e t1 (-> & l & -> & Hl). wp_all. split; [done|].
  simpl. rewrite observed_app. simpl. by eexists.
Qed.
End props.

(** ** Liveness *)

(** The selects of the sessions so far. *)
Definition selects (t : trace consumerE) : nat :=
  length (omap (fun a => match a with SEvent ev => Some ev | _ => None end) (observed session_acts t)).

(** After [n] selects the environment delivers no more: the context is done, the channel or the
    delivery stream is closed. *)
Definition ends_after (n : nat) (answer : strategy consumerE) : Prop :=
  forall sctx chanClose msgs t msg, (n <= selects t)%nat ->
    answer _ (inject (SessionSelect sctx chanClose msgs)) t <> SessionDelivery (Some msg).

Lemma selects_handling ch c q key msg (l t : trace consumerE) :
  delivered c ch q key msg (observed acts l) -> selects (l ++ t) = selects t.
Proof.
  intros Hl. unfold selects. rewrite observed_app, omap_app, length_app.
  rewrite (session_acts_handling l) by by eapply delivered_no_other.
  assert (Hn : forall log, omap (fun a => match a with SEvent ev => Some ev | _ => None end) (map SAct log)
    = @nil session_event) by (intros log; by induction log).
  rewrite Hn. simpl. lia.
Qed.

Lemma session_round_scripted answer n fuel config pctx ch q key msgs chanClose t :
  ends_after n answer ->
  exists r t', interp (scripted answer) fuel
      (session_round (consumerOf config pctx) ch q key userHandler msgs chanClose tt) t = Some (r, t') /\
    match r with inl _ => (n - selects t' < n - selects t)%nat | inr _ => True end.
Proof.
  intros Hends. unfold session_round, trigger. cbn [bind interp]. unfold scripted at 1.
  destruct (answer _ _ t) as [|closeErr|[msg|]] eqn:Ha; simpl;
    try by do 2 eexists.
  destruct (loopfree_scripted answer fuel (handleDelivery (consumerOf config pctx) ch q key msg userHandler)
    (Ev (inject (SessionSelect (ctx (consumerOf config pctx)) chanClose msgs)) (SessionDelivery (Some msg)) :: t)
    (handleDelivery_loopfree (consumerOf config pctx) ch q key msg eq_refl)) as ([] & t' & Ht).
  rewrite interp_bind. simpl in Ht. rewrite Ht. simpl. do 2 eexists. split; [reflexivity|].
  destruct (wp_sound _ _ _ _ _ _ (scripted_runs _ _ _ _ _ _ Ht)
    (handleDelivery_wp (consumerOf config pctx) anything eq_refl ch q key msg _)) as (l & -> & Hl).
  rewrite (selects_handling _ _ _ _ _ _ _ Hl).
  assert (Hlt : (selects t < n)%nat).
  { destruct (decide (n <= selects t)%nat) as [Hn|Hn]; [|lia]. by destruct (Hends _ _ _ _ msg Hn Ha). }
  unfold selects at 1. simpl. rewrite omap_app, length_app. simpl. unfold selects in *. lia.
Qed.

Lemma setupSession_loopfree c ch prefetch q key : loopfree (setupSession c ch prefetch q key).
Proof.
  unfold setupSession, declareConsumerTopology, declareQueueTopology, declareQueue.
  destruct (bool_decide _), (Config.DisableDeadLetter _); simpl;
    repeat first [done | intros [] | intros ?]; simpl;
    repeat first [done | intros [] | intros ?].
Qed.

Lemma usableConnection_loopfree : loopfree usableConnection.
Proof. unfold usableConnection, currentConnection. simpl. intros _ [?|] _; done. Qed.

(** Sessions end when they should.  If after [n] selects the environment delivers no more
    (the context is cancelled, or the broker closed the channel or the stream), [consumeOnce]
    returns within [n + 1] rounds, whatever else the environment answers. *)
Theorem consumeOnce_returns config pctx q key answer n :
  ends_after n answer ->
  returns (scripted answer) (Datatypes.S n)
    (consumeOnce (consumerOf config pctx) q key userHandler) [].
Proof.
  intros Hends. unfold consumeOnce.
  apply returns_bind; [apply loopfree_returns, usableConnection_loopfree|].
  intros [conn|] t1; [|by apply loopfree_returns].
  apply returns_bind; [by apply loopfree_returns|].
  intros [ch|err] t2; [|by apply loopfree_returns].
  apply returns_bind; [|intros err t; by apply loopfree_returns].
  apply returns_bind; [apply loopfree_returns, setupSession_loopfree|].
  intros [[msgs chanClose]|err] t3; [|by apply loopfree_returns].
  apply returns_bind; [by apply loopfree_returns|]. intros _ t4.
  apply (interp_loop (scripted answer) (Datatypes.S n)
    (session_round (consumerOf config pctx) ch q key userHandler msgs chanClose)
    (fun _ _ => True) (fun _ t => n - selects t)%nat); [|done|lia].
  intros [] t _. destruct (session_round_scripted answer n (Datatypes.S n) config pctx ch q key msgs
    chanClose t Hends) as (r & t' & Hr & Hlt). exists r, t'. split; [exact Hr|]. by destruct r.
Qed.

(** A cancelled consumer stops.  When the context is done before [Consume] looks, it returns
    nil at once, without touching the broker. *)
Theorem Consume_cancelled config pctx q key
    (answer : strategy consumerE) t :
  (forall sctx t, answer _ (inject (CtxPoll sctx)) t = true) ->
  exists t', interp (scripted answer) 1
      (Consume (consumerOf config pctx) q key (Some userHandler)) t = Some (None, t') /\
    observed session_acts t' = observed session_acts t ++ [SJoin; SPoll true; SLeave].
Proof.
  intros Hdone. unfold Consume, consume_round, loop. simpl. unfold scripted. simpl in *. rewrite Hdone.
  simpl.
  eexists. split; [reflexivity|]. simpl. unfold shown. simpl.
  by rewrite <- !app_assoc.
Qed.

(** ** A concrete session *)

(** One delivery, then a cancelled context. *)
Definition one_delivery (d : Delivery.t) : forall X, consE X -> trace consumerE -> option X :=
  fun X e t =>
    match e with
    | SessionSelect _ _ _ =>
        Some (match selects t with O => SessionDelivery (Some d) | _ => SessionDone end)
    | _ => None
    end.

Definition example_session : strategy consumerE :=
  script (Returned None) as_usual (one_delivery (example_delivery None)).

Definition example_consumeOnce := consumeOnce example_consumer "users" "user.*" userHandler.

Lemma consumeOnce_session_witness :
  exists e, Some (ECtx Canceled) = Some e /\
    session_log example_consumer "users" "user.*" 10
      (observed session_acts (trace_of example_session 2 example_consumeOnce)) e.
Proof.
  apply (consumeOnce_session (normalize example_config) Background anything "users" "user.*").
  apply (scripted_runs example_session 2). vm_compute. reflexivity.
Defined.

Lemma consumeOnceConcurrent_session_witness :
  exists e prefetch, Some (ECtx Canceled) = Some e /\ 16 <= prefetch /\ 10 <= prefetch /\
    concurrent_log example_consumer "users" "user.*" prefetch 16
      (observed session_acts (trace_of example_session 2
         (consumeOnceConcurrent example_consumer "users" "user.*" 16 userHandler))) e.
Proof.
  apply (consumeOnceConcurrent_session (normalize example_config) Background anything "users" "user.*"
           16 userHandler).
  apply (scripted_runs example_session 2). vm_compute. reflexivity.
Defined.

Lemma Consume_log_witness :
  @None error = None /\ exists log,
    observed session_acts (trace_of example_session 2
      (Consume example_consumer "users" "user.*" (Some userHandler))) = SJoin :: log ++ [SLeave] /\
    consume_log (session_log example_consumer "users" "user.*" 10) log.
Proof.
  apply (Consume_log (normalize example_config) Background anything "users" "user.*").
  apply (scripted_runs example_session 2). vm_compute. reflexivity.
Defined.

Lemma ConsumeConcurrent_log_witness :
  @None error = None /\ exists log,
    observed session_acts (trace_of example_session 2
      (ConsumeConcurrent example_consumer "users" "user.*" 16 (Some userHandler)))
      = SJoin :: log ++ [SLeave] /\
    consume_log (concurrent_log example_consumer "users" "user.*" 16 16) log.
Proof.
  apply (ConsumeConcurrent_log (normalize example_config) Background anything "users" "user.*" 16).
  apply (scripted_runs example_session 2). vm_compute. reflexivity.
Defined.

Lemma example_session_ends : ends_after 1 example_session.
Proof.
  intros sctx chanClose msgs t msg Hn. unfold example_session. simpl. unfold one_delivery.
  destruct (selects t); [lia|done].
Qed.

Lemma consumeOnce_returns_witness :
  returns (scripted example_session) 2 example_consumeOnce [].
Proof.
  apply (consumeOnce_returns (normalize example_config) Background "users" "user.*" example_session 1
           example_session_ends).
Defined.

Definition cancelled_context (X : Type) (e : consumerE X) (t : trace consumerE) : X :=
  match e with
  | inl1 (inl1 (inl1 (inl1 (inr1 s)))) =>
      match s in sysE X return X with
      | CtxPoll _ => true
      | s => good_sys s
      end
  | e => example_session X e t
  end.

Lemma Consume_cancelled_witness :
  exists t', interp (scripted cancelled_context) 1
      (Consume example_consumer "users" "user.*" (Some userHandler)) [] = Some (None, t') /\
    observed session_acts t' = [SJoin; SPoll true; SLeave].
Proof.
  apply (Consume_cancelled (normalize example_config) Background "users" "user.*" cancelled_context []).
  reflexivity.
Defined.
