(* ===== verification/Workers.v ===== *)
(** * Workers: the concurrency of [consumeOnceConcurrent].

    The session's goroutine and its workers interleave over a semaphore and a wait group, whose
    meaning is that of Go; everything else (the broker, the handler, the clock) answers as it
    likes.  The logic gives each goroutine what it holds: a slot, a count, a role. *)
From S2P Require Import Prelude AmqpData Errors Prog Machine Retry Config Amqp Topology Instr Dial Consumer Session Script Delivery.
Import Consumer.Consumer.
Local Open Scope Z_scope.

(** ** Semantics *)

(** Semaphores with their capacity and the slots taken; wait groups with their counters. *)
Record slots : Type := mkSlots {
  sems : gmap nat (Z * nat);
  wgs : gmap nat nat
}.

Definition slots_cons {X} (e : consE X) : slots -> X -> slots -> Prop :=
  match e with
  | SemMake n => fun s sem s' =>
      sems s !! sem = None /\ s' = mkSlots (<[sem := (n, O)]> (sems s)) (wgs s)
  | SemSelect sem _ _ => fun s ev s' =>
      match ev with
      | Acquired => exists n used, sems s !! sem = Some (n, used) /\ Z.of_nat used < n /\
                      s' = mkSlots (<[sem := (n, Datatypes.S used)]> (sems s)) (wgs s)
      | _ => s' = s
      end
  | SemRelease sem => fun s _ s' =>
      exists n used, sems s !! sem = Some (n, Datatypes.S used) /\
        s' = mkSlots (<[sem := (n, used)]> (sems s)) (wgs s)
  | InflightMake => fun s wg s' =>
      wgs s !! wg = None /\ s' = mkSlots (sems s) (<[wg := O]> (wgs s))
  | InflightAdd wg => fun s _ s' =>
      exists n, wgs s !! wg = Some n /\ s' = mkSlots (sems s) (<[wg := Datatypes.S n]> (wgs s))
  | InflightDone wg => fun s _ s' =>
      exists n, wgs s !! wg = Some (Datatypes.S n) /\ s' = mkSlots (sems s) (<[wg := n]> (wgs s))
  | InflightWait wg => fun s _ s' => wgs s !! wg = Some O /\ s' = s
  | _ => fun s _ s' => s' = s
  end.

Definition slots_sem : semantics consumerE slots := fun X e =>
  match e with
  | inl1 (inl1 (inl1 (inl1 (inl1 (inl1 c))))) => slots_cons c
  | _ => fun s _ s' => s' = s
  end.

(** The operations of the handling of a delivery, and the closing of a channel. *)
Definition handles {X} (e : consumerE X) : bool :=
  match e with
  | inr1 _ => true
  | inl1 (inl1 (inr1 _)) => true
  | inl1 (inl1 (inl1 (inl1 (inl1 (inr1 a))))) =>
      match a with
      | ChPublishDeferred _ _ _ _ _ _ _ | DcWaitContext _ _ | DeliveryAck _ _ | DeliveryNack _ _ _ => true
      | _ => false
      end
  | _ => false
  end.

Definition closes {X} (e : consumerE X) : bool :=
  match e with
  | inl1 (inl1 (inl1 (inl1 (inl1 (inr1 (ChClose _)))))) => true
  | _ => false
  end.

(** A goroutine that is about to perform such an operation. *)
Definition handling_now (p : prog consumerE unit) : bool :=
  match p with Vis e _ => handles e | _ => false end.

Definition closing_now (p : prog consumerE unit) : bool :=
  match p with Vis e _ => closes e | _ => false end.

Definition ended (p : prog consumerE unit) : bool :=
  match p with Ret _ => true | _ => false end.

(** ** Ownership *)

(** Where the session's goroutine stands; its workers are [Worker]. *)
Inductive role : Type :=
| Fresh
| HasSem (sem : nat)
| Dispatching (sem wg : nat)
| Drained
| Worker.

Record owns : Type := mkOwns {
  slot : option nat;
  counted : option nat;
  role_ : role
}.

Definition own_cons (workers : Z) {X} (e : consE X) (g : owns) : (X -> owns -> Prop) -> Prop :=
  match e with
  | SemMake n => fun Q => n = workers /\ role_ g = Fresh /\
      forall sem, Q sem (mkOwns (slot g) (counted g) (HasSem sem))
  | InflightMake => fun Q => exists sem, role_ g = HasSem sem /\
      forall wg, Q wg (mkOwns (slot g) (counted g) (Dispatching sem wg))
  | SemSelect sem _ _ => fun Q => (exists wg, role_ g = Dispatching sem wg) /\ slot g = None /\
      Q Acquired (mkOwns (Some sem) (counted g) (role_ g)) /\ Q AcquireDone g /\
      forall e, Q (AcquireClosed e) g
  | InflightAdd wg => fun Q => (exists sem, role_ g = Dispatching sem wg) /\ counted g = None /\
      Q tt (mkOwns (slot g) (Some wg) (role_ g))
  | SemRelease sem => fun Q => slot g = Some sem /\ Q tt (mkOwns None (counted g) (role_ g))
  | InflightDone wg => fun Q => counted g = Some wg /\ Q tt (mkOwns (slot g) None (role_ g))
  | InflightWait wg => fun Q => (exists sem, role_ g = Dispatching sem wg) /\ counted g = None /\
      Q tt (mkOwns (slot g) (counted g) Drained)
  | _ => fun Q => forall x, Q x g
  end.

Definition own_op (workers : Z) (X : Type) (e : consumerE X) (g : owns) (Q : X -> owns -> Prop) : Prop :=
  (handles e = true -> slot g <> None /\ counted g <> None) /\
  (closes e = true -> role_ g = Fresh \/ role_ g = Drained) /\
  match e with
  | inl1 (inl1 (inl1 (inl1 (inl1 (inl1 c))))) => own_cons workers c g Q
  | _ => forall x, Q x g
  end.

Lemma own_op_mono workers X (e : consumerE X) g (Q Q' : X -> owns -> Prop) :
  (forall x g', Q x g' -> Q' x g') -> own_op workers X e g Q -> own_op workers X e g Q'.
Proof.
  intros HQ (Hh & Hc & H). split; [done|]. split; [done|]. clear Hh Hc.
  destruct e as [[[[[[e|]|]|]|]|]|]; simpl in *; [|naive_solver..].
  revert Q Q' HQ H. destruct e; simpl; naive_solver.
Qed.

Definition ownership (workers : Z) : logic consumerE owns := {|
  op := own_op workers;
  op_mono := own_op_mono workers;
  fork := fun g gp gc => role_ g <> Worker /\
    gp = mkOwns None None (role_ g) /\ gc = mkOwns (slot g) (counted g) Worker;
  turn := fun _ => True;
  fin := fun g => slot g = None /\ counted g = None /\
    (role_ g = Fresh \/ role_ g = Drained \/ role_ g = Worker)
|}.

(** ** The invariant *)

Definition holds_slot (sem : nat) (g : owns) : bool := bool_decide (slot g = Some sem).
Definition holds_count (wg : nat) (g : owns) : bool := bool_decide (counted g = Some wg).

(** What the role of the session's goroutine says about the shared state and the others. *)
Definition stage (workers : Z) (r : role) (s : slots) (gs : list owns) : Prop :=
  match r with
  | Fresh => forall i g, gs !! i = Some g -> slot g = None /\ counted g = None
  | HasSem sem => (forall i g, gs !! i = Some g -> slot g = None /\ counted g = None) /\
      sems s !! sem = Some (workers, O)
  | Dispatching sem wg =>
      (forall i g, gs !! i = Some g ->
         (slot g = None \/ slot g = Some sem) /\ (counted g = None \/ counted g = Some wg)) /\
      sems s !! sem = Some (workers, count (holds_slot sem) gs) /\
      Z.of_nat (count (holds_slot sem) gs) <= workers /\
      wgs s !! wg = Some (count (holds_count wg) gs)
  | Drained => forall i g, gs !! i = Some g -> counted g = None
  | Worker => False
  end.

Definition sess_inv (workers : Z) (s : slots) (gs : list owns) : Prop :=
  (forall i g, gs !! i = Some g -> i <> O -> role_ g = Worker) /\
  exists g0, gs !! O = Some g0 /\ stage workers (role_ g0) s gs.

(** ** Preservation *)

(** Splits a lookup in a list that was updated at [i]. *)
Ltac at_index j g Hj :=
  intros j g Hj; apply list_lookup_insert_Some in Hj as [(<- & <- & _)|(? & Hj)].

Section preservation.
Context (workers : Z).

Lemma session_index s gs i g :
  sess_inv workers s gs -> gs !! i = Some g -> role_ g <> Worker -> i = O.
Proof. intros [Hw _] Hi Hr. destruct (decide (i = O)); [done|]. by destruct Hr; eapply Hw. Qed.

(** An update of the session's own goroutine. *)
Lemma sess_inv_main s s' gs g g' :
  sess_inv workers s gs -> gs !! O = Some g ->
  (stage workers (role_ g) s gs -> stage workers (role_ g') s' (<[O := g']> gs)) ->
  sess_inv workers s' (<[O := g']> gs).
Proof.
  intros (Hw & g0 & H0 & Hs) Hg Hstage. simplify_eq. split.
  - at_index j g1 Hj; [done|]. eauto.
  - exists g'. split; [|by apply Hstage]. apply list_lookup_insert_eq. by eapply lookup_lt_Some.
Qed.

(** An update of a goroutine that keeps its role. *)
Lemma sess_inv_keep s s' gs i g g' :
  sess_inv workers s gs -> gs !! i = Some g -> role_ g' = role_ g ->
  (forall r, stage workers r s gs -> stage workers r s' (<[i := g']> gs)) ->
  sess_inv workers s' (<[i := g']> gs).
Proof.
  intros (Hw & g0 & H0 & Hs) Hi Hr Hstage. split.
  - at_index j g1 Hj; [|by eauto]. intros. rewrite Hr. eauto.
  - destruct (decide (i = O)) as [->|].
    + simplify_eq. exists g'. rewrite Hr. split; [|by apply Hstage].
      apply list_lookup_insert_eq. by eapply lookup_lt_Some.
    + exists g0. split; [by rewrite list_lookup_insert_ne|]. by apply Hstage.
Qed.

Lemma release_stage s gs i g sem n used r :
  gs !! i = Some g -> slot g = Some sem -> sems s !! sem = Some (n, Datatypes.S used) ->
  stage workers r s gs ->
  stage workers r (mkSlots (<[sem := (n, used)]> (sems s)) (wgs s))
    (<[i := mkOwns None (counted g) (role_ g)]> gs).
Proof.
  intros Hi Hslot Hsem. destruct r as [|sem'|sem' wg'| |]; simpl.
  - intros H. destruct (H _ _ Hi); congruence.
  - intros [H _]. destruct (H _ _ Hi); congruence.
  - intros (H & Hs & Hle & Hw). destruct (H _ _ Hi) as [[|Heq] Hc]; [congruence|].
    assert (sem' = sem) as -> by congruence.
    pose proof (count_insert (holds_slot sem) gs i g (mkOwns None (counted g) (role_ g)) Hi) as Hn.
    pose proof (count_insert (holds_count wg') gs i g (mkOwns None (counted g) (role_ g)) Hi) as Hn'.
    unfold holds_slot, holds_count in Hn, Hn'. simpl in Hn, Hn'.
    rewrite (bool_decide_true (slot g = _)) in Hn by done. simpl in Hn.
    fold (holds_slot sem) in Hn. fold (holds_count wg') in Hn'.
    split_and!.
    + at_index j g1 Hj; [simpl; auto|eauto].
    + rewrite lookup_insert_eq. rewrite Hs in Hsem. simplify_eq. f_equal. f_equal. lia.
    + lia.
    + rewrite Hw. f_equal. lia.
  - intros H. at_index j g1 Hj; [exact (H _ _ Hi)|eauto].
  - done.
Qed.

Lemma done_stage s gs i g wg n r :
  gs !! i = Some g -> counted g = Some wg -> wgs s !! wg = Some (Datatypes.S n) ->
  stage workers r s gs ->
  stage workers r (mkSlots (sems s) (<[wg := n]> (wgs s)))
    (<[i := mkOwns (slot g) None (role_ g)]> gs).
Proof.
  intros Hi Hcount Hwg. destruct r as [|sem'|sem' wg'| |]; simpl.
  - intros H. destruct (H _ _ Hi); congruence.
  - intros [H _]. destruct (H _ _ Hi); congruence.
  - intros (H & Hs & Hle & Hw). destruct (H _ _ Hi) as [Hc [|Heq]]; [congruence|].
    assert (wg' = wg) as -> by congruence.
    pose proof (count_insert (holds_slot sem') gs i g (mkOwns (slot g) None (role_ g)) Hi) as Hn.
    pose proof (count_insert (holds_count wg) gs i g (mkOwns (slot g) None (role_ g)) Hi) as Hn'.
    unfold holds_slot, holds_count in Hn, Hn'. simpl in Hn, Hn'.
    rewrite (bool_decide_true (counted g = _)) in Hn' by done. simpl in Hn'.
    fold (holds_slot sem') in Hn. fold (holds_count wg) in Hn'.
    split_and!.
    + at_index j g1 Hj; [simpl; auto|eauto].
    + rewrite Hs. f_equal. f_equal. lia.
    + lia.
    + rewrite lookup_insert_eq. rewrite Hw in Hwg. simplify_eq. f_equal. lia.
  - intros H. specialize (H _ _ Hi). congruence.
  - done.
Qed.

Lemma acquire_stage s gs g sem wg n used :
  gs !! O = Some g -> role_ g = Dispatching sem wg -> slot g = None ->
  sems s !! sem = Some (n, used) -> Z.of_nat used < n ->
  stage workers (role_ g) s gs ->
  stage workers (role_ g) (mkSlots (<[sem := (n, Datatypes.S used)]> (sems s)) (wgs s))
    (<[O := mkOwns (Some sem) (counted g) (role_ g)]> gs).
Proof.
  intros Hi Hr Hslot Hsem Hlt. rewrite Hr. intros (H & Hs & Hle & Hw). destruct (H _ _ Hi) as [_ Hc].
  pose proof (count_insert (holds_slot sem) gs O g (mkOwns (Some sem) (counted g) (role_ g)) Hi) as Hn.
  pose proof (count_insert (holds_count wg) gs O g (mkOwns (Some sem) (counted g) (role_ g)) Hi) as Hn'.
  unfold holds_slot, holds_count in Hn, Hn'. simpl in Hn, Hn'.
  rewrite (bool_decide_false (slot g = _)), (bool_decide_true (Some sem = _)) in Hn by congruence.
  simpl in Hn. fold (holds_slot sem) in Hn. fold (holds_count wg) in Hn'. rewrite Hr in Hn, Hn'.
  simpl. simplify_eq. split_and!.
  - at_index j g1 Hj; [simpl; auto|eauto].
  - rewrite lookup_insert_eq. do 2 f_equal. lia.
  - lia.
  - rewrite Hw. f_equal. lia.
Qed.

Lemma add_stage s gs g sem wg n :
  gs !! O = Some g -> role_ g = Dispatching sem wg -> counted g = None -> wgs s !! wg = Some n ->
  stage workers (role_ g) s gs ->
  stage workers (role_ g) (mkSlots (sems s) (<[wg := Datatypes.S n]> (wgs s)))
    (<[O := mkOwns (slot g) (Some wg) (role_ g)]> gs).
Proof.
  intros Hi Hr Hcount Hwg. rewrite Hr. intros (H & Hs & Hle & Hw). destruct (H _ _ Hi) as [Hc _].
  pose proof (count_insert (holds_slot sem) gs O g (mkOwns (slot g) (Some wg) (role_ g)) Hi) as Hn.
  pose proof (count_insert (holds_count wg) gs O g (mkOwns (slot g) (Some wg) (role_ g)) Hi) as Hn'.
  unfold holds_slot, holds_count in Hn, Hn'. simpl in Hn, Hn'.
  rewrite (bool_decide_false (counted g = _)), (bool_decide_true (Some wg = _)) in Hn' by congruence.
  simpl in Hn'. fold (holds_slot sem) in Hn. fold (holds_count wg) in Hn'. rewrite Hr in Hn, Hn'.
  simpl. simplify_eq. split_and!.
  - at_index j g1 Hj; [simpl; auto|eauto].
  - rewrite Hs. do 2 f_equal. lia.
  - lia.
  - rewrite lookup_insert_eq. f_equal. lia.
Qed.

Context (workers_nonneg : 0 <= workers).

Lemma begin_stage s gs g sem wg :
  gs !! O = Some g -> role_ g = HasSem sem ->
  stage workers (role_ g) s gs ->
  stage workers (Dispatching sem wg) (mkSlots (sems s) (<[wg := O]> (wgs s)))
    (<[O := mkOwns (slot g) (counted g) (Dispatching sem wg)]> gs).
Proof.
  intros Hi Hr. rewrite Hr. simpl. intros [H Hs].
  assert (H' : forall j g1, <[O := mkOwns (slot g) (counted g) (Dispatching sem wg)]> gs !! j = Some g1 ->
    slot g1 = None /\ counted g1 = None) by (at_index j g1 Hj; [exact (H _ _ Hi)|eauto]).
  rewrite !(count_none _ (<[O := _]> gs)).
  - split_and!; [|by rewrite Hs| |by rewrite lookup_insert_eq].
    + intros j g1 Hj. destruct (H' _ _ Hj). auto.
    + exact workers_nonneg.
  - intros j g1 Hj. destruct (H' _ _ Hj) as [_ Hc]. unfold holds_count. by rewrite Hc.
  - intros j g1 Hj. destruct (H' _ _ Hj) as [Hc _]. unfold holds_slot. by rewrite Hc.
Qed.

Lemma drained_stage s gs g g' sem wg :
  gs !! O = Some g -> role_ g = Dispatching sem wg -> wgs s !! wg = Some O -> counted g' = None ->
  stage workers (role_ g) s gs -> forall j g1, <[O := g']> gs !! j = Some g1 -> counted g1 = None.
Proof.
  intros Hi Hr Hw Hc. rewrite Hr. simpl. intros (H & Hs & Hle & Hw'). rewrite Hw in Hw'. simplify_eq.
  at_index j g1 Hj; [done|]. destruct (H _ _ Hj) as [_ [?|Hg]]; [done|].
  exfalso. symmetry in Hw'. pose proof (count_zero _ _ _ _ Hw' Hj) as Hz. unfold holds_count in Hz.
  by rewrite Hg, bool_decide_true in Hz.
Qed.

Lemma own_inv_op s gs i g X (e : consumerE X) Q x s' :
  sess_inv workers s gs -> gs !! i = Some g -> own_op workers X e g Q -> slots_sem X e s x s' ->
  exists g', Q x g' /\ sess_inv workers s' (<[i := g']> gs).
Proof.
  intros Hinv Hi (_ & _ & Hop) Hsem.
  assert (Hsame : s' = s -> Q x g -> exists g', Q x g' /\ sess_inv workers s' (<[i := g']> gs)).
  { intros -> HQ. exists g. by rewrite list_insert_id. }
  destruct e as [[[[[[e|]|]|]|]|]|]; simpl in Hop, Hsem; [|by apply Hsame..].
  destruct e; simpl in Hop, Hsem; try by apply Hsame.
  - (* SemSelect *)
    destruct Hop as ([wg Hr] & Hslot & Ha & Hd & Hc).
    destruct x as [| |e]; [|by apply Hsame..].
    destruct Hsem as (n & used & Hs & Hlt & ->). eexists. split; [exact Ha|].
    assert (i = O) as -> by (eapply session_index; [done..|congruence]).
    eapply sess_inv_main; [done..|]. simpl. by eapply acquire_stage.
  - (* SemMake *)
    destruct Hop as (-> & Hr & HQ). destruct Hsem as [Hfresh ->]. eexists. split; [apply HQ|].
    assert (i = O) as -> by (eapply session_index; [done..|congruence]).
    eapply sess_inv_main; [done..|]. rewrite Hr. simpl. intros H. split; [|by rewrite lookup_insert_eq].
    at_index j g1 Hj; [exact (H _ _ Hi)|eauto].
  - (* SemRelease *)
    destruct Hop as [Hslot HQ]. destruct Hsem as (n & used & Hs & ->). destruct x. eexists. split; [exact HQ|].
    eapply sess_inv_keep; [done..|]. intros r. by eapply release_stage.
  - (* InflightMake *)
    destruct Hop as (sem & Hr & HQ). destruct Hsem as [Hfresh ->]. eexists. split; [apply HQ|].
    assert (i = O) as -> by (eapply session_index; [done..|congruence]).
    eapply sess_inv_main; [done..|]. simpl. by eapply begin_stage.
  - (* InflightAdd *)
    destruct Hop as ([sem Hr] & Hc & HQ). destruct Hsem as (n & Hw & ->). destruct x. eexists. split; [exact HQ|].
    assert (i = O) as -> by (eapply session_index; [done..|congruence]).
    eapply sess_inv_main; [done..|]. simpl. by eapply add_stage.
  - (* InflightDone *)
    destruct Hop as [Hc HQ]. destruct Hsem as (n & Hw & ->). destruct x. eexists. split; [exact HQ|].
    eapply sess_inv_keep; [done..|]. intros r. by eapply done_stage.
  - (* InflightWait *)
    destruct Hop as ([sem Hr] & Hc & HQ). destruct Hsem as [Hw ->]. destruct x. eexists. split; [exact HQ|].
    assert (i = O) as -> by (eapply session_index; [done..|congruence]).
    eapply sess_inv_main; [done..|]. simpl. by eapply drained_stage.
Qed.

Lemma own_inv_fork s gs i g gp gc :
  sess_inv workers s gs -> gs !! i = Some g -> fork (ownership workers) g gp gc ->
  sess_inv workers s (<[i := gp]> gs ++ [gc]).
Proof.
  intros Hinv Hi (Hr & -> & ->). assert (i = O) as -> by by eapply session_index.
  destruct Hinv as (Hw & g0 & H0 & Hs). assert (g0 = g) as -> by congruence. clear H0.
  assert (Hlt : (0 < length gs)%nat) by by eapply lookup_lt_Some.
  assert (Hall : forall j g1, (<[O := mkOwns None None (role_ g)]> gs ++ [mkOwns (slot g) (counted g) Worker]) !! j
      = Some g1 -> (exists g2, gs !! O = Some g2 /\ g1 = mkOwns None None (role_ g2)) \/
                   (exists g2, gs !! O = Some g2 /\ g1 = mkOwns (slot g2) (counted g2) Worker) \/
                   (j <> O /\ gs !! j = Some g1)).
  { intros j g1 Hj. apply lookup_app_Some in Hj as [Hj|[_ Hj]].
    - apply list_lookup_insert_Some in Hj as [(<- & <- & _)|(? & Hj)]; eauto.
    - apply list_lookup_singleton_Some in Hj as [_ <-]. eauto. }
  assert (Hcount : forall P, (forall r r', P (mkOwns (slot g) (counted g) r) = P (mkOwns (slot g) (counted g) r')) ->
    P (mkOwns None None (role_ g)) = false -> P g = P (mkOwns (slot g) (counted g) (role_ g)) ->
    count P (<[O := mkOwns None None (role_ g)]> gs ++ [mkOwns (slot g) (counted g) Worker]) = count P gs).
  { intros P HP Hnone Hg. rewrite count_app.
    pose proof (count_insert P gs O g (mkOwns None None (role_ g)) Hi) as Hn. rewrite Hnone in Hn.
    assert (count P [mkOwns (slot g) (counted g) Worker] = Nat.b2n (P g)) as ->.
    { unfold count. simpl. rewrite (HP Worker (role_ g)), <- Hg. by destruct (P g). }
    simpl in Hn. lia. }
  split.
  - intros j g1 Hj Hne. destruct (Hall _ _ Hj) as [(g2 & H2 & ->)|[(g2 & H2 & ->)|(_ & Hj')]]; [|done|eauto].
    exfalso. apply lookup_app_Some in Hj as [Hj|[_ Hj]].
    + apply list_lookup_insert_Some in Hj as [(? & _)|(_ & Hj)]; [done|].
      assert (g2 = g) as -> by congruence. specialize (Hw _ _ Hj Hne). simpl in Hw. congruence.
    + apply list_lookup_singleton_Some in Hj as [_ Hj]. simplify_eq.
  - exists (mkOwns None None (role_ g)). split.
    { rewrite lookup_app_l by by rewrite length_insert. by apply list_lookup_insert_eq. }
    simpl. destruct (role_ g) as [|sem|sem wg| |] eqn:Hrole; simpl in *.
    + intros j g1 Hj. destruct (Hall _ _ Hj) as [(g2 & H2 & ->)|[(g2 & H2 & ->)|(_ & Hj')]];
        [done|exact (Hs _ _ H2)|exact (Hs _ _ Hj')].
    + destruct Hs as [H Hsem]. split; [|done].
      intros j g1 Hj. destruct (Hall _ _ Hj) as [(g2 & H2 & ->)|[(g2 & H2 & ->)|(_ & Hj')]];
        [done|exact (H _ _ H2)|exact (H _ _ Hj')].
    + destruct Hs as (H & Hsem & Hle & Hwg).
      rewrite !Hcount by (unfold holds_slot, holds_count; simpl; first [done | by rewrite bool_decide_false]).
      split_and!; [|done..].
      intros j g1 Hj. destruct (Hall _ _ Hj) as [(g2 & H2 & ->)|[(g2 & H2 & ->)|(_ & Hj')]];
        [simpl; auto|exact (H _ _ H2)|exact (H _ _ Hj')].
    + intros j g1 Hj. destruct (Hall _ _ Hj) as [(g2 & H2 & ->)|[(g2 & H2 & ->)|(_ & Hj')]];
        [done|exact (Hs _ _ H2)|exact (Hs _ _ Hj')].
    + done.
Qed.
End preservation.

(** ** The session obeys the logic *)

(** Operations that touch neither semaphores nor wait groups. *)
Definition foreign {X} (e : consumerE X) : bool :=
  match e with
  | inl1 (inl1 (inl1 (inl1 (inl1 (inl1 c))))) =>
      match c with
      | SemMake _ | SemSelect _ _ _ | SemRelease _ | InflightMake | InflightAdd _ | InflightDone _
      | InflightWait _ => false
      | _ => true
      end
  | _ => true
  end.

Definition handling_op (X : Type) (e : consumerE X) : Prop := foreign e = true /\ closes e = false.
Definition quiet_op (X : Type) (e : consumerE X) : Prop :=
  foreign e = true /\ closes e = false /\ handles e = false.

Lemma own_op_foreign workers X (e : consumerE X) g (Q : X -> owns -> Prop) :
  foreign e = true -> closes e = false -> (handles e = true -> slot g <> None /\ counted g <> None) ->
  (forall x, Q x g) -> own_op workers X e g Q.
Proof.
  intros Hf Hc Hh HQ. split; [done|]. split; [by rewrite Hc|].
  destruct e as [[[[[[e|]|]|]|]|]|]; [|done..]. destruct e; done.
Qed.

Lemma own_op_cons workers X (e : consE X) g (Q : X -> owns -> Prop) :
  own_cons workers e g Q -> op (ownership workers) X (inject (E := consE) (F := consumerE) e) g Q.
Proof. intros H. split; [done|]. split; [done|exact H]. Qed.

Lemma own_op_close workers ch g (Q : unit -> owns -> Prop) :
  role_ g = Fresh \/ role_ g = Drained -> Q tt g ->
  op (ownership workers) unit (inject (E := amqpE) (F := consumerE) (ChClose ch)) g Q.
Proof. intros Hr HQ. split; [done|]. split; [done|]. by intros []. Qed.

Lemma handleDelivery_ops c ch q key msg :
  retryPublish c = None -> all_ops handling_op (handleDelivery c ch q key msg userHandler).
Proof.
  intros no_hook.
  unfold handleDelivery, callHandler, userHandler, handleHandlerError, publishRetry, republishWithRetry.
  rewrite no_hook.
  apply all_ops_bind; [by destruct (instrIsNop _)|]. intros [[hctx end_] msg1].
  apply all_ops_bind; [split; [done|]; by intros [[err|r] hh hb]|].
  intros [[e|] msg2]; (apply all_ops_bind; [|by destruct end_]); [|done].
  apply all_ops_bind; [done|]. intros _.
  destruct (_ || _); [by destruct (_ && _)|].
  apply all_ops_bind; [|by intros [?|]].
  simpl. destruct (NextRetryHeaders _ _); [|done].
  split; [done|]. intros [[?|]|?]; [split; [done|]; intros [[]|?]| |]; done.
Qed.

Lemma usableConnection_ops : all_ops quiet_op usableConnection.
Proof. unfold usableConnection, currentConnection. repeat (split; [done|]; intros []); done. Qed.

Lemma setupSession_ops c ch prefetch q key : all_ops quiet_op (setupSession c ch prefetch q key).
Proof.
  unfold setupSession, declareConsumerTopology, declareQueueTopology, declareQueue.
  destruct (bool_decide _), (Config.DisableDeadLetter _); simpl;
    repeat first [done | split; [done|]; intros []]; done.
Qed.

Section session.
Context (workers : Z) (c : Consumer.t) (q key : string).
Hypothesis no_hook : retryPublish c = None.

Lemma worker_cwp ch sem wg msg :
  cwp (ownership workers) (worker c ch q key userHandler sem wg msg) (mkOwns (Some sem) (Some wg) Worker)
    (fun _ g => fin (ownership workers) g).
Proof.
  unfold worker. apply cwp_bind.
  apply (cwp_all_ops _ handling_op); [|done|by apply handleDelivery_ops|].
  - intros X e Q [Hf Hc] HQ. by apply own_op_foreign.
  - intros _. apply cwp_op, own_op_cons. split; [done|].
    apply cwp_trigger, own_op_cons. split; [done|]. simpl. auto.
Qed.

Lemma dispatch_cwp ch msgs chanClose sem wg (Q : error -> owns -> Prop) :
  (forall err, Q err (mkOwns None None (Dispatching sem wg))) ->
  cwp (ownership workers) (loop (dispatch_round c ch q key userHandler msgs chanClose sem wg) tt)
    (mkOwns None None (Dispatching sem wg)) Q.
Proof.
  intros HQ. exists (fun _ g => g = mkOwns None None (Dispatching sem wg)). split; [done|].
  intros [] g1 ->. split; [done|]. unfold dispatch_round. apply cwp_op.
  apply own_op_foreign; [done..|]. intros [|closeErr|[msg|]]; [apply HQ|apply HQ| |apply HQ].
  apply cwp_op, own_op_cons. split; [by exists wg|]. split; [done|].
  split; [|split; [apply HQ|intros e; apply HQ]].
  apply cwp_op, own_op_cons. split; [by exists sem|]. split; [done|].
  exists (mkOwns None None (Dispatching sem wg)), (mkOwns (Some sem) (Some wg) Worker).
  split; [done|]. split; [apply worker_cwp|done].
Qed.

Lemma session_cwp :
  cwp (ownership workers) (bind (consumeOnceConcurrent c q key workers userHandler) (fun _ => Ret tt))
    (mkOwns None None Fresh) (fun _ g => fin (ownership workers) g).
Proof.
  assert (Hquiet : forall X (e : consumerE X) (Q : X -> owns -> Prop),
    quiet_op X e -> (forall x, Q x (mkOwns None None Fresh)) ->
    own_op workers X e (mkOwns None None Fresh) Q).
  { intros X e Q (Hf & Hc & Hh) HQ. apply own_op_foreign; [done..| |done]. by rewrite Hh. }
  assert (Hclose : forall ch g (err : error), slot g = None -> counted g = None ->
    role_ g = Fresh \/ role_ g = Drained ->
    cwp (ownership workers) (bind (trigger (ChClose ch)) (fun _ => Ret (Some err))) g
      (fun _ g' => cwp (ownership workers) (Ret tt) g' (fun _ g => fin (ownership workers) g))).
  { intros ch g err Hs Hc Hr. apply cwp_op, own_op_close; [done|]. simpl. tauto. }
  apply cwp_bind. unfold consumeOnceConcurrent. apply cwp_bind.
  apply (cwp_all_ops _ quiet_op); [exact Hquiet|done|apply usableConnection_ops|].
  intros [conn|]; [|simpl; auto].
  apply cwp_op. apply Hquiet; [done|]. intros [ch|e]; [|simpl; auto].
  apply cwp_bind. cbv zeta. apply cwp_bind.
  apply (cwp_all_ops _ quiet_op); [exact Hquiet|done|apply setupSession_ops|].
  intros [[msgs chanClose]|e]; [|apply Hclose; auto].
  apply cwp_op. apply Hquiet; [done|]. intros _.
  apply cwp_op, own_op_cons. split; [done|]. split; [done|]. intros sem.
  apply cwp_op, own_op_cons. exists sem. split; [done|]. intros wg.
  apply cwp_bind, dispatch_cwp. intros err.
  apply cwp_op, own_op_cons. split; [by exists sem|]. split; [done|].
  apply Hclose; auto.
Qed.
End session.

(** ** Properties *)

(** The session as a goroutine of its own. *)
Definition session_thread (config : Config.t) (pctx : context) (q key : string) (workers : Z)
  : prog consumerE unit :=
  bind (consumeOnceConcurrent (consumerOf config pctx) q key workers userHandler) (fun _ => Ret tt).

(** How many goroutines are handling a delivery: calling the handler, publishing a retry copy,
    waiting for its confirmation, or acknowledging. *)
Definition handling_count (ts : list (prog consumerE unit)) : nat :=
  length (List.filter handling_now ts).

Lemma filter_count (R : prog consumerE unit -> owns -> Prop) (f : prog consumerE unit -> bool)
    (P : owns -> bool) ts gs :
  Forall2 R ts gs -> (forall p g, R p g -> f p = true -> P g = true) ->
  (length (List.filter f ts) <= count P gs)%nat.
Proof.
  intros Hts HP. unfold count. induction Hts as [|p g ts gs Hp _ IH]; simpl; [done|].
  destruct (f p) eqn:Hf; simpl.
  - rewrite (HP p g Hp Hf). simpl. lia.
  - destruct (P g); simpl; lia.
Qed.

Lemma handling_owns workers p g (Q : unit -> owns -> Prop) :
  cwp (ownership workers) p g Q -> handling_now p = true -> slot g <> None /\ counted g <> None.
Proof. destruct p as [|X e k| |]; simpl; [done| |done|done]. intros (Hh & _). exact Hh. Qed.

Lemma closing_owns workers p g (Q : unit -> owns -> Prop) :
  cwp (ownership workers) p g Q -> closing_now p = true -> role_ g = Fresh \/ role_ g = Drained.
Proof. destruct p as [|X e k| |]; simpl; [done| |done|done]. intros (_ & Hc & _). exact Hc. Qed.

Section reachable.
Context (config : Config.t) (pctx : context) (q key : string) (workers : Z).
Context (ts : list (prog consumerE unit)) (s : slots).
Hypothesis workers_nonneg : 0 <= workers.
Hypothesis ts_reachable :
  reachable slots_sem ([session_thread config pctx q key workers], mkSlots ∅ ∅) (ts, s).

Lemma session_reachable :
  exists gs, threads_ok (ownership workers) ts gs /\ sess_inv workers s gs.
Proof.
  eapply (adequacy slots_sem (ownership workers) (sess_inv workers)); [| |exact ts_reachable| |].
  - intros s0 gs i g X e Q x s' Hinv Hi Hop Hsem.
    exact (own_inv_op workers workers_nonneg s0 gs i g X e Q x s' Hinv Hi Hop Hsem).
  - intros s0 gs i g gp gc Hinv Hi Hf. exact (own_inv_fork workers s0 gs i g gp gc Hinv Hi Hf).
  - constructor; [by apply session_cwp|constructor].
  - split.
    + intros [|i] g Hi; [done|]. by destruct i.
    + exists (mkOwns None None Fresh). split; [done|]. intros [|i] g Hi; [by simplify_eq/=|]. by destruct i.
Qed.

(** No goroutine handles a delivery when nobody holds a count. *)
Lemma no_handling gs :
  threads_ok (ownership workers) ts gs -> (forall i g, gs !! i = Some g -> counted g = None) ->
  handling_count ts = O.
Proof.
  intros Hok Hnone. enough (handling_count ts <= count (fun g => bool_decide (counted g <> None)) gs)%nat.
  { rewrite count_none in H; [lia|]. intros i g Hi. apply bool_decide_false. intros Hc. by apply Hc, (Hnone i). }
  eapply filter_count; [exact Hok|]. intros p g Hp Hh. apply bool_decide_true.
  by destruct (handling_owns _ _ _ _ Hp Hh).
Qed.

(** C31: At most [workers] deliveries are handled at the same time, in every interleaving of the
    session with its workers and for every behaviour of the broker and the handler. *)
Theorem workers_bounded : Z.of_nat (handling_count ts) <= workers.
Proof.
  destruct session_reachable as (gs & Hok & Hw & g0 & H0 & Hs).
  destruct (role_ g0) as [|sem|sem wg| |]; simpl in Hs.
  - rewrite (no_handling gs Hok); [lia|]. intros i g Hi. apply (Hs i g Hi).
  - rewrite (no_handling gs Hok); [lia|]. intros i g Hi. apply (proj1 Hs i g Hi).
  - destruct Hs as (H & _ & Hle & _).
    enough (handling_count ts <= count (holds_slot sem) gs)%nat by lia.
    assert (Heq : count (holds_slot sem) gs = count (fun g => bool_decide (slot g <> None)) gs).
    { unfold count. f_equal. apply filter_ext_in. intros g Hin.
      apply list_elem_of_In, list_elem_of_lookup in Hin as [i Hi]. unfold holds_slot.
      apply bool_decide_ext. destruct (H i g Hi) as [[-> | ->] _]; naive_solver. }
    rewrite Heq. eapply filter_count; [exact Hok|]. intros p g Hp Hh. apply bool_decide_true.
    by destruct (handling_owns _ _ _ _ Hp Hh).
  - rewrite (no_handling gs Hok); [lia|]. exact Hs.
  - done.
Qed.

(** C32: The channel outlives the handlers.  In every interleaving, when some goroutine is about
    to close a channel, and once the session has ended, no goroutine is handling a delivery:
    no acknowledgement or retry publish can meet the closed channel. *)
Theorem drained_before_close i p :
  ts !! i = Some p -> closing_now p = true \/ i = O /\ ended p = true -> handling_count ts = O.
Proof.
  intros Hi Hp. destruct session_reachable as (gs & Hok & Hw & g0 & H0 & Hs).
  destruct (Forall2_lookup_l _ _ _ _ _ Hok Hi) as (g & Hg & Hwp).
  assert (Hr : role_ g = Fresh \/ role_ g = Drained \/ role_ g = Worker /\ i = O).
  { destruct Hp as [Hc|[-> He]].
    - destruct (closing_owns _ _ _ _ Hwp Hc); auto.
    - destruct p; try done. destruct Hwp as (_ & _ & [?|[?|?]]); auto. }
  assert (i = O) as -> by (destruct (decide (i = O)) as [|Hne]; [done|];
    specialize (Hw i g Hg Hne); intuition congruence).
  assert (g0 = g) as -> by congruence.
  apply (no_handling gs Hok). destruct Hr as [Hr|[Hr|[Hr _]]]; rewrite Hr in Hs; simpl in Hs.
  - intros j g1 Hj. apply (Hs j g1 Hj).
  - exact Hs.
  - done.
Qed.
End reachable.

(** ** Concrete interleavings *)

(** A scheduler's environment: semaphores and wait groups as in Go, the select of the session
    answers [ev], everything else is good. *)
Definition slots_cons_exec (ev : session_event) {X} (e : consE X) (s : slots) : option (X * slots) :=
  match e with
  | SemMake n => let sem := O in
      match sems s !! sem with
      | None => Some (sem, mkSlots (<[sem := (n, O)]> (sems s)) (wgs s))
      | Some _ => None
      end
  | SemSelect sem _ _ =>
      match sems s !! sem with
      | Some (n, used) =>
          if Z.ltb (Z.of_nat used) n
          then Some (Acquired, mkSlots (<[sem := (n, Datatypes.S used)]> (sems s)) (wgs s)) else None
      | None => None
      end
  | SemRelease sem =>
      match sems s !! sem with
      | Some (n, Datatypes.S used) => Some (tt, mkSlots (<[sem := (n, used)]> (sems s)) (wgs s))
      | _ => None
      end
  | InflightMake => let wg := O in
      match wgs s !! wg with
      | None => Some (wg, mkSlots (sems s) (<[wg := O]> (wgs s)))
      | Some _ => None
      end
  | InflightAdd wg =>
      match wgs s !! wg with
      | Some n => Some (tt, mkSlots (sems s) (<[wg := Datatypes.S n]> (wgs s)))
      | None => None
      end
  | InflightDone wg =>
      match wgs s !! wg with
      | Some (Datatypes.S n) => Some (tt, mkSlots (sems s) (<[wg := n]> (wgs s)))
      | _ => None
      end
  | InflightWait wg =>
      match wgs s !! wg with
      | Some O => Some (tt, s)
      | _ => None
      end
  | SessionSelect _ _ _ => Some (ev, s)
  | e => Some (good_cons e, s)
  end.

Definition slots_exec (ev : session_event) : handler consumerE slots := fun X e s =>
  match e with
  | inl1 (inl1 (inl1 (inl1 (inl1 (inl1 c))))) => slots_cons_exec ev c s
  | e => Some (script (Returned None) as_usual as_before X e [], s)
  end.

Lemma slots_exec_sem ev X (e : consumerE X) s x s' :
  slots_exec ev X e s = Some (x, s') -> slots_sem X e s x s'.
Proof.
  destruct e as [[[[[[e|]|]|]|]|]|]; simpl; [|naive_solver..].
  destruct e; simpl; intros H; repeat case_match; simplify_eq; simpl; eauto 10.
  match goal with H : Z.ltb _ _ = true |- _ => apply Z.ltb_lt in H; eauto 10 end.
Qed.

(** A schedule in which the broker delivers until [stop] steps are left. *)
Definition interleaving (workers : Z) (stop : nat) (sched : list nat)
  : option (list (prog consumerE unit) * slots) :=
  schedule (fun n => slots_exec (if Nat.leb n stop then SessionDone
                                 else SessionDelivery (Some (example_delivery None)))) sched
    ([session_thread (normalize example_config) Background "users" "user.*" workers], mkSlots ∅ ∅).

(** The session and the goroutines it started, after the schedule. *)
Definition interleaved (workers : Z) (stop : nat) (sched : list nat)
  : list (prog consumerE unit) * slots := default ([], mkSlots ∅ ∅) (interleaving workers stop sched).

Lemma interleaved_reachable workers stop sched :
  match interleaving workers stop sched with Some _ => true | None => false end = true ->
  reachable slots_sem ([session_thread (normalize example_config) Background "users" "user.*" workers],
    mkSlots ∅ ∅) (interleaved workers stop sched).
Proof.
  unfold interleaved. destruct (interleaving _ _ _) as [cfg'|] eqn:Hs; [|done]. intros _. simpl.
  eapply (schedule_reachable slots_sem); [|exact Hs]. intros n. apply slots_exec_sem.
Qed.

(** Two deliveries are being handled, by goroutines 1 and 2, of at most two. *)
Definition two_handling : list nat := repeat 0%nat 27.

Lemma workers_bounded_witness :
  handling_count (interleaved 2 0 two_handling).1 = 2%nat /\
  Z.of_nat (handling_count (interleaved 2 0 two_handling).1) <= 2.
Proof.
  split; [vm_compute; reflexivity|].
  apply (workers_bounded (normalize example_config) Background "users" "user.*" 2 _
    (interleaved 2 0 two_handling).2); [lia|].
  rewrite <- surjective_pairing. apply interleaved_reachable. vm_compute. reflexivity.
Defined.

(** One delivery is dispatched and handled, the context is cancelled, and the session, which
    waited for its worker, is about to close the channel. *)
Definition one_then_close : list nat := repeat 0%nat 22 ++ repeat 1%nat 4 ++ repeat 0%nat 3.

Lemma drained_before_close_witness :
  option_map closing_now ((interleaved 2 2 one_then_close).1 !! O) = Some true /\
  handling_count (interleaved 2 2 one_then_close).1 = O.
Proof.
  split; [vm_compute; reflexivity|].
  apply (drained_before_close (normalize example_config) Background "users" "user.*" 2 _
    (interleaved 2 2 one_then_close).2) with O
    (default (Ret tt) ((interleaved 2 2 one_then_close).1 !! O)); [lia| | |].
  - rewrite <- surjective_pairing. apply interleaved_reachable. vm_compute. reflexivity.
  - vm_compute. reflexivity.
  - left. vm_compute. reflexivity.
Defined.
