(* ===== verification/DialProps.v ===== *)
(** * DialProps: the race between the handshake and the timer in [Dial].

    The goroutines of [Dial] interleave over the result channel, a buffered Go channel of
    capacity one. *)
From S2P Require Import Prelude AmqpData Errors Prog Machine Amqp Dial Script.
Local Open Scope string_scope.
Local Open Scope list_scope.

Abbreviation netE := (dialE +' amqpE).

(** ** Semantics *)

(** The buffers of the result channels, and the connections that were opened by a handshake,
    closed, and received by a caller of [Dial]. *)
Record net : Type := mkNet {
  buffers : gmap nat (option (result conn));
  opened : list conn;
  closed : list conn;
  received : list conn
}.

Definition conn_of (res : result conn) : list conn :=
  match res with Ok c => [c] | Err _ => [] end.

Definition net_dial {X} (e : dialE X) : net -> X -> net -> Prop :=
  match e with
  | ResultMake => fun s h s' =>
      buffers s !! h = None /\
      s' = mkNet (<[h := None]> (buffers s)) (opened s) (closed s) (received s)
  | ResultTrySend h res => fun s sent s' =>
      if (sent : bool) then
        buffers s !! h = Some None /\
        s' = mkNet (<[h := Some res]> (buffers s)) (opened s) (closed s) (received s)
      else (exists full, buffers s !! h = Some (Some full)) /\ s' = s
  | ResultOrTimeout h _ => fun s r s' =>
      match r with
      | Some res => buffers s !! h = Some (Some res) /\
          s' = mkNet (<[h := None]> (buffers s)) (opened s) (closed s) (conn_of res ++ received s)
      | None => s' = s
      end
  | DialConfig _ _ => fun s res s' =>
      (forall c, res = Ok c -> ~ In c (opened s)) /\
      s' = mkNet (buffers s) (conn_of res ++ opened s) (closed s) (received s)
  | _ => fun s _ s' => s' = s
  end.

Definition net_sem : semantics netE net := fun X e =>
  match e with
  | inl1 d => net_dial d
  | inr1 (ConnClose c) => fun s _ s' => s' = mkNet (buffers s) (opened s) (c :: closed s) (received s)
  | inr1 _ => fun s _ s' => s' = s
  end.

(** ** Ownership *)

(** A goroutine may hold the right to send on a result channel, and a connection that nobody
    else knows. *)
Record dial_owns : Type := mkDialOwns {
  sends : option nat;
  holds : option conn
}.

Definition held (res : result conn) : option conn :=
  match res with Ok c => Some c | Err _ => None end.

Definition own_dial {X} (e : dialE X) (g : dial_owns) : (X -> dial_owns -> Prop) -> Prop :=
  match e with
  | ResultMake => fun Q => forall h, Q h (mkDialOwns (Some h) (holds g))
  | ResultTrySend h res => fun Q =>
      sends g = Some h /\ holds g = held res /\ Q true (mkDialOwns None None)
  | DialConfig _ _ => fun Q => holds g = None /\ forall res, Q res (mkDialOwns (sends g) (held res))
  | _ => fun Q => forall x, Q x g
  end.

Definition own_net (X : Type) (e : netE X) (g : dial_owns) (Q : X -> dial_owns -> Prop) : Prop :=
  match e with
  | inl1 d => own_dial d g Q
  | inr1 a => match a with ConnClose _ => False | _ => True end /\ forall x, Q x g
  end.

Lemma own_net_mono X (e : netE X) g (Q Q' : X -> dial_owns -> Prop) :
  (forall x g', Q x g' -> Q' x g') -> own_net X e g Q -> own_net X e g Q'.
Proof.
  intros HQ. destruct e as [e|e]; simpl; [|naive_solver].
  revert Q Q' HQ. destruct e; simpl; naive_solver.
Qed.

Definition dialing_logic : logic netE dial_owns := {|
  op := own_net;
  op_mono := own_net_mono;
  fork := fun g gp gc => gp = mkDialOwns None None /\ gc = g;
  turn := fun _ => True;
  fin := fun g => holds g = None
|}.

(** Nothing is closed; a right to send means an empty buffer; every connection is received, or
    in a buffer, or held by a goroutine. *)
Record dial_inv (s : net) (gs : list dial_owns) : Prop := {
  inv_closed : closed s = [];
  inv_empty : forall i g h, gs !! i = Some g -> sends g = Some h -> buffers s !! h = Some None;
  inv_unique : forall i j g g' h, gs !! i = Some g -> gs !! j = Some g' ->
    sends g = Some h -> sends g' = Some h -> i = j;
  inv_opened : forall c, In c (opened s) ->
    In c (received s) \/ (exists h, buffers s !! h = Some (Some (Ok c))) \/
    (exists i g, gs !! i = Some g /\ holds g = Some c)
}.

(** ** Preservation *)

Ltac at_index j g Hj :=
  apply list_lookup_insert_Some in Hj as [(<- & <- & _)|(? & Hj)].

(** The holder of a connection survives an update of another goroutine, or of its own that
    keeps the connection. *)
Lemma holder_insert (gs : list dial_owns) (i : nat) (g g' : dial_owns) c :
  gs !! i = Some g -> (holds g = Some c -> holds g' = Some c) ->
  (exists (j : nat) g1, gs !! j = Some g1 /\ holds g1 = Some c) ->
  exists (j : nat) g1, <[i := g']> gs !! j = Some g1 /\ holds g1 = Some c.
Proof.
  intros Hi Hk (j & g1 & Hj & Hc). destruct (decide (i = j)) as [<-|Hne].
  - assert (g1 = g) as -> by congruence. exists i, g'. split; [|auto].
    apply list_lookup_insert_eq. by eapply lookup_lt_Some.
  - exists j, g1. by rewrite list_lookup_insert_ne.
Qed.

(** An operation of Dial preserves the invariant. *)
Definition dial_preserved {X} (e : dialE X) : Prop :=
  forall s gs (i : nat) g (Q : X -> dial_owns -> Prop) x s',
    dial_inv s gs -> gs !! i = Some g -> own_dial e g Q -> net_sem X (inl1 e) s x s' ->
    exists g', Q x g' /\ dial_inv s' (<[i := g']> gs).

Lemma preserved_DialConfig url cfg : dial_preserved (DialConfig url cfg).
Proof.
  intros s gs i g Q x s' [Hcl Hem Hun Hop'] Hi [Hh HQ] [Hfresh ->]. eexists. split; [apply HQ|].
  split; simpl; [done|..].
  - intros j g1 h Hj. at_index j g1 Hj; simpl; eauto.
  - intros j k g1 g2 h Hj Hk. at_index j g1 Hj; at_index k g2 Hk; simpl; eauto.
  - intros c Hc. apply in_app_iff in Hc as [Hc|Hc].
    + right; right. exists i. eexists. split; [apply list_lookup_insert_eq; by eapply lookup_lt_Some|].
      destruct x; simpl in *; naive_solver.
    + destruct (Hop' c Hc) as [?|[?|Hh']]; [auto..|]. right; right.
      eapply holder_insert; [exact Hi| |exact Hh']. congruence.
Qed.

Lemma preserved_ResultMake : dial_preserved ResultMake.
Proof.
  intros s gs i g Q x s' [Hcl Hem Hun Hop'] Hi Hop [Hfresh ->].
  eexists. split; [apply Hop|]. split; simpl; [done|..].
  - intros j g1 h Hj. at_index j g1 Hj; simpl.
    + intros [= <-]. by rewrite lookup_insert_eq.
    + intros Hs. rewrite lookup_insert_ne; [eauto|]. intros <-. specialize (Hem _ _ _ Hj Hs). congruence.
  - intros j k g1 g2 h Hj Hk. at_index j g1 Hj; at_index k g2 Hk; simpl; eauto.
    + intros [= <-] Hs. specialize (Hem _ _ _ Hk Hs). congruence.
    + intros Hs [= <-]. specialize (Hem _ _ _ Hj Hs). congruence.
  - intros c Hc. destruct (Hop' c Hc) as [?|[(h & Hb)|Hh']]; [by auto| |].
    + right; left. exists h. rewrite lookup_insert_ne; [done|]. congruence.
    + right; right. by eapply holder_insert.
Qed.

Lemma preserved_ResultTrySend h0 res : dial_preserved (ResultTrySend h0 res).
Proof.
  intros s gs i g Q x s' [Hcl Hem Hun Hop'] Hi (Hs & Hh & HQ) Hsem. pose proof (Hem _ _ _ Hi Hs) as Hb.
  simpl in Hsem. destruct x; [|destruct Hsem as [[full Hf] _]; congruence]. destruct Hsem as [_ ->].
  eexists. split; [exact HQ|]. split; simpl; [done|..].
  - intros j g1 h Hj. at_index j g1 Hj; simpl; [done|]. intros Hs1.
    rewrite lookup_insert_ne; [eauto|]. intros <-. by pose proof (Hun _ _ _ _ _ Hi Hj Hs Hs1).
  - intros j k g1 g2 h Hj Hk. at_index j g1 Hj; at_index k g2 Hk; simpl; eauto; done.
  - intros c Hc. destruct (Hop' c Hc) as [?|[(h & Hb')|(j & g1 & Hj & Hc')]]; [by auto| |].
    + right; left. exists h. rewrite lookup_insert_ne; [done|]. congruence.
    + destruct (decide (i = j)) as [<-|Hne].
      * right; left. exists h0. rewrite lookup_insert_eq. simplify_eq.
        destruct res; simpl in *; congruence.
      * right; right. exists j, g1. by rewrite list_lookup_insert_ne.
Qed.

Lemma preserved_ResultOrTimeout h0 d : dial_preserved (ResultOrTimeout h0 d).
Proof.
  intros s gs i g Q x s' Hinv Hi Hop Hsem. exists g. split; [apply Hop|].
  rewrite list_insert_id by done. simpl in Hsem. destruct x as [res|]; [|by subst].
  destruct Hsem as [Hb ->]. destruct Hinv as [Hcl Hem Hun Hop']. split; simpl; [done| |done|].
  - intros j g1 h Hj Hs. rewrite lookup_insert_ne; [eauto|]. intros <-.
    specialize (Hem _ _ _ Hj Hs). congruence.
  - intros c Hc. rewrite in_app_iff. destruct (Hop' c Hc) as [?|[(h & Hb')|?]]; [by auto| |by auto].
    destruct (decide (h = h0)) as [->|].
    + assert (res = Ok c) as -> by congruence. simpl. auto.
    + right; left. exists h. by rewrite lookup_insert_ne.
Qed.

Lemma dial_inv_op s gs (i : nat) g X (e : netE X) Q x s' :
  dial_inv s gs -> gs !! i = Some g -> own_net X e g Q -> net_sem X e s x s' ->
  exists g', Q x g' /\ dial_inv s' (<[i := g']> gs).
Proof.
  intros Hinv Hi Hop Hsem.
  assert (Hsame : s' = s -> Q x g -> exists g', Q x g' /\ dial_inv s' (<[i := g']> gs)).
  { intros -> HQ. exists g. by rewrite list_insert_id. }
  destruct e as [e|e]; simpl in Hop.
  2: { destruct Hop as [Ha HQ]. destruct e; try done; by apply Hsame. }
  destruct e; try by apply Hsame.
  - by eapply preserved_DialConfig.
  - by eapply preserved_ResultMake.
  - by eapply preserved_ResultTrySend.
  - by eapply preserved_ResultOrTimeout.
Qed.

Lemma dial_inv_fork s gs (i : nat) g gp gc :
  dial_inv s gs -> gs !! i = Some g -> fork dialing_logic g gp gc ->
  dial_inv s (<[i := gp]> gs ++ [gc]).
Proof.
  intros [Hcl Hem Hun Hop] Hi [-> ->].
  assert (Hlt : (i < length gs)%nat) by by eapply lookup_lt_Some.
  assert (Hall : forall j g1, (<[i := mkDialOwns None None]> gs ++ [g]) !! j = Some g1 ->
    g1 = mkDialOwns None None \/ (g1 = g /\ j = length gs) \/ (j <> i /\ gs !! j = Some g1)).
  { intros j g1 Hj. apply lookup_app_Some in Hj as [Hj|[Hge Hj]].
    - at_index j g1 Hj; auto.
    - apply list_lookup_singleton_Some in Hj as [Hj <-]. rewrite length_insert in *. right; left. split; [done|lia]. }
  split; [done|..].
  - intros j g1 h Hj. destruct (Hall _ _ Hj) as [->|[[-> ->]|[_ Hj']]]; simpl; [done|eauto|eauto].
  - intros j k g1 g2 h Hj Hk. destruct (Hall _ _ Hj) as [->|[[-> ->]|[Hj1 Hj']]]; [done|..];
      destruct (Hall _ _ Hk) as [->|[[-> ->]|[Hk1 Hk']]]; try done; intros H1 H2.
    + by pose proof (Hun _ _ _ _ _ Hi Hk' H1 H2).
    + by pose proof (Hun _ _ _ _ _ Hj' Hi H1 H2).
    + by eapply Hun.
  - intros c Hc. destruct (Hop c Hc) as [?|[?|(j & g1 & Hj & Hh)]]; [by auto..|]. right; right.
    destruct (decide (i = j)) as [<-|Hne].
    + assert (g1 = g) as -> by congruence. exists (length gs), g. split; [|done].
      rewrite lookup_app_r by (rewrite length_insert; lia). by rewrite length_insert, Nat.sub_diag.
    + exists j, g1. split; [|done]. rewrite lookup_app_l by (rewrite length_insert; by eapply lookup_lt_Some).
      by rewrite list_lookup_insert_ne.
Qed.

(** ** [Dial] obeys the logic *)

(** A caller of [Dial], as a goroutine. *)
Definition dial_thread (opts : DialOptions.t) : prog netE unit := bind (Dial opts) (fun _ => Ret tt).

Lemma dialer_cwp url cfg h :
  cwp dialing_logic (dialer url cfg h) (mkDialOwns (Some h) None) (fun _ g => fin dialing_logic g).
Proof.
  unfold dialer. apply cwp_op. split; [done|]. intros res. apply cwp_op. by split_and!.
Qed.

Lemma Dial_cwp opts :
  cwp dialing_logic (dial_thread opts) (mkDialOwns None None) (fun _ g => fin dialing_logic g).
Proof.
  unfold dial_thread, Dial. apply cwp_bind, cwp_bind.
  apply (cwp_all_ops _ (fun X e => match e with inl1 (TableMake | TableSet _ _ _) => True | _ => False end)).
  - intros X [e|e] Q He HQ; [|done]. destruct e; done.
  - done.
  - unfold dialProperties. destruct (bool_decide _); [done|]. by destruct (DialOptions.ClientProperties opts).
  - intros props. apply cwp_op. intros h.
    exists (mkDialOwns None None), (mkDialOwns (Some h) None). split; [done|].
    split; [apply dialer_cwp|]. apply cwp_op. by intros [res|].
Qed.

(** ** Properties *)

Definition finished {E} (p : prog E unit) : Prop := match p with Ret _ => True | _ => False end.

Section reachable.
Context (opts : DialOptions.t) (ts : list (prog netE unit)) (s : net).
Hypothesis ts_reachable : reachable net_sem ([dial_thread opts], mkNet ∅ [] [] []) (ts, s).

Lemma dial_reachable : exists gs, threads_ok dialing_logic ts gs /\ dial_inv s gs.
Proof.
  eapply (adequacy net_sem dialing_logic dial_inv); [exact dial_inv_op|exact dial_inv_fork|exact ts_reachable| |].
  - constructor; [apply Dial_cwp|constructor].
  - split; try done.
    + intros [|i] g h Hi; [by simplify_eq/=|]. by destruct i.
    + intros [|i] [|j] g g' h Hi Hj; try done; destruct i; done.
Qed.

(** C24: A connection that arrives late is leaked.  Nobody ever closes a connection that [Dial]
    opened, in any interleaving: the goroutine's send never finds the result channel full, so
    its branch that closes the late connection is dead.  When all goroutines have ended, every
    connection was received by the caller or sits, open, in the abandoned channel. *)
Theorem Dial_leaks_late_connection :
  closed s = [] /\
  (Forall finished ts -> forall c, In c (opened s) ->
     In c (received s) \/ exists h, buffers s !! h = Some (Some (Ok c))).
Proof.
  destruct dial_reachable as (gs & Hok & [Hcl _ _ Hop]). split; [done|].
  intros Hfin c Hc. destruct (Hop c Hc) as [?|[?|(i & g & Hi & Hh)]]; [by auto..|]. exfalso.
  destruct (Forall2_lookup_r _ _ _ _ _ Hok Hi) as (p & Hp & Hwp).
  pose proof (Forall_lookup_1 _ _ _ _ Hfin Hp) as Hf. destruct p; try done. simpl in Hwp. congruence.
Qed.
End reachable.

(** ** A late connection *)

Definition example_options (name : string) (properties : option nat) : DialOptions.t :=
  {| DialOptions.URL := "amqp://localhost/";
     DialOptions.TLSClientConfig := None;
     DialOptions.Heartbeat := 0;
     DialOptions.Locale := "";
     DialOptions.ClientProperties := properties;
     DialOptions.ConnectionName := name;
     DialOptions.SASL := [];
     DialOptions.DialTimeout := 10 * Second;
     DialOptions.ConnectionTimeout := 15 * Second |}.

(** The timer fires first; the handshake succeeds later. *)
Definition late_exec : handler netE net := fun X e s =>
  match e with
  | inl1 d =>
      match d in dialE X return option (X * net) with
      | TableMake => Some (O, s)
      | TableSet _ _ _ => Some (tt, s)
      | DialConfig _ _ =>
          match opened s with
          | [] => Some (Ok 7%nat, mkNet (buffers s) [7%nat] (closed s) (received s))
          | _ => None
          end
      | ResultMake =>
          match buffers s !! O with
          | None => Some (O, mkNet (<[O := None]> (buffers s)) (opened s) (closed s) (received s))
          | Some _ => None
          end
      | ResultTrySend h res =>
          match buffers s !! h with
          | Some None =>
              Some (true, mkNet (<[h := Some res]> (buffers s)) (opened s) (closed s) (received s))
          | Some (Some _) => Some (false, s)
          | None => None
          end
      | ResultOrTimeout _ _ => Some (None, s)
      end
  | inr1 _ => None
  end.

Lemma late_exec_sem X (e : netE X) s x s' : late_exec X e s = Some (x, s') -> net_sem X e s x s'.
Proof.
  destruct e as [e|e]; simpl; [|done].
  destruct e; simpl; intros H; repeat case_match; simplify_eq; simpl; try done; eauto.
Qed.

Definition late_run : list (prog netE unit) * net :=
  default ([], mkNet ∅ [] [] [])
    (schedule (fun _ => late_exec) [0; 0; 0; 1; 1]%nat ([dial_thread (example_options "" None)], mkNet ∅ [] [] [])).

Lemma late_reachable :
  reachable net_sem ([dial_thread (example_options "" None)], mkNet ∅ [] [] []) late_run.
Proof.
  apply (schedule_reachable net_sem (fun _ => late_exec)) with [0; 0; 0; 1; 1]%nat; [|reflexivity].
  intros n. apply late_exec_sem.
Qed.

(** [Dial] has returned the timeout, the handshake's goroutine has ended, and connection 7 is
    open, unknown to anybody. *)
Lemma Dial_leaks_late_connection_witness :
  Forall finished late_run.1 /\ opened late_run.2 = [7%nat] /\ received late_run.2 = [] /\
  closed late_run.2 = [] /\
  (Forall finished late_run.1 -> forall c, In c (opened late_run.2) ->
     In c (received late_run.2) \/ exists h, buffers late_run.2 !! h = Some (Some (Ok c))).
Proof.
  split; [repeat constructor|]. do 2 (split; [reflexivity|]).
  exact (Dial_leaks_late_connection (example_options "" None) late_run.1 late_run.2 late_reachable).
Defined.

(** ** The caller's property table *)

(** The writes to property tables. *)
Definition table_writes (X : Type) (e : netE X) : X -> list (nat * string * value) :=
  match e with
  | inl1 (TableSet table k v) => fun _ => [(table, k, v)]
  | _ => fun _ => []
  end.

(** C20: [Dial] writes to its caller's table.  With a connection name and a property table in
    the configuration, every call of [Dial] inserts the name into that very table, which
    publishers and consumers built from one configuration share. *)
Theorem Dial_writes_callers_table opts table res t :
  DialOptions.ClientProperties opts = Some table -> DialOptions.ConnectionName opts <> "" ->
  runs (traced anything) (Dial opts : prog netE _) [] res t ->
  observed table_writes t = [(table, "connection_name", VString (DialOptions.ConnectionName opts))].
Proof.
  intros Ht Hn Hrun. refine (wp_sound _ _ _ _ _ (fun _ t => observed table_writes t = _) Hrun _).
  unfold Dial, dialProperties. rewrite Ht, bool_decide_false by done. wp_all; by observe.
Qed.

(** A broker and a network that accept everything. *)
Definition good_net : strategy netE := fun X e _ =>
  match e with
  | inl1 d => good_dial d
  | inr1 a => good_amqp a
  end.

Lemma Dial_writes_callers_table_witness :
  observed table_writes
    (match interp (scripted good_net) 0 (Dial (example_options "svc" (Some 5%nat))) [] with
     | Some (_, t) => t
     | None => []
     end) = [(5%nat, "connection_name", VString "svc")].
Proof.
  apply (Dial_writes_callers_table (example_options "svc" (Some 5%nat)) 5 (Ok 1%nat)); [done..|].
  apply (scripted_runs good_net 0). reflexivity.
Defined.
