(* ===== verification/Pool.v ===== *)
(** * Pool: the channel pool of a publisher (pkg/rabbitmq/pool.go).

    The fields that a publisher's goroutines share, and the Go channels they meet on, are
    operations; [PoolMachine] gives them a meaning. *)
From S2P Require Import Prelude AmqpData Errors Prog Machine Config Amqp Instr Dial.
Local Open Scope string_scope.
Local Open Scope Z_scope.
Local Open Scope go_scope.

Record pooledChannel : Type := mkPooled { pch_ch : channel; pch_createdAt : Z }.

#[export] Instance pooledChannel_eq_dec : EqDecision pooledChannel.
Proof. solve_decision. Defined.

(** What the select of a mandatory publish receives; a closed Go channel delivers [None]. *)
Inductive returns_event : Type :=
| ReturnsReceived (ret : option Return_.t)
| ReturnsTimer
| ReturnsDone.

Inductive lost_event : Type :=
| LostClosed                                  (* closeChan was closed *)
| LostNotified (closeErr : option error).

Inductive pubE : Type -> Type :=
(* closed, closeChan *)
| ClosedLoad : pubE bool
| ClosedCompareAndSwap (old new : bool) : pubE bool
| CloseChanClose : pubE unit
| CloseChanPoll : pubE bool
| CloseChanOrTimer (d : Z) : pubE bool
| CloseChanOrNotify (notifyClose : nat) : pubE lost_event
(* connMu, connection, reconnecting *)
| PConnMuLock : pubE unit
| PConnMuUnlock : pubE unit
| PConnMuRLock : pubE unit
| PConnMuRUnlock : pubE unit
| PLoadConnection : pubE (option conn)
| PStoreConnection (c : conn) : pubE unit
| PReconnectingCompareAndSwap (old new : bool) : pubE bool
| PReconnectingStore (b : bool) : pubE unit
(* poolMu, channelPool: a pool is a buffered Go channel *)
| PoolMuLock : pubE unit
| PoolMuUnlock : pubE unit
| PoolMuRLock : pubE unit
| PoolMuRUnlock : pubE unit
| LoadChannelPool : pubE (option nat)
| StoreChannelPool (pool : nat) : pubE unit
| PoolMake (size : Z) : pubE nat
(* select { case pool <- pch: true; default: false } *)
| PoolTrySend (pool : nat) (pch : pooledChannel) : pubE bool
(* select { case pch := <-pool: Some pch; default: None } *)
| PoolTryRecv (pool : nat) : pubE (option pooledChannel)
(* channelMeta *)
| MetaStore (ch : channel) (createdAt : Z) : pubE unit
| MetaLoad (ch : channel) : pubE (option Z)
| MetaDelete (ch : option channel) : pubE unit
(* the unbuffered resultChan and the done channel of createConfirmChannel: a send is an offer
   and then the wait for it to be taken or for done *)
| ResultChanMake : pubE nat
| DoneMake : pubE nat
| ResultOffer (resultChan : nat) (res : result channel) : pubE unit
| ResultTaken (resultChan done_ : nat) : pubE bool
| ResultRecvOrTimer (resultChan : nat) (d : Z) : pubE (option (result channel))
| DoneClose (done_ : nat) : pubE unit
(* the confirmChan of createConfirmChannel, of capacity one *)
| ConfirmChanMake : pubE nat
| ConfirmSend (confirmChan : nat) (err : option error) : pubE unit
| ConfirmRecvOrTimer (confirmChan : nat) (d : Z) : pubE (option (option error))
(* the select of a mandatory publish *)
| ReturnsSelect (returns : nat) (d : Z) (ctx : context) : pubE returns_event.

Abbreviation publisherE := (pubE +' amqpE +' sysE +' logE +' instrE +' dialE).

(** The fields of a publisher that do not change after NewPublisher. *)
Module Publisher.
Record t := mk {
  cfg : Config.t;
  instr : Instrumentation;
  instrIsNop : bool
}.
End Publisher.
Import Publisher.

(** time.Since: the difference saturates at the bounds of time.Duration. *)
Definition time_sub (t u : Z) : Z := Z.max MinInt64 (Z.min MaxInt64 (t - u)).

(** ** Creating channels *)

(** The goroutine of createConfirmChannel that opens the channel. *)
Definition channelOpener (conn : conn) (resultChan done_ : nat) : prog publisherE unit :=
  let! res := trigger (ConnChannel conn) in
  trigger (ResultOffer resultChan res) ;;;
  let! taken := trigger (ResultTaken resultChan done_) in
  if (taken : bool) then Ret tt
  else
    match res with
    | Ok ch => trigger (ChClose ch)
    | Err _ => Ret tt
    end.

(** The goroutine of createConfirmChannel that enables confirms. *)
Definition confirmEnabler (ch : channel) (confirmChan : nat) : prog publisherE unit :=
  let! err := trigger (ChConfirm ch false) in
  trigger (ConfirmSend confirmChan err).

(** The second half of createConfirmChannel: publisher confirms, bounded by a timeout. *)
Definition enableConfirms (p : Publisher.t) (ch : channel) : prog publisherE (option channel) :=
  let! confirmChan := trigger ConfirmChanMake in
  go (confirmEnabler ch confirmChan) ;;;
  let! confirmed := trigger (ConfirmRecvOrTimer confirmChan (Config.ConfirmEnableTimeout (cfg p))) in
  match confirmed with
  | Some (Some err) =>
      log_error Background "failed to enable publisher confirms" [logErr (Some err)] ;;;
      trigger (ChClose ch) ;;;
      Ret None
  | Some None => Ret (Some ch)
  | None =>
      log_error Background "enabling publisher confirms timed out"
        [logDuration "timeout" (Config.ConfirmEnableTimeout (cfg p))] ;;;
      trigger (ChClose ch) ;;;
      Ret None
  end.

Definition createConfirmChannel (p : Publisher.t) : prog publisherE (option channel) :=
  trigger PConnMuRLock ;;;
  let! conn := trigger PLoadConnection in
  trigger PConnMuRUnlock ;;;
  let! conn :=
    match conn with
    | None => Ret None
    | Some conn =>
        let! closed := trigger (ConnIsClosed conn) in
        Ret (if (closed : bool) then None else Some conn)
    end in
  match conn with
  | None => Ret None
  | Some conn =>
      let! resultChan := trigger ResultChanMake in
      let! done_ := trigger DoneMake in
      go (channelOpener conn resultChan done_) ;;;
      let! res := trigger (ResultRecvOrTimer resultChan (Config.ChannelCreateTimeout (cfg p))) in
      trigger (DoneClose done_) ;;;
      match res with
      | Some (Err err) =>
          log_error Background "failed to create RabbitMQ channel" [logErr (Some err)] ;;;
          Ret None
      | Some (Ok ch) => enableConfirms p ch
      | None =>
          log_error Background "channel creation timed out"
            [logDuration "timeout" (Config.ChannelCreateTimeout (cfg p))] ;;;
          Ret None
      end
  end.

Definition createPooledChannel (p : Publisher.t) : prog publisherE (option pooledChannel) :=
  let! ch := createConfirmChannel p in
  match ch with
  | None => Ret None
  | Some ch =>
      let! now := trigger TimeNow in
      Ret (Some (mkPooled ch now))
  end.

(** One round of the loop of warmChannelPool; the state is the attempt and the number of
    channels stored. *)
Definition warm_round (p : Publisher.t) (state : Z * Z) : prog publisherE ((Z * Z) + Z) :=
  let '(attempt, warmed) := state in
  if bool_decide (attempt >= Config.ChannelPoolSize (cfg p)) then Ret (inr warmed)
  else
    let! pch := createPooledChannel p in
    match pch with
    | None =>
        log_warn Background "failed to create channel for pool" [logInt "attempt" (attempt + 1)] ;;;
        Ret (inl (attempt + 1, warmed))
    | Some pch =>
        trigger PoolMuRLock ;;;
        let! pool := trigger LoadChannelPool in
        let! stored :=
          match pool with
          | Some pool => trigger (PoolTrySend pool pch)
          | None => Ret false
          end in
        trigger PoolMuRUnlock ;;;
        if (stored : bool) then Ret (inl (attempt + 1, warmed + 1))
        else
          trigger (ChClose (pch_ch pch)) ;;;
          Ret (inl (attempt + 1, warmed))
    end.

Definition warmChannelPool (p : Publisher.t) : prog publisherE unit :=
  let! warmed := loop (warm_round p) (0, 0) in
  log_info Background "RabbitMQ publisher ready"
    [logString "exchange" (Config.Exchange (cfg p));
     logInt "poolSize" (Config.ChannelPoolSize (cfg p));
     logDuration "maxChannelAge" (Config.MaxChannelAge (cfg p));
     logInt "warmChannels" warmed].

(** ** Borrowing and returning *)

Definition newChannelOrError (p : Publisher.t) : prog publisherE (result pooledChannel) :=
  let! pch := createPooledChannel p in
  match pch with
  | None => Ret (Err (ENew "rabbitmq: failed to create channel"))
  | Some pch => Ret (Ok pch)
  end.

Definition borrowChannel (p : Publisher.t) : prog publisherE (result pooledChannel) :=
  let! closed := trigger ClosedLoad in
  if (closed : bool) then Ret (Err (ENew "rabbitmq: publisher is closed"))
  else
    trigger PoolMuRLock ;;;
    let! pool := trigger LoadChannelPool in
    match pool with
    | None =>
        trigger PoolMuRUnlock ;;;
        newChannelOrError p
    | Some pool =>
        let! pch := trigger (PoolTryRecv pool) in
        trigger PoolMuRUnlock ;;;
        match pch with
        | Some pch =>
            let! isClosed := trigger (ChIsClosed (pch_ch pch)) in
            let! stale :=
              if (isClosed : bool) then Ret true
              else
                let! now := trigger TimeNow in
                Ret (bool_decide (time_sub now (pch_createdAt pch) > Config.MaxChannelAge (cfg p))) in
            if (stale : bool) then
              trigger (ChClose (pch_ch pch)) ;;;
              trigger (MetaDelete (Some (pch_ch pch))) ;;;
              newChannelOrError p
            else Ret (Ok pch)
        | None => newChannelOrError p
        end
    end.

Definition GetChannel (p : Publisher.t) : prog publisherE (result channel) :=
  let! pch := borrowChannel p in
  match pch with
  | Err err => Ret (Err err)
  | Ok pch =>
      trigger (MetaStore (pch_ch pch) (pch_createdAt pch)) ;;;
      Ret (Ok (pch_ch pch))
  end.

(** The channel is closed and forgotten. *)
Definition discard (ch : channel) : prog publisherE unit :=
  trigger (ChClose ch) ;;;
  trigger (MetaDelete (Some ch)).

Definition returnPooled (p : Publisher.t) (pch : pooledChannel) : prog publisherE unit :=
  let ch := pch_ch pch in
  let! isClosed := trigger (ChIsClosed ch) in
  let! gone := if (isClosed : bool) then Ret true else trigger ClosedLoad in
  if (gone : bool) then discard ch
  else
    trigger PoolMuRLock ;;;
    let! pool := trigger LoadChannelPool in
    match pool with
    | None =>
        trigger PoolMuRUnlock ;;;
        discard ch
    | Some pool =>
        let! sent := trigger (PoolTrySend pool pch) in
        trigger PoolMuRUnlock ;;;
        if (sent : bool) then Ret tt else discard ch
    end.

(** [ch] may be the nil pointer. *)
Definition ReturnChannel (p : Publisher.t) (ch : option channel) : prog publisherE unit :=
  let! usable :=
    match ch with
    | None => Ret None
    | Some ch =>
        let! isClosed := trigger (ChIsClosed ch) in
        Ret (if (isClosed : bool) then None else Some ch)
    end in
  match usable with
  | None => trigger (MetaDelete ch)
  | Some ch =>
      let! now := trigger TimeNow in
      let! meta := trigger (MetaLoad ch) in
      returnPooled p (mkPooled ch (default now meta))
  end.

(** ** Draining *)

Definition drain_round (pool : nat) (_ : unit) : prog publisherE (unit + unit) :=
  let! pch := trigger (PoolTryRecv pool) in
  match pch with
  | Some pch =>
      discard (pch_ch pch) ;;;
      Ret (inl tt)
  | None => Ret (inr tt)
  end.

Definition drainPool (pool : option nat) : prog publisherE unit :=
  match pool with
  | None => Ret tt
  | Some pool => loop (drain_round pool) tt
  end.

Definition drainChannelPool : prog publisherE unit :=
  trigger PoolMuRLock ;;;
  let! pool := trigger LoadChannelPool in
  trigger PoolMuRUnlock ;;;
  drainPool pool.
