(* ===== verification/Publisher.v ===== *)
(** * Publisher: publishing and connection management (pkg/rabbitmq/publisher.go). *)
From S2P Require Import Prelude AmqpData Errors Prog Machine MaskURL Config Amqp Topology Instr Dial Consumer Session Pool.
Import Pool.Publisher.
Local Open Scope string_scope.
Local Open Scope Z_scope.
Local Open Scope go_scope.

(** ** Data *)

Module PublishMessage.
Record t := mk {
  Exchange : string;
  RoutingKey : string;
  Body : bytes;
  Headers : Table;
  ContentType : string;
  ContentEncoding : string;
  DeliveryMode : Z; (* uint8 *)
  Priority : Z; (* uint8 *)
  CorrelationID : string;
  ReplyTo : string;
  Expiration : string;
  MessageID : string;
  Timestamp : Z;
  Type_ : string;
  UserID : string;
  AppID : string;
  Mandatory : bool;
  Immediate : bool;
  WaitForConfirm : bool
}.

(** The message with the header table that someone left in it. *)
Definition with_headers (m : t) (headers : Table) : t :=
  {| Exchange := Exchange m; RoutingKey := RoutingKey m; Body := Body m; Headers := headers;
     ContentType := ContentType m; ContentEncoding := ContentEncoding m;
     DeliveryMode := DeliveryMode m; Priority := Priority m; CorrelationID := CorrelationID m;
     ReplyTo := ReplyTo m; Expiration := Expiration m; MessageID := MessageID m;
     Timestamp := Timestamp m; Type_ := Type_ m; UserID := UserID m; AppID := AppID m;
     Mandatory := Mandatory m; Immediate := Immediate m; WaitForConfirm := WaitForConfirm m |}.
End PublishMessage.

(** The zero amqp.Return, which a receive from a closed channel yields. *)
Definition zeroReturn : Return_.t :=
  {| Return_.ReplyCode := 0; Return_.ReplyText := ""; Return_.Exchange := ""; Return_.RoutingKey := "";
     Return_.ContentType := ""; Return_.ContentEncoding := ""; Return_.Headers := None;
     Return_.DeliveryMode := 0; Return_.Priority := 0; Return_.CorrelationId := "";
     Return_.ReplyTo := ""; Return_.Expiration := ""; Return_.MessageId := "";
     Return_.Timestamp := 0; Return_.Type_ := ""; Return_.UserId := ""; Return_.AppId := "";
     Return_.Body := [] |}.

Definition returnedMessage (ret : Return_.t) : ReturnedMessage.t :=
  {| ReturnedMessage.ReplyCode := Return_.ReplyCode ret;
     ReturnedMessage.ReplyText := Return_.ReplyText ret;
     ReturnedMessage.Exchange := Return_.Exchange ret;
     ReturnedMessage.RoutingKey := Return_.RoutingKey ret;
     ReturnedMessage.Message :=
       {| Publishing.Headers := Return_.Headers ret;
          Publishing.ContentType := Return_.ContentType ret;
          Publishing.ContentEncoding := Return_.ContentEncoding ret;
          Publishing.DeliveryMode := Return_.DeliveryMode ret;
          Publishing.Priority := Return_.Priority ret;
          Publishing.CorrelationId := Return_.CorrelationId ret;
          Publishing.ReplyTo := Return_.ReplyTo ret;
          Publishing.Expiration := Return_.Expiration ret;
          Publishing.MessageId := Return_.MessageId ret;
          Publishing.Timestamp := Return_.Timestamp ret;
          Publishing.Type_ := Return_.Type_ ret;
          Publishing.UserId := Return_.UserId ret;
          Publishing.AppId := Return_.AppId ret;
          Publishing.Body := Return_.Body ret |} |}.

(** ** Publishing *)

Definition normalizePublishMessage (p : Publisher.t) (msg : PublishMessage.t) : PublishMessage.t :=
  {| PublishMessage.Exchange :=
       if bool_decide (PublishMessage.Exchange msg = "") then Config.Exchange (cfg p)
       else PublishMessage.Exchange msg;
     PublishMessage.RoutingKey := PublishMessage.RoutingKey msg;
     PublishMessage.Body := PublishMessage.Body msg;
     PublishMessage.Headers :=
       match PublishMessage.Headers msg with
       | None => if negb (instrIsNop p) then Some ∅ else None
       | headers => headers
       end;
     PublishMessage.ContentType :=
       if bool_decide (PublishMessage.ContentType msg = "") then Config.DefaultContentType (cfg p)
       else PublishMessage.ContentType msg;
     PublishMessage.ContentEncoding := PublishMessage.ContentEncoding msg;
     PublishMessage.DeliveryMode :=
       if bool_decide (PublishMessage.DeliveryMode msg = 0) then Persistent
       else PublishMessage.DeliveryMode msg;
     PublishMessage.Priority := PublishMessage.Priority msg;
     PublishMessage.CorrelationID := PublishMessage.CorrelationID msg;
     PublishMessage.ReplyTo := PublishMessage.ReplyTo msg;
     PublishMessage.Expiration := PublishMessage.Expiration msg;
     PublishMessage.MessageID := PublishMessage.MessageID msg;
     PublishMessage.Timestamp := PublishMessage.Timestamp msg;
     PublishMessage.Type_ := PublishMessage.Type_ msg;
     PublishMessage.UserID := PublishMessage.UserID msg;
     PublishMessage.AppID := PublishMessage.AppID msg;
     PublishMessage.Mandatory := PublishMessage.Mandatory msg;
     PublishMessage.Immediate := PublishMessage.Immediate msg;
     PublishMessage.WaitForConfirm := PublishMessage.WaitForConfirm msg |}.

(** The amqp.Publishing that publish builds. *)
Definition publishing (msg : PublishMessage.t) : Publishing.t :=
  {| Publishing.Headers := PublishMessage.Headers msg;
     Publishing.ContentType := PublishMessage.ContentType msg;
     Publishing.ContentEncoding := PublishMessage.ContentEncoding msg;
     Publishing.DeliveryMode := PublishMessage.DeliveryMode msg;
     Publishing.Priority := PublishMessage.Priority msg;
     Publishing.CorrelationId := PublishMessage.CorrelationID msg;
     Publishing.ReplyTo := PublishMessage.ReplyTo msg;
     Publishing.Expiration := PublishMessage.Expiration msg;
     Publishing.MessageId := PublishMessage.MessageID msg;
     Publishing.Timestamp := PublishMessage.Timestamp msg;
     Publishing.Type_ := PublishMessage.Type_ msg;
     Publishing.UserId := PublishMessage.UserID msg;
     Publishing.AppId := PublishMessage.AppID msg;
     Publishing.Body := PublishMessage.Body msg |}.

Definition publishOnChannel (p : Publisher.t) (ctx : context) (ch : channel)
    (msg : PublishMessage.t) (pub : Publishing.t) : prog publisherE (option error) :=
  if negb (PublishMessage.WaitForConfirm msg) then
    trigger (ChPublish ch ctx (PublishMessage.Exchange msg) (PublishMessage.RoutingKey msg)
               (PublishMessage.Mandatory msg) (PublishMessage.Immediate msg) pub)
  else
    let! dc := trigger (ChPublishDeferred ch ctx (PublishMessage.Exchange msg)
                 (PublishMessage.RoutingKey msg) (PublishMessage.Mandatory msg)
                 (PublishMessage.Immediate msg) pub) in
    match dc with
    | Err err => Ret (Some err)
    | Ok None => Ret (Some (ENew "rabbitmq: publisher confirms not enabled on channel"))
    | Ok (Some dc) =>
        let! acked := trigger (DcWaitContext dc
                        (WithTimeout ctx (Config.PublishConfirmTimeout (cfg p)))) in
        match acked with
        | Err err =>
            if errors_Is err DeadlineExceeded then
              Ret (Some (ENew "rabbitmq: timeout waiting for publish confirmation"))
            else Ret (Some err)
        | Ok acked =>
            if (acked : bool) then Ret None
            else Ret (Some (ENew "rabbitmq: message was not acknowledged by broker"))
        end
    end.

(** The mandatory branch of publish, before the deferred call. *)
Definition publishMandatory (p : Publisher.t) (ctx : context) (ch : channel)
    (msg : PublishMessage.t) (pub : Publishing.t) : prog publisherE (option error) :=
  let! returns := trigger (ChNotifyReturn ch) in
  let! err := publishOnChannel p ctx ch msg pub in
  match err with
  | Some err => Ret (Some err)
  | None =>
      let! ev := trigger (ReturnsSelect returns mandatoryReturnWait ctx) in
      match ev with
      | ReturnsReceived ret => Ret (Some (EReturned (returnedMessage (default zeroReturn ret))))
      | ReturnsTimer => Ret None
      | ReturnsDone =>
          let! err := trigger (CtxErr ctx) in
          Ret (Some (ECtx err))
      end
  end.

Definition publish (p : Publisher.t) (ctx : context) (msg : PublishMessage.t)
  : prog publisherE (option error) :=
  let! pch := borrowChannel p in
  match pch with
  | Err err => Ret (Some err)
  | Ok pch =>
      let ch := pch_ch pch in
      let pub := publishing msg in
      if PublishMessage.Mandatory msg then
        let! err := publishMandatory p ctx ch msg pub in
        discard ch ;;;
        Ret err
      else
        let! err := publishOnChannel p ctx ch msg pub in
        returnPooled p pch ;;;
        Ret err
  end.

(** [ctx] may be nil. *)
Definition PublishMessage_ (p : Publisher.t) (ctx : option context) (msg : PublishMessage.t)
  : prog publisherE (option error) :=
  let! closed := trigger ClosedLoad in
  if (closed : bool) then Ret (Some (ENew "rabbitmq: publisher is closed"))
  else
    let ctx := default Background ctx in
    let msg := normalizePublishMessage p msg in
    if instrIsNop p then publish p ctx msg
    else
      let pubCtx :=
        {| PublishContext.Exchange := PublishMessage.Exchange msg;
           PublishContext.RoutingKey := PublishMessage.RoutingKey msg;
           PublishContext.BodySize := Z.of_nat (length (PublishMessage.Body msg));
           PublishContext.Headers := PublishMessage.Headers msg |} in
      let! s := trigger (StartPublish (instr p) ctx pubCtx) in
      let! err := publish p (started_ctx s) (PublishMessage.with_headers msg (started_headers s)) in
      trigger (EndPublish (started_end s) err) ;;;
      Ret err.

Definition Publish (p : Publisher.t) (ctx : option context) (exchange routingKey : string)
    (body : bytes) (waitForConfirm : bool) : prog publisherE (option error) :=
  PublishMessage_ p ctx
    {| PublishMessage.Exchange := exchange; PublishMessage.RoutingKey := routingKey;
       PublishMessage.Body := body; PublishMessage.Headers := None;
       PublishMessage.ContentType := ""; PublishMessage.ContentEncoding := "";
       PublishMessage.DeliveryMode := 0; PublishMessage.Priority := 0;
       PublishMessage.CorrelationID := ""; PublishMessage.ReplyTo := "";
       PublishMessage.Expiration := ""; PublishMessage.MessageID := "";
       PublishMessage.Timestamp := 0; PublishMessage.Type_ := "";
       PublishMessage.UserID := ""; PublishMessage.AppID := "";
       PublishMessage.Mandatory := false; PublishMessage.Immediate := false;
       PublishMessage.WaitForConfirm := waitForConfirm |}.

Definition DeclareQueueTopology (p : Publisher.t) (queueName routingKey : string)
  : prog publisherE (option error) :=
  let! ch := GetChannel p in
  match ch with
  | Err err => Ret (Some err)
  | Ok ch =>
      let! err := declareQueueTopology ch (cfg p) queueName routingKey in
      ReturnChannel p (Some ch) ;;;
      Ret err
  end.

(** ** Connecting *)

(** The body of establishConnection, between locking and unlocking connMu. *)
Definition establishLocked (p : Publisher.t) : prog publisherE (option error) :=
  let masked := MaskURL (Config.URL (cfg p)) in
  log_info Background "connecting to RabbitMQ" [logString "url" masked] ;;;
  let! res := Dial (dialOptions (cfg p)) in
  match res with
  | Err err =>
      log_error Background "failed to connect to RabbitMQ"
        [logErr (Some err); logString "url" masked] ;;;
      Ret (Some err)
  | Ok conn =>
      trigger (PStoreConnection conn) ;;;
      log_info Background "connected to RabbitMQ" [logString "url" masked] ;;;
      let! err :=
        if Config.SkipExchangeDeclare (cfg p) then Ret None
        else DeclareExchange conn (Config.Exchange (cfg p)) (Config.ExchangeType (cfg p)) in
      match err with
      | Some err =>
          log_error Background "failed to declare exchange"
            [logErr (Some err); logString "exchange" (Config.Exchange (cfg p))] ;;;
          trigger (ConnClose conn) ;;;
          Ret (Some err)
      | None =>
          trigger PoolMuLock ;;;
          let! oldPool := trigger LoadChannelPool in
          let! newPool := trigger (PoolMake (Config.ChannelPoolSize (cfg p))) in
          trigger (StoreChannelPool newPool) ;;;
          trigger PoolMuUnlock ;;;
          drainPool oldPool ;;;
          Ret None
      end
  end.

Definition establishConnection (p : Publisher.t) : prog publisherE (option error) :=
  trigger PConnMuLock ;;;
  let! err := establishLocked p in
  trigger PConnMuUnlock ;;;
  Ret err.

Definition pconnect (p : Publisher.t) : prog publisherE (option error) :=
  let! err := establishConnection p in
  match err with
  | Some err => Ret (Some err)
  | None =>
      warmChannelPool p ;;;
      Ret None
  end.

Definition sleepOrClosed (d : Z) : prog publisherE bool := trigger (CloseChanOrTimer d).

Definition preconnect_round (p : Publisher.t) (backoff : Z) : prog publisherE (Z + unit) :=
  let! stopped := trigger CloseChanPoll in
  if (stopped : bool) then Ret (inr tt)
  else
    log_info Background "attempting to reconnect to RabbitMQ" [logDuration "backoff" backoff] ;;;
    let! stopped := sleepOrClosed backoff in
    if (stopped : bool) then Ret (inr tt)
    else
      let! err := pconnect p in
      match err with
      | None =>
          log_info Background "successfully reconnected to RabbitMQ" [] ;;;
          Ret (inr tt)
      | Some _ => Ret (inl (next_backoff (Config.ReconnectMaxBackoff (cfg p)) backoff))
      end.

Definition preconnect (p : Publisher.t) : prog publisherE unit :=
  let! swapped := trigger (PReconnectingCompareAndSwap false true) in
  if negb swapped then Ret tt
  else
    loop (preconnect_round p) initialReconnectBackoff ;;;
    trigger (PReconnectingStore false).

Definition pwatch_round (p : Publisher.t) (_ : unit) : prog publisherE (unit + unit) :=
  let! stopped := trigger CloseChanPoll in
  if (stopped : bool) then Ret (inr tt)
  else
    trigger PConnMuRLock ;;;
    let! conn := trigger PLoadConnection in
    trigger PConnMuRUnlock ;;;
    match conn with
    | None =>
        let! stopped := sleepOrClosed reconnectIdleWait in
        if (stopped : bool) then Ret (inr tt) else Ret (inl tt)
    | Some conn =>
        let! notifyClose := trigger (ConnNotifyClose conn) in
        let! ev := trigger (CloseChanOrNotify notifyClose) in
        match ev with
        | LostClosed => Ret (inr tt)
        | LostNotified (Some closeErr) =>
            log_error Background "RabbitMQ connection closed unexpectedly" [logErr (Some closeErr)] ;;;
            drainChannelPool ;;;
            preconnect p ;;;
            Ret (inl tt)
        | LostNotified None =>
            log_info Background "RabbitMQ connection closed gracefully" [] ;;;
            Ret (inr tt)
        end
    end.

Definition pwatchConnection (p : Publisher.t) : prog publisherE unit := loop (pwatch_round p) tt.

Definition publisherOf (config : Config.t) : Publisher.t :=
  let instr := instrumentation config in
  {| cfg := config; instr := instr; instrIsNop := isNopInstrumentation instr |}.

Definition NewPublisher (config : Config.t) : prog publisherE (result Publisher.t) :=
  match validate config with
  | Some err => Ret (Err err)
  | None =>
      let p := publisherOf (normalize config) in
      let! err := pconnect p in
      match err with
      | Some err => Ret (Err err)
      | None =>
          go (pwatchConnection p) ;;;
          Ret (Ok p)
      end
  end.

(** Close, after the flag was set by this call. *)
Definition shutdown (p : Publisher.t) : prog publisherE unit :=
  trigger CloseChanClose ;;;
  trigger PConnMuLock ;;;
  drainChannelPool ;;;
  let! conn := trigger PLoadConnection in
  match conn with
  | Some conn =>
      trigger (ConnClose conn) ;;;
      log_info Background "RabbitMQ publisher connection closed" []
  | None => Ret tt
  end ;;;
  trigger PConnMuUnlock.

Definition PublisherClose (p : Publisher.t) : prog publisherE unit :=
  let! swapped := trigger (ClosedCompareAndSwap false true) in
  if negb swapped then Ret tt else shutdown p.
