(* ===== verification/PoolMachine.v ===== *)
(** * PoolMachine: the shared state of a publisher, and who owns its channels.

    The goroutines of a publisher's clients interleave over the pools, the hand-over of freshly
    opened channels and the pool's lock, whose meaning is that of Go.  A channel is at one
    place at a time: with a goroutine, in a pool, or on offer. *)
From S2P Require Import Prelude AmqpData Errors Prog Machine Amqp Instr Dial Pool.
Local Open Scope Z_scope.

(** ** State *)

(** A value on offer on an unbuffered Go channel: not taken yet, or taken and its sender not
    yet awake. *)
Inductive offered : Type :=
| Pending (res : result channel)
| Taken.

Record pstate : Type := mkState {
  pools : gmap nat (Z * list pooledChannel);  (* capacity and contents *)
  current : option nat;                        (* the publisher's channelPool *)
  readers : nat;                               (* poolMu *)
  writer : bool;
  offers : gmap nat (option offered);
  dones : gset nat;                            (* the done channels that are closed *)
  open : gset channel;                         (* opened, and not found or made closed *)
  ever : gset channel                          (* ever opened *)
}.

Definition with_pools (s : pstate) f :=
  mkState (f (pools s)) (current s) (readers s) (writer s) (offers s) (dones s) (open s) (ever s).
Definition with_current (s : pstate) c :=
  mkState (pools s) c (readers s) (writer s) (offers s) (dones s) (open s) (ever s).
Definition with_lock (s : pstate) r w :=
  mkState (pools s) (current s) r w (offers s) (dones s) (open s) (ever s).
Definition with_offers (s : pstate) f :=
  mkState (pools s) (current s) (readers s) (writer s) (f (offers s)) (dones s) (open s) (ever s).
Definition with_done (s : pstate) d :=
  mkState (pools s) (current s) (readers s) (writer s) (offers s) ({[d]} ∪ dones s) (open s) (ever s).
Definition with_open (s : pstate) o e :=
  mkState (pools s) (current s) (readers s) (writer s) (offers s) (dones s) o e.

(** ** Semantics *)

Definition step_pub {X} (e : pubE X) : pstate -> X -> pstate -> Prop :=
  match e with
  | PoolMuLock => fun s _ s' => readers s = O /\ writer s = false /\ s' = with_lock s O true
  | PoolMuUnlock => fun s _ s' => writer s = true /\ s' = with_lock s (readers s) false
  | PoolMuRLock => fun s _ s' => writer s = false /\ s' = with_lock s (Datatypes.S (readers s)) false
  | PoolMuRUnlock => fun s _ s' =>
      exists r, readers s = Datatypes.S r /\ s' = with_lock s r (writer s)
  | LoadChannelPool => fun s pool s' => pool = current s /\ s' = s
  | StoreChannelPool pool => fun s _ s' => s' = with_current s (Some pool)
  | PoolMake size => fun s pool s' =>
      pools s !! pool = None /\ s' = with_pools s (insert pool (size, []))
  | PoolTrySend pool pch => fun s sent s' =>
      exists size l, pools s !! pool = Some (size, l) /\
        if (sent : bool) then
          Z.of_nat (length l) < size /\ s' = with_pools s (insert pool (size, l ++ [pch]))
        else size <= Z.of_nat (length l) /\ s' = s
  | PoolTryRecv pool => fun s pch s' =>
      exists size l, pools s !! pool = Some (size, l) /\
        match pch with
        | Some pch => exists rest, l = pch :: rest /\ s' = with_pools s (insert pool (size, rest))
        | None => l = [] /\ s' = s
        end
  | ResultChanMake => fun s rc s' => offers s !! rc = None /\ s' = with_offers s (insert rc None)
  | ResultOffer rc res => fun s _ s' =>
      offers s !! rc = Some None /\ s' = with_offers s (insert rc (Some (Pending res)))
  | ResultTaken rc done_ => fun s taken s' =>
      (if (taken : bool) then offers s !! rc = Some (Some Taken)
       else (done_ ∈ dones s) /\ exists res, offers s !! rc = Some (Some (Pending res))) /\
      s' = with_offers s (insert rc None)
  | ResultRecvOrTimer rc _ => fun s r s' =>
      match r with
      | Some res => offers s !! rc = Some (Some (Pending res)) /\
          s' = with_offers s (insert rc (Some Taken))
      | None => s' = s
      end
  | DoneClose done_ => fun s _ s' => s' = with_done s done_
  | _ => fun s _ s' => s' = s
  end.

Definition step_amqp {X} (e : amqpE X) : pstate -> X -> pstate -> Prop :=
  match e with
  | ConnChannel _ => fun s res s' =>
      match res with
      | Ok ch => (ch ∉ ever s) /\ s' = with_open s ({[ch]} ∪ open s) ({[ch]} ∪ ever s)
      | Err _ => s' = s
      end
  | ChClose ch => fun s _ s' => s' = with_open s (open s ∖ {[ch]}) (ever s)
  | ChIsClosed ch => fun s closed s' =>
      if (closed : bool) then s' = with_open s (open s ∖ {[ch]}) (ever s) else s' = s
  | _ => fun s _ s' => s' = s
  end.

Definition pub_sem : semantics publisherE pstate := fun X e =>
  match e with
  | inl1 (inl1 (inl1 (inl1 (inl1 e)))) => step_pub e
  | inl1 (inl1 (inl1 (inl1 (inr1 e)))) => step_amqp e
  | _ => fun s _ s' => s' = s
  end.

(** ** Channels: what a goroutine owns *)

Record chan_owns : Type := mkOwn {
  chans : gset channel;
  offer : option (nat * result channel)
}.

Definition no_chans : chan_owns := mkOwn ∅ None.
Definition gain (ch : channel) (g : chan_owns) : chan_owns := mkOwn ({[ch]} ∪ chans g) (offer g).
Definition lose (ch : channel) (g : chan_owns) : chan_owns := mkOwn (chans g ∖ {[ch]}) (offer g).
Definition lose_res (res : result channel) (g : chan_owns) : chan_owns :=
  match res with Ok ch => lose ch g | Err _ => g end.
Definition gain_res (res : result channel) (g : chan_owns) : chan_owns :=
  match res with Ok ch => gain ch g | Err _ => g end.

(** A result holds a channel that the goroutine does not have. *)
Definition newcomer (res : result channel) (g : chan_owns) : Prop :=
  match res with Ok ch => ch ∉ chans g | Err _ => True end.

(** The channel that an operation uses.  Enabling confirms runs in a goroutine of its own next
    to the goroutine that owns the channel, and only asks the broker. *)
Definition uses {X} (e : amqpE X) : option channel :=
  match e with
  | ChClose ch | ChQos ch _ _ _ | ChExchangeDeclare ch _ _ _ _ _ _ _ | ChQueueDeclare ch _ _ _ _ _ _
  | ChQueueBind ch _ _ _ _ _ | ChConsume ch _ _ _ _ _ _ _ | ChNotifyClose ch | ChNotifyReturn ch
  | ChPublish ch _ _ _ _ _ _ | ChPublishDeferred ch _ _ _ _ _ _ | ChIsClosed ch => Some ch
  | _ => None
  end.

Definition own_pub {X} (e : pubE X) (g : chan_owns) : (X -> chan_owns -> Prop) -> Prop :=
  match e with
  | PoolTrySend _ pch => fun Q =>
      pch_ch pch ∈ chans g /\ Q false g /\ Q true (lose (pch_ch pch) g)
  | PoolTryRecv _ => fun Q => Q None g /\
      forall pch, pch_ch pch ∉ chans g -> Q (Some pch) (gain (pch_ch pch) g)
  | ResultOffer rc res => fun Q =>
      offer g = None /\ (forall ch, res = Ok ch -> ch ∈ chans g) /\
      Q tt (mkOwn (chans (lose_res res g)) (Some (rc, res)))
  | ResultTaken rc _ => fun Q => exists res, offer g = Some (rc, res) /\
      Q true (mkOwn (chans g) None) /\
      (newcomer res g -> Q false (mkOwn (chans (gain_res res g)) None))
  | ResultRecvOrTimer _ _ => fun Q => Q None g /\
      forall res, newcomer res g -> Q (Some res) (gain_res res g)
  | _ => fun Q => forall x, Q x g
  end.

Definition own_amqp {X} (e : amqpE X) (g : chan_owns) : (X -> chan_owns -> Prop) -> Prop :=
  match e with
  | ConnChannel _ => fun Q => forall res, newcomer res g -> Q res (gain_res res g)
  | ChClose ch => fun Q => Q tt (lose ch g)
  | ChIsClosed ch => fun Q => Q false g /\ (Q true g \/ Q true (lose ch g))
  | _ => fun Q => forall x, Q x g
  end.

Definition chan_op (X : Type) (e : publisherE X) (g : chan_owns) (Q : X -> chan_owns -> Prop) : Prop :=
  match e with
  | inl1 (inl1 (inl1 (inl1 (inl1 e)))) => own_pub e g Q
  | inl1 (inl1 (inl1 (inl1 (inr1 e)))) =>
      (forall ch, uses e = Some ch -> ch ∈ chans g) /\ own_amqp e g Q
  | _ => forall x, Q x g
  end.

Lemma chan_op_mono X (e : publisherE X) g (Q Q' : X -> chan_owns -> Prop) :
  (forall x g', Q x g' -> Q' x g') -> chan_op X e g Q -> chan_op X e g Q'.
Proof.
  intros HQ. destruct e as [[[[[e|e]|e]|e]|e]|e]; simpl; [| |naive_solver..].
  - revert Q Q' HQ. destruct e; simpl; naive_solver.
  - intros [Hu H]. split; [exact Hu|]. revert H. revert Q Q' HQ. clear Hu. destruct e; simpl; naive_solver.
Qed.

Definition chan_logic : logic publisherE chan_owns := {|
  op := chan_op;
  op_mono := chan_op_mono;
  fork := fun g gp gc => gp = g /\ gc = no_chans;
  turn := fun _ => True;
  fin := fun g => chans g = ∅ /\ offer g = None
|}.

(** ** Places *)

Inductive place : Type :=
| WithThread (i : nat)
| InPool (n : nat)
| OnOffer (rc : nat).

Definition located (s : pstate) (gs : list chan_owns) (ch : channel) (pl : place) : Prop :=
  match pl with
  | WithThread i => exists g, gs !! i = Some g /\ ch ∈ chans g
  | InPool n => exists size l pch, pools s !! n = Some (size, l) /\ pch ∈ l /\ pch_ch pch = ch
  | OnOffer rc => offers s !! rc = Some (Some (Pending (Ok ch)))
  end.

(** Every open channel is at one place, and no channel is at two. *)
Record places (s : pstate) (gs : list chan_owns) : Prop := {
  one_place : forall ch pl pl', located s gs ch pl -> located s gs ch pl' -> pl = pl';
  some_place : forall ch, ch ∈ open s -> exists pl, located s gs ch pl;
  known : forall ch pl, located s gs ch pl -> ch ∈ ever s
}.

(** A pool holds a channel once, and no more than its capacity. *)
Definition pools_ok (s : pstate) : Prop :=
  forall n size l, pools s !! n = Some (size, l) ->
    NoDup (pch_ch <$> l) /\ (0 <= size -> Z.of_nat (length l) <= size).

(** An offer belongs to one goroutine. *)
Record offers_ok (s : pstate) (gs : list chan_owns) : Prop := {
  offer_known : forall (i : nat) g rc res, gs !! i = Some g -> offer g = Some (rc, res) ->
    offers s !! rc = Some (Some (Pending res)) \/ offers s !! rc = Some (Some Taken);
  offer_once : forall (i j : nat) g g' rc res res', gs !! i = Some g -> gs !! j = Some g' ->
    offer g = Some (rc, res) -> offer g' = Some (rc, res') -> i = j;
  offer_owned : forall rc o, offers s !! rc = Some (Some o) ->
    exists (i : nat) g res, gs !! i = Some g /\ offer g = Some (rc, res)
}.

Definition chan_inv (s : pstate) (gs : list chan_owns) : Prop :=
  places s gs /\ pools_ok s /\ offers_ok s gs.

(** ** Moving channels *)

Lemma places_same s gs s' gs' :
  places s gs -> (forall ch pl, located s' gs' ch pl <-> located s gs ch pl) ->
  open s' ⊆ open s -> ever s ⊆ ever s' -> places s' gs'.
Proof.
  intros [H1 H2 H3] Hl Ho He. split.
  - intros ch pl pl' Ha%Hl Hb%Hl. eauto.
  - intros ch Hch. destruct (H2 ch) as [pl Hpl]; [set_solver|]. exists pl. by apply Hl.
  - intros ch pl Ha%Hl. apply He. eauto.
Qed.

(** Channel [ch] goes to [pl0], or nowhere; the others stay where they are. *)
Lemma places_move s gs s' gs' ch pl0 :
  places s gs ->
  (forall ch' pl, located s' gs' ch' pl <-> (ch' <> ch /\ located s gs ch' pl) \/ (ch' = ch /\ pl = pl0)) ->
  open s' ⊆ {[ch]} ∪ open s -> ever s ⊆ ever s' -> ch ∈ ever s' -> places s' gs'.
Proof.
  intros [H1 H2 H3] Hl Ho He Hc. split.
  - intros c pl pl' [[? Ha]|[-> ->]]%Hl [[? Hb]|[? ->]]%Hl; try done. eauto.
  - intros c Hch. destruct (decide (c = ch)) as [->|Hne]; [exists pl0; apply Hl; auto|].
    destruct (H2 c) as [pl Hpl]; [set_solver|]. exists pl. apply Hl. auto.
  - intros c pl [[? Ha]|[-> ->]]%Hl; [apply He; eauto|done].
Qed.

Lemma places_drop s gs s' gs' ch :
  places s gs ->
  (forall ch' pl, located s' gs' ch' pl <-> ch' <> ch /\ located s gs ch' pl) ->
  open s' ⊆ open s ∖ {[ch]} -> ever s ⊆ ever s' -> places s' gs'.
Proof.
  intros [H1 H2 H3] Hl Ho He. split.
  - intros c pl pl' [? Ha]%Hl [? Hb]%Hl. eauto.
  - intros c Hch. destruct (H2 c) as [pl Hpl]; [set_solver|]. exists pl. apply Hl.
    split; [set_solver|done].
  - intros c pl [? Ha]%Hl. apply He. eauto.
Qed.

Lemma located_thread s gs (i j : nat) g g' ch :
  gs !! i = Some g ->
  (exists g1, <[i := g']> gs !! j = Some g1 /\ ch ∈ chans g1) <->
  (j = i /\ ch ∈ chans g') \/ (j <> i /\ located s gs ch (WithThread j)).
Proof.
  intros Hi. simpl. destruct (decide (j = i)) as [->|Hne].
  - rewrite list_lookup_insert_eq by by eapply lookup_lt_Some. naive_solver.
  - rewrite list_lookup_insert_ne by done. naive_solver.
Qed.

Lemma offers_ok_same s s' gs (i : nat) g g' :
  offers_ok s gs -> gs !! i = Some g -> offer g' = offer g -> offers s' = offers s ->
  offers_ok s' (<[i := g']> gs).
Proof.
  intros [H1 H2 H3] Hi Hg Hs.
  assert (Hl : forall (j : nat) g1, <[i := g']> gs !! j = Some g1 -> exists g2, gs !! j = Some g2 /\ offer g1 = offer g2).
  { intros j g1 Hj. apply list_lookup_insert_Some in Hj as [(<- & <- & _)|(_ & Hj)]; eauto. }
  split.
  - intros j g1 rc res (g2 & Hj & Heq)%Hl Ho. rewrite Hs. rewrite Heq in Ho. eauto.
  - intros j k g1 g2 rc res res' (g3 & Hj & H3')%Hl (g4 & Hk & H4')%Hl. rewrite H3', H4'. eauto.
  - intros rc o Ho. rewrite Hs in Ho. destruct (H3 rc o Ho) as (j & g1 & res & Hj & Hg1).
    destruct (decide (i = j)) as [<-|Hne].
    + assert (g1 = g) as -> by congruence. exists i, g', res.
      rewrite list_lookup_insert_eq by by eapply lookup_lt_Some. by rewrite Hg.
    + exists j, g1, res. by rewrite list_lookup_insert_ne.
Qed.

(** ** Preservation, by operation *)

Definition is_thread (pl : place) : bool := match pl with WithThread _ => true | _ => false end.

Section preservation.
Context (s s' : pstate) (gs : list chan_owns) (i : nat) (g g' : chan_owns).
Hypothesis inv : chan_inv s gs.
Hypothesis lookup_i : gs !! i = Some g.

Lemma at_thread ch : ch ∈ chans g -> located s gs ch (WithThread i).
Proof. intros Hc. exists g. by split. Qed.

(** Owning a channel excludes every other place. *)
Lemma elsewhere ch pl : ch ∈ chans g -> located s gs ch pl -> pl = WithThread i.
Proof. intros Hc Hl. destruct inv as ([H1 _ _] & _). eapply H1; [exact Hl|by apply at_thread]. Qed.

Lemma at_place ch pl pl' : located s gs ch pl -> located s gs ch pl' -> pl = pl'.
Proof. destruct inv as ([H1 _ _] & _). apply H1. Qed.

Lemma owned_known ch : ch ∈ chans g -> ch ∈ ever s.
Proof. intros Hc. destruct inv as ([_ _ H3] & _). eapply H3. by apply at_thread. Qed.

(** The goroutine gives [ch] to the place [pl0]. *)
Lemma places_leave ch pl0 :
  ch ∈ chans g -> chans g' = chans g ∖ {[ch]} -> is_thread pl0 = false ->
  (forall c pl, is_thread pl = false ->
     located s' gs c pl <-> located s gs c pl \/ (c = ch /\ pl = pl0)) ->
  open s' ⊆ {[ch]} ∪ open s -> ever s ⊆ ever s' -> places s' (<[i := g']> gs).
Proof.
  intros Hc Hg Hpl Hl Ho He.
  eapply (places_move s gs _ _ ch pl0); [apply inv| |done|done|by apply He, owned_known].
  intros c [j|n|rc]; [|rewrite (Hl c (InPool n)) by done|rewrite (Hl c (OnOffer rc)) by done].
  - cbn [located]. rewrite (located_thread s gs i j g) by done. rewrite Hg. split.
    + intros [[-> Hin]|[Hne Hlo]]; left.
      * split; [set_solver|]. apply at_thread. set_solver.
      * split; [|done]. intros ->. pose proof (elsewhere _ _ Hc Hlo). naive_solver.
    + intros [[Hne (g1 & Hj & Hin)]|[-> <-]]; [|done]. destruct (decide (j = i)) as [->|].
      * left. assert (g1 = g) as -> by congruence. set_solver.
      * right. split; [done|]. by exists g1.
  - split; [|naive_solver]. intros [H|H]; [left|by right]. split; [|done].
    intros ->. by pose proof (elsewhere _ _ Hc H).
  - split; [|naive_solver]. intros [H|H]; [left|by right]. split; [|done].
    intros ->. by pose proof (elsewhere _ _ Hc H).
Qed.

(** The goroutine takes [ch], from the place it was at or because it is new. *)
Lemma places_arrive ch :
  chans g' = {[ch]} ∪ chans g -> (forall pl, is_thread pl = true -> ~ located s gs ch pl) ->
  (forall c pl, is_thread pl = false -> located s' gs c pl <-> c <> ch /\ located s gs c pl) ->
  open s' ⊆ {[ch]} ∪ open s -> ever s ⊆ ever s' -> ch ∈ ever s' -> places s' (<[i := g']> gs).
Proof.
  intros Hg Hno Hl Ho He Hev.
  eapply (places_move s gs _ _ ch (WithThread i)); [apply inv| |done|done|done].
  intros c [j|n|rc]; [|rewrite (Hl c (InPool n)) by done; naive_solver
                      |rewrite (Hl c (OnOffer rc)) by done; naive_solver].
  cbn [located]. rewrite (located_thread s gs i j g) by done. rewrite Hg. split.
  - intros [[-> Hin]|[Hne Hlo]].
    + destruct (decide (c = ch)) as [->|Hc]; [by right|left]. split; [done|]. apply at_thread. set_solver.
    + left. split; [|done]. intros ->. by apply (Hno (WithThread j)).
  - intros [[Hne (g1 & Hj & Hin)]|[-> [= ->]]]; [|left; set_solver].
    destruct (decide (j = i)) as [->|]; [left|right].
    + assert (g1 = g) as -> by congruence. set_solver.
    + split; [done|]. by exists g1.
Qed.

(** The goroutine forgets [ch], which is closed. *)
Lemma places_forget ch :
  ch ∈ chans g -> chans g' = chans g ∖ {[ch]} ->
  (forall c pl, is_thread pl = false -> located s' gs c pl <-> located s gs c pl) ->
  open s' ⊆ open s ∖ {[ch]} -> ever s ⊆ ever s' -> places s' (<[i := g']> gs).
Proof.
  intros Hc Hg Hl Ho He. eapply (places_drop s gs _ _ ch); [apply inv| |done|done].
  intros c [j|n|rc]; [|rewrite (Hl c (InPool n)) by done|rewrite (Hl c (OnOffer rc)) by done].
  - cbn [located]. rewrite (located_thread s gs i j g) by done. rewrite Hg. split.
    + intros [[-> Hin]|[Hne Hlo]].
      * split; [set_solver|]. apply at_thread. set_solver.
      * split; [|done]. intros ->. pose proof (elsewhere _ _ Hc Hlo). naive_solver.
    + intros [Hne (g1 & Hj & Hin)]. destruct (decide (j = i)) as [->|]; [left|right].
      * assert (g1 = g) as -> by congruence. set_solver.
      * split; [done|]. by exists g1.
  - split; [|naive_solver]. intros H. split; [|done]. intros ->. by pose proof (elsewhere _ _ Hc H).
  - split; [|naive_solver]. intros H. split; [|done]. intros ->. by pose proof (elsewhere _ _ Hc H).
Qed.

(** The goroutine keeps its channels. *)
Lemma places_keep :
  chans g' = chans g ->
  (forall c pl, is_thread pl = false -> located s' gs c pl <-> located s gs c pl) ->
  open s' ⊆ open s -> ever s ⊆ ever s' -> places s' (<[i := g']> gs).
Proof.
  intros Hg Hl Ho He. eapply places_same; [apply inv| |done|done].
  intros c [j|n|rc]; [|exact (Hl c (InPool n) eq_refl)|exact (Hl c (OnOffer rc) eq_refl)]. cbn [located].
  rewrite (located_thread s gs i j g) by done. rewrite Hg. split.
  - intros [[-> Hin]|[_ H]]; [by apply at_thread|done].
  - intros (g1 & Hj & Hin). destruct (decide (j = i)) as [->|]; [left|right].
    + by assert (g1 = g) as -> by congruence.
    + split; [done|]. by exists g1.
Qed.
End preservation.

(** ** The operations *)

(** Where pools and offers are untouched, so are the places in them. *)
Lemma located_same s s' gs gs' c pl :
  is_thread pl = false -> pools s' = pools s -> offers s' = offers s ->
  located s' gs' c pl <-> located s gs c pl.
Proof. intros Hpl Hp Ho. destruct pl; simpl; rewrite ?Hp, ?Ho; done. Qed.

Section operations.
Context (s : pstate) (gs : list chan_owns) (i : nat) (g : chan_owns).
Hypothesis inv : chan_inv s gs.
Hypothesis lookup_i : gs !! i = Some g.

Let pools_inv : pools_ok s := proj1 (proj2 inv).
Let offers_inv : offers_ok s gs := proj2 (proj2 inv).

(** Operations that touch neither channels nor pools nor offers. *)
Lemma inv_idle s' :
  pools s' = pools s -> offers s' = offers s -> open s' = open s -> ever s' = ever s ->
  chan_inv s' (<[i := g]> gs).
Proof.
  intros Hp Ho Hop He. split_and!.
  - eapply places_keep; [exact inv|exact lookup_i|done| |by rewrite Hop|by rewrite He].
    intros c pl Hpl. by apply located_same.
  - intros n. rewrite Hp. apply pools_inv.
  - by eapply offers_ok_same.
Qed.

Lemma inv_send n size l pch :
  pch_ch pch ∈ chans g -> pools s !! n = Some (size, l) -> Z.of_nat (length l) < size ->
  chan_inv (with_pools s (insert n (size, l ++ [pch]))) (<[i := lose (pch_ch pch) g]> gs).
Proof.
  intros Hc Hn Hlt. split_and!; [| |by eapply offers_ok_same].
  - eapply (places_leave s _ gs i g _ inv lookup_i _ (InPool n)); [exact Hc|done|done| |set_solver|done].
    intros c [j|m|rc] Hpl; [done| |simpl; naive_solver]. simpl.
    destruct (decide (m = n)) as [->|Hne].
    + rewrite lookup_insert_eq. split.
      * intros (? & ? & pch' & [= <- <-] & Hin & <-). apply elem_of_app in Hin as [Hin|Hin].
        -- left. by exists size, l, pch'.
        -- right. by apply list_elem_of_singleton in Hin as ->.
      * intros [(sz & l' & pch' & Hn' & Hin & <-)|[-> _]].
        -- rewrite Hn in Hn'. simplify_eq. exists sz, (l' ++ [pch]), pch'. set_solver.
        -- exists size, (l ++ [pch]), pch. set_solver.
    + rewrite lookup_insert_ne by done. naive_solver.
  - intros m sz l'. simpl. destruct (decide (m = n)) as [->|Hne].
    + rewrite lookup_insert_eq. intros [= <- <-]. destruct (pools_inv _ _ _ Hn) as [Hd _].
      rewrite fmap_app, length_app. simpl. split; [|lia].
      apply NoDup_app. split; [done|]. split; [|apply NoDup_singleton].
      intros c Hin Hin'. apply list_elem_of_singleton in Hin' as ->.
      apply list_elem_of_fmap in Hin as (pch' & Heq & Hin).
      assert (located s gs (pch_ch pch) (InPool n)) as Hl by (rewrite Heq; by exists size, l, pch').
      by pose proof (elsewhere _ _ _ _ inv lookup_i _ _ Hc Hl).
    + rewrite lookup_insert_ne by done. apply pools_inv.
Qed.

Lemma inv_recv n size pch rest :
  pools s !! n = Some (size, pch :: rest) ->
  chan_inv (with_pools s (insert n (size, rest))) (<[i := gain (pch_ch pch) g]> gs).
Proof.
  intros Hn. assert (Hloc : located s gs (pch_ch pch) (InPool n)) by (exists size, (pch :: rest), pch; set_solver).
  destruct (pools_inv _ _ _ Hn) as [Hd Hlen]. apply NoDup_cons in Hd as [Hnin Hd].
  split_and!; [| |by eapply offers_ok_same].
  - eapply (places_arrive s _ gs i g _ inv lookup_i (pch_ch pch)); [done| | |set_solver|done|].
    + intros pl Hpl Hl. rewrite (at_place s gs inv _ _ _ Hl Hloc) in Hpl. done.
    + intros c [j|m|rc] Hpl; [done| |].
      * simpl. destruct (decide (m = n)) as [->|Hne].
        -- rewrite lookup_insert_eq. split.
           ++ intros (? & ? & pch' & [= <- <-] & Hin & <-). split.
              ** intros Heq. apply Hnin. rewrite <- Heq. by apply list_elem_of_fmap_2.
              ** exists size, (pch :: rest), pch'. set_solver.
           ++ intros [Hne (sz & l' & pch' & Hn' & Hin & <-)]. rewrite Hn in Hn'. simplify_eq.
              exists sz, rest, pch'. set_solver.
        -- rewrite lookup_insert_ne by done. split; [|naive_solver]. intros Hl. split; [|done].
           intros ->. by pose proof (at_place s gs inv _ (InPool m) _ Hl Hloc) as [= ?].
      * split; [|naive_solver]. intros Hl. split; [|done].
        intros ->. by pose proof (at_place s gs inv _ (OnOffer rc) _ Hl Hloc).
    + pose proof inv as ([_ _ H3] & _). by eapply H3.
  - intros m sz l'. simpl. destruct (decide (m = n)) as [->|Hne].
    + rewrite lookup_insert_eq. intros [= <- <-]. split; [done|]. intros Hs. specialize (Hlen Hs).
      simpl in Hlen. lia.
    + rewrite lookup_insert_ne by done. apply pools_inv.
Qed.

Lemma inv_make n size :
  pools s !! n = None -> chan_inv (with_pools s (insert n (size, []))) (<[i := g]> gs).
Proof.
  intros Hn. split_and!; [| |by eapply offers_ok_same].
  - eapply places_keep; [exact inv|exact lookup_i|done| |done|done].
    intros c [j|m|rc] Hpl; [done| |done]. simpl. destruct (decide (m = n)) as [->|Hne].
    + rewrite lookup_insert_eq, Hn. split; intros (? & ? & pch & ? & Hin & _); simplify_eq.
      by apply not_elem_of_nil in Hin.
    + by rewrite lookup_insert_ne.
  - intros m sz l'. simpl. destruct (decide (m = n)) as [->|Hne].
    + rewrite lookup_insert_eq. intros [= <- <-]. split; [apply NoDup_nil_2|simpl; lia].
    + rewrite lookup_insert_ne by done. apply pools_inv.
Qed.

(** A channel is opened. *)
Lemma inv_open ch :
  ch ∉ ever s -> chan_inv (with_open s ({[ch]} ∪ open s) ({[ch]} ∪ ever s)) (<[i := gain ch g]> gs).
Proof.
  intros Hnew. assert (Hno : forall pl, ~ located s gs ch pl).
  { intros pl Hl. pose proof inv as ([_ _ H3] & _). by apply Hnew, (H3 _ pl). }
  split_and!; [|done|by eapply offers_ok_same].
  eapply (places_arrive s _ gs i g _ inv lookup_i ch); [done| | |done|set_solver|set_solver].
  - intros pl _. apply Hno.
  - intros c pl Hpl. rewrite (located_same s) by done. split; [|naive_solver].
    intros Hl. split; [|done]. intros ->. by apply (Hno pl).
Qed.

(** A channel is closed by its owner, or found closed. *)
Lemma inv_close ch :
  ch ∈ chans g -> chan_inv (with_open s (open s ∖ {[ch]}) (ever s)) (<[i := lose ch g]> gs).
Proof.
  intros Hc. split_and!; [|done|by eapply offers_ok_same].
  eapply (places_forget s _ gs i g _ inv lookup_i ch); [done|done| |done|done].
  intros c pl Hpl. by apply located_same.
Qed.

Lemma inv_found_closed ch :
  chan_inv (with_open s (open s ∖ {[ch]}) (ever s)) (<[i := g]> gs).
Proof.
  split_and!; [|done|by eapply offers_ok_same].
  eapply places_keep; [exact inv|exact lookup_i|done| |set_solver|done].
  intros c pl Hpl. by apply located_same.
Qed.

(** Offers other than [rc] are as before. *)
Lemma offers_ok_update rc v s' g' :
  offers s' = insert rc v (offers s) ->
  (forall (j : nat) g1 res, j <> i -> gs !! j = Some g1 -> offer g1 <> Some (rc, res)) ->
  (forall rc' res, offer g' = Some (rc', res) ->
     rc' = rc /\ (v = Some (Pending res) \/ v = Some Taken)) ->
  (forall rc' res, offer g = Some (rc', res) -> rc' = rc) ->
  (forall o, v = Some o -> exists res, offer g' = Some (rc, res)) ->
  offers_ok s' (<[i := g']> gs).
Proof.
  intros Hs Hothers Hg' Hg Hv. destruct offers_inv as [H1 H2 H3]. split.
  - intros j g1 rc' res Hj Ho. rewrite Hs.
    apply list_lookup_insert_Some in Hj as [(<- & <- & _)|(Hne & Hj)].
    + destruct (Hg' _ _ Ho) as [-> Hv']. rewrite lookup_insert_eq. destruct Hv' as [-> | ->]; auto.
    + rewrite lookup_insert_ne; [eauto|]. intros <-. by eapply Hothers; [|exact Hj|].
  - intros j k g1 g2 rc' res res' Hj Hk.
    apply list_lookup_insert_Some in Hj as [(<- & <- & _)|(Hne & Hj)];
      apply list_lookup_insert_Some in Hk as [(<- & <- & _)|(Hne' & Hk)]; [done| | |eauto].
    + intros Ho Ho'. destruct (Hg' _ _ Ho) as [-> _]. by destruct (Hothers k g2 res').
    + intros Ho Ho'. destruct (Hg' _ _ Ho') as [-> _]. by destruct (Hothers j g1 res).
  - intros rc' o. rewrite Hs. destruct (decide (rc' = rc)) as [->|Hne].
    + rewrite lookup_insert_eq. intros [= Ho]. destruct (Hv o Ho) as [res Hres]. exists i, g', res.
      by rewrite list_lookup_insert_eq by by eapply lookup_lt_Some.
    + rewrite lookup_insert_ne by done. intros Ho. destruct (H3 _ _ Ho) as (j & g1 & res & Hj & Hg1).
      exists j, g1, res. rewrite list_lookup_insert_ne; [done|]. intros <-.
      assert (g1 = g) as -> by congruence. by destruct Hne; eapply Hg.
Qed.

(** Nobody holds an offer on a channel with none. *)
Lemma no_offer rc : offers s !! rc = None \/ offers s !! rc = Some None ->
  forall (j : nat) g1 res, gs !! j = Some g1 -> offer g1 <> Some (rc, res).
Proof.
  intros Hrc j g1 res Hj Ho. destruct (offer_known _ _ offers_inv _ _ _ _ Hj Ho); destruct Hrc; congruence.
Qed.

Lemma inv_result_make rc :
  offers s !! rc = None -> chan_inv (with_offers s (insert rc None)) (<[i := g]> gs).
Proof.
  intros Hrc. split_and!; [|done|].
  - eapply places_keep; [exact inv|exact lookup_i|done| |done|done].
    intros c [j|m|rc'] Hpl; [done|done|]. simpl. destruct (decide (rc' = rc)) as [->|].
    + by rewrite lookup_insert_eq, Hrc.
    + by rewrite lookup_insert_ne.
  - rewrite list_insert_id by done. destruct offers_inv as [H1 H2 H3]. split; [|exact H2|].
    + intros j g1 rc' res Hj Ho. simpl. rewrite lookup_insert_ne; [eauto|]. intros <-.
      by eapply no_offer; [left; exact Hrc|exact Hj|].
    + intros rc' o. simpl. destruct (decide (rc' = rc)) as [->|]; [by rewrite lookup_insert_eq|].
      rewrite lookup_insert_ne by done. apply H3.
Qed.

Lemma inv_offer rc res :
  offers s !! rc = Some None -> offer g = None -> (forall ch, res = Ok ch -> ch ∈ chans g) ->
  chan_inv (with_offers s (insert rc (Some (Pending res))))
    (<[i := mkOwn (chans (lose_res res g)) (Some (rc, res))]> gs).
Proof.
  intros Hrc Hg Hres. split_and!; [|done|].
  - destruct res as [ch|e]; simpl.
    + eapply (places_leave s _ gs i g _ inv lookup_i ch (OnOffer rc)); [by apply Hres|done|done| |set_solver|done].
      intros c [j|m|rc'] Hpl; [done|simpl; naive_solver|]. simpl.
      destruct (decide (rc' = rc)) as [->|]; [rewrite lookup_insert_eq, Hrc|rewrite lookup_insert_ne by done];
        naive_solver.
    + eapply places_keep; [exact inv|exact lookup_i|done| |done|done].
      intros c [j|m|rc'] Hpl; [done|done|]. simpl.
      destruct (decide (rc' = rc)) as [->|]; [rewrite lookup_insert_eq, Hrc|rewrite lookup_insert_ne by done];
        naive_solver.
  - eapply offers_ok_update; [reflexivity| | | |]; simpl; [|naive_solver|congruence|naive_solver].
    intros j g1 res' _ Hj. eapply no_offer; [right; exact Hrc|exact Hj].
Qed.

(** The receiver takes the offered value. *)
Lemma inv_handed rc res :
  offers s !! rc = Some (Some (Pending res)) ->
  chan_inv (with_offers s (insert rc (Some Taken))) (<[i := gain_res res g]> gs).
Proof.
  intros Hrc. split_and!; [|done|].
  - destruct res as [ch|e]; simpl.
    + assert (Hloc : located s gs ch (OnOffer rc)) by done.
      eapply (places_arrive s _ gs i g _ inv lookup_i ch); [done| | |set_solver|done|].
      * intros pl Hpl Hl. by rewrite (at_place s gs inv _ _ _ Hl Hloc) in Hpl.
      * intros c [j|m|rc'] Hpl; [done| |].
        -- simpl. split; [|naive_solver]. intros Hl. split; [|done]. intros ->.
           by pose proof (at_place s gs inv _ (InPool m) _ Hl Hloc).
        -- simpl. destruct (decide (rc' = rc)) as [->|]; [rewrite lookup_insert_eq, Hrc; naive_solver|].
           rewrite lookup_insert_ne by done. split; [|naive_solver]. intros Hl. split; [|done]. intros ->.
           by pose proof (at_place s gs inv _ (OnOffer rc') _ Hl Hloc) as [= ?].
      * pose proof inv as ([_ _ H3] & _). by eapply H3.
    + eapply places_keep; [exact inv|exact lookup_i|done| |done|done].
      intros c [j|m|rc'] Hpl; [done|done|]. simpl.
      destruct (decide (rc' = rc)) as [->|]; [rewrite lookup_insert_eq, Hrc; naive_solver|].
      by rewrite lookup_insert_ne.
  - assert (Hgs : forall (j : nat) g1, <[i := gain_res res g]> gs !! j = Some g1 ->
      exists g2, gs !! j = Some g2 /\ offer g1 = offer g2).
    { intros j g1 Hj. apply list_lookup_insert_Some in Hj as [(<- & <- & _)|(_ & Hj)]; [|eauto].
      exists g. split; [done|]. by destruct res. }
    destruct offers_inv as [H1 H2 H3]. split.
    + intros j g1 rc' res' (g2 & Hj & Ho)%Hgs Hg1. rewrite Ho in Hg1. simpl.
      destruct (decide (rc' = rc)) as [->|]; [rewrite lookup_insert_eq; auto|].
      rewrite lookup_insert_ne by done. eauto.
    + intros j k g1 g2 rc' r r' (g3 & Hj & Ho)%Hgs (g4 & Hk & Ho')%Hgs. rewrite Ho, Ho'. eauto.
    + intros rc' o Ho. assert (exists o', offers s !! rc' = Some (Some o')) as [o' Ho'].
      { simpl in Ho. destruct (decide (rc' = rc)) as [->|]; [eauto|].
        rewrite lookup_insert_ne in Ho by done. eauto. }
      destruct (H3 _ _ Ho') as (j & g1 & r & Hj & Hg1). destruct (decide (i = j)) as [<-|Hne].
      * exists i, (gain_res res g), r. rewrite list_lookup_insert_eq by by eapply lookup_lt_Some.
        assert (g1 = g) as -> by congruence. split; [done|]. by destruct res.
      * exists j, g1, r. by rewrite list_lookup_insert_ne.
Qed.

(** The sender wakes up: its value was taken, or it gets it back. *)
Lemma inv_taken rc res :
  offer g = Some (rc, res) -> offers s !! rc = Some (Some Taken) ->
  chan_inv (with_offers s (insert rc None)) (<[i := mkOwn (chans g) None]> gs).
Proof.
  intros Hg Hrc. split_and!; [|done|].
  - eapply places_keep; [exact inv|exact lookup_i|done| |done|done].
    intros c [j|m|rc'] Hpl; [done|done|]. simpl.
    destruct (decide (rc' = rc)) as [->|]; [rewrite lookup_insert_eq, Hrc; naive_solver|].
    by rewrite lookup_insert_ne.
  - eapply offers_ok_update; [reflexivity| | | |]; simpl; [|done|congruence|done].
    intros j g1 res' Hne Hj Ho. apply Hne. by eapply (offer_once _ _ offers_inv).
Qed.

Lemma inv_refused rc res res' :
  offer g = Some (rc, res) -> offers s !! rc = Some (Some (Pending res')) ->
  chan_inv (with_offers s (insert rc None)) (<[i := mkOwn (chans (gain_res res g)) None]> gs).
Proof.
  intros Hg Hrc'. assert (Hrc : offers s !! rc = Some (Some (Pending res))).
  { destruct (offer_known _ _ offers_inv _ _ _ _ lookup_i Hg) as [?|?]; congruence. }
  split_and!; [|done|].
  - destruct res as [ch|e]; simpl.
    + assert (Hloc : located s gs ch (OnOffer rc)) by done.
      eapply (places_arrive s _ gs i g _ inv lookup_i ch); [done| | |set_solver|done|].
      * intros pl Hpl Hl. by rewrite (at_place s gs inv _ _ _ Hl Hloc) in Hpl.
      * intros c [j|m|rc2] Hpl; [done| |].
        -- simpl. split; [|naive_solver]. intros Hl. split; [|done]. intros ->.
           by pose proof (at_place s gs inv _ (InPool m) _ Hl Hloc).
        -- simpl. destruct (decide (rc2 = rc)) as [->|]; [rewrite lookup_insert_eq, Hrc; naive_solver|].
           rewrite lookup_insert_ne by done. split; [|naive_solver]. intros Hl. split; [|done]. intros ->.
           by pose proof (at_place s gs inv _ (OnOffer rc2) _ Hl Hloc) as [= ?].
      * pose proof inv as ([_ _ H3] & _). by eapply H3.
    + eapply places_keep; [exact inv|exact lookup_i|done| |done|done].
      intros c [j|m|rc2] Hpl; [done|done|]. simpl.
      destruct (decide (rc2 = rc)) as [->|]; [rewrite lookup_insert_eq, Hrc; naive_solver|].
      by rewrite lookup_insert_ne.
  - eapply offers_ok_update; [reflexivity| | | |]; simpl; [|done|congruence|done].
    intros j g1 r Hne Hj Ho. apply Hne. by eapply (offer_once _ _ offers_inv).
Qed.
End operations.

(** Every operation keeps the invariant. *)
Lemma chan_inv_op s gs (i : nat) g X (e : publisherE X) Q x s' :
  chan_inv s gs -> gs !! i = Some g -> chan_op X e g Q -> pub_sem X e s x s' ->
  exists g', Q x g' /\ chan_inv s' (<[i := g']> gs).
Proof.
  intros Hinv Hi Hop Hsem.
  assert (Hsame : s' = s -> Q x g -> exists g', Q x g' /\ chan_inv s' (<[i := g']> gs)).
  { intros -> HQ. exists g. by rewrite list_insert_id. }
  destruct e as [[[[[e|e]|e]|e]|e]|e]; simpl in Hop, Hsem; [| |by apply Hsame..].
  - destruct e; simpl in Hop, Hsem; try (by apply Hsame);
      try (exists g; split; [by apply Hop|]; by eapply inv_idle; intuition (subst; eauto)).
    + destruct Hsem as (r & _ & ->). exists g. split; [by apply Hop|]. by eapply inv_idle.
    + destruct Hsem as [Hn ->]. exists g. split; [by apply Hop|]. by apply inv_make.
    + destruct Hop as (Hc & Hf & Ht). destruct Hsem as (size & l & Hn & Hs). destruct x.
      * destruct Hs as [Hlt ->]. eexists. split; [exact Ht|]. by apply inv_send.
      * destruct Hs as [_ ->]. by apply Hsame.
    + destruct Hop as (Hnone & Hsome). destruct Hsem as (size & l & Hn & Hs). destruct x as [pch|].
      * destruct Hs as (rest & -> & ->). eexists. split; [|by apply inv_recv].
        apply Hsome. intros Hc. enough (InPool pool = WithThread i) by done.
        apply (elsewhere _ _ _ _ Hinv Hi _ _ Hc). exists size, (pch :: rest), pch. set_solver.
      * destruct Hs as [_ ->]. by apply Hsame.
    + destruct Hsem as [Hn ->]. exists g. split; [by apply Hop|]. by apply inv_result_make.
    + destruct Hop as (Hg & Hres & HQ). destruct Hsem as [Hrc ->]. destruct x.
      eexists. split; [exact HQ|]. by apply inv_offer.
    + destruct Hop as (res & Hg & Ht & Hf). destruct Hsem as [Hx ->]. destruct x.
      * eexists. split; [exact Ht|]. by eapply inv_taken.
      * destruct Hx as [_ [res' Hx]]. eexists. split; [|by eapply inv_refused]. apply Hf.
        destruct res as [ch|err]; [|done]. intros Hc. enough (OnOffer resultChan = WithThread i) by done.
        apply (elsewhere _ _ _ _ Hinv Hi _ _ Hc).
        pose proof Hinv as (_ & _ & Hofs). simpl.
        by destruct (offer_known _ _ Hofs _ _ _ _ Hi Hg); congruence.
    + destruct Hop as (Hnone & Hsome). destruct x as [res|].
      * destruct Hsem as [Hrc ->]. eexists. split; [|by apply inv_handed].
        apply Hsome. destruct res as [ch|err]; [|done]. intros Hc.
        enough (OnOffer resultChan = WithThread i) by done.
        by apply (elsewhere _ _ _ _ Hinv Hi _ _ Hc).
      * subst s'. by apply Hsame.
  - destruct Hop as [Hu Hop]. destruct e; simpl in Hop, Hsem; try (by apply Hsame).
    + destruct x as [ch|e].
      * destruct Hsem as [Hnew ->]. eexists. split; [|by apply inv_open]. apply Hop. intros Hc. apply Hnew.
        pose proof Hinv as ([_ _ H3] & _). apply (H3 _ (WithThread i)). by exists g.
      * subst s'. by apply Hsame; [|apply (Hop (Err e))].
    + destruct Hop as [Hf Ht]. destruct x; [|by apply Hsame]. subst s'.
      destruct Ht as [Ht|Ht]; eexists; (split; [exact Ht|]).
      * by apply inv_found_closed.
      * apply inv_close; auto.
    + subst s'. destruct x. eexists. split; [exact Hop|]. apply inv_close; auto.
Qed.

(** A goroutine is started with nothing. *)
Lemma located_fork s gs ch pl : located s (gs ++ [no_chans]) ch pl <-> located s gs ch pl.
Proof.
  destruct pl as [j|n|rc]; [|done|done]. simpl. split.
  - intros (g & Hj & Hc). apply lookup_app_Some in Hj as [Hj|[_ Hj]]; [eauto|].
    apply list_lookup_singleton_Some in Hj as [_ <-]. set_solver.
  - intros (g & Hj & Hc). exists g. split; [by apply lookup_app_l_Some|done].
Qed.

Lemma fork_lookup gs (j : nat) g rc res :
  (gs ++ [no_chans]) !! j = Some g -> offer g = Some (rc, res) -> gs !! j = Some g.
Proof.
  intros Hj Ho. apply lookup_app_Some in Hj as [Hj|[_ Hj]]; [done|].
  by apply list_lookup_singleton_Some in Hj as [_ <-].
Qed.

Lemma chan_inv_fork s gs (i : nat) g gp gc :
  chan_inv s gs -> gs !! i = Some g -> fork chan_logic g gp gc -> chan_inv s (<[i := gp]> gs ++ [gc]).
Proof.
  intros (Hp & Hpools & [H1 H2 H3]) Hi [-> ->]. rewrite list_insert_id by done. split_and!; [|done|].
  - eapply places_same; [exact Hp|apply located_fork|done|done].
  - split.
    + intros j g1 rc res Hj Ho. eapply H1; [|exact Ho]. by eapply fork_lookup.
    + intros j k g1 g2 rc res res' Hj Hk Ho Ho'.
      eapply H2; [by eapply fork_lookup|by eapply fork_lookup|exact Ho|exact Ho'].
    + intros rc o Ho. destruct (H3 _ _ Ho) as (j & g1 & res & Hj & Hg1). exists j, g1, res.
      split; [by apply lookup_app_l_Some|done].
Qed.
