(* ===== verification/PoolOwns.v ===== *)
(** * PoolOwns: every operation of a publisher obeys the ownership of channels. *)
From S2P Require Import Prelude AmqpData Errors Prog Machine Config Amqp Topology Instr Dial Consumer Session Pool Publisher PoolMachine.
Import Pool.Publisher.
Local Open Scope Z_scope.

Lemma lose_gain ch g : ch ∉ chans g -> lose ch (gain ch g) = g.
Proof. destruct g as [l o]. unfold lose, gain. simpl. intros Hc. f_equal. set_solver. Qed.

Lemma lose_gain_res res g : newcomer res g -> lose_res res (gain_res res g) = g.
Proof. destruct res; [apply lose_gain|done]. Qed.

Lemma gained ch g : ch ∈ chans (gain ch g).
Proof. set_solver. Qed.

(** [keeps p]: [p] leaves the goroutine with the channels it had. *)
Abbreviation keeps p := (keeps_from chan_logic (fun g => offer g = None) p).

(** One step of a goroutine that performs an idle operation, or uses the channel it owns by [H]. *)
Ltac idle := apply cwp_op; first [intros ? | split; [done|]; intros ?].
Ltac owned H := apply cwp_op; split; [intros ? [= <-]; exact H|].

(** ** Opening connections *)

Lemma dialer_owns url amqpCfg rc :
  cwp chan_logic (dialer url amqpCfg rc) no_chans (fun _ g => fin chan_logic g).
Proof.
  enough (keeps (dialer (E := publisherE) url amqpCfg rc)) as Hk by by apply Hk.
  unfold dialer. keep.
Qed.

Lemma keeps_Dial opts : keeps (Dial opts).
Proof.
  unfold Dial, dialProperties. keep. apply (keeps_go _ _ _ no_chans); [done|apply dialer_owns].
Qed.
#[export] Hint Resolve keeps_Dial : keeps.

Lemma keeps_DeclareExchange conn name kind : keeps (DeclareExchange conn name kind).
Proof.
  intros g Q Hg HQ. unfold DeclareExchange. apply cwp_op. split; [done|].
  intros [ch|e] Hnew; [|apply HQ]. simpl in Hnew.
  owned (gained ch g). intros err. owned (gained ch g). simpl.
  rewrite lose_gain by done. apply HQ.
Qed.
#[export] Hint Resolve keeps_DeclareExchange : keeps.

(** ** The pool *)

Lemma channelOpener_owns conn rc d :
  cwp chan_logic (channelOpener conn rc d) no_chans (fun _ g => fin chan_logic g).
Proof.
  apply cwp_op. split; [done|]. intros res Hnew.
  apply cwp_op. split; [by destruct res|]. split; [intros ch ->; apply gained|].
  rewrite lose_gain_res by done.
  apply cwp_op. exists res. split; [done|]. split; [by split|]. intros _.
  destruct res as [ch|err]; [|by split].
  apply cwp_trigger. split; [intros ? [= <-]; set_solver|]. simpl. split; [set_solver|done].
Qed.

Lemma confirmEnabler_owns ch rc :
  cwp chan_logic (confirmEnabler ch rc) no_chans (fun _ g => fin chan_logic g).
Proof. enough (keeps (confirmEnabler ch rc)) as Hk by by apply Hk. unfold confirmEnabler. keep. Qed.

(** What a program that answers a channel, if it can, leaves its goroutine with. *)
Definition yields {A} (chan : A -> option channel) (p : prog publisherE A) : Prop :=
  forall g (Q : A -> chan_owns -> Prop), offer g = None ->
    (forall a, chan a = None -> Q a g) ->
    (forall a ch, chan a = Some ch -> ch ∉ chans g -> Q a (gain ch g)) ->
    cwp chan_logic p g Q.

Lemma enableConfirms_owns p ch g (Q : option channel -> chan_owns -> Prop) :
  ch ∈ chans g -> Q None (lose ch g) -> Q (Some ch) g -> cwp chan_logic (enableConfirms p ch) g Q.
Proof.
  intros Hc HN HS. unfold enableConfirms. idle.
  exists g, no_chans. split; [done|]. split; [apply confirmEnabler_owns|].
  idle. destruct x0 as [[err|]|]; [|exact HS|]; idle; by owned Hc.
Qed.

Lemma createConfirmChannel_yields p : yields id (createConfirmChannel p).
Proof.
  intros g Q Hg HN HS. unfold createConfirmChannel. do 3 idle. apply cwp_bind.
  destruct x0 as [conn|]; [|by apply HN]. idle. destruct x0; [by apply HN|].
  idle. idle. exists g, no_chans. split; [done|]. split; [apply channelOpener_owns|].
  apply cwp_op. split; [by do 2 idle; apply HN|]. intros [ch|err] Hnew; idle; [|by idle; apply HN].
  apply enableConfirms_owns; [apply gained| |by apply HS].
  simpl. rewrite lose_gain by done. by apply HN.
Qed.

Lemma createPooledChannel_yields p : yields (option_map pch_ch) (createPooledChannel p).
Proof.
  intros g Q Hg HN HS. apply cwp_bind, createConfirmChannel_yields; [done| |].
  - intros [ch|] [=]. by apply HN.
  - intros [ch|] ch' [= <-] Hnew. idle. by apply HS.
Qed.

Definition ok_chan {A} (f : A -> channel) (r : result A) : option channel :=
  match r with Ok a => Some (f a) | Err _ => None end.

Lemma newChannelOrError_yields p : yields (ok_chan pch_ch) (newChannelOrError p).
Proof.
  intros g Q Hg HN HS. apply cwp_bind, createPooledChannel_yields; [done| |].
  - intros [pch|] [=]. by apply HN.
  - intros [pch|] ch [= <-] Hnew. by apply HS.
Qed.

Lemma discard_owns ch g (Q : unit -> chan_owns -> Prop) :
  ch ∈ chans g -> Q tt (lose ch g) -> cwp chan_logic (discard ch) g Q.
Proof. intros Hc HQ. owned Hc. apply cwp_trigger. by intros []. Qed.

Lemma borrowChannel_yields p : yields (ok_chan pch_ch) (borrowChannel p).
Proof.
  intros g Q Hg HN HS. unfold borrowChannel. idle. destruct x; [by apply HN|].
  do 2 idle. destruct x0 as [pool|]; [|idle; by apply newChannelOrError_yields].
  apply cwp_op. split; [by idle; apply newChannelOrError_yields|].
  intros pch Hnew. idle.
  assert (Hold : cwp chan_logic (trigger (ChClose (pch_ch pch)) ;;;
    trigger (MetaDelete (Some (pch_ch pch))) ;;; newChannelOrError p)%go (gain (pch_ch pch) g) Q).
  { owned (gained (pch_ch pch) g). simpl. rewrite lose_gain by done. intros ?.
    by apply newChannelOrError_yields. }
  owned (gained (pch_ch pch) g). split; [|left; exact Hold].
  apply cwp_bind. idle. case_bool_decide; [exact Hold|]. by apply HS.
Qed.

Lemma GetChannel_yields p : yields (ok_chan id) (GetChannel p).
Proof.
  intros g Q Hg HN HS. apply cwp_bind, borrowChannel_yields; [done| |].
  - intros [pch|err] [=]. by apply HN.
  - intros [pch|err] ch [= <-] Hnew. idle. by apply HS.
Qed.

Lemma returnPooled_owns p pch g (Q : unit -> chan_owns -> Prop) :
  pch_ch pch ∈ chans g -> Q tt (lose (pch_ch pch) g) -> cwp chan_logic (returnPooled p pch) g Q.
Proof.
  intros Hc HQ. pose proof (discard_owns _ _ _ Hc HQ) as Hd. unfold returnPooled. cbv zeta.
  owned Hc. split; [|by left].
  apply cwp_bind. apply cwp_trigger. intros [|]; [exact Hd|]. do 2 idle.
  destruct x0 as [pool|]; [|by idle].
  apply cwp_op. split; [exact Hc|]. split; by idle.
Qed.

Lemma ReturnChannel_owns p ch g (Q : unit -> chan_owns -> Prop) :
  ch ∈ chans g -> Q tt (lose ch g) -> cwp chan_logic (ReturnChannel p (Some ch)) g Q.
Proof.
  intros Hc HQ. unfold ReturnChannel. apply cwp_bind. owned Hc. split.
  - idle. idle. by apply returnPooled_owns.
  - right. apply cwp_trigger. by intros [].
Qed.

Lemma keeps_warmChannelPool p : keeps (warmChannelPool p).
Proof.
  unfold warmChannelPool. apply keeps_bind; [|intros ?; keep].
  apply keeps_loop; [done|]. intros [attempt warmed]. unfold warm_round. cbv beta.
  intros g Q Hg HQ. case_bool_decide; [apply HQ|].
  apply cwp_bind, createPooledChannel_yields; [done| |].
  - intros [pch|] [=]. idle. apply HQ.
  - intros [pch|] ch [= <-] Hnew. do 2 idle. apply cwp_bind.
    assert (Hstored : forall stored : bool, stored = false -> cwp chan_logic
      (trigger PoolMuRUnlock ;;; if stored then Ret (inl (attempt + 1, warmed + 1))
       else trigger (ChClose (pch_ch pch)) ;;; Ret (inl (attempt + 1, warmed)))%go
      (gain (pch_ch pch) g) Q).
    { intros ? ->. idle. owned (gained (pch_ch pch) g). simpl. rewrite lose_gain by done. apply HQ. }
    destruct x0 as [pool|]; [|by apply (Hstored false)].
    apply cwp_trigger. split; [apply gained|]. split; [by apply (Hstored false)|].
    idle. rewrite lose_gain by done. apply HQ.
Qed.

Lemma keeps_drainPool pool : keeps (drainPool pool).
Proof.
  destruct pool as [pool|]; [|apply keeps_ret]. apply keeps_loop; [done|]. intros l g Q Hg HQ.
  apply cwp_op. split; [apply HQ|]. intros pch Hnew. apply cwp_bind, discard_owns; [apply gained|].
  rewrite lose_gain by done. apply HQ.
Qed.
#[export] Hint Resolve keeps_warmChannelPool keeps_drainPool : keeps.

Lemma keeps_drainChannelPool : keeps drainChannelPool.
Proof. unfold drainChannelPool. keep. Qed.
#[export] Hint Resolve keeps_drainChannelPool : keeps.

(** ** Publishing, connecting, closing *)

Lemma keeps_establishConnection p : keeps (establishConnection p).
Proof.
  unfold establishConnection, establishLocked. keep.
Qed.
#[export] Hint Resolve keeps_establishConnection : keeps.

Lemma keeps_pconnect p : keeps (pconnect p).
Proof. unfold pconnect. keep. Qed.
#[export] Hint Resolve keeps_pconnect : keeps.

Lemma keeps_preconnect p : keeps (preconnect p).
Proof. unfold preconnect, preconnect_round, sleepOrClosed. keep. Qed.
#[export] Hint Resolve keeps_preconnect : keeps.

Lemma keeps_pwatchConnection p : keeps (pwatchConnection p).
Proof. unfold pwatchConnection, pwatch_round, sleepOrClosed. keep. Qed.

Lemma keeps_PublisherClose p : keeps (PublisherClose p).
Proof. unfold PublisherClose, shutdown. keep. Qed.

Lemma pwatchConnection_owns p :
  cwp chan_logic (pwatchConnection p) no_chans (fun _ g => fin chan_logic g).
Proof. by apply keeps_pwatchConnection. Qed.

Lemma keeps_NewPublisher config : keeps (NewPublisher config).
Proof.
  unfold NewPublisher. keep. apply (keeps_go _ _ _ no_chans); [done|apply pwatchConnection_owns].
Qed.

(** Code that uses one channel, which its goroutine has. *)
Lemma publishOnChannel_owns p ctx ch msg pub g (Q : option error -> chan_owns -> Prop) :
  ch ∈ chans g -> (forall err, Q err g) -> cwp chan_logic (publishOnChannel p ctx ch msg pub) g Q.
Proof.
  intros Hc HQ. unfold publishOnChannel. destruct (negb _); [owned Hc; exact HQ|].
  owned Hc. intros [[dc|]|err]; [|apply HQ..]. idle.
  destruct x as [[]|err]; [apply HQ..|]. destruct (errors_Is _ _); apply HQ.
Qed.

Lemma publishMandatory_owns p ctx ch msg pub g (Q : option error -> chan_owns -> Prop) :
  ch ∈ chans g -> (forall err, Q err g) -> cwp chan_logic (publishMandatory p ctx ch msg pub) g Q.
Proof.
  intros Hc HQ. owned Hc. intros returns. apply cwp_bind, publishOnChannel_owns; [done|].
  intros [err|]; [apply HQ|]. idle. destruct x; [apply HQ|apply HQ|]. idle. apply HQ.
Qed.

Lemma keeps_publish p ctx msg : keeps (publish p ctx msg).
Proof.
  intros g Q Hg HQ. apply cwp_bind, borrowChannel_yields; [done| |].
  { intros [pch|err] [=]. apply HQ. }
  intros [pch|err] ch [= <-] Hnew. cbv zeta.
  destruct (PublishMessage.Mandatory msg); apply cwp_bind;
    [apply publishMandatory_owns|apply publishOnChannel_owns]; try apply gained;
    intros err; apply cwp_bind; [apply discard_owns|apply returnPooled_owns]; try apply gained;
    rewrite lose_gain by done; apply HQ.
Qed.
#[export] Hint Resolve keeps_publish : keeps.

Lemma keeps_PublishMessage p ctx msg : keeps (PublishMessage_ p ctx msg).
Proof. unfold PublishMessage_. keep. Qed.

Lemma declareQueueTopology_owns c ch q key g (Q : option error -> chan_owns -> Prop) :
  ch ∈ chans g -> (forall err, Q err g) -> cwp chan_logic (declareQueueTopology ch c q key) g Q.
Proof.
  intros Hc HQ. unfold declareQueueTopology, declareQueue.
  destruct (Config.DisableDeadLetter c); simpl negb; cbv iota zeta;
    repeat (owned Hc; intros [err|]; [apply HQ|]); apply HQ.
Qed.

Lemma keeps_DeclareQueueTopology p q key : keeps (DeclareQueueTopology p q key).
Proof.
  intros g Q Hg HQ. apply cwp_bind, GetChannel_yields; [done| |].
  { intros [ch|err] [=]. apply HQ. }
  intros [ch|err] ch' [= <-] Hnew. apply cwp_bind, declareQueueTopology_owns; [apply gained|].
  intros err. apply cwp_bind, ReturnChannel_owns; [apply gained|].
  rewrite lose_gain by done. apply HQ.
Qed.
