(* ===== verification/PoolClient.v ===== *)
(** * PoolClient: applications that use a publisher as its interface documents it. *)
From S2P Require Import Prelude AmqpData Errors Prog Machine Config Amqp Instr Dial Pool Publisher PoolMachine.
Local Open Scope Z_scope.

(** ** Applications *)

Definition is_close {X} (e : amqpE X) : bool :=
  match e with ChClose _ => true | _ => false end.

(** [client p held code h]: [code], run by a goroutine that borrowed the channels [held], keeps
    the documented contract of the publisher: it uses a borrowed channel itself, returns each
    one once, and does not close it; at the end it still has [h] of its answer. *)
Inductive client (p : Publisher.t) :
    forall A, list channel -> prog publisherE A -> (A -> list channel) -> Prop :=
| client_ret A (a : A) h : client p A (h a) (Ret a) h
| client_publish A ctx msg (k : option error -> prog publisherE A) held h :
    (forall err, client p A held (k err) h) -> client p A held (bind (PublishMessage_ p ctx msg) k) h
| client_declare A q key (k : option error -> prog publisherE A) held h :
    (forall err, client p A held (k err) h) ->
    client p A held (bind (DeclareQueueTopology p q key) k) h
| client_close A (k : unit -> prog publisherE A) held h :
    client p A held (k tt) h -> client p A held (bind (PublisherClose p) k) h
| client_get A (k : result channel -> prog publisherE A) held h :
    (forall err, client p A held (k (Err err)) h) ->
    (forall ch, client p A (ch :: held) (k (Ok ch)) h) ->
    client p A held (bind (GetChannel p) k) h
| client_return A ch (k : unit -> prog publisherE A) held held' h :
    held ≡ₚ ch :: held' -> client p A held' (k tt) h ->
    client p A held (bind (ReturnChannel p (Some ch)) k) h
| client_use A X (e : amqpE X) ch (k : X -> prog publisherE A) held h :
    uses e = Some ch -> ch ∈ held -> is_close e = false -> (forall x, client p A held (k x) h) ->
    client p A held (bind (trigger e) k) h
| client_wait A X (e : sysE X) (k : X -> prog publisherE A) held h :
    (forall x, client p A held (k x) h) -> client p A held (bind (trigger e) k) h
| client_loop A L R (body : L -> prog publisherE (L + R)) l (k : R -> prog publisherE A)
    (inv : L -> list channel) (left_ : R -> list channel) h :
    (forall l, client p (L + R) (inv l) (body l)
       (fun r => match r with inl l => inv l | inr b => left_ b end)) ->
    (forall b, client p A (left_ b) (k b) h) ->
    client p A (inv l) (Iter body l k) h
| client_go A child (k : prog publisherE A) held h :
    client p unit [] child (fun _ => []) -> client p A held k h -> client p A held (Go child k) h.

Arguments client p {A} held code h.

(** An application: it opens a publisher and, if that succeeds, runs [main] with it. *)
Definition application (config : Config.t) (main : Publisher.t -> prog publisherE unit)
  : prog publisherE unit :=
  bind (NewPublisher config) (fun r =>
    match r with
    | Ok p => main p
    | Err _ => Ret tt
    end).

(** The state before the application starts. *)
Definition initial : pstate := mkState ∅ None O false ∅ ∅ ∅ ∅.
