(* ===== verification/PoolLock.v ===== *)
(** * PoolLock: the lock of the channel pool, and the pools that a reconnect replaces.

    A second logic over the same machine: a goroutine knows how it holds poolMu, which pool it
    read under it, and which replaced pools it still has to drain. *)
From S2P Require Import Prelude AmqpData Errors Prog Machine Config Amqp Topology Instr Dial Pool Publisher PoolMachine.
Import Pool.Publisher.
Local Open Scope Z_scope.

(** ** What a goroutine knows *)

(** How it holds poolMu: what it read from channelPool under the lock, and the pool it made. *)
Inductive hold : Type :=
| NoLock
| Reading (seen : option (option nat))
| Writing (seen : option (option nat)) (made : option nat).

Record lock_owns : Type := mkLock {
  mode : hold;
  duty : gset nat              (* the pools it replaced and has not drained *)
}.

Definition idle_owns : lock_owns := mkLock NoLock ∅.
Definition holding (m : hold) (g : lock_owns) : lock_owns := mkLock m (duty g).

Definition is_reading (g : lock_owns) : bool := match mode g with Reading _ => true | _ => false end.
Definition is_writing (g : lock_owns) : bool := match mode g with Writing _ _ => true | _ => false end.
Definition seen (g : lock_owns) : option (option nat) :=
  match mode g with NoLock => None | Reading v => v | Writing v _ => v end.
Definition made (g : lock_owns) : option nat :=
  match mode g with Writing _ m => m | _ => None end.

Definition saw (pool : option nat) (g : lock_owns) : lock_owns :=
  match mode g with
  | NoLock => g
  | Reading _ => holding (Reading (Some pool)) g
  | Writing _ m => holding (Writing (Some pool) m) g
  end.
Definition has_made (pool : nat) (g : lock_owns) : lock_owns :=
  match mode g with
  | Writing v _ => holding (Writing v (Some pool)) g
  | _ => g
  end.
Definition has_stored (old : option nat) (pool : nat) (g : lock_owns) : lock_owns :=
  mkLock (mode (saw (Some pool) g)) (match old with Some n => {[n]} ∪ duty g | None => duty g end).

(** Under the lock there are only operations that do not wait. *)
Definition lock_pub {X} (e : pubE X) (g : lock_owns) : (X -> lock_owns -> Prop) -> Prop :=
  match e with
  | PoolMuLock => fun Q => mode g = NoLock /\ Q tt (holding (Writing None None) g)
  | PoolMuUnlock => fun Q => is_writing g = true /\ Q tt (holding NoLock g)
  | PoolMuRLock => fun Q => mode g = NoLock /\ Q tt (holding (Reading None) g)
  | PoolMuRUnlock => fun Q => is_reading g = true /\ Q tt (holding NoLock g)
  | LoadChannelPool => fun Q => mode g <> NoLock /\ forall pool, Q pool (saw pool g)
  | PoolMake _ => fun Q => is_writing g = true /\ forall pool, Q pool (has_made pool g)
  | StoreChannelPool pool => fun Q => is_writing g = true /\ made g = Some pool /\
      exists old, seen g = Some old /\ Q tt (has_stored old pool g)
  | PoolTrySend pool _ => fun Q => is_reading g = true /\ seen g = Some (Some pool) /\ forall x, Q x g
  | PoolTryRecv pool => fun Q => (mode g = NoLock \/ seen g = Some (Some pool)) /\
      (forall pch, Q (Some pch) g) /\ Q None (mkLock (mode g) (duty g ∖ {[pool]}))
  | _ => fun Q => mode g = NoLock /\ forall x, Q x g
  end.

Definition lock_op (X : Type) (e : publisherE X) (g : lock_owns) (Q : X -> lock_owns -> Prop) : Prop :=
  match e with
  | inl1 (inl1 (inl1 (inl1 (inl1 e)))) => lock_pub e g Q
  | _ => mode g = NoLock /\ forall x, Q x g
  end.

Lemma lock_op_mono X (e : publisherE X) g (Q Q' : X -> lock_owns -> Prop) :
  (forall x g', Q x g' -> Q' x g') -> lock_op X e g Q -> lock_op X e g Q'.
Proof.
  intros HQ. destruct e as [[[[[e|e]|e]|e]|e]|e]; simpl; [|naive_solver..].
  revert Q Q' HQ. destruct e; simpl; naive_solver.
Qed.

Definition lock_logic : logic publisherE lock_owns := {|
  op := lock_op;
  op_mono := lock_op_mono;
  fork := fun g gp gc => mode g = NoLock /\ gp = g /\ gc = idle_owns;
  turn := fun g => mode g = NoLock;
  fin := fun g => mode g = NoLock /\ duty g = ∅
|}.

(** ** The invariant *)

Record lock_inv (s : pstate) (gs : list lock_owns) : Prop := {
  (* the lock counts its holders *)
  inv_readers : readers s = count is_reading gs;
  inv_writer : Nat.b2n (writer s) = count is_writing gs;
  inv_excl : writer s = true -> readers s = O;
  (* what was read under the lock is still so, and what was made there exists *)
  inv_seen : forall (i : nat) g v, gs !! i = Some g -> seen g = Some v -> current s = v;
  inv_made : forall (i : nat) g n, gs !! i = Some g -> made g = Some n -> is_Some (pools s !! n);
  inv_current : forall n, current s = Some n -> is_Some (pools s !! n);
  (* a pool that was replaced is empty, or somebody will drain it *)
  inv_replaced : forall n size l, pools s !! n = Some (size, l) -> l <> [] -> current s <> Some n ->
    exists (i : nat) g, gs !! i = Some g /\ n ∈ duty g
}.

(** A goroutine's own entry after an update. *)
Lemma own_entry {A} (gs : list A) (i : nat) g g' : gs !! i = Some g -> <[i := g']> gs !! i = Some g'.
Proof. intros Hi. apply list_lookup_insert_eq. by eapply lookup_lt_Some. Qed.

Lemma duty_kept (gs : list lock_owns) (i : nat) g g' n :
  gs !! i = Some g -> (n ∈ duty g -> n ∈ duty g') ->
  (exists (j : nat) g1, gs !! j = Some g1 /\ n ∈ duty g1) ->
  exists (j : nat) g1, <[i := g']> gs !! j = Some g1 /\ n ∈ duty g1.
Proof.
  intros Hi Hd (j & g1 & Hj & Hn). destruct (decide (i = j)) as [<-|Hne].
  - exists i, g'. split; [by eapply own_entry|]. apply Hd. by simplify_eq.
  - exists j, g1. by rewrite list_lookup_insert_ne.
Qed.

Section operations.
Context (s : pstate) (gs : list lock_owns) (i : nat) (g : lock_owns).
Hypothesis inv : lock_inv s gs.
Hypothesis lookup_i : gs !! i = Some g.

(** The lock is taken or released. *)
Lemma lock_taken m r w :
  seen (holding m g) = None -> made (holding m g) = None ->
  r = count is_reading (<[i := holding m g]> gs) ->
  Nat.b2n w = count is_writing (<[i := holding m g]> gs) -> (w = true -> r = O) ->
  lock_inv (with_lock s r w) (<[i := holding m g]> gs).
Proof.
  intros Hseen Hmade Hr Hw Hx. destruct inv as [H1 H2 H3 H4 H5 H6 H7]. split; simpl; try done.
  - intros j g1 v Hj. apply list_lookup_insert_Some in Hj as [(<- & <- & _)|(_ & Hj)]; [congruence|eauto].
  - intros j g1 n Hj. apply list_lookup_insert_Some in Hj as [(<- & <- & _)|(_ & Hj)]; [congruence|eauto].
  - intros n size l Hn Hl Hc. eapply duty_kept; [done| |eauto]. done.
Qed.

(** The lock stays as it is. *)
Lemma lock_kept s' g' :
  is_reading g' = is_reading g -> is_writing g' = is_writing g -> readers s' = readers s -> writer s' = writer s ->
  readers s' = count is_reading (<[i := g']> gs) /\ Nat.b2n (writer s') = count is_writing (<[i := g']> gs) /\
  (writer s' = true -> readers s' = O).
Proof.
  intros Hm Hm' -> ->. destruct inv as [H1 H2 H3 _ _ _ _].
  pose proof (count_insert is_reading gs i g g' lookup_i) as Hr.
  pose proof (count_insert is_writing gs i g g' lookup_i) as Hw.
  rewrite Hm in Hr. rewrite Hm' in Hw. split_and!; [lia..|done].
Qed.

(** What the goroutine read, or made, under the lock it holds. *)
Lemma lock_noted s' g' :
  is_reading g' = is_reading g -> is_writing g' = is_writing g -> readers s' = readers s -> writer s' = writer s -> current s' = current s ->
  (forall n, is_Some (pools s !! n) -> is_Some (pools s' !! n)) ->
  (forall v, seen g' = Some v -> current s = v) ->
  (forall n, made g' = Some n -> is_Some (pools s' !! n)) ->
  (forall n size l, pools s' !! n = Some (size, l) -> l <> [] -> current s <> Some n ->
    (exists l' size', pools s !! n = Some (size', l') /\ l' <> []) /\ (n ∈ duty g -> n ∈ duty g')) ->
  lock_inv s' (<[i := g']> gs).
Proof.
  intros Hm Hm' Hr Hw Hc Hp Hs Hmade Hd. destruct (lock_kept s' g' Hm Hm' Hr Hw) as (K1 & K2 & K3).
  destruct inv as [H1 H2 H3 H4 H5 H6 H7]. split; try done.
  - intros j g1 v Hj. rewrite Hc.
    apply list_lookup_insert_Some in Hj as [(<- & <- & _)|(_ & Hj)]; eauto.
  - intros j g1 n Hj. apply list_lookup_insert_Some in Hj as [(<- & <- & _)|(_ & Hj)]; eauto.
  - intros n. rewrite Hc. eauto.
  - intros n size l Hn Hl. rewrite Hc. intros Hcur.
    destruct (Hd n size l Hn Hl Hcur) as [(l' & size' & Hn' & Hl') Hdn].
    eapply duty_kept; [done|exact Hdn|eauto].
Qed.

(** Nobody else is under the lock of a writer. *)
Lemma writer_alone (j : nat) g1 : is_writing g = true -> j <> i -> gs !! j = Some g1 -> mode g1 = NoLock.
Proof.
  intros Hm Hne Hj. destruct inv as [H1 H2 H3 _ _ _ _].
  pose proof (count_pos _ _ _ _ lookup_i Hm) as Hpos.
  assert (Hw : writer s = true) by (destruct (writer s); [done|simpl in H2; lia]).
  specialize (H3 Hw). rewrite H1 in H3. rewrite Hw in H2. simpl in H2.
  pose proof (count_zero _ _ _ _ H3 Hj) as Hz.
  pose proof (count_insert is_writing gs i g idle_owns lookup_i) as Hc. rewrite Hm in Hc. simpl in Hc.
  assert (count is_writing (<[i := idle_owns]> gs) = O) as H0 by lia.
  assert (<[i := idle_owns]> gs !! j = Some g1) as Hj' by by rewrite list_lookup_insert_ne.
  pose proof (count_zero _ _ _ _ H0 Hj') as Hz'.
  unfold is_reading in Hz. unfold is_writing in Hz'. by destruct (mode g1).
Qed.

Lemma lock_stored n old :
  is_writing g = true -> made g = Some n -> seen g = Some old ->
  lock_inv (with_current s (Some n)) (<[i := has_stored old n g]> gs).
Proof.
  intros Hm Hmade Hseen.
  assert (Hg : is_reading (has_stored old n g) = is_reading g /\ is_writing (has_stored old n g) = is_writing g /\
    made (has_stored old n g) = made g /\ seen (has_stored old n g) = Some (Some n)).
  { unfold has_stored, saw, is_reading, is_writing, made, seen in *. simpl. by destruct (mode g). }
  destruct Hg as (G1 & G2 & G3 & G4).
  destruct (lock_kept (with_current s (Some n)) (has_stored old n g)) as (K1 & K2 & K3); [done..|].
  pose proof (inv_seen _ _ inv _ _ _ lookup_i Hseen) as Hcur.
  pose proof writer_alone as Halone. destruct inv as [H1 H2 H3 H4 H5 H6 H7]. split; try done; simpl.
  - intros j g1 v Hj. apply list_lookup_insert_Some in Hj as [(<- & <- & _)|(Hne & Hj)]; [congruence|].
    unfold seen. by rewrite (Halone j g1).
  - intros j g1 n' Hj. apply list_lookup_insert_Some in Hj as [(<- & <- & _)|(Hne & Hj)]; [rewrite G3|]; eauto.
  - intros n' [= <-]. eauto.
  - intros n' size l Hn Hl Hc. destruct (decide (old = Some n')) as [->|Hold].
    + exists i. eexists. split; [by eapply own_entry|]. simpl. set_solver.
    + eapply duty_kept; [done| |eapply H7; [done..|congruence]]. destruct old; simpl; set_solver.
Qed.
End operations.

(** An operation that neither the lock nor the pools see. *)
Lemma lock_idle s gs (i : nat) g s' :
  lock_inv s gs -> gs !! i = Some g -> current s' = current s -> readers s' = readers s ->
  writer s' = writer s -> pools s' = pools s -> lock_inv s' (<[i := g]> gs).
Proof.
  intros Hinv Hi Hc Hr Hw Hp. pose proof Hinv as [_ _ _ H4 H5 _ _].
  eapply lock_noted; try done; rewrite ?Hp; [done|eauto|eauto|]. intros. naive_solver.
Qed.

(** The lock changes hands: its counters follow the mode of the goroutine. *)
Ltac lock_count Hinv Hi Hm m :=
  eapply lock_taken; [exact Hinv|exact Hi|done|done|..];
  pose proof (count_insert is_reading _ _ _ m Hi) as Hcr;
  pose proof (count_insert is_writing _ _ _ m Hi) as Hcw;
  destruct Hinv as [?H1 ?H2 ?H3 _ _ _ _]; simpl in Hcr, Hcw.

(** The effect of the notes on the modes. *)
Lemma saw_mode pool g :
  mode g <> NoLock -> is_reading (saw pool g) = is_reading g /\ is_writing (saw pool g) = is_writing g /\
  made (saw pool g) = made g /\ seen (saw pool g) = Some pool /\ duty (saw pool g) = duty g.
Proof. unfold saw, is_reading, is_writing, made, seen. by destruct (mode g). Qed.

Lemma has_made_mode pool g :
  is_writing g = true -> is_reading (has_made pool g) = is_reading g /\
  is_writing (has_made pool g) = is_writing g /\
  made (has_made pool g) = Some pool /\ seen (has_made pool g) = seen g /\ duty (has_made pool g) = duty g.
Proof. unfold has_made, is_reading, is_writing, made, seen. by destruct (mode g). Qed.

Lemma only_reading g : is_reading g = true -> is_writing g = false.
Proof. unfold is_reading, is_writing. by destruct (mode g). Qed.

Lemma only_writing g : is_writing g = true -> is_reading g = false.
Proof. unfold is_reading, is_writing. by destruct (mode g). Qed.

(** An operation on the shared fields preserves the invariant. *)
Definition preserved {X} (e : pubE X) : Prop :=
  forall s gs (i : nat) g (Q : X -> lock_owns -> Prop) x s',
    lock_inv s gs -> gs !! i = Some g -> lock_pub e g Q -> step_pub e s x s' ->
    exists g', Q x g' /\ lock_inv s' (<[i := g']> gs).

Lemma preserved_Lock : preserved PoolMuLock.
Proof.
  intros s gs i g Q [] s' Hinv Hi [Hm HQ] (Hr & Hw & ->). eexists. split; [exact HQ|].
  lock_count Hinv Hi Hm (holding (Writing None None) g); rewrite Hw in *; unfold is_reading, is_writing in *;
    rewrite Hm in *; simpl in *; [lia..|done].
Qed.

Lemma preserved_Unlock : preserved PoolMuUnlock.
Proof.
  intros s gs i g Q [] s' Hinv Hi [Hm HQ] (Hw & ->). eexists. split; [exact HQ|].
  lock_count Hinv Hi Hm (holding NoLock g); rewrite Hw, Hm, ?(only_writing _ Hm) in *; simpl in *; [lia..|done].
Qed.

Lemma preserved_RLock : preserved PoolMuRLock.
Proof.
  intros s gs i g Q [] s' Hinv Hi [Hm HQ] (Hw & ->). eexists. split; [exact HQ|].
  lock_count Hinv Hi Hm (holding (Reading None) g); rewrite Hw in *; unfold is_reading, is_writing in *;
    rewrite Hm in *; simpl in *; [lia..|done].
Qed.

Lemma preserved_RUnlock : preserved PoolMuRUnlock.
Proof.
  intros s gs i g Q [] s' Hinv Hi [Hm HQ] (r & Hr & ->). eexists. split; [exact HQ|].
  lock_count Hinv Hi Hm (holding NoLock g); rewrite Hm, ?(only_reading _ Hm) in *; simpl in *; [lia..|].
  intros Hw. specialize (H3 Hw). lia.
Qed.

Lemma preserved_Load : preserved LoadChannelPool.
Proof.
  intros s gs i g Q x s' Hinv Hi [Hm HQ] [-> ->]. eexists. split; [apply HQ|].
  destruct (saw_mode (current s) g Hm) as (S1 & S2 & S3 & S4 & S5).
  pose proof Hinv as [_ _ _ H4 H5 _ _]. eapply lock_noted; try done; simpl.
  - congruence.
  - rewrite S3. eauto.
  - rewrite S5. eauto 10.
Qed.

Lemma preserved_Store pool : preserved (StoreChannelPool pool).
Proof.
  intros s gs i g Q [] s' Hinv Hi (Hm & Hmade & old & Hseen & HQ) ->. eexists. split; [exact HQ|].
  by apply lock_stored.
Qed.

Lemma preserved_Make size : preserved (PoolMake size).
Proof.
  intros s gs i g Q x s' Hinv Hi [Hm HQ] [Hnew ->]. eexists. split; [apply HQ|].
  destruct (has_made_mode x g Hm) as (S1 & S2 & S3 & S4 & S5).
  pose proof Hinv as [_ _ _ H4 H5 _ _]. eapply lock_noted; try done; simpl.
  - intros n Hn. apply lookup_insert_is_Some'. auto.
  - rewrite S4. eauto.
  - rewrite S3. intros n [= ->]. by rewrite lookup_insert_eq.
  - intros n sz l Hn Hl Hc. rewrite S5. split; [|done]. destruct (decide (n = x)) as [->|].
    + rewrite lookup_insert_eq in Hn. by simplify_eq.
    + rewrite lookup_insert_ne in Hn by done. eauto.
Qed.

Lemma preserved_Send pool pch : preserved (PoolTrySend pool pch).
Proof.
  intros s gs i g Q x s' Hinv Hi (Hm & Hseen & HQ) (sz & l & Hn & Hs).
  pose proof Hinv as [_ _ _ H4 H5 _ _]. pose proof (H4 _ _ _ Hi Hseen) as Hcur.
  exists g. split; [apply HQ|]. destruct x; destruct Hs as [_ ->]; [|by eapply lock_idle].
  eapply lock_noted; try done; simpl.
  - intros n Hs. apply lookup_insert_is_Some'. auto.
  - eauto.
  - intros n Hn'. apply lookup_insert_is_Some'. eauto.
  - intros n sz' l' Hn' Hl Hc. split; [|done]. rewrite lookup_insert_ne in Hn' by congruence. eauto.
Qed.

Lemma preserved_Recv pool : preserved (PoolTryRecv pool).
Proof.
  intros s gs i g Q x s' Hinv Hi (_ & Hsome & Hnone) (sz & l & Hn & Hs).
  pose proof Hinv as [_ _ _ H4 H5 _ _]. destruct x as [pch|].
  - destruct Hs as (rest & -> & ->). exists g. split; [apply Hsome|].
    eapply lock_noted; try done; simpl.
    + intros n Hs. apply lookup_insert_is_Some'. auto.
    + eauto.
    + intros n Hn'. apply lookup_insert_is_Some'. eauto.
    + intros n sz' l' Hn' Hl Hc. split; [|done]. destruct (decide (n = pool)) as [->|]; [eauto 10|].
      rewrite lookup_insert_ne in Hn' by done. eauto.
  - destruct Hs as [-> ->]. eexists. split; [exact Hnone|].
    eapply lock_noted; try done; simpl; [eauto|eauto|].
    intros n sz' l' Hn' Hl Hc. split; [eauto|]. assert (n <> pool) by (intros ->; by simplify_eq). set_solver.
Qed.

Lemma lock_inv_op s gs (i : nat) g X (e : publisherE X) Q x s' :
  lock_inv s gs -> gs !! i = Some g -> lock_op X e g Q -> pub_sem X e s x s' ->
  exists g', Q x g' /\ lock_inv s' (<[i := g']> gs).
Proof.
  intros Hinv Hi Hop Hsem.
  assert (Hsame : current s' = current s -> readers s' = readers s -> writer s' = writer s ->
    pools s' = pools s -> Q x g -> exists g', Q x g' /\ lock_inv s' (<[i := g']> gs)).
  { intros. exists g. split; [done|]. by eapply lock_idle. }
  destruct e as [[[[[e|e]|e]|e]|e]|e]; simpl in Hop, Hsem;
    [|destruct Hop as [_ HQ]; apply Hsame; try apply HQ; destruct e; simpl in Hsem; repeat case_match; simplify_eq;
       intuition (subst; done)|destruct Hop as [_ HQ]; subst; apply Hsame; try done; apply HQ..].
  destruct e;
    try (destruct Hop as [_ HQ]; simpl in Hsem; apply Hsame; try apply HQ; repeat case_match; intuition (subst; done)).
  - by eapply preserved_Lock.
  - by eapply preserved_Unlock.
  - by eapply preserved_RLock.
  - by eapply preserved_RUnlock.
  - by eapply preserved_Load.
  - by eapply preserved_Store.
  - by eapply preserved_Make.
  - by eapply preserved_Send.
  - by eapply preserved_Recv.
Qed.

Lemma lock_inv_fork s gs (i : nat) g gp gc :
  lock_inv s gs -> gs !! i = Some g -> fork lock_logic g gp gc -> lock_inv s (<[i := gp]> gs ++ [gc]).
Proof.
  intros [H1 H2 H3 H4 H5 H6 H7] Hi (_ & -> & ->). rewrite list_insert_id by done.
  assert (Hold : forall j g1, (gs ++ [idle_owns]) !! j = Some g1 -> gs !! j = Some g1 \/ g1 = idle_owns).
  { intros j g1 Hj. apply lookup_app_Some in Hj as [Hj|[_ Hj]]; [auto|].
    apply list_lookup_singleton_Some in Hj as [_ <-]. auto. }
  split; try done.
  - rewrite count_app, H1. unfold count. simpl. lia.
  - rewrite count_app, H2. unfold count. simpl. lia.
  - intros j g1 v [Hj| ->]%Hold; [eauto|done].
  - intros j g1 n [Hj| ->]%Hold; [eauto|done].
  - intros n size l Hn Hl Hc. destruct (H7 n size l Hn Hl Hc) as (j & g1 & Hj & Hd).
    exists j, g1. split; [by apply lookup_app_l_Some|done].
Qed.

(** ** The publisher obeys the logic *)

(** [tidy p]: [p], started without the lock and with nothing to drain, ends so. *)
Abbreviation tidy p := (keeps_from lock_logic (fun g => g = idle_owns) p).

Ltac idle := apply cwp_op; split; [done|]; intros ?.
Ltac rest :=
  lazymatch goal with
  | |- cwp _ ?p _ _ => enough (tidy p) as Hrest; [by apply Hrest|keep]
  end.
Ltac locked := apply cwp_op; split; [done|].

Lemma tidy_fork (child : prog publisherE unit) :
  tidy child -> tidy (go child).
Proof.
  intros Hc g Q -> HQ. exists idle_owns, idle_owns. split; [done|]. split; [by apply Hc|apply HQ].
Qed.

Lemma tidy_dialer url amqpCfg rc : tidy (dialer url amqpCfg rc).
Proof. unfold dialer. keep. Qed.

Lemma tidy_Dial opts : tidy (Dial opts).
Proof. unfold Dial, dialProperties. keep. apply tidy_fork, tidy_dialer. Qed.

Lemma tidy_DeclareExchange conn name kind : tidy (DeclareExchange conn name kind).
Proof. unfold DeclareExchange. keep. Qed.
#[export] Hint Resolve tidy_Dial tidy_DeclareExchange : keeps.

Lemma tidy_channelOpener conn rc d : tidy (channelOpener conn rc d).
Proof. unfold channelOpener. keep. Qed.

Lemma tidy_confirmEnabler ch rc : tidy (confirmEnabler ch rc).
Proof. unfold confirmEnabler. keep. Qed.

Lemma tidy_createPooledChannel p : tidy (createPooledChannel p).
Proof.
  unfold createPooledChannel, createConfirmChannel, enableConfirms. keep;
    apply tidy_fork; [apply tidy_channelOpener|apply tidy_confirmEnabler].
Qed.
#[export] Hint Resolve tidy_createPooledChannel : keeps.

Lemma tidy_newChannelOrError p : tidy (newChannelOrError p).
Proof. unfold newChannelOrError. keep. Qed.

Lemma tidy_discard ch : tidy (discard ch).
Proof. unfold discard. keep. Qed.
#[export] Hint Resolve tidy_newChannelOrError tidy_discard : keeps.

(** Under the read lock: reading channelPool, an operation on the pool, and the unlocking. *)
Lemma read_section {A} (k : option nat -> prog publisherE A) Q :
  (forall pool, cwp lock_logic (k pool) (mkLock (Reading (Some pool)) ∅) Q) ->
  cwp lock_logic (bind (trigger PoolMuRLock) (fun _ => bind (trigger LoadChannelPool) k)) idle_owns Q.
Proof. intros Hk. locked. locked. exact Hk. Qed.

Lemma read_unlock {A} v (k : prog publisherE A) Q :
  cwp lock_logic k idle_owns Q ->
  cwp lock_logic (bind (trigger PoolMuRUnlock) (fun _ => k)) (mkLock (Reading v) ∅) Q.
Proof. intros Hk. locked. exact Hk. Qed.

Lemma try_send {A} pool pch (k : bool -> prog publisherE A) Q :
  (forall sent, cwp lock_logic (k sent) (mkLock (Reading (Some (Some pool))) ∅) Q) ->
  cwp lock_logic (bind (trigger (PoolTrySend pool pch)) k) (mkLock (Reading (Some (Some pool))) ∅) Q.
Proof. intros Hk. locked. split; [done|]. exact Hk. Qed.

Lemma try_recv {A} pool m (k : option pooledChannel -> prog publisherE A) Q :
  m = NoLock \/ m = Reading (Some (Some pool)) ->
  (forall pch, cwp lock_logic (k pch) (mkLock m ∅) Q) ->
  cwp lock_logic (bind (trigger (PoolTryRecv pool)) k) (mkLock m ∅) Q.
Proof.
  intros Hm Hk. apply cwp_op. split; [destruct Hm as [-> | ->]; auto|]. split; [intros pch; apply Hk|].
  simpl. assert (∅ ∖ {[pool]} =@{gset nat} ∅) as -> by set_solver. apply Hk.
Qed.

Lemma tidy_borrowChannel p : tidy (borrowChannel p).
Proof.
  intros g Q -> HQ. unfold borrowChannel. idle. destruct x; [apply HQ|].
  apply read_section. intros [pool|]; [|by apply read_unlock, tidy_newChannelOrError].
  apply try_recv; [auto|]. intros [pch|]; apply read_unlock; [|by apply tidy_newChannelOrError].
  rest.
Qed.
#[export] Hint Resolve tidy_borrowChannel : keeps.

Lemma tidy_returnPooled p pch : tidy (returnPooled p pch).
Proof.
  intros g Q -> HQ. unfold returnPooled. cbv zeta. idle. apply cwp_bind.
  enough (forall gone : bool, cwp lock_logic (if gone then discard (pch_ch pch)
    else trigger PoolMuRLock ;;; let! pool := trigger LoadChannelPool in
      match pool with
      | None => trigger PoolMuRUnlock ;;; discard (pch_ch pch)
      | Some pool => let! sent := trigger (PoolTrySend pool pch) in
          trigger PoolMuRUnlock ;;; if (sent : bool) then Ret tt else discard (pch_ch pch)
      end)%go idle_owns Q) as Hk.
  { destruct x; [apply Hk|]. locked. exact Hk. }
  intros [|]; [by apply tidy_discard|].
  apply read_section. intros [pool|]; [|apply read_unlock; rest].
  apply try_send. intros [|]; apply read_unlock; rest.
Qed.
#[export] Hint Resolve tidy_returnPooled : keeps.

Lemma tidy_GetChannel p : tidy (GetChannel p).
Proof. unfold GetChannel. keep. Qed.

Lemma tidy_ReturnChannel p ch : tidy (ReturnChannel p ch).
Proof. unfold ReturnChannel. keep. Qed.
#[export] Hint Resolve tidy_GetChannel tidy_ReturnChannel : keeps.

Lemma tidy_warmChannelPool p : tidy (warmChannelPool p).
Proof.
  unfold warmChannelPool. keep. unfold warm_round. cbv beta. keep.
  intros g Q -> HQ. apply read_section. intros [pool|]; apply cwp_bind.
  - apply cwp_trigger. split; [done|]. split; [done|]. intros stored. apply read_unlock. rest.
  - apply read_unlock. rest.
Qed.
#[export] Hint Resolve tidy_warmChannelPool : keeps.

(** Draining a pool leaves nothing of the duty to drain it. *)
Lemma drainPool_done pool d Q :
  d ⊆ {[pool]} -> Q tt idle_owns -> cwp lock_logic (drainPool (Some pool)) (mkLock NoLock d) Q.
Proof.
  intros Hd HQ. exists (fun _ g => exists d, d ⊆ {[pool]} /\ g = mkLock NoLock d). split; [by exists d|].
  intros [] g (d' & Hd' & ->). split; [done|]. apply cwp_op. split; [auto|]. split.
  - intros pch. do 2 (locked; intros ?). by exists d'.
  - simpl. assert (d' ∖ {[pool]} = ∅) as -> by set_solver. exact HQ.
Qed.

Lemma tidy_drainChannelPool : tidy drainChannelPool.
Proof.
  intros g Q -> HQ. apply read_section. intros pool. apply read_unlock.
  destruct pool as [pool|]; [|apply HQ]. apply drainPool_done; [set_solver|apply HQ].
Qed.
#[export] Hint Resolve tidy_drainChannelPool : keeps.

(** The replacement of the pool. *)
Lemma replace_pool size Q :
  (forall err, Q err idle_owns) ->
  cwp lock_logic
    (trigger PoolMuLock ;;;
     let! oldPool := trigger LoadChannelPool in
     let! newPool := trigger (PoolMake size) in
     trigger (StoreChannelPool newPool) ;;;
     trigger PoolMuUnlock ;;;
     drainPool oldPool ;;;
     Ret (E := publisherE) (None : option error))%go idle_owns Q.
Proof.
  intros HQ. locked. locked. intros old. locked. intros n.
  apply cwp_op. split; [done|]. split; [done|]. exists old. split; [done|].
  locked. apply cwp_bind. destruct old as [old|]; [|apply HQ].
  apply drainPool_done; [set_solver|apply HQ].
Qed.

Lemma tidy_establishConnection p : tidy (establishConnection p).
Proof.
  unfold establishConnection, establishLocked. keep.
  intros g Q -> HQ. by apply replace_pool.
Qed.
#[export] Hint Resolve tidy_establishConnection : keeps.

Lemma tidy_pconnect p : tidy (pconnect p).
Proof. unfold pconnect. keep. Qed.
#[export] Hint Resolve tidy_pconnect : keeps.

Lemma tidy_pwatchConnection p : tidy (pwatchConnection p).
Proof. unfold pwatchConnection, pwatch_round, preconnect, preconnect_round, sleepOrClosed. keep. Qed.

Lemma tidy_NewPublisher config : tidy (NewPublisher config).
Proof. unfold NewPublisher. keep. apply tidy_fork, tidy_pwatchConnection. Qed.

Lemma tidy_PublisherClose p : tidy (PublisherClose p).
Proof. unfold PublisherClose, shutdown. keep. Qed.

Lemma tidy_publishOnChannel p ctx ch msg pub : tidy (publishOnChannel p ctx ch msg pub).
Proof. unfold publishOnChannel. keep. Qed.
#[export] Hint Resolve tidy_publishOnChannel tidy_PublisherClose tidy_NewPublisher : keeps.

Lemma tidy_PublishMessage p ctx msg : tidy (PublishMessage_ p ctx msg).
Proof. unfold PublishMessage_, publish, publishMandatory. keep. Qed.

Lemma tidy_DeclareQueueTopology p q key : tidy (DeclareQueueTopology p q key).
Proof. unfold DeclareQueueTopology, declareQueueTopology, declareQueue. keep. Qed.
#[export] Hint Resolve tidy_PublishMessage tidy_DeclareQueueTopology : keeps.
