(* ===== verification/PoolMu.v ===== *)
(** * PoolMu: who holds the lock of the channel pool.

    The holders of poolMu are told from the code they still have to run: they operate on the
    pool's fields and then release the lock.  The theorem says that these goroutines are exactly
    the ones the lock counts, and that none of them ever waits. *)
From S2P Require Import Prelude AmqpData Errors Prog Machine Config Amqp Instr Dial Pool Publisher PoolMachine PoolClient PubScript PoolLock.
Local Open Scope Z_scope.

(** ** Applications obey the logic of the lock *)

Lemma client_tidy p A held (code : prog publisherE A) h : client p held code h -> tidy code.
Proof.
  induction 1 as [A a h|A ctx msg k held h _ IH|A q key k held h _ IH|A k held h _ IH
    |A k held h _ IHe _ IH|A ch k held held' h _ _ IH|A X e ch k held h _ _ _ _ IH|A X e k held h _ IH
    |A L R body l k inv left_ h _ IHb _ IHk|A child k held h _ IHc _ IH].
  - apply keeps_ret.
  - apply keeps_bind; [apply tidy_PublishMessage|exact IH].
  - apply keeps_bind; [apply tidy_DeclareQueueTopology|exact IH].
  - apply keeps_bind; [apply tidy_PublisherClose|]. intros []. exact IH.
  - apply keeps_bind; [apply tidy_GetChannel|]. intros [ch|err]; [apply IH|apply IHe].
  - apply keeps_bind; [apply tidy_ReturnChannel|]. intros []. exact IH.
  - apply keeps_bind; [keep_trigger|exact IH].
  - apply keeps_bind; [keep_trigger|exact IH].
  - intros g Q -> HQ. exists (fun _ g => g = idle_owns). split; [done|].
    intros l1 g1 ->. split; [done|]. apply IHb; [done|]. intros [l2|b]; [done|]. by apply IHk.
  - intros g Q -> HQ. exists idle_owns, idle_owns. split; [done|]. split; [by apply IHc|by apply IH].
Qed.

Lemma application_tidy config main :
  (forall p, client p [] (main p) (fun _ => [])) ->
  cwp lock_logic (application config main) idle_owns (fun _ g => fin lock_logic g).
Proof.
  intros Hmain. enough (tidy (application config main)) as H by by apply H.
  apply keeps_bind; [apply tidy_NewPublisher|]. intros [p|err]; [by eapply client_tidy|apply keeps_ret].
Qed.

Lemma initial_lock_inv : lock_inv initial [idle_owns].
Proof.
  split; try done.
  - intros [|[|i]] g v Hg; simpl in Hg; by simplify_eq/=.
  - intros [|[|i]] g v Hg; simpl in Hg; by simplify_eq/=.
Qed.

(** ** Holding poolMu *)

(** The operations on the fields that poolMu guards. *)
Definition on_pool {X} (e : pubE X) : bool :=
  match e with
  | LoadChannelPool | StoreChannelPool _ | PoolMake _ | PoolTrySend _ _ | PoolTryRecv _ => true
  | _ => false
  end.

(** [releases w t]: whatever it is answered, [t] operates on the guarded fields, a bounded number
    of times, and then releases poolMu, which it holds for writing ([w]) or for reading. *)
Inductive releases (w : bool) {A} : prog publisherE A -> Prop :=
| releases_Unlock k :
    w = true -> releases w (Vis (inl1 (inl1 (inl1 (inl1 (inl1 PoolMuUnlock))))) k)
| releases_RUnlock k :
    w = false -> releases w (Vis (inl1 (inl1 (inl1 (inl1 (inl1 PoolMuRUnlock))))) k)
| releases_after X (e : pubE X) k :
    on_pool e = true -> (forall x, releases w (k x)) ->
    releases w (Vis (inl1 (inl1 (inl1 (inl1 (inl1 e))))) k).

(** How a goroutine holds the lock. *)
Definition holds (w : bool) (g : lock_owns) : bool := if w then is_writing g else is_reading g.

Lemma holds_not w g : holds w g = true -> mode g <> NoLock.
Proof. unfold holds, is_writing, is_reading. intros H Hm. rewrite Hm in H. by destruct w. Qed.

Lemma holds_saw w pool g : holds w (saw pool g) = holds w g.
Proof. unfold holds, is_writing, is_reading, saw. by destruct w, (mode g) eqn:Hm; simpl; rewrite ?Hm. Qed.

Lemma holds_has_made w pool g : holds w (has_made pool g) = holds w g.
Proof. unfold holds, is_writing, is_reading, has_made. by destruct w, (mode g) eqn:Hm; simpl; rewrite ?Hm. Qed.

Lemma holds_has_stored w old pool g : holds w (has_stored old pool g) = holds w g.
Proof. exact (holds_saw w (Some pool) g). Qed.

Lemma holds_after w g d : holds w (mkLock (mode g) d) = holds w g.
Proof. by destruct w. Qed.

(** A goroutine that holds the lock is on its way to release it. *)
Lemma holder_releases w {A} (t : prog publisherE A) g (Q : A -> lock_owns -> Prop) :
  (forall a g, Q a g -> mode g = NoLock) -> holds w g = true -> cwp lock_logic t g Q -> releases w t.
Proof.
  revert g Q. induction t as [A a|A X e k IH|A L R body _ l k _|A child _ k _]; intros g Q HQ Hg Hwp;
    pose proof (holds_not w g Hg) as Hm; simpl in Hwp.
  - by destruct (Hm (HQ _ _ Hwp)).
  - destruct e as [[[[[e|e]|e]|e]|e]|e]; try by destruct Hwp as [? _].
    destruct e; simpl in Hwp; try by destruct Hwp as [? _].
    + destruct Hwp as [Hw _]. apply releases_Unlock. unfold holds, is_writing, is_reading in *.
      by destruct w, (mode g).
    + destruct Hwp as [Hr _]. apply releases_RUnlock. unfold holds, is_writing, is_reading in *.
      by destruct w, (mode g).
    + destruct Hwp as [_ Hk]. apply releases_after; [done|]. intros pool.
      eapply IH; [exact HQ| |apply Hk]. by rewrite holds_saw.
    + destruct Hwp as (_ & _ & old & _ & Hk). apply releases_after; [done|]. intros [].
      eapply IH; [exact HQ| |exact Hk]. by rewrite holds_has_stored.
    + destruct Hwp as [_ Hk]. apply releases_after; [done|]. intros pool.
      eapply IH; [exact HQ| |apply Hk]. by rewrite holds_has_made.
    + destruct Hwp as (_ & _ & Hk). apply releases_after; [done|]. intros sent.
      by eapply IH; [exact HQ| |apply Hk].
    + destruct Hwp as (_ & Hs & Hn). apply releases_after; [done|]. intros [pch|].
      * by eapply IH; [exact HQ| |apply Hs].
      * eapply IH; [exact HQ| |exact Hn]. by rewrite holds_after.
  - destruct Hwp as (I & HI & Hr). by destruct (Hr l g HI) as [Ht _].
  - destruct Hwp as (gp & gc & (Ht & _) & _). done.
Qed.

(** A goroutine on its way to release the lock holds it. *)
Lemma releases_holds w {A} (t : prog publisherE A) g (Q : A -> lock_owns -> Prop) :
  releases w t -> cwp lock_logic t g Q -> holds w g = true.
Proof.
  intros Hr. revert g. induction Hr as [k ->|k ->|X e k Ho _ IH]; intros g Hwp; simpl in Hwp.
  - by destruct Hwp.
  - by destruct Hwp.
  - destruct e; try done; simpl in Hwp.
    + destruct Hwp as [_ Hk]. rewrite <- (holds_saw w None). by eapply (IH None).
    + destruct Hwp as (_ & _ & old & _ & Hk). erewrite <- holds_has_stored. by eapply (IH tt).
    + destruct Hwp as [_ Hk]. rewrite <- (holds_has_made w O). by eapply (IH O).
    + destruct Hwp as (_ & _ & Hk). by eapply (IH true).
    + destruct Hwp as (_ & _ & Hk). erewrite <- holds_after. by eapply (IH None).
Qed.

(** The next step of a goroutine that holds the lock can be done at once. *)
Lemma releases_step w s gs (i : nat) g t :
  lock_inv s gs -> gs !! i = Some g -> releases w t -> cwp lock_logic t g (fun _ g => fin lock_logic g) ->
  exists t' s' new, tstep pub_sem t s t' s' new.
Proof.
  intros Hinv Hi Hr Hwp. pose proof (releases_holds _ _ _ _ Hr Hwp) as Hh.
  pose proof (holds_not _ _ Hh) as Hm. pose proof Hinv as [H1 H2 H3 H4 H5 H6 H7].
  assert (Hstep : forall X (e : pubE X) k x s', step_pub e s x s' ->
    exists t' s' new, tstep pub_sem (Vis (inl1 (inl1 (inl1 (inl1 (inl1 e))))) k) s t' s' new).
  { intros X e k x s' Hx. eexists _, s', _. by constructor. }
  destruct Hr as [k ->|k ->|X e k Ho _].
  - pose proof (count_pos is_writing _ _ _ Hi Hh) as Hpos.
    eapply (Hstep _ _ _ tt). split; [|reflexivity]. destruct (writer s); [done|simpl in H2; lia].
  - pose proof (count_pos is_reading _ _ _ Hi Hh) as Hpos.
    destruct (readers s) as [|r] eqn:Hrs; [lia|]. eapply (Hstep _ _ _ tt). exists r. split; [done|reflexivity].
  - destruct e; try done; simpl in Hwp.
    + eapply Hstep. by split.
    + eapply (Hstep _ _ _ tt). reflexivity.
    + eapply (Hstep _ _ _ (fresh (dom (pools s)))). split; [|reflexivity]. apply not_elem_of_dom, is_fresh.
    + destruct Hwp as (_ & Hseen & _). destruct (H6 pool) as [[sz l] Hl]; [by apply (H4 _ _ _ Hi Hseen)|].
      destruct (decide (Z.of_nat (length l) < sz)).
      * eapply (Hstep _ _ _ true). exists sz, l. split; [done|]. split; [done|reflexivity].
      * eapply (Hstep _ _ _ false). exists sz, l. split; [done|]. split; [lia|reflexivity].
    + destruct Hwp as ([?|Hseen] & _); [done|].
      destruct (H6 pool) as [[sz l] Hl]; [by apply (H4 _ _ _ Hi Hseen)|]. destruct l as [|pch rest].
      * eapply (Hstep _ _ _ None). exists sz, []. split; [done|]. split; [done|reflexivity].
      * eapply (Hstep _ _ _ (Some pch)). exists sz, (pch :: rest). split; [done|]. exists rest. split; [done|reflexivity].
Qed.

Section reachable.
Context (config : Config.t) (main : Publisher.t -> prog publisherE unit).
Context (ts : list (prog publisherE unit)) (s : pstate).
Hypothesis main_client : forall p, client p [] (main p) (fun _ => []).
Hypothesis ts_reachable : reachable pub_sem ([application config main], initial) (ts, s).

(** C9: PoolMu is held only by goroutines that are about to release it.  In every interleaving,
    the goroutines that hold poolMu for writing, at most one, and then no reader, and those that
    hold it for reading, as many as the lock counts, are exactly the ones whose code, whatever
    it is answered, only operates on the pool a bounded number of times before it releases the
    lock.  Each of them can take its next step at once.  So nobody ever waits for poolMu
    behind a full pool, an unanswered broker, connMu or another holder. *)
Theorem poolMu_progress (w : bool) :
  (exists holders : list nat, NoDup holders /\
     (forall i : nat, i ∈ holders <-> exists t, ts !! i = Some t /\ releases w t) /\
     length holders = if w then Nat.b2n (writer s) else readers s) /\
  (writer s = true -> readers s = O) /\
  (forall i t, ts !! i = Some t -> releases w t -> exists t' s' new, tstep pub_sem t s t' s' new).
Proof.
  assert (exists gs, threads_ok lock_logic ts gs /\ lock_inv s gs) as (gs & Hok & Hinv).
  { eapply (adequacy pub_sem lock_logic lock_inv lock_inv_op lock_inv_fork); [exact ts_reachable| |].
    - constructor; [by apply application_tidy|constructor].
    - exact initial_lock_inv. }
  split; [|split; [apply Hinv|]].
  - destruct (count_positions (holds w) gs) as (l & Hd & Hl & Hn). exists l. split; [done|]. split.
    + intros i. rewrite Hl. split.
      * intros (g & Hg & Hh). destruct (Forall2_lookup_r _ _ _ _ _ Hok Hg) as (t & Ht & Hwp).
        exists t. split; [done|]. eapply holder_releases; [|exact Hh|exact Hwp]. by intros _ g' [? _].
      * intros (t & Ht & Hr). destruct (Forall2_lookup_l _ _ _ _ _ Hok Ht) as (g & Hg & Hwp).
        exists g. split; [done|]. by eapply releases_holds.
    + rewrite Hn. destruct w; [symmetry; apply Hinv|symmetry; apply Hinv].
  - intros i t Ht Hr. destruct (Forall2_lookup_l _ _ _ _ _ Hok Ht) as (g & Hg & Hwp).
    by eapply releases_step.
Qed.
End reachable.

(** ** Concrete interleavings *)

(** Goroutine 0 holds poolMu for writing while it replaces the pool. *)
Definition replacing : list (prog publisherE unit) * pstate :=
  pub_ran (repeat 0%nat 11) [application (pool_config 1) two_publishers].

Lemma replacing_reachable :
  reachable pub_sem ([application (pool_config 1) two_publishers], initial) (replacing.1, replacing.2).
Proof. rewrite <- surjective_pairing. apply pub_ran_reachable. vm_compute. reflexivity. Qed.

Lemma poolMu_progress_witness :
  writer replacing.2 = true /\
    exists holders : list nat, NoDup holders /\
    (forall i : nat, i ∈ holders <-> exists t, replacing.1 !! i = Some t /\ releases true t) /\
    length holders = 1%nat.
Proof.
  assert (Hw : writer replacing.2 = true) by (vm_compute; reflexivity).
  split; [exact Hw|].
  pose proof (poolMu_progress (pool_config 1) two_publishers replacing.1 replacing.2 two_publishers_client
    replacing_reachable true) as [H _].
  rewrite Hw in H. exact H.
Defined.
