(* ===== verification/PoolProps.v ===== *)
(** * PoolProps: what the channel pool guarantees to a publisher's goroutines: exclusive use, no
    leaks, bounds.

    The goroutines are those of an application that opens a publisher and uses its interface as
    documented, next to those that the publisher starts itself; they interleave freely, and the
    broker, the clock and the contexts answer as they like. *)
From S2P Require Import Prelude AmqpData Errors Prog Machine Config Amqp Instr Dial Pool Publisher PoolMachine PoolClient PubScript PoolOwns PoolLock PoolMu.
Local Open Scope Z_scope.

(** ** Applications obey both logics *)

Definition pool_logic : logic publisherE (chan_owns * lock_owns) := both chan_logic lock_logic.

(** A goroutine between two calls of the publisher, with the borrowed channels [held]. *)
Definition between (held : list channel) : chan_owns * lock_owns :=
  (mkOwn (list_to_set held) None, idle_owns).

Lemma call_keeps {A B} (code : prog publisherE A) (k : A -> prog publisherE B) held Q :
  keeps code -> tidy code -> (forall a, cwp pool_logic (k a) (between held) Q) ->
  cwp pool_logic (bind code k) (between held) Q.
Proof.
  intros H1 H2 Hk.
  eapply cwp_seq; [apply (cwp_both _ _ _ _ _ (fun _ g => g = mkOwn (list_to_set held) None)
    (fun _ g => g = idle_owns))|].
  - by apply H1.
  - by apply H2.
  - intros a [g1 g2] [Hg1 Hg2]. simpl in Hg1, Hg2. subst. apply Hk.
Qed.

(** A channel that was handed out was not held before, so it is held once. *)
Lemma get_obeys {A} p (k : result channel -> prog publisherE A) held Q :
  (forall err, cwp pool_logic (k (Err err)) (between held) Q) ->
  (forall ch, ch ∉ held -> cwp pool_logic (k (Ok ch)) (between (ch :: held)) Q) ->
  cwp pool_logic (bind (GetChannel p) k) (between held) Q.
Proof.
  intros He Hk. eapply cwp_seq; [apply (cwp_both _ _ _ _ _ (fun r g =>
    match r with
    | Ok ch => (ch ∉ held) /\ g = mkOwn (list_to_set (ch :: held)) None
    | Err _ => g = mkOwn (list_to_set held) None
    end) (fun _ g => g = idle_owns))|].
  - apply GetChannel_yields; [done| |]; intros [ch|err]; try done.
    intros ch' [= <-] Hnew. split; [|done].
    intros Hin. by apply Hnew, elem_of_list_to_set.
  - by apply tidy_GetChannel.
  - intros [ch|err] [g1 g2] [Hg1 Hg2]; simpl in Hg1, Hg2; [destruct Hg1 as [Hnew ->]|]; subst.
    + by apply Hk.
    + apply He.
Qed.

Lemma return_obeys {A} p ch (k : unit -> prog publisherE A) held held' Q :
  NoDup held -> held ≡ₚ ch :: held' -> cwp pool_logic (k tt) (between held') Q ->
  cwp pool_logic (bind (ReturnChannel p (Some ch)) k) (between held) Q.
Proof.
  intros Hnd Hp Hk. rewrite Hp in Hnd. apply NoDup_cons in Hnd as [Hnin _].
  eapply cwp_seq; [apply (cwp_both _ _ _ _ _ (fun _ g => g = mkOwn (list_to_set held') None)
    (fun _ g => g = idle_owns))|].
  - apply ReturnChannel_owns; cbn [chans].
    + apply elem_of_list_to_set. rewrite Hp. by left.
    + unfold lose. cbn [chans offer]. f_equal. rewrite (list_to_set_perm_L _ _ Hp). cbn [list_to_set foldr].
      set_solver.
  - by apply tidy_ReturnChannel.
  - intros [] [g1 g2] [Hg1 Hg2]. simpl in Hg1, Hg2. subst. exact Hk.
Qed.

(** An operation of the client itself. *)
Lemma own_op_obeys {A X F} `{F -< publisherE} (e : F X) (k : X -> prog publisherE A) held Q :
  (forall (Q1 : X -> chan_owns -> Prop), (forall x, Q1 x (mkOwn (list_to_set held) None)) ->
     chan_op X (inject e) (mkOwn (list_to_set held) None) Q1) ->
  (forall Q2 : X -> lock_owns -> Prop, (forall x, Q2 x idle_owns) -> lock_op X (inject e) idle_owns Q2) ->
  (forall x, cwp pool_logic (k x) (between held) Q) ->
  cwp pool_logic (bind (trigger e) k) (between held) Q.
Proof.
  intros H1 H2 Hk. apply cwp_op.
  exists (fun _ g => g = mkOwn (list_to_set held) None), (fun _ g => g = idle_owns). split_and!.
  - by apply H1.
  - by apply H2.
  - intros x g1 g2 -> ->. apply Hk.
Qed.

Lemma client_obeys p A held (code : prog publisherE A) h :
  client p held code h -> NoDup held ->
  cwp pool_logic code (between held) (fun a g => NoDup (h a) /\ g = between (h a)).
Proof.
  induction 1 as [A a h|A ctx msg k held h _ IH|A q key k held h _ IH|A k held h _ IH
    |A k held h _ IHe _ IH|A ch k held held' h Hp _ IH|A X e ch k held h Hu Hc Hn _ IH|A X e k held h _ IH
    |A L R body l k inv left_ h _ IHb _ IHk|A child k held h _ IHc _ IH]; intros Hnd.
  - done.
  - apply call_keeps; [apply keeps_PublishMessage|apply tidy_PublishMessage|auto].
  - apply call_keeps; [apply keeps_DeclareQueueTopology|apply tidy_DeclareQueueTopology|auto].
  - apply call_keeps; [apply keeps_PublisherClose|apply tidy_PublisherClose|]. intros []. auto.
  - apply get_obeys; [auto|]. intros ch Hnew. apply IH. by constructor.
  - eapply return_obeys; [done..|]. apply IH. rewrite Hp in Hnd. by apply NoDup_cons in Hnd as [_ ?].
  - apply own_op_obeys; [|by split|auto]. intros Q1 HQ1.
    split; [intros ch' Hu'; change (uses e = Some ch') in Hu'; simplify_eq; simpl; set_solver|].
    destruct e; try done; simpl; auto.
  - apply own_op_obeys; [auto|by split|auto].
  - exists (fun l g => NoDup (inv l) /\ g = between (inv l)). split; [done|].
    intros l1 g1 [Hl1 ->]. split; [done|]. eapply cwp_mono; [|by apply IHb]. intros [l2|b] g2 [Hb ->]; [done|by apply IHk].
  - exists (between held), (between []). split; [done|]. split; [|auto].
    eapply cwp_mono; [|by apply IHc, NoDup_nil_2]. by intros [] g [_ ->].
Qed.

Lemma application_obeys config main :
  (forall p, client p [] (main p) (fun _ => [])) ->
  cwp pool_logic (application config main) (between []) (fun _ g => fin pool_logic g).
Proof.
  intros Hmain. apply call_keeps; [apply keeps_NewPublisher|apply tidy_NewPublisher|]. intros [p|err]; [|done].
  eapply cwp_mono; [|by eapply client_obeys, NoDup_nil_2]. by intros [] g [_ ->].
Qed.

(** ** Properties *)

(** The channel that a goroutine is about to use. *)
Definition using_now (t : prog publisherE unit) : option channel :=
  match t with
  | Vis (inl1 (inl1 (inl1 (inl1 (inr1 e))))) _ => uses e
  | _ => None
  end.

Definition ended (t : prog publisherE unit) : bool :=
  match t with Ret _ => true | _ => false end.

(** The channels in a pool. *)
Definition pooled (s : pstate) (n : nat) : list channel :=
  match pools s !! n with
  | Some (_, l) => pch_ch <$> l
  | None => []
  end.

Lemma using_owns t g ch (Q : unit -> chan_owns * lock_owns -> Prop) :
  cwp pool_logic t g Q -> using_now t = Some ch -> ch ∈ chans g.1.
Proof.
  destruct t as [|X e k| |]; try done. destruct e as [[[[[e|e]|e]|e]|e]|e]; try done.
  intros (Q1 & Q2 & [Hu _] & _). exact (Hu ch).
Qed.

Lemma pooled_located s gs ch n : ch ∈ pooled s n -> located s gs ch (InPool n).
Proof.
  unfold pooled. destruct (pools s !! n) as [[size l]|] eqn:Hn; [|by intros ?%not_elem_of_nil].
  intros (pch & -> & Hin)%list_elem_of_fmap. by exists size, l, pch.
Qed.

Lemma initial_chan_inv : chan_inv initial [no_chans].
Proof.
  assert (Hnone : forall ch pl, ~ located initial [no_chans] ch pl).
  { intros ch [i|n|rc]; simpl; [|intros (? & ? & ? & ? & _); simplify_map_eq|by simplify_map_eq].
    intros (g & Hg & Hc). destruct i as [|[|i]]; simpl in Hg; simplify_eq. set_solver. }
  split_and!; split; simpl.
  - intros ch pl pl' Hl. by destruct (Hnone ch pl).
  - set_solver.
  - intros ch pl Hl. by destruct (Hnone ch pl).
  - by simplify_map_eq.
  - by simplify_map_eq.
  - intros [|[|i]] g rc res Hg; simpl in Hg; by simplify_eq/=.
  - intros [|[|i]] j g g' rc res res' Hg; simpl in Hg; by simplify_eq/=.
  - intros rc o. by simplify_map_eq.
Qed.

Section reachable.
Context (config : Config.t) (main : Publisher.t -> prog publisherE unit).
Context (ts : list (prog publisherE unit)) (s : pstate).
Hypothesis main_client : forall p, client p [] (main p) (fun _ => []).
Hypothesis ts_reachable : reachable pub_sem ([application config main], initial) (ts, s).

Lemma app_reachable :
  exists gs, threads_ok pool_logic ts gs /\ chan_inv s gs.*1 /\ lock_inv s gs.*2.
Proof.
  eapply (adequacy pub_sem pool_logic (both_inv chan_inv lock_inv)); [| |exact ts_reachable| |].
  - apply both_inv_op; [exact chan_inv_op|exact lock_inv_op].
  - apply both_inv_fork; [exact chan_inv_fork|exact lock_inv_fork].
  - constructor; [by apply application_obeys|constructor].
  - split; [exact initial_chan_inv|exact initial_lock_inv].
Qed.

(** What the goroutine [i], with the code [t], owns. *)
Lemma thread_owns gs i t :
  threads_ok pool_logic ts gs -> ts !! i = Some t ->
  exists g, gs.*1 !! i = Some g.1 /\ gs.*2 !! i = Some g.2 /\
    cwp pool_logic t g (fun _ g => fin pool_logic g).
Proof.
  intros Hok Hi. destruct (Forall2_lookup_l _ _ _ _ _ Hok Hi) as (g & Hg & Hwp).
  exists g. by rewrite !list_lookup_fmap, Hg.
Qed.

(** C7: A channel is used by one goroutine at a time.  In every interleaving, a channel that a
    goroutine is about to use is in no pool, and no other goroutine is about to use it. *)
Theorem channel_exclusive i t ch :
  ts !! i = Some t -> using_now t = Some ch ->
  (forall n, ch ∉ pooled s n) /\
  forall j t', ts !! j = Some t' -> using_now t' = Some ch -> j = i.
Proof.
  intros Hi Hu. destruct app_reachable as (gs & Hok & Hinv & _).
  destruct (thread_owns _ _ _ Hok Hi) as (g & Hg & _ & Hwp).
  pose proof (using_owns _ _ _ _ Hwp Hu) as Hc. split.
  - intros n Hn. enough (InPool n = WithThread i) by done.
    by eapply elsewhere, pooled_located.
  - intros j t' Hj Hu'. destruct (thread_owns _ _ _ Hok Hj) as (g' & Hg' & _ & Hwp').
    enough (WithThread j = WithThread i) by congruence.
    eapply elsewhere; [done|exact Hg|done|]. exists g'.1. split; [done|]. by eapply using_owns.
Qed.

(** C10: A pool holds a channel once, and no channel is in two pools; the number of its channels
    stays within the capacity it was made with. *)
Theorem pool_bounded n m ch size l :
  pools s !! n = Some (size, l) -> 0 <= size ->
  Z.of_nat (length l) <= size /\ NoDup (pooled s n) /\
  (ch ∈ pooled s n -> ch ∈ pooled s m -> n = m).
Proof.
  intros Hn Hs. destruct app_reachable as (gs & _ & Hinv & _).
  destruct (proj1 (proj2 Hinv) _ _ _ Hn) as [Hd Hle]. split; [by apply Hle|]. split.
  - unfold pooled. by rewrite Hn.
  - intros H1 H2. enough (InPool n = InPool m) by congruence.
    by eapply at_place; [|eapply pooled_located|eapply pooled_located].
Qed.

(** When every goroutine has returned, nobody owns anything. *)
Lemma all_done gs (i : nat) g1 g2 :
  Forall (fun t => ended t = true) ts -> threads_ok pool_logic ts gs -> gs !! i = Some (g1, g2) ->
  fin chan_logic g1 /\ fin lock_logic g2.
Proof.
  intros Hend Hok Hi. destruct (Forall2_lookup_r _ _ _ _ _ Hok Hi) as (t & Ht & Hwp).
  pose proof (Forall_lookup_1 _ _ _ _ Hend Ht) as He. by destruct t.
Qed.

(** C8: No channel leaks.  When every goroutine has returned, each channel that was opened and
    never closed is in the publisher's current pool: borrowing, publishing, timing out, warming,
    reconnecting and closing account for every channel, and the pools that reconnecting
    replaced are empty. *)
Theorem no_channel_leak ch :
  Forall (fun t => ended t = true) ts ->
  (forall n, current s <> Some n -> pooled s n = []) /\
  (ch ∈ open s -> exists n, current s = Some n /\ ch ∈ pooled s n).
Proof.
  intros Hend. destruct app_reachable as (gs & Hok & ([_ Hsome _] & _ & [_ _ H3]) & [_ _ _ _ _ _ Hrep]).
  assert (Hold : forall n, current s <> Some n -> pooled s n = []).
  { intros n Hn. unfold pooled. destruct (pools s !! n) as [[size l]|] eqn:Hl; [|done].
    destruct l as [|pch l]; [done|]. destruct (Hrep n size (pch :: l) Hl) as (i & g & Hi & Hd); [done..|].
    apply list_lookup_fmap_Some in Hi as ([g1 g2] & -> & Hi).
    destruct (all_done _ _ _ _ Hend Hok Hi) as [_ [_ Hnone]]. simpl in Hd. set_solver. }
  split; [exact Hold|]. intros Hch. destruct (Hsome ch Hch) as [[i|n|rc] Hl].
  - destruct Hl as (g & Hg & Hc). apply list_lookup_fmap_Some in Hg as ([g1 g2] & -> & Hg).
    destruct (all_done _ _ _ _ Hend Hok Hg) as [[Hnil _] _]. simpl in Hc. set_solver.
  - destruct Hl as (size & l & pch & Hn & Hin & <-).
    assert (Hp : pch_ch pch ∈ pooled s n) by (unfold pooled; rewrite Hn; by apply list_elem_of_fmap_2).
    exists n. split; [|done]. destruct (decide (current s = Some n)) as [|Hne]; [done|].
    rewrite (Hold n Hne) in Hp. set_solver.
  - destruct (H3 _ _ Hl) as (i & g & res & Hg & Ho). apply list_lookup_fmap_Some in Hg as ([g1 g2] & -> & Hg).
    destruct (all_done _ _ _ _ Hend Hok Hg) as [[_ Hnone] _]. simpl in Ho. congruence.
Qed.
End reachable.

(** ** Concrete interleavings *)

Definition example_app : prog publisherE unit := application (pool_config 1) two_publishers.

(** Goroutine 0 has taken the pool's channel and goroutine 5 has opened one of its own; both are
    about to publish. *)
Definition both_publish : list nat :=
  repeat 0%nat 24 ++ repeat 2%nat 2 ++ repeat 0%nat 22 ++ repeat 5%nat 13 ++ repeat 6%nat 2 ++
  repeat 5%nat 6.

(** All goroutines return; goroutine 5 returns its channel to the pool after the publisher was
    drained by Close. *)
Definition all_return : list nat :=
  repeat 0%nat 24 ++ repeat 2%nat 2 ++ repeat 0%nat 22 ++ repeat 5%nat 13 ++ repeat 6%nat 2 ++
  repeat 0%nat 24 ++ repeat 5%nat 14 ++ repeat 6%nat 1 ++ repeat 1%nat 2 ++ repeat 2%nat 1 ++
  repeat 3%nat 2 ++ repeat 4%nat 7 ++ repeat 7%nat 2.

Definition published : list (prog publisherE unit) * pstate := pub_ran both_publish [example_app].
Definition returned : list (prog publisherE unit) * pstate := pub_ran all_return [example_app].

Lemma published_reachable : reachable pub_sem ([example_app], initial) (published.1, published.2).
Proof. rewrite <- surjective_pairing. apply pub_ran_reachable. vm_compute. reflexivity. Qed.

Lemma returned_reachable : reachable pub_sem ([example_app], initial) (returned.1, returned.2).
Proof. rewrite <- surjective_pairing. apply pub_ran_reachable. vm_compute. reflexivity. Qed.

Lemma channel_exclusive_witness :
  map using_now published.1 = [Some 1; None; None; None; None; Some 2; None; None]%nat /\
  forall j t', published.1 !! j = Some t' -> using_now t' = Some 1%nat -> j = O.
Proof.
  split; [vm_compute; reflexivity|].
  apply (channel_exclusive (pool_config 1) two_publishers published.1 published.2 two_publishers_client
    published_reachable O (default (Ret tt) (published.1 !! O)) 1%nat).
  - apply lookup_default. vm_compute. reflexivity.
  - vm_compute. reflexivity.
Defined.

Lemma pool_bounded_witness :
  pooled returned.2 O = [2%nat] /\
  Z.of_nat (length (default (0, []) (pools returned.2 !! O)).2) <= 1.
Proof.
  split; [vm_compute; reflexivity|].
  apply (pool_bounded (pool_config 1) two_publishers returned.1 returned.2 two_publishers_client
    returned_reachable O O 2%nat 1 (default (0, []) (pools returned.2 !! O)).2); [|lia].
  vm_compute. reflexivity.
Defined.

Lemma no_channel_leak_witness :
  elements (open returned.2) = [2%nat] /\ exists n, current returned.2 = Some n /\ 2%nat ∈ pooled returned.2 n.
Proof.
  split; [vm_compute; reflexivity|].
  apply (no_channel_leak (pool_config 1) two_publishers returned.1 returned.2 two_publishers_client
    returned_reachable 2%nat).
  - apply forallb_Forall. vm_compute. reflexivity.
  - apply (bool_decide_eq_true_1 _). vm_compute. reflexivity.
Defined.
