(* ===== verification/PoolConfirm.v ===== *)
(** * PoolConfirm: every channel that a publisher publishes on is in confirm mode.

    The machine of [PoolMachine] with, next to the pools, what the broker answered to the
    Confirm method of each channel and the buffered Go channels over which the goroutines of
    createConfirmChannel report it.  A third logic tracks which channels a goroutine knows to be
    in confirm mode; what it knows stays true. *)
From S2P Require Import Prelude AmqpData Errors Prog Machine Config Amqp Topology Instr Dial Pool Publisher PoolMachine PoolClient PubScript.
Import Pool.Publisher.
Local Open Scope Z_scope.

(** ** State *)

Record confirms : Type := mkConfirms {
  confirmed : gset channel;                           (* Confirm answered nil *)
  lines : gmap nat (option (option error))            (* the confirmChans, of capacity one *)
}.

Definition with_line (c : confirms) cc content := mkConfirms (confirmed c) (<[cc := content]> (lines c)).

Definition step_confirm {X} (e : publisherE X) : confirms -> X -> confirms -> Prop :=
  match e with
  | inl1 (inl1 (inl1 (inl1 (inl1 e)))) =>
      match e with
      | ConfirmChanMake => fun c cc c' => lines c !! cc = None /\ c' = with_line c cc None
      | ConfirmSend cc err => fun c _ c' => lines c !! cc = Some None /\ c' = with_line c cc (Some err)
      | ConfirmRecvOrTimer cc _ => fun c r c' =>
          match r with
          | Some err => lines c !! cc = Some (Some err) /\ c' = with_line c cc None
          | None => c' = c
          end
      | _ => fun c _ c' => c' = c
      end
  | inl1 (inl1 (inl1 (inl1 (inr1 e)))) =>
      match e with
      | ChConfirm ch _ => fun c err c' =>
          match err with
          | None => c' = mkConfirms ({[ch]} ∪ confirmed c) (lines c)
          | Some _ => c' = c
          end
      | _ => fun c _ c' => c' = c
      end
  | _ => fun c _ c' => c' = c
  end.

Definition confirm_sem : semantics publisherE (pstate * confirms) := fun X e s x s' =>
  pub_sem X e s.1 x s'.1 /\ step_confirm e s.2 x s'.2.

(** ** What a goroutine knows *)

(** The channels that it knows to be in confirm mode, and the channel that the confirmChan
    reports on, when it has one. *)
Record knows : Type := mkKnows {
  sure : gset channel;
  line : option (nat * channel)
}.

Definition nothing : knows := mkKnows ∅ None.
Definition learn (ch : channel) (g : knows) : knows := mkKnows ({[ch]} ∪ sure g) (line g).
Definition hang_up (g : knows) : knows := mkKnows (sure g) None.

Definition know_pub {X} (e : pubE X) (g : knows) : (X -> knows -> Prop) -> Prop :=
  match e with
  | ConfirmChanMake => fun Q => exists ch, forall cc, Q cc (mkKnows (sure g) (Some (cc, ch)))
  | ConfirmSend cc err => fun Q =>
      (exists ch, line g = Some (cc, ch) /\ (err = None -> ch ∈ sure g)) /\ Q tt g
  | ConfirmRecvOrTimer cc _ => fun Q =>
      exists ch, line g = Some (cc, ch) /\ Q (Some None) (learn ch (hang_up g)) /\
        (forall err, Q (Some (Some err)) (hang_up g)) /\ Q None (hang_up g)
  | PoolTrySend _ pch => fun Q => pch_ch pch ∈ sure g /\ forall x, Q x g
  | PoolTryRecv _ => fun Q => Q None g /\ forall pch, Q (Some pch) (learn (pch_ch pch) g)
  | _ => fun Q => forall x, Q x g
  end.

Definition know_amqp {X} (e : amqpE X) (g : knows) : (X -> knows -> Prop) -> Prop :=
  match e with
  | ChConfirm ch _ => fun Q => Q None (learn ch g) /\ forall err, Q (Some err) g
  | ChPublish ch _ _ _ _ _ _ => fun Q => ch ∈ sure g /\ forall x, Q x g
  | ChPublishDeferred ch _ _ _ _ _ _ => fun Q => ch ∈ sure g /\ forall x, Q x g
  | _ => fun Q => forall x, Q x g
  end.

Definition know_op (X : Type) (e : publisherE X) (g : knows) (Q : X -> knows -> Prop) : Prop :=
  match e with
  | inl1 (inl1 (inl1 (inl1 (inl1 e)))) => know_pub e g Q
  | inl1 (inl1 (inl1 (inl1 (inr1 e)))) => know_amqp e g Q
  | _ => forall x, Q x g
  end.

Lemma know_op_mono X (e : publisherE X) g (Q Q' : X -> knows -> Prop) :
  (forall x g', Q x g' -> Q' x g') -> know_op X e g Q -> know_op X e g Q'.
Proof.
  intros HQ. destruct e as [[[[[e|e]|e]|e]|e]|e]; simpl; [| |naive_solver..];
    revert Q Q' HQ; destruct e; simpl; naive_solver.
Qed.

(** A goroutine that is started may know what its parent knows. *)
Definition knowing : logic publisherE knows := {|
  op := know_op;
  op_mono := know_op_mono;
  fork := fun g gp gc => gp = g /\ sure gc ⊆ sure g /\ (line gc = line g \/ line gc = None);
  turn := fun _ => True;
  fin := fun _ => True
|}.

(** ** The invariant *)

Record confirm_inv (s : pstate * confirms) (gs : list knows) : Prop := {
  inv_sure : forall (i : nat) g, gs !! i = Some g -> sure g ⊆ confirmed s.2;
  inv_line : forall (i : nat) g cc ch, gs !! i = Some g -> line g = Some (cc, ch) -> is_Some (lines s.2 !! cc);
  inv_same : forall (i j : nat) g g' cc ch ch', gs !! i = Some g -> gs !! j = Some g' ->
    line g = Some (cc, ch) -> line g' = Some (cc, ch') -> ch = ch';
  inv_said : forall (i : nat) g cc ch, gs !! i = Some g -> line g = Some (cc, ch) ->
    lines s.2 !! cc = Some (Some None) -> ch ∈ confirmed s.2;
  inv_pool : forall n size l pch, pools s.1 !! n = Some (size, l) -> pch ∈ l -> pch_ch pch ∈ confirmed s.2
}.

Section operations.
Context (s s' : pstate * confirms) (gs : list knows) (i : nat) (g g' : knows).
Hypothesis inv : confirm_inv s gs.
Hypothesis lookup_i : gs !! i = Some g.

(** The other goroutines keep what they know. *)
Lemma entry (j : nat) g1 : <[i := g']> gs !! j = Some g1 -> g1 = g' \/ gs !! j = Some g1.
Proof. intros Hj. apply list_lookup_insert_Some in Hj as [(_ & <- & _)|(_ & Hj)]; auto. Qed.

Lemma confirm_inv_keep :
  confirmed s.2 ⊆ confirmed s'.2 -> sure g' ⊆ confirmed s'.2 ->
  (forall cc ch, line g' = Some (cc, ch) -> line g = Some (cc, ch)) ->
  (forall cc, is_Some (lines s.2 !! cc) -> is_Some (lines s'.2 !! cc)) ->
  (forall (j : nat) g1 cc ch, gs !! j = Some g1 -> line g1 = Some (cc, ch) ->
     lines s'.2 !! cc = Some (Some None) -> ch ∈ confirmed s'.2) ->
  (forall n size l pch, pools s'.1 !! n = Some (size, l) -> pch ∈ l -> pch_ch pch ∈ confirmed s'.2) ->
  confirm_inv s' (<[i := g']> gs).
Proof.
  intros Hc Hg Hl Hlines Hsaid Hpool. pose proof inv as [H1 H2 H3 H4 H5].
  assert (Hold : forall (j : nat) g1 cc ch, <[i := g']> gs !! j = Some g1 -> line g1 = Some (cc, ch) ->
    exists (k : nat) g2, gs !! k = Some g2 /\ line g2 = Some (cc, ch)).
  { intros j g1 cc ch [->|Hj]%entry Hg1; eauto. }
  split; [| | | |exact Hpool].
  - intros j g1 [->|Hj]%entry; [done|]. rewrite <- Hc. by eapply H1.
  - intros j g1 cc ch Hj Hg1. destruct (Hold _ _ _ _ Hj Hg1) as (k & g2 & Hk & Hg2). eauto.
  - intros j k g1 g2 cc ch ch' Hj Hk Hg1 Hg2.
    destruct (Hold _ _ _ _ Hj Hg1) as (j' & g1' & Hj' & Hg1'), (Hold _ _ _ _ Hk Hg2) as (k' & g2' & Hk' & Hg2').
    eauto.
  - intros j g1 cc ch Hj Hg1. destruct (Hold _ _ _ _ Hj Hg1) as (k & g2 & Hk & Hg2). eauto.
Qed.

(** Nothing changes for the confirmations. *)
Lemma confirm_inv_pools :
  s'.2 = s.2 -> sure g' ⊆ confirmed s.2 -> (forall cc ch, line g' = Some (cc, ch) -> line g = Some (cc, ch)) ->
  (forall n size l pch, pools s'.1 !! n = Some (size, l) -> pch ∈ l -> pch_ch pch ∈ confirmed s.2) ->
  confirm_inv s' (<[i := g']> gs).
Proof.
  intros Hs Hg Hl Hpool. pose proof inv as [_ _ _ H4 _].
  by apply confirm_inv_keep; rewrite ?Hs.
Qed.
End operations.

(** The operations that add no channel to a pool. *)
Definition adds_none {X} (e : publisherE X) : Prop :=
  match e with
  | inl1 (inl1 (inl1 (inl1 (inl1 (PoolTrySend _ _))))) => False
  | _ => True
  end.

Lemma pool_shrinks X (e : publisherE X) s x s' : adds_none e -> pub_sem X e s x s' ->
  forall n size l pch, pools s' !! n = Some (size, l) -> pch ∈ l ->
    exists size' l', pools s !! n = Some (size', l') /\ pch ∈ l'.
Proof.
  intros He Hs n size l pch Hn Hin.
  assert (Hsame : pools s' = pools s -> exists size' l', pools s !! n = Some (size', l') /\ pch ∈ l')
    by (intros <-; eauto).
  destruct e as [[[[[e|e]|e]|e]|e]|e]; simpl in Hs; try (subst; by apply Hsame).
  - destruct e; simpl in He, Hs; try done; try (destruct_and?; subst; by apply Hsame).
    + destruct Hs as (r & _ & ->). by apply Hsame.
    + destruct Hs as [_ ->]. simpl in Hn. apply lookup_insert_Some in Hn as [[_ [= _ <-]]|[_ Hn]]; [set_solver|eauto].
    + destruct Hs as (size0 & l0 & Hl & Hx). destruct x as [pch0|].
      * destruct Hx as (rest & -> & ->). simpl in Hn.
        apply lookup_insert_Some in Hn as [[-> [= <- <-]]|[_ Hn]]; [|eauto].
        eexists _, _. split; [exact Hl|]. by right.
      * destruct Hx as [_ ->]. by apply Hsame.
    + destruct x; destruct_and?; subst; by apply Hsame.
  - destruct e; simpl in Hs; try (subst; by apply Hsame).
    + destruct x; destruct_and?; subst; by apply Hsame.
    + destruct x; subst; by apply Hsame.
Qed.

Section preserved.
Context (s : pstate * confirms) (s1 : pstate) (gs : list knows) (i : nat) (g : knows).
Hypothesis inv : confirm_inv s gs.
Hypothesis lookup_i : gs !! i = Some g.
Hypothesis pools_kept : forall n size l pch,
  pools s1 !! n = Some (size, l) -> pch ∈ l -> pch_ch pch ∈ confirmed s.2.

Lemma still_known cc cc' content :
  is_Some (lines s.2 !! cc') -> is_Some (<[cc := content]> (lines s.2) !! cc').
Proof. intros Hs. apply lookup_insert_is_Some'. auto. Qed.

(** A new confirmChan: nobody had it. *)
Lemma preserved_ConfirmChanMake ch cc :
  lines s.2 !! cc = None ->
  confirm_inv (s1, with_line s.2 cc None) (<[i := mkKnows (sure g) (Some (cc, ch))]> gs).
Proof.
  intros Hnew. pose proof inv as [H1 H2 H3 H4 H5].
  assert (Hcase : forall (j : nat) g1 cc1 ch1, <[i := mkKnows (sure g) (Some (cc, ch))]> gs !! j = Some g1 ->
    line g1 = Some (cc1, ch1) -> cc1 = cc /\ ch1 = ch \/ cc1 <> cc /\ gs !! j = Some g1).
  { intros j g1 cc1 ch1 [->|Hj]%entry Hg1; [injection Hg1; auto|]. right. split; [|done]. intros ->.
    destruct (H2 _ _ _ _ Hj Hg1). congruence. }
  split; simpl; [| | | |exact pools_kept].
  - intros j g1 [->|Hj]%entry; [exact (H1 i g lookup_i)|by eapply H1].
  - intros j g1 cc1 ch1 Hj Hg1. destruct (Hcase _ _ _ _ Hj Hg1) as [[-> _]|[Hne Hj']].
    + rewrite lookup_insert_eq. eauto.
    + apply still_known. eauto.
  - intros j k g1 g2 cc1 ch1 ch2 Hj Hk Hg1 Hg2.
    destruct (Hcase _ _ _ _ Hj Hg1) as [[-> ->]|[Hne Hj']], (Hcase _ _ _ _ Hk Hg2) as [[? ->]|[? Hk']];
      try done. eauto.
  - intros j g1 cc1 ch1 Hj Hg1. destruct (Hcase _ _ _ _ Hj Hg1) as [[-> ->]|[Hne Hj']].
    + by rewrite lookup_insert_eq.
    + rewrite lookup_insert_ne by done. eauto.
Qed.

(** A report that is a success is one on a channel that is in confirm mode. *)
Lemma preserved_ConfirmSend cc ch err :
  line g = Some (cc, ch) -> (err = None -> ch ∈ sure g) ->
  confirm_inv (s1, with_line s.2 cc (Some err)) (<[i := g]> gs).
Proof.
  intros Hl Herr. pose proof inv as [H1 H2 H3 H4 H5].
  eapply confirm_inv_keep; simpl; [done|done|done|by eapply H1|done|by intros ?; apply still_known| |exact pools_kept].
  intros j g1 cc1 ch1 Hj Hg1. destruct (decide (cc1 = cc)) as [->|].
  - rewrite lookup_insert_eq. intros [= ->]. assert (ch1 = ch) as -> by eauto.
    eapply (H1 i); [done|]. by apply Herr.
  - rewrite lookup_insert_ne by done. eauto.
Qed.

(** Who receives a report has no more use for the confirmChan. *)
Lemma preserved_ConfirmRecv cc g' :
  sure g' ⊆ confirmed s.2 -> line g' = None -> confirm_inv (s1, with_line s.2 cc None) (<[i := g']> gs).
Proof.
  intros Hg' Hl. pose proof inv as [H1 H2 H3 H4 H5].
  eapply confirm_inv_keep; simpl; [done|done|done|done|by rewrite Hl|by intros ?; apply still_known| |exact pools_kept].
  intros j g1 cc1 ch1 Hj Hg1. destruct (decide (cc1 = cc)) as [->|];
    [by rewrite lookup_insert_eq|rewrite lookup_insert_ne by done; eauto].
Qed.

Lemma preserved_ChConfirm ch :
  confirm_inv (s1, mkConfirms ({[ch]} ∪ confirmed s.2) (lines s.2)) (<[i := learn ch g]> gs).
Proof.
  pose proof inv as [H1 H2 H3 H4 H5]. specialize (H1 i g lookup_i) as Hg.
  eapply confirm_inv_keep; simpl; [done|done|set_solver|set_solver|done|done|..].
  - intros j g1 cc ch1 Hj Hg1 Hv. apply elem_of_union_r. eauto.
  - intros n size l pch Hn Hin. apply elem_of_union_r. by eapply pools_kept.
Qed.
End preserved.

(** A channel that goes into a pool is in confirm mode. *)
Lemma preserved_PoolTrySend s gs (i : nat) g pool pch sent s' :
  confirm_inv s gs -> gs !! i = Some g -> pch_ch pch ∈ sure g ->
  step_pub (PoolTrySend pool pch) s.1 sent s'.1 -> s'.2 = s.2 -> confirm_inv s' (<[i := g]> gs).
Proof.
  intros Hinv Hi Hin Hp Hc. pose proof Hinv as [H1 _ _ _ H5].
  eapply confirm_inv_pools; [done|done|done|by eapply H1|done|].
  intros n size l pch' Hn Hl. destruct Hp as (size0 & l0 & Hl0 & Hx). destruct sent; destruct Hx as [_ Hs].
  - rewrite Hs in Hn. simpl in Hn. apply lookup_insert_Some in Hn as [[-> [= <- <-]]|[_ Hn]]; [|eauto].
    apply elem_of_app in Hl as [Hl| ->%list_elem_of_singleton]; [eauto|]. by eapply H1.
  - rewrite Hs in Hn. eauto.
Qed.

Lemma confirm_inv_op s gs (i : nat) g X (e : publisherE X) Q x s' :
  confirm_inv s gs -> gs !! i = Some g -> op knowing X e g Q -> confirm_sem X e s x s' ->
  exists g', Q x g' /\ confirm_inv s' (<[i := g']> gs).
Proof.
  intros Hinv Hi Hop [Hp Hc]. pose proof Hinv as [H1 _ _ H4 H5]. destruct s' as [s1 c1]. cbn [fst snd] in *.
  assert (Hpools : adds_none e -> forall n size l pch,
    pools s1 !! n = Some (size, l) -> pch ∈ l -> pch_ch pch ∈ confirmed s.2).
  { intros He n size l pch Hn Hin. destruct (pool_shrinks _ _ _ _ _ He Hp _ _ _ _ Hn Hin) as (? & ? & ? & ?). eauto. }
  assert (Hsame : forall g', c1 = s.2 -> adds_none e -> Q x g' -> sure g' ⊆ confirmed s.2 ->
    (line g' = line g \/ line g' = None) -> exists g', Q x g' /\ confirm_inv (s1, c1) (<[i := g']> gs)).
  { intros g' Hs He HQ Hg' Hl. exists g'. split; [done|].
    eapply confirm_inv_pools; [done|done|done|done|destruct Hl as [-> | ->]; done|by apply Hpools]. }
  assert (Hquiet : c1 = s.2 -> adds_none e -> Q x g -> exists g', Q x g' /\ confirm_inv (s1, c1) (<[i := g']> gs)).
  { intros Hs He HQ. apply (Hsame g); auto. by eapply H1. }
  destruct e as [[[[[e|e]|e]|e]|e]|e]; simpl in Hop, Hc; try by apply Hquiet.
  - destruct e; simpl in Hop, Hc; try (by apply Hquiet).
    + destruct Hop as [Hin HQ]. exists g. split; [apply HQ|]. by eapply preserved_PoolTrySend.
    + destruct x as [pch|]; [|by apply Hquiet; destruct Hop]. destruct Hop as [_ HQ].
      apply (Hsame (learn (pch_ch pch) g)); [done|done|apply HQ| |by left].
      destruct Hp as (size & l & Hl & rest & -> & _). specialize (H1 i g Hi).
      assert (pch_ch pch ∈ confirmed s.2) by (eapply H5; [exact Hl|by left]). set_solver.
    + destruct Hop as [ch HQ], Hc as [Hnew ->]. eexists. split; [apply HQ|].
      by apply preserved_ConfirmChanMake; [| |apply Hpools|].
    + destruct Hop as [(ch & Hl & Herr) HQ], Hc as [_ ->]. exists g. destruct x. split; [exact HQ|].
      by eapply preserved_ConfirmSend; [| |apply Hpools| |].
    + destruct Hop as (ch & Hl & Hok & Hbad & Hnone). destruct x as [err|].
      2: { apply (Hsame (hang_up g)); [done..|exact (H1 i g Hi)|by right]. }
      destruct Hc as [Hfull ->]. assert (Hg : sure g ⊆ confirmed s.2) by by eapply H1.
      destruct err as [err|]; [exists (hang_up g)|exists (learn ch (hang_up g))];
        (split; [auto|]; apply (preserved_ConfirmRecv s s1 gs i g Hinv Hi (Hpools I)); [simpl|done]); [done|].
      assert (ch ∈ confirmed s.2) by eauto. set_solver.
  - destruct e; simpl in Hop, Hc; try (by apply Hquiet); try (destruct Hop as [_ HQ]; by apply Hquiet).
    destruct Hop as [HQn HQe]. destruct x as [err|]; [by apply Hquiet|]. subst c1.
    exists (learn ch g). split; [done|]. by apply preserved_ChConfirm; [| |apply Hpools].
Qed.

Lemma confirm_inv_fork s gs (i : nat) g gp gc :
  confirm_inv s gs -> gs !! i = Some g -> fork knowing g gp gc -> confirm_inv s (<[i := gp]> gs ++ [gc]).
Proof.
  intros [H1 H2 H3 H4 H5] Hi (-> & Hs & Hl). rewrite list_insert_id by done.
  assert (Hold : forall (j : nat) g1, (gs ++ [gc]) !! j = Some g1 ->
    exists (k : nat) g2, gs !! k = Some g2 /\ sure g1 ⊆ sure g2 /\ forall l, line g1 = Some l -> line g2 = Some l).
  { intros j g1 [Hj|[_ Hj]]%lookup_app_Some; [eauto 10|]. apply list_lookup_singleton_Some in Hj as [_ <-].
    exists i, g. split; [done|]. split; [done|]. intros l Hg. destruct Hl as [Hl|Hl]; congruence. }
  split; [| | | |done].
  - intros j g1 (k & g2 & Hk & Hg & _)%Hold. rewrite Hg. eauto.
  - intros j g1 cc ch (k & g2 & Hk & _ & Hg)%Hold Hg1. eauto.
  - intros j j' g1 g1' cc ch ch' (k & g2 & Hk & _ & Hg)%Hold (k' & g2' & Hk' & _ & Hg')%Hold Hg1 Hg1'. eauto.
  - intros j g1 cc ch (k & g2 & Hk & _ & Hg)%Hold Hg1. eauto.
Qed.

(** ** What code comes to know *)

Definition knows_more (g g' : knows) : Prop := sure g ⊆ sure g' /\ line g' = line g.

Lemma knows_more_trans g g' g'' : knows_more g g' -> knows_more g' g'' -> knows_more g g''.
Proof. intros [H1 H2] [H3 H4]. split; [set_solver|congruence]. Qed.

(** [yields R p P]: [p] can be run by a goroutine that knows the channels [R] to be in confirm
    mode, and has no confirmChan; with the answer [a] it then knows the channels [P a], too. *)
Definition yields (R : gset channel) {A} (p : prog publisherE A) (P : A -> gset channel) : Prop :=
  forall g (Q : A -> knows -> Prop), line g = None -> R ⊆ sure g ->
    (forall a g', knows_more g g' -> P a ⊆ sure g' -> Q a g') -> cwp knowing p g Q.

(** Code from which nothing is learnt. *)
Abbreviation minds R p := (yields R p (fun _ => ∅)).

Lemma yields_ret R {A} (a : A) P : P a ⊆ R -> yields R (Ret a) P.
Proof. intros Ha g Q Hl Hg HQ. apply HQ; [by split|set_solver]. Qed.

Lemma yields_bind R {A B} (p : prog publisherE A) (f : A -> prog publisherE B) P P' :
  yields R p P -> (forall a, yields (P a ∪ R) (f a) P') -> yields R (bind p f) P'.
Proof.
  intros Hp Hf g Q Hl Hg HQ. apply cwp_bind, Hp; [done|done|]. intros a g' Hmore Ha.
  pose proof Hmore as [Hs Hl']. apply Hf; [congruence|set_solver|].
  intros b g'' Hmore' Hb. apply HQ; [by eapply knows_more_trans|done].
Qed.

Lemma yields_weaken R R' {A} (p : prog publisherE A) P P' :
  yields R p P -> R ⊆ R' -> (forall a, P' a ⊆ P a ∪ R') -> yields R' p P'.
Proof.
  intros Hp HR HP g Q Hl Hg HQ. apply Hp; [done|set_solver|]. intros a g' Hmore Ha.
  apply HQ; [done|]. destruct Hmore as [Hs _]. specialize (HP a). set_solver.
Qed.

Lemma minds_trigger R {X F} `{F -< publisherE} (e : F X) :
  (forall g Q, R ⊆ sure g -> (forall x, Q x g) -> know_op X (inject e) g Q) -> minds R (trigger e).
Proof.
  intros He g Q Hl Hg HQ. apply cwp_trigger, He; [done|]. intros x. apply HQ; [by split|set_solver].
Qed.

Lemma yields_recv R pool :
  yields R (trigger (PoolTryRecv pool)) (fun pch => match pch with Some pch => {[pch_ch pch]} | None => ∅ end).
Proof.
  intros g Q Hl Hg HQ. apply cwp_trigger. split.
  - apply HQ; [by split|set_solver].
  - intros pch. apply HQ; [split; simpl; [set_solver|done]|simpl; set_solver].
Qed.

Lemma minds_loop R {M B} (body : M -> prog publisherE (M + B)) l :
  (forall l, minds R (body l)) -> minds R (loop body l).
Proof.
  intros Hb g Q Hl Hg HQ. exists (fun _ g' => knows_more g g'). split; [by split|].
  intros l1 g1 [Hs1 Hl1]. split; [done|]. apply Hb; [congruence|set_solver|].
  intros [l2|b] g2 Hmore _.
  - by eapply knows_more_trans.
  - apply HQ; [by eapply knows_more_trans|set_solver].
Qed.

Lemma minds_go R (child : prog publisherE unit) : minds ∅ child -> minds R (go child).
Proof.
  intros Hc g Q Hl Hg HQ. exists g, nothing. split; [split; [done|]; simpl; split; [set_solver|by right]|].
  split; [by apply Hc|]. apply HQ; [by split|set_solver].
Qed.

Create HintDb confirms.

Ltac quiet := apply minds_trigger; intros ? ? ? ?; first [assumption | split; [set_solver|assumption]].
Ltac mind_step :=
  lazymatch goal with
  | |- yields _ (Ret _) _ => apply yields_ret; set_solver
  | |- yields _ (bind (trigger (PoolTryRecv _)) _) _ => eapply yields_bind; [apply yields_recv|intros ?; cbv beta]
  | |- yields _ (bind (trigger _) _) _ => eapply yields_bind; [quiet|intros ?; cbv beta]
  | |- yields _ (bind _ _) _ =>
      first [ eapply yields_bind; [solve [eauto 2 with confirms]|intros ?; cbv beta]
            | apply (yields_bind _ _ _ (fun _ => ∅)); [|intros ?; cbv beta] ]
  | |- yields _ (trigger _) _ => quiet
  | |- yields _ (loop _ _) _ => apply minds_loop; intros ?
  | |- yields _ (go _) _ => apply minds_go
  | |- yields _ (match ?x with _ => _ end) _ => destruct x; cbv beta iota
  | |- yields _ (let _ := _ in _) _ => cbv zeta
  | |- yields _ _ _ => solve [auto with confirms]
  end.
Ltac mind := repeat mind_step.

(** ** The publisher *)

Lemma minds_dialer R url amqpCfg rc : minds R (dialer url amqpCfg rc).
Proof. unfold dialer. mind. Qed.
#[export] Hint Resolve minds_dialer : confirms.

Lemma minds_Dial R opts : minds R (Dial opts).
Proof. unfold Dial, dialProperties. mind. Qed.

Lemma minds_DeclareExchange R conn name kind : minds R (DeclareExchange conn name kind).
Proof. unfold DeclareExchange. mind. Qed.

Lemma minds_channelOpener R conn rc d : minds R (channelOpener conn rc d).
Proof. unfold channelOpener. mind. Qed.
#[export] Hint Resolve minds_Dial minds_DeclareExchange minds_channelOpener : confirms.

(** The goroutine that enables confirms reports what the broker answered for its channel. *)
Lemma confirmEnabler_reports ch cc :
  cwp knowing (confirmEnabler ch cc) (mkKnows ∅ (Some (cc, ch))) (fun _ g => fin knowing g).
Proof.
  unfold confirmEnabler. apply cwp_op. split; [|intros err]; apply cwp_trigger; (split; [|done]); exists ch.
  - split; [done|]. intros _. simpl. set_solver.
  - by split.
Qed.

(** A channel whose confirms were enabled in time is in confirm mode. *)
Lemma enableConfirms_teaches R p ch :
  yields R (enableConfirms p ch) (fun r => match r with Some ch => {[ch]} | None => ∅ end).
Proof.
  intros g Q Hl Hg HQ. unfold enableConfirms. apply cwp_op. exists ch. intros cc.
  exists (mkKnows (sure g) (Some (cc, ch))), (mkKnows ∅ (Some (cc, ch))).
  split; [split; [done|]; simpl; split; [set_solver|by left]|]. split; [apply confirmEnabler_reports|].
  apply cwp_op. exists ch. split; [done|]. split; [|split].
  - apply HQ; [split; simpl; [set_solver|done]|simpl; set_solver].
  - intros err. do 2 (apply cwp_op; intros ?). apply HQ; [by split|set_solver].
  - do 2 (apply cwp_op; intros ?). apply HQ; [by split|set_solver].
Qed.
#[export] Hint Resolve enableConfirms_teaches : confirms.

Lemma createConfirmChannel_teaches R p :
  yields R (createConfirmChannel p) (fun r => match r with Some ch => {[ch]} | None => ∅ end).
Proof. unfold createConfirmChannel. mind. Qed.
#[export] Hint Resolve createConfirmChannel_teaches : confirms.

Lemma createPooledChannel_teaches R p :
  yields R (createPooledChannel p) (fun r => match r with Some pch => {[pch_ch pch]} | None => ∅ end).
Proof. unfold createPooledChannel. mind. Qed.
#[export] Hint Resolve createPooledChannel_teaches : confirms.

(** The channel of a borrowing call's answer. *)
Abbreviation handed_out := (fun r => match r with Ok pch => {[pch_ch pch]} | Err _ => ∅ end).

Lemma newChannelOrError_teaches R p : yields R (newChannelOrError p) handed_out.
Proof. unfold newChannelOrError. mind. Qed.
#[export] Hint Resolve newChannelOrError_teaches : confirms.

Lemma borrowChannel_teaches R p : yields R (borrowChannel p) handed_out.
Proof. unfold borrowChannel. mind. Qed.

Lemma minds_discard R ch : minds R (discard ch).
Proof. unfold discard. mind. Qed.
#[export] Hint Resolve borrowChannel_teaches minds_discard : confirms.

Lemma GetChannel_teaches R p : yields R (GetChannel p) (fun r => match r with Ok ch => {[ch]} | Err _ => ∅ end).
Proof. unfold GetChannel. mind. Qed.

Lemma minds_returnPooled R p pch : pch_ch pch ∈ R -> minds R (returnPooled p pch).
Proof. intros HR. unfold returnPooled. mind. Qed.

(** A returned channel that is put back is the caller's. *)
Lemma minds_ReturnChannel R p ch :
  (forall c, ch = Some c -> c ∈ R) -> minds R (ReturnChannel p ch).
Proof.
  intros HR. unfold ReturnChannel.
  apply (yields_bind _ _ _ (fun u => match u with Some c => {[c]} | None => ∅ end)).
  - destruct ch as [ch|]; [|by apply yields_ret]. specialize (HR ch eq_refl).
    eapply yields_bind; [quiet|intros closed; cbv beta]. apply yields_ret. destruct closed; set_solver.
  - intros [c|]; cbv beta iota; [|mind]. mind. apply minds_returnPooled. simpl. set_solver.
Qed.
#[export] Hint Resolve GetChannel_teaches : confirms.

Lemma minds_warmChannelPool R p : minds R (warmChannelPool p).
Proof.
  unfold warmChannelPool. mind. unfold warm_round. mind.
Qed.
#[export] Hint Resolve minds_warmChannelPool : confirms.

Lemma minds_drainPool R pool : minds R (drainPool pool).
Proof. unfold drainPool, drain_round. mind. Qed.
#[export] Hint Resolve minds_drainPool : confirms.

Lemma minds_drainChannelPool R : minds R drainChannelPool.
Proof. unfold drainChannelPool. mind. Qed.

Lemma minds_pconnect R p : minds R (pconnect p).
Proof. unfold pconnect, establishConnection, establishLocked. mind. Qed.
#[export] Hint Resolve minds_drainChannelPool minds_pconnect : confirms.

Lemma minds_preconnect R p : minds R (preconnect p).
Proof. unfold preconnect, preconnect_round, sleepOrClosed. mind. Qed.
#[export] Hint Resolve minds_preconnect : confirms.

Lemma minds_pwatchConnection R p : minds R (pwatchConnection p).
Proof. unfold pwatchConnection, pwatch_round, sleepOrClosed. mind. Qed.
#[export] Hint Resolve minds_pwatchConnection : confirms.

Lemma minds_NewPublisher R config : minds R (NewPublisher config).
Proof. unfold NewPublisher. mind. Qed.

Lemma minds_PublisherClose R p : minds R (PublisherClose p).
Proof. unfold PublisherClose, shutdown. mind. Qed.

(** Publishing, on a channel that is known to be in confirm mode. *)
Lemma minds_publishOnChannel R p ctx ch msg pub : ch ∈ R -> minds R (publishOnChannel p ctx ch msg pub).
Proof. intros HR. unfold publishOnChannel. mind. Qed.

Lemma minds_publishMandatory R p ctx ch msg pub : ch ∈ R -> minds R (publishMandatory p ctx ch msg pub).
Proof.
  intros HR. unfold publishMandatory. eapply yields_bind; [quiet|intros returns; cbv beta].
  eapply yields_bind; [apply minds_publishOnChannel; set_solver|intros err; cbv beta]. mind.
Qed.

Lemma minds_publish R p ctx msg : minds R (publish p ctx msg).
Proof.
  unfold publish. eapply yields_bind; [apply borrowChannel_teaches|intros [pch|err]; cbv beta iota zeta; [|mind]].
  destruct (PublishMessage.Mandatory msg).
  - eapply yields_bind; [apply minds_publishMandatory; set_solver|intros err; cbv beta]. mind.
  - eapply yields_bind; [apply minds_publishOnChannel; set_solver|intros err; cbv beta].
    eapply yields_bind; [apply minds_returnPooled; set_solver|intros []; cbv beta]. mind.
Qed.
#[export] Hint Resolve minds_publish : confirms.

Lemma minds_PublishMessage R p ctx msg : minds R (PublishMessage_ p ctx msg).
Proof. unfold PublishMessage_. mind. Qed.

Lemma minds_declareQueueTopology R ch cfg q key :
  minds R (declareQueueTopology (E := publisherE) ch cfg q key).
Proof. unfold declareQueueTopology, declareQueue. mind. Qed.
#[export] Hint Resolve minds_declareQueueTopology : confirms.

Lemma minds_DeclareQueueTopology R p q key : minds R (DeclareQueueTopology p q key).
Proof.
  unfold DeclareQueueTopology. eapply yields_bind; [apply GetChannel_teaches|intros [ch|err]; cbv beta iota; [|mind]].
  eapply yields_bind; [apply minds_declareQueueTopology|intros err; cbv beta].
  eapply yields_bind; [apply minds_ReturnChannel; intros c [= <-]; set_solver|intros []; cbv beta]. mind.
Qed.

(** ** Applications *)

Lemma client_knows p A held (code : prog publisherE A) h :
  client p held code h -> yields (list_to_set held) code (fun a => list_to_set (h a)).
Proof.
  induction 1 as [A a h|A ctx msg k held h _ IH|A q key k held h _ IH|A k held h _ IH
    |A k held h _ IHe _ IH|A ch k held held' h Hp _ IH|A X e ch k held h Hu Hc Hn _ IH|A X e k held h _ IH
    |A L R body l k inv left_ h _ IHb _ IHk|A child k held h _ IHc _ IH].
  - by apply yields_ret.
  - eapply yields_bind; [apply minds_PublishMessage|]. intros err. cbv beta. by rewrite (left_id_L ∅ (∪)).
  - eapply yields_bind; [apply minds_DeclareQueueTopology|]. intros err. cbv beta. by rewrite (left_id_L ∅ (∪)).
  - eapply yields_bind; [apply minds_PublisherClose|]. intros []. cbv beta. by rewrite (left_id_L ∅ (∪)).
  - eapply yields_bind; [apply GetChannel_teaches|]. intros [ch|err]; [exact (IH ch)|].
    cbv beta iota. rewrite (left_id_L ∅ (∪)). apply IHe.
  - rewrite (list_to_set_perm_L _ _ Hp). eapply yields_bind.
    + apply minds_ReturnChannel. intros c [= <-]. simpl. set_solver.
    + intros []. eapply yields_weaken; [exact IH|simpl; set_solver|set_solver].
  - eapply yields_bind; [|intros x; cbv beta; rewrite (left_id_L ∅ (∪)); apply IH].
    apply minds_trigger. intros g Q Hg HQ. assert (Hch : ch ∈ sure g) by set_solver.
    destruct e; simplify_eq/=; first [exact HQ|by split].
  - eapply yields_bind; [|intros x; cbv beta; rewrite (left_id_L ∅ (∪)); apply IH]. by apply minds_trigger.
  - intros g Q Hl Hg HQ. exists (fun l g' => knows_more g g' /\ list_to_set (inv l) ⊆ sure g').
    split; [split; [by split|done]|]. intros l1 g1 [[Hs1 Hl1] Hin1]. split; [done|].
    apply IHb; [congruence|done|]. intros [l2|b] g2 Hmore Hr.
    + split; [by eapply knows_more_trans|done].
    + pose proof Hmore as [Hs2 Hl2]. apply IHk; [congruence|done|]. intros a g3 Hmore' Ha.
      apply HQ; [|done]. eapply knows_more_trans; [|exact Hmore']. by eapply knows_more_trans.
  - intros g Q Hl Hg HQ. exists g, nothing. split; [split; [done|]; simpl; split; [set_solver|by right]|].
    split; [by apply IHc|by apply IH].
Qed.

(** The channel that a goroutine is about to publish a message on. *)
Definition publishing_on (t : prog publisherE unit) : option channel :=
  match t with
  | Vis (inl1 (inl1 (inl1 (inl1 (inr1 e))))) _ =>
      match e with
      | ChPublish ch _ _ _ _ _ _ | ChPublishDeferred ch _ _ _ _ _ _ => Some ch
      | _ => None
      end
  | _ => None
  end.

Lemma publishing_sure t g (Q : unit -> knows -> Prop) ch :
  cwp knowing t g Q -> publishing_on t = Some ch -> ch ∈ sure g.
Proof.
  destruct t as [|X e k| |]; try done. destruct e as [[[[[e|e]|e]|e]|e]|e]; try done.
  destruct e; try done; by intros [Hin _] [= <-].
Qed.

(** No channel has confirms, and there are no confirmChans. *)
Definition no_confirms : confirms := mkConfirms ∅ ∅.

Lemma initial_confirm_inv : confirm_inv (initial, no_confirms) [nothing].
Proof.
  split; simpl.
  - intros [|[|i]] g Hg; by simplify_eq/=.
  - intros [|[|i]] g cc ch Hg; by simplify_eq/=.
  - intros [|[|i]] j g g' cc ch ch' Hg; by simplify_eq/=.
  - intros [|[|i]] g cc ch Hg; by simplify_eq/=.
  - intros n size l pch Hn. by simplify_map_eq.
Qed.

(** C34: A publisher publishes on channels in confirm mode only.  In every interleaving, the broker
    has answered Confirm without an error for every channel in a pool and for every channel
    that some goroutine is about to publish a message on, whether the publisher does or a client
    that borrowed it: the result of the goroutine that enables confirms reaches the right
    caller, and channels whose confirms failed or came too late are not used. *)
Theorem channels_confirmed config main ts s c :
  (forall p, client p [] (main p) (fun _ => [])) ->
  reachable confirm_sem ([application config main], (initial, no_confirms)) (ts, (s, c)) ->
  (forall n size l pch, pools s !! n = Some (size, l) -> pch ∈ l -> pch_ch pch ∈ confirmed c) /\
  (forall i t ch, ts !! i = Some t -> publishing_on t = Some ch -> ch ∈ confirmed c).
Proof.
  intros Hmain Hr.
  destruct (adequacy confirm_sem knowing confirm_inv confirm_inv_op confirm_inv_fork _ _ _ _ [nothing] Hr)
    as (gs & Hok & [H1 _ _ _ H5]).
  - constructor; [|constructor]. enough (minds ∅ (application config main)) as H by by apply H.
    eapply yields_bind; [apply minds_NewPublisher|]. intros [p|err]; [|by apply yields_ret].
    eapply yields_weaken; [by eapply client_knows|set_solver|set_solver].
  - exact initial_confirm_inv.
  - split; [exact H5|]. intros i t ch Ht Hch. destruct (Forall2_lookup_l _ _ _ _ _ Hok Ht) as (g & Hg & Hwp).
    eapply (H1 i g Hg), publishing_sure; [exact Hwp|exact Hch].
Qed.

(** ** A concrete interleaving *)

(** The environment of [PubScript] with the confirmChans of Go; the broker accepts Confirm. *)
Definition confirm_exec : handler publisherE (pstate * confirms) := fun X e s =>
  match e with
  | inl1 (inl1 (inl1 (inl1 (inl1 e)))) =>
      match e in pubE X return option (X * (pstate * confirms)) with
      | ConfirmChanMake => let cc := fresh (dom (lines s.2)) in Some (cc, (s.1, with_line s.2 cc None))
      | ConfirmSend cc err =>
          match lines s.2 !! cc with
          | Some None => Some (tt, (s.1, with_line s.2 cc (Some err)))
          | _ => None
          end
      | ConfirmRecvOrTimer cc _ =>
          match lines s.2 !! cc with
          | Some (Some err) => Some (Some err, (s.1, with_line s.2 cc None))
          | _ => None
          end
      | e => match exec_pub e s.1 with Some (x, s1) => Some (x, (s1, s.2)) | None => None end
      end
  | inl1 (inl1 (inl1 (inl1 (inr1 e)))) =>
      match e in amqpE X return option (X * (pstate * confirms)) with
      | ChConfirm ch _ => Some (None, (s.1, mkConfirms ({[ch]} ∪ confirmed s.2) (lines s.2)))
      | e => match exec_amqp e s.1 with Some (x, s1) => Some (x, (s1, s.2)) | None => None end
      end
  | e => match pub_exec _ e s.1 with Some (x, s1) => Some (x, (s1, s.2)) | None => None end
  end.

Lemma confirm_exec_sem X (e : publisherE X) s x s' :
  confirm_exec X e s = Some (x, s') -> confirm_sem X e s x s'.
Proof.
  assert (Hsame : forall r, (forall x1 s1, r = Some (x1, s1) -> pub_exec X e s.1 = Some (x1, s1)) ->
    (forall x1, step_confirm e s.2 x1 s.2) ->
    match r with Some (x1, s1) => Some (x1, (s1, s.2)) | None => None end = Some (x, s') ->
    confirm_sem X e s x s').
  { intros [[x1 s1]|] Hr Hc [= -> <-]. split; [|apply Hc]. by apply pub_exec_sem, Hr. }
  destruct e as [[[[[e|e]|e]|e]|e]|e]; try (apply (Hsame (pub_exec _ _ _)); done).
  - destruct e; try (apply (Hsame (exec_pub _ _)); done); simpl.
    + intros [= <- <-]. split; [done|]. split; [|done]. apply not_elem_of_dom, is_fresh.
    + case_match; [|done]. case_match; [done|]. by intros [= <- <-].
    + case_match; [|done]. case_match; [|done]. by intros [= <- <-].
  - destruct e; try (apply (Hsame (exec_amqp _ _)); done); simpl. by intros [= <- <-].
Qed.

(** Executes a schedule against this environment. *)
Definition confirm_run (sched : list nat) (ts : list (prog publisherE unit))
  : option (list (prog publisherE unit) * (pstate * confirms)) :=
  schedule (fun _ => confirm_exec) sched (ts, (initial, no_confirms)).

Definition confirm_ran (sched : list nat) (ts : list (prog publisherE unit))
  : list (prog publisherE unit) * (pstate * confirms) :=
  default ([], (initial, no_confirms)) (confirm_run sched ts).

Lemma confirm_ran_reachable sched ts :
  match confirm_run sched ts with Some _ => true | None => false end = true ->
  reachable confirm_sem (ts, (initial, no_confirms))
    ((confirm_ran sched ts).1, ((confirm_ran sched ts).2.1, (confirm_ran sched ts).2.2)).
Proof.
  unfold confirm_ran. destruct (confirm_run sched ts) as [[ts' [s c]]|] eqn:Hc; [|done]. intros _.
  eapply (schedule_reachable confirm_sem); [|exact Hc]. intros n. apply confirm_exec_sem.
Qed.

(** Goroutine 3 has enabled confirms on the channel with which goroutine 0 warmed the pool;
    goroutine 0 has borrowed it again and is about to publish. *)
Definition about_to_publish : list (prog publisherE unit) * (pstate * confirms) :=
  confirm_ran (repeat 0%nat 24 ++ repeat 2%nat 2 ++ repeat 0%nat 4 ++ repeat 3%nat 2 ++ repeat 0%nat 18)
    [application (pool_config 1) two_publishers].

Lemma about_to_publish_reachable :
  reachable confirm_sem ([application (pool_config 1) two_publishers], (initial, no_confirms))
    (about_to_publish.1, (about_to_publish.2.1, about_to_publish.2.2)).
Proof. apply confirm_ran_reachable. vm_compute. reflexivity. Qed.

Lemma channels_confirmed_witness :
  map publishing_on about_to_publish.1 = [Some 1%nat; None; None; None; None; None] /\
  1%nat ∈ confirmed about_to_publish.2.2.
Proof.
  split; [vm_compute; reflexivity|].
  apply (proj2 (channels_confirmed (pool_config 1) two_publishers about_to_publish.1 about_to_publish.2.1
    about_to_publish.2.2 two_publishers_client about_to_publish_reachable) 0%nat
    (default (Ret tt) (about_to_publish.1 !! 0%nat))).
  - apply lookup_default. vm_compute. reflexivity.
  - vm_compute. reflexivity.
Defined.
