(* ===== verification/ConnMachine.v ===== *)
(** * ConnMachine: the connection of a publisher, shared by Close and the reconnecting goroutine.

    The closed flag, the closing of closeChan, connMu and the connection have their Go meaning;
    everything else answers as it likes. *)
From S2P Require Import Prelude AmqpData Errors Prog Machine Config Amqp Topology Instr Dial Script Pool Publisher PoolClient PubScript.
Import Pool.Publisher.
Local Open Scope Z_scope.

(** ** State and semantics *)

Record cstate : Type := mkC {
  closed : bool;               (* the publisher's closed flag *)
  chan_closed : bool;          (* closeChan *)
  c_readers : nat;             (* connMu *)
  c_writer : bool;
  stored : option conn;        (* the publisher's connection *)
  reconnecting : bool;
  live : gset conn;            (* dialled and not closed *)
  dialled : gset conn
}.

Definition set_closed (s : cstate) b :=
  mkC b (chan_closed s) (c_readers s) (c_writer s) (stored s) (reconnecting s) (live s) (dialled s).
Definition set_chan_closed (s : cstate) :=
  mkC (closed s) true (c_readers s) (c_writer s) (stored s) (reconnecting s) (live s) (dialled s).
Definition set_mu (s : cstate) r w :=
  mkC (closed s) (chan_closed s) r w (stored s) (reconnecting s) (live s) (dialled s).
Definition set_stored (s : cstate) c :=
  mkC (closed s) (chan_closed s) (c_readers s) (c_writer s) (Some c) (reconnecting s) (live s) (dialled s).
Definition set_reconnecting (s : cstate) b :=
  mkC (closed s) (chan_closed s) (c_readers s) (c_writer s) (stored s) b (live s) (dialled s).
Definition set_live (s : cstate) l d :=
  mkC (closed s) (chan_closed s) (c_readers s) (c_writer s) (stored s) (reconnecting s) l d.

(** Closing a Go channel twice panics: there is no second closing of closeChan. *)
Definition conn_pub {X} (e : pubE X) : cstate -> X -> cstate -> Prop :=
  match e with
  | ClosedLoad => fun s b s' => b = closed s /\ s' = s
  | ClosedCompareAndSwap old new => fun s b s' =>
      if (b : bool) then closed s = old /\ s' = set_closed s new else closed s <> old /\ s' = s
  | CloseChanClose => fun s _ s' => chan_closed s = false /\ s' = set_chan_closed s
  | CloseChanPoll => fun s b s' => b = chan_closed s /\ s' = s
  | CloseChanOrTimer _ => fun s b s' => (b = true -> chan_closed s = true) /\ s' = s
  | CloseChanOrNotify _ => fun s ev s' => (ev = LostClosed -> chan_closed s = true) /\ s' = s
  | PConnMuLock => fun s _ s' => c_readers s = O /\ c_writer s = false /\ s' = set_mu s O true
  | PConnMuUnlock => fun s _ s' => c_writer s = true /\ s' = set_mu s (c_readers s) false
  | PConnMuRLock => fun s _ s' => c_writer s = false /\ s' = set_mu s (Datatypes.S (c_readers s)) false
  | PConnMuRUnlock => fun s _ s' =>
      exists r, c_readers s = Datatypes.S r /\ s' = set_mu s r (c_writer s)
  | PLoadConnection => fun s c s' => c = stored s /\ s' = s
  | PStoreConnection c => fun s _ s' => s' = set_stored s c
  | PReconnectingCompareAndSwap old new => fun s b s' =>
      if (b : bool) then reconnecting s = old /\ s' = set_reconnecting s new
      else reconnecting s <> old /\ s' = s
  | PReconnectingStore b => fun s _ s' => s' = set_reconnecting s b
  | _ => fun s _ s' => s' = s
  end.

Definition conn_amqp {X} (e : amqpE X) : cstate -> X -> cstate -> Prop :=
  match e with
  | ConnClose c => fun s _ s' => s' = set_live s (live s ∖ {[c]}) (dialled s)
  | _ => fun s _ s' => s' = s
  end.

Definition conn_dial {X} (e : dialE X) : cstate -> X -> cstate -> Prop :=
  match e with
  | ResultOrTimeout _ _ => fun s res s' =>
      match res with
      | Some (Ok c) => (c ∉ dialled s) /\ s' = set_live s ({[c]} ∪ live s) ({[c]} ∪ dialled s)
      | _ => s' = s
      end
  | _ => fun s _ s' => s' = s
  end.

Definition conn_sem : semantics publisherE cstate := fun X e =>
  match e with
  | inl1 (inl1 (inl1 (inl1 (inl1 e)))) => conn_pub e
  | inl1 (inl1 (inl1 (inl1 (inr1 e)))) => conn_amqp e
  | inr1 e => conn_dial e
  | _ => fun s _ s' => s' = s
  end.

(** ** closeChan is closed once *)

(** The permission to close closeChan, which the successful compare-and-swap of closed grants. *)
Definition closing_pub {X} (e : pubE X) (g : bool) : (X -> bool -> Prop) -> Prop :=
  match e with
  | ClosedCompareAndSwap old new => fun Q => old = false /\ new = true /\ g = false /\ Q true true /\ Q false false
  | CloseChanClose => fun Q => g = true /\ Q tt false
  | _ => fun Q => forall x, Q x g
  end.

Definition closing_op (X : Type) (e : publisherE X) (g : bool) (Q : X -> bool -> Prop) : Prop :=
  match e with
  | inl1 (inl1 (inl1 (inl1 (inl1 e)))) => closing_pub e g Q
  | _ => forall x, Q x g
  end.

Lemma closing_op_mono X (e : publisherE X) g (Q Q' : X -> bool -> Prop) :
  (forall x g', Q x g' -> Q' x g') -> closing_op X e g Q -> closing_op X e g Q'.
Proof.
  intros HQ. destruct e as [[[[[e|e]|e]|e]|e]|e]; simpl; [|naive_solver..].
  revert Q Q' HQ. destruct e; simpl; naive_solver.
Qed.

Definition closing_logic : logic publisherE bool := {|
  op := closing_op;
  op_mono := closing_op_mono;
  fork := fun g gp gc => gp = g /\ gc = false;
  turn := fun _ => True;
  fin := fun g => g = false
|}.

(** At most one goroutine may close the channel, and only while it is open; nobody may before
    the flag is set. *)
Definition closing_inv (s : cstate) (gs : list bool) : Prop :=
  (count id gs + Nat.b2n (chan_closed s) = Nat.b2n (closed s))%nat.

Lemma closing_inv_op s gs (i : nat) g X (e : publisherE X) Q x s' :
  closing_inv s gs -> gs !! i = Some g -> closing_op X e g Q -> conn_sem X e s x s' ->
  exists g', Q x g' /\ closing_inv s' (<[i := g']> gs).
Proof.
  unfold closing_inv. intros Hinv Hi Hop Hsem.
  assert (Hsame : chan_closed s' = chan_closed s -> closed s' = closed s -> Q x g ->
    exists g', Q x g' /\ (count id (<[i := g']> gs) + Nat.b2n (chan_closed s') = Nat.b2n (closed s'))%nat).
  { intros -> -> HQ. exists g. by rewrite list_insert_id. }
  destruct e as [[[[[e|e]|e]|e]|e]|e]; simpl in Hop, Hsem;
    [|destruct e; simpl in Hsem; try case_match; destruct_and?; subst; by apply Hsame
     |subst; by apply Hsame..
     |destruct e; simpl in Hsem; repeat case_match; destruct_and?; subst; by apply Hsame].
  destruct e; simpl in Hop, Hsem;
    try (repeat case_match; destruct_and?; subst; first [by apply Hsame | by apply Hsame, Hop]).
  - (* ClosedCompareAndSwap *)
    destruct Hop as (-> & -> & -> & Ht & Hf). destruct x; destruct Hsem as [Hc ->].
    + exists true. split; [done|]. pose proof (count_insert id gs i false true Hi) as Hn. simpl in *.
      rewrite Hc in Hinv. simpl in Hinv. lia.
    + apply Hsame; done.
  - (* CloseChanClose *)
    destruct Hop as [-> HQ]. destruct Hsem as [Hc ->]. destruct x. exists false. split; [done|].
    pose proof (count_insert id gs i true false Hi) as Hn. simpl in *. rewrite Hc in Hinv. simpl in Hinv. lia.
  - (* PConnMuRUnlock *) destruct Hsem as (r & _ & ->). by apply Hsame.
Qed.

Lemma closing_inv_fork s gs (i : nat) g gp gc :
  closing_inv s gs -> gs !! i = Some g -> fork closing_logic g gp gc ->
  closing_inv s (<[i := gp]> gs ++ [gc]).
Proof.
  unfold closing_inv. intros Hinv Hi [-> ->]. rewrite list_insert_id by done.
  rewrite count_app. unfold count at 2. simpl. lia.
Qed.

(** Everything but Close leaves the flag and the channel alone. *)
Definition not_closing (X : Type) (e : publisherE X) : Prop :=
  match e with
  | inl1 (inl1 (inl1 (inl1 (inl1 e)))) =>
      match e with
      | ClosedCompareAndSwap _ _ | CloseChanClose => False
      | _ => True
      end
  | _ => True
  end.

Lemma closing_keeps {A} (p : prog publisherE A) :
  everywhere not_closing p -> keeps_from closing_logic (fun _ => True) p.
Proof.
  intros Hp g Q Hg HQ. refine (everywhere_keeps not_closing closing_logic (fun _ => True) false p _ _ _ I _ Hp g Q Hg HQ);
    [|done..].
  intros X e g1 Q1 _ He HQ1. destruct e as [[[[[e|]|]|]|]|]; try exact HQ1. destruct e; done.
Qed.

Lemma borrowChannel_scan p : everywhere not_closing (borrowChannel p).
Proof.
  unfold borrowChannel, newChannelOrError, createPooledChannel, createConfirmChannel, enableConfirms,
    channelOpener, confirmEnabler. scan.
Qed.

Lemma returnPooled_scan p pch : everywhere not_closing (returnPooled p pch).
Proof. unfold returnPooled, discard. scan. Qed.

Lemma warmChannelPool_scan p : everywhere not_closing (warmChannelPool p).
Proof.
  unfold warmChannelPool, warm_round, createPooledChannel, createConfirmChannel, enableConfirms,
    channelOpener, confirmEnabler. scan.
Qed.

Lemma drainPool_scan pool : everywhere not_closing (drainPool pool).
Proof. unfold drainPool, drain_round, discard. scan. Qed.
#[export] Hint Resolve borrowChannel_scan returnPooled_scan warmChannelPool_scan drainPool_scan : scan.

Lemma pconnect_scan p : everywhere not_closing (pconnect p).
Proof.
  unfold pconnect, establishConnection, establishLocked, Dial, dialProperties, dialer, DeclareExchange.
  scan.
Qed.
#[export] Hint Resolve pconnect_scan : scan.

Lemma pwatchConnection_scan p : everywhere not_closing (pwatchConnection p).
Proof. unfold pwatchConnection, pwatch_round, preconnect, preconnect_round, drainChannelPool, sleepOrClosed. scan. Qed.
#[export] Hint Resolve pwatchConnection_scan : scan.

Lemma NewPublisher_scan config : everywhere not_closing (NewPublisher config).
Proof. unfold NewPublisher. scan. Qed.

Lemma PublishMessage_scan p ctx msg : everywhere not_closing (PublishMessage_ p ctx msg).
Proof. unfold PublishMessage_, publish, publishMandatory, publishOnChannel, discard. scan. Qed.

Lemma GetChannel_scan p : everywhere not_closing (GetChannel p).
Proof. unfold GetChannel. scan. Qed.

Lemma ReturnChannel_scan p ch : everywhere not_closing (ReturnChannel p ch).
Proof. unfold ReturnChannel. scan. Qed.
#[export] Hint Resolve GetChannel_scan ReturnChannel_scan : scan.

Lemma DeclareQueueTopology_scan p q key : everywhere not_closing (DeclareQueueTopology p q key).
Proof. unfold DeclareQueueTopology, declareQueueTopology, declareQueue. scan. Qed.

Lemma shutdown_rest_scan :
  everywhere not_closing
    (trigger PConnMuLock ;;;
     drainChannelPool ;;;
     let! conn := trigger PLoadConnection in
     match conn with
     | Some conn =>
         trigger (ConnClose conn) ;;;
         log_info Background "RabbitMQ publisher connection closed" []
     | None => Ret tt
     end ;;;
     trigger PConnMuUnlock)%go.
Proof. unfold drainChannelPool. scan. Qed.

Lemma PublisherClose_closing p : keeps_from closing_logic (fun g => g = false) (PublisherClose p).
Proof.
  intros g Q -> HQ. apply cwp_op. do 3 (split; [done|]). split; [|apply HQ].
  apply cwp_op. split; [done|]. apply (closing_keeps _ shutdown_rest_scan); [done|]. apply HQ.
Qed.

(** ** Applications *)

Abbreviation no_permission := (fun g : bool => g = false).

Lemma call_closing {A B} (code : prog publisherE A) (k : A -> prog publisherE B) :
  everywhere not_closing code -> (forall a, keeps_from closing_logic no_permission (k a)) ->
  keeps_from closing_logic no_permission (bind code k).
Proof. intros Hc Hk g Q Hg HQ. apply cwp_bind, closing_keeps; [done..|]. intros a. by apply Hk. Qed.

Lemma client_closing p A held (code : prog publisherE A) h :
  client p held code h -> keeps_from closing_logic no_permission code.
Proof.
  induction 1 as [A a h|A ctx msg k held h _ IH|A q key k held h _ IH|A k held h _ IH
    |A k held h _ IHe _ IH|A ch k held held' h Hp _ IH|A X e ch k held h Hu Hc Hn _ IH|A X e k held h _ IH
    |A L R body l k inv left_ h _ IHb _ IHk|A child k held h _ IHc _ IH].
  - apply keeps_ret.
  - apply call_closing; [apply PublishMessage_scan|exact IH].
  - apply call_closing; [apply DeclareQueueTopology_scan|exact IH].
  - apply keeps_bind; [apply PublisherClose_closing|]. intros []. exact IH.
  - apply call_closing; [apply GetChannel_scan|]. intros [ch|err]; [apply IH|apply IHe].
  - apply call_closing; [apply ReturnChannel_scan|]. intros []. exact IH.
  - apply call_closing; [done|exact IH].
  - apply call_closing; [done|exact IH].
  - intros g Q -> HQ. exists (fun _ g' => g' = false). split; [done|].
    intros l1 g1 ->. split; [done|]. apply IHb; [done|]. intros [l2|b]; [done|]. by apply IHk.
  - intros g Q -> HQ. exists false, false. split; [done|]. split; [by apply IHc|by apply IH].
Qed.

(** The publisher before the application starts. *)
Definition unconnected : cstate := mkC false false O false None false ∅ ∅.

Definition closing_now (t : prog publisherE unit) : bool :=
  match t with
  | Vis (inl1 (inl1 (inl1 (inl1 (inl1 CloseChanClose))))) _ => true
  | _ => false
  end.

(** C22: The channel closeChan is closed at most once.  However many goroutines call Close, and whatever else
    they do, at most one of them gets to close the channel, at a time when it is still open,
    and only after the closed flag was set: closing does not panic. *)
Theorem close_once config main ts s i t :
  (forall p, client p [] (main p) (fun _ => [])) ->
  reachable conn_sem ([application config main], unconnected) (ts, s) ->
  ts !! i = Some t -> closing_now t = true ->
  chan_closed s = false /\ closed s = true /\
  forall j t', ts !! j = Some t' -> closing_now t' = true -> j = i.
Proof.
  intros Hmain Hr Hi Hc.
  destruct (adequacy conn_sem closing_logic closing_inv closing_inv_op closing_inv_fork _ _ _ _ [false] Hr)
    as (gs & Hok & Hinv); [|done|].
  - constructor; [|constructor].
    enough (keeps_from closing_logic no_permission (application config main)) as Hk by by apply Hk.
    apply call_closing; [apply NewPublisher_scan|]. intros [p|err]; [|apply keeps_ret].
    by eapply client_closing.
  - assert (Hperm : forall j t', ts !! j = Some t' -> closing_now t' = true -> gs !! j = Some true).
    { intros j t' Hj Hc'. destruct (Forall2_lookup_l _ _ _ _ _ Hok Hj) as (g & Hg & Hwp).
      destruct t' as [|X e k| |]; try done. destruct e as [[[[[e|]|]|]|]|]; try done.
      destruct e; try done. simpl in Hwp. destruct Hwp as [-> _]. exact Hg. }
    pose proof (Hperm _ _ Hi Hc) as Hg. pose proof (count_pos id gs i true Hg eq_refl) as Hpos.
    unfold closing_inv in Hinv. split_and!.
    + destruct (chan_closed s), (closed s); simpl in Hinv; [lia..|done|done].
    + destruct (closed s); [done|simpl in Hinv; lia].
    + intros j t' Hj Hc'. destruct (decide (j = i)) as [|Hne]; [done|exfalso].
      pose proof (Hperm _ _ Hj Hc') as Hg'.
      pose proof (count_insert id gs i true false Hg) as Hn. simpl in Hn.
      assert (<[i := false]> gs !! j = Some true) as Hj' by by rewrite list_lookup_insert_ne.
      pose proof (count_pos id _ j true Hj' eq_refl). destruct (closed s); simpl in Hinv; lia.
Qed.

(** ** Concrete interleavings *)

(** The machine, executed: [nth] answers the selects that the state leaves open. *)
Definition exec_cpub (lost : bool) {X} (e : pubE X) (s : cstate) : option (X * cstate) :=
  match e in pubE X return option (X * cstate) with
  | ClosedLoad => Some (closed s, s)
  | ClosedCompareAndSwap old new =>
      if Bool.eqb (closed s) old then Some (true, set_closed s new) else Some (false, s)
  | CloseChanClose => if chan_closed s then None else Some (tt, set_chan_closed s)
  | CloseChanPoll => Some (chan_closed s, s)
  | CloseChanOrTimer _ => Some (false, s)
  | CloseChanOrNotify _ =>
      if lost then Some (LostNotified (Some (EAmqp 320 "CONNECTION_FORCED")), s)
      else if chan_closed s then Some (LostClosed, s) else None
  | PConnMuLock => if Nat.eqb (c_readers s) 0 && negb (c_writer s) then Some (tt, set_mu s O true) else None
  | PConnMuUnlock => if c_writer s then Some (tt, set_mu s (c_readers s) false) else None
  | PConnMuRLock => if c_writer s then None else Some (tt, set_mu s (Datatypes.S (c_readers s)) false)
  | PConnMuRUnlock =>
      match c_readers s with
      | Datatypes.S r => Some (tt, set_mu s r (c_writer s))
      | O => None
      end
  | PLoadConnection => Some (stored s, s)
  | PStoreConnection c => Some (tt, set_stored s c)
  | PReconnectingCompareAndSwap old new =>
      if Bool.eqb (reconnecting s) old then Some (true, set_reconnecting s new) else Some (false, s)
  | PReconnectingStore b => Some (tt, set_reconnecting s b)
  | e => Some (good_pub e, s)
  end.

Definition exec_cdial {X} (e : dialE X) (s : cstate) : option (X * cstate) :=
  match e in dialE X return option (X * cstate) with
  | ResultOrTimeout _ _ =>
      let c := fresh (dialled s) in
      Some (Some (Ok c), set_live s ({[c]} ∪ live s) ({[c]} ∪ dialled s))
  | e => Some (good_dial e, s)
  end.

Definition conn_exec (lost : bool) : handler publisherE cstate := fun X e s =>
  match e with
  | inl1 (inl1 (inl1 (inl1 (inl1 e)))) => exec_cpub lost e s
  | inl1 (inl1 (inl1 (inl1 (inr1 e)))) =>
      match e in amqpE X return option (X * cstate) with
      | ConnClose c => Some (tt, set_live s (live s ∖ {[c]}) (dialled s))
      | e => Some (good_amqp e, s)
      end
  | inr1 e => exec_cdial e s
  | e => Some (pub_script as_usual as_usual X e [], s)
  end.

Lemma conn_exec_sem lost X (e : publisherE X) s x s' :
  conn_exec lost X e s = Some (x, s') -> conn_sem X e s x s'.
Proof.
  destruct e as [[[[[e|e]|e]|e]|e]|e]; simpl; [| |by intros [= _ <-]..|].
  - destruct e; simpl; intros H; repeat case_match; simplify_eq; simpl; eauto.
    all: try match goal with H : Bool.eqb _ _ = true |- _ => by apply Bool.eqb_prop in H end.
    all: try match goal with H : Bool.eqb _ _ = false |- _ => apply Bool.eqb_false_iff in H; by split end.
    all: try (by split). all: match goal with H : _ && _ = true |- _ => by apply andb_prop in H as [?%Nat.eqb_eq ?%negb_true_iff] end.
  - destruct e; simpl; intros H; by simplify_eq.
  - destruct e; simpl; intros H; simplify_eq; simpl; eauto. split; [apply is_fresh|done].
Qed.

(** A schedule; the connection is lost until [stop] steps are left. *)
Definition conn_run (stop : nat) (sched : list nat) (c : list (prog publisherE unit) * cstate)
  : option (list (prog publisherE unit) * cstate) :=
  schedule (fun n => conn_exec (Nat.ltb stop n)) sched c.

Definition conn_ran (stop : nat) (sched : list nat) (c : list (prog publisherE unit) * cstate) :=
  default ([], unconnected) (conn_run stop sched c).

Lemma conn_ran_reachable stop sched c :
  match conn_run stop sched c with Some _ => true | None => false end = true ->
  reachable conn_sem c (conn_ran stop sched c).
Proof.
  unfold conn_ran. destruct (conn_run stop sched c) as [c'|] eqn:Hc; [|done]. intros _.
  eapply (schedule_reachable conn_sem); [|exact Hc]. intros n. apply conn_exec_sem.
Qed.

(** An application whose main goroutine is about to close the channel. *)
Definition about_to_close : list (prog publisherE unit) * cstate :=
  conn_ran 100 (repeat 0%nat 68) ([application (pool_config 1) two_publishers], unconnected).

Lemma about_to_close_reachable :
  reachable conn_sem ([application (pool_config 1) two_publishers], unconnected)
    (about_to_close.1, about_to_close.2).
Proof. rewrite <- surjective_pairing. apply conn_ran_reachable. vm_compute. reflexivity. Qed.

Lemma close_once_witness :
  chan_closed about_to_close.2 = false /\ closed about_to_close.2 = true /\
  forall j t', about_to_close.1 !! j = Some t' -> closing_now t' = true -> j = O.
Proof.
  apply (close_once (pool_config 1) two_publishers about_to_close.1 about_to_close.2 O
    (default (Ret tt) (about_to_close.1 !! O)) two_publishers_client about_to_close_reachable).
  - apply lookup_default. vm_compute. reflexivity.
  - vm_compute. reflexivity.
Defined.

(** A publisher that is connected by connection 0. *)
Definition connected : cstate := mkC false false O false (Some O) false {[O]} {[O]}.

Definition watched_publisher : Publisher.t := publisherOf (normalize (pool_config 1)).

(** The connection is lost; the watcher waits out its first pause; Close runs to its end; the
    watcher dials again. *)
Definition close_while_reconnecting : list nat :=
  repeat 0%nat 18 ++ repeat 1%nat 12 ++ repeat 0%nat 42 ++ repeat 2%nat 2 ++ repeat 3%nat 3 ++ repeat 4%nat 2.

(** C23: A reconnect can outlive Close.  There is an interleaving of the watching goroutine with a
    Close of the same publisher, after which every goroutine has ended, the publisher is closed,
    and yet the connection that was dialled last is stored in it and still open: nothing will
    ever close it. *)
Theorem reconnect_after_Close_leaks :
  exists ts s,
    reachable conn_sem ([pwatchConnection watched_publisher; PublisherClose watched_publisher], connected)
      (ts, s) /\
    Forall (fun t => match t with Ret _ => True | _ => False end) ts /\
    closed s = true /\ stored s = Some 1%nat /\ live s = {[1%nat]}.
Proof.
  set (c := conn_ran 0 close_while_reconnecting
    ([pwatchConnection watched_publisher; PublisherClose watched_publisher], connected)).
  exists c.1, c.2. split_and!.
  - rewrite <- surjective_pairing. apply conn_ran_reachable. vm_compute. reflexivity.
  - vm_compute. repeat constructor.
  - vm_compute. reflexivity.
  - vm_compute. reflexivity.
  - vm_compute. reflexivity.
Qed.
