(* ===== verification/PoolAge.v ===== *)
(** * PoolAge: which channels the pool hands out, and how old they are. *)
From S2P Require Import Prelude AmqpData Errors Prog Config Amqp Instr Dial Script Pool Publisher PubScript.
Import Pool.Publisher.
Local Open Scope list_scope.
Local Open Scope Z_scope.

(** ** Observations *)

Inductive bact : Type :=
| BRecv (pch : option pooledChannel)
| BSend (pch : pooledChannel) (stored : bool)
| BIsClosed (ch : channel) (closed : bool)
| BClose (ch : channel)
| BNow (now : Z)
| BOpened (res : option (result channel))       (* [None]: the opening timed out *)
| BConfirm (res : option (option error))         (* [None]: enabling confirms timed out *)
| BStore (ch : channel) (createdAt : Z)
| BLoad (ch : channel) (meta : option Z)
| BForget (ch : option channel).

Definition bact_pub {X} (e : pubE X) : X -> list bact :=
  match e with
  | PoolTryRecv _ => fun pch => [BRecv pch]
  | PoolTrySend _ pch => fun stored => [BSend pch stored]
  | ResultRecvOrTimer _ _ => fun res => [BOpened res]
  | ConfirmRecvOrTimer _ _ => fun res => [BConfirm res]
  | MetaStore ch t => fun _ => [BStore ch t]
  | MetaLoad ch => fun meta => [BLoad ch meta]
  | MetaDelete ch => fun _ => [BForget ch]
  | _ => fun _ => []
  end.

Definition bact_amqp {X} (e : amqpE X) : X -> list bact :=
  match e with
  | ChIsClosed ch => fun closed => [BIsClosed ch closed]
  | ChClose ch => fun _ => [BClose ch]
  | _ => fun _ => []
  end.

Definition bacts (X : Type) (e : publisherE X) : X -> list bact :=
  match e with
  | inl1 (inl1 (inl1 (inr1 s))) => match s with TimeNow => fun now => [BNow now] | _ => fun _ => [] end
  | inl1 (inl1 (inl1 (inl1 (inr1 a)))) => bact_amqp a
  | inl1 (inl1 (inl1 (inl1 (inl1 p)))) => bact_pub p
  | _ => fun _ => []
  end.

(** ** Specification *)

(** Creating a channel: one that cannot confirm is closed again. *)
Inductive created : list bact -> option pooledChannel -> Prop :=
| created_down : created [] None
| created_refused res :
    match res with Some (Ok _) => False | _ => True end -> created [BOpened res] None
| created_unconfirmed ch res :
    res <> Some None -> created [BOpened (Some (Ok ch)); BConfirm res; BClose ch] None
| created_ready ch now :
    created [BOpened (Some (Ok ch)); BConfirm (Some None); BNow now] (Some (mkPooled ch now)).

(** Why a pooled channel is not handed out: it is closed, or too old. *)
Inductive stale (max : Z) (pch : pooledChannel) : list bact -> Prop :=
| stale_closed : stale max pch [BIsClosed (pch_ch pch) true]
| stale_old now :
    time_sub now (pch_createdAt pch) > max ->
    stale max pch [BIsClosed (pch_ch pch) false; BNow now].

Definition handed (r : option pooledChannel) (res : result pooledChannel) : Prop :=
  match r with
  | Some pch => res = Ok pch
  | None => exists err, res = Err err
  end.

(** Borrowing: a pooled channel that is open and young enough, or a new one; a stale one is
    closed and forgotten. *)
Inductive borrowed (max : Z) : list bact -> result pooledChannel -> Prop :=
| borrowed_closed err : borrowed max [] (Err err)
| borrowed_new pre log r res :
    pre = [] \/ pre = [BRecv None] -> created log r -> handed r res -> borrowed max (pre ++ log) res
| borrowed_pooled pch now :
    time_sub now (pch_createdAt pch) <= max ->
    borrowed max [BRecv (Some pch); BIsClosed (pch_ch pch) false; BNow now] (Ok pch)
| borrowed_instead pch why log r res :
    stale max pch why -> created log r -> handed r res ->
    borrowed max (BRecv (Some pch) :: why ++ [BClose (pch_ch pch); BForget (Some (pch_ch pch))] ++ log) res.

Section age.
Context (p : Publisher.t) (env : environment publisherE).

Lemma createPooledChannel_wp t :
  wp (traced env) (createPooledChannel p) t (fun r t' =>
    since t t' (fun l => created (observed bacts l) r)).
Proof.
  unfold createPooledChannel, createConfirmChannel, enableConfirms.
  wp_all; [destruct x0; wp_all|]; observe; by constructor.
Qed.

Lemma newChannelOrError_wp t :
  wp (traced env) (newChannelOrError p) t (fun res t' =>
    since t t' (fun l => exists r, created (observed bacts l) r /\ handed r res)).
Proof.
  unfold newChannelOrError. eapply wp_seq; [apply createPooledChannel_wp|].
  intros r t1 (l & -> & Hl). wp_all; observe; (eexists; split; [exact Hl|]); simpl; eauto.
Qed.

Lemma borrowChannel_wp t :
  wp (traced env) (borrowChannel p) t (fun res t' =>
    since t t' (fun l => borrowed (Config.MaxChannelAge (cfg p)) (observed bacts l) res)).
Proof.
  unfold borrowChannel. wp_step. destruct x; [wp_all; observe; constructor|].
  do 2 wp_step. destruct x0 as [pool|].
  2: { wp_step. eapply wp_spec; [apply newChannelOrError_wp|]. intros res t1 (l & -> & r & Hl & Hr).
       observe. by eapply (borrowed_new _ []); [left| |]. }
  do 2 wp_step. destruct x0 as [pch|].
  2: { eapply wp_spec; [apply newChannelOrError_wp|]. intros res t1 (l & -> & r & Hl & Hr).
       observe. by eapply (borrowed_new _ [BRecv None]); [right| |]. }
  wp_step. destruct x0.
  - wp_all. eapply wp_spec; [apply newChannelOrError_wp|]. intros res t1 (l & -> & r & Hl & Hr).
    observe. by eapply (borrowed_instead _ pch [BIsClosed (pch_ch pch) true]); [constructor| |].
  - do 3 wp_step. case_bool_decide as Hold.
    + wp_all. eapply wp_spec; [apply newChannelOrError_wp|]. intros res t1 (l & -> & r & Hl & Hr).
      observe. by eapply (borrowed_instead _ pch [BIsClosed (pch_ch pch) false; BNow _]); [constructor| |].
    + wp_all. observe. constructor. lia.
Qed.

(** C20: A borrowed channel is open and fresh.  It was taken from the pool, found open, and was at
    most MaxChannelAge old, or it was opened by this call, was reported by the goroutine that
    enables confirms as ready, and carries the time of its creation; and every other channel
    that the call came across was closed.  (That the report is the broker's answer for this
    channel is [PoolConfirm.channels_confirmed].) *)
Theorem borrowed_fresh res t :
  runs (traced env) (borrowChannel p) [] res t ->
  (forall pch, res = Ok pch ->
     In (BRecv (Some pch)) (observed bacts t) /\ In (BIsClosed (pch_ch pch) false) (observed bacts t) /\
       (exists now, In (BNow now) (observed bacts t) /\
          time_sub now (pch_createdAt pch) <= Config.MaxChannelAge (cfg p)) \/
     In (BOpened (Some (Ok (pch_ch pch)))) (observed bacts t) /\
       In (BConfirm (Some None)) (observed bacts t) /\ In (BNow (pch_createdAt pch)) (observed bacts t)) /\
  (forall ch, In (BOpened (Some (Ok ch))) (observed bacts t) \/
       (exists pch, In (BRecv (Some pch)) (observed bacts t) /\ pch_ch pch = ch) ->
     In (BClose ch) (observed bacts t) \/ exists pch, res = Ok pch /\ pch_ch pch = ch).
Proof.
  intros Hr. pose proof (wp_sound _ _ _ _ _ _ Hr (borrowChannel_wp [])) as (l & -> & Hl).
  rewrite app_nil_r. clear Hr. revert Hl. generalize (observed bacts l) as log. intros log Hl.
  destruct Hl as [err|pre log r res Hpre Hc Hh|pch now Hage|pch why log r res Hw Hc Hh]; simpl.
  - naive_solver.
  - destruct Hpre as [-> | ->], Hc; simpl in Hh; destruct_and?; simpl; naive_solver.
  - naive_solver.
  - destruct Hw, Hc; simpl in Hh; simpl; naive_solver.
Qed.
End age.

(** ** The age of a channel handed out through GetChannel *)

(** The entry of [ch] in channelMeta, when only this goroutine touches it. *)
Definition meta_step (ch : channel) (entry : option Z) (a : bact) : option Z :=
  match a with
  | BStore ch' createdAt => if Nat.eqb ch' ch then Some createdAt else entry
  | BForget (Some ch') => if Nat.eqb ch' ch then None else entry
  | _ => entry
  end.

Definition meta_of (ch : channel) (log : list bact) : option Z := fold_left (meta_step ch) log None.

(** channelMeta is a map: a load answers what was stored. *)
Definition meta_kept : environment publisherE := fun X e =>
  match e with
  | inl1 (inl1 (inl1 (inl1 (inl1 p)))) =>
      match p with
      | MetaLoad ch => fun x t => x = meta_of ch (observed bacts t)
      | _ => fun _ _ => True
      end
  | _ => fun _ _ => True
  end.

(** Returning a channel: it goes back into the pool, or is closed and forgotten. *)
Inductive put_back (pch : pooledChannel) : list bact -> Prop :=
| put_back_stored :
    put_back pch [BIsClosed (pch_ch pch) false; BSend pch true]
| put_back_full :
    put_back pch [BIsClosed (pch_ch pch) false; BSend pch false; BClose (pch_ch pch);
                  BForget (Some (pch_ch pch))]
| put_back_closed closed :
    put_back pch [BIsClosed (pch_ch pch) closed; BClose (pch_ch pch); BForget (Some (pch_ch pch))].

Lemma returnPooled_wp p env pch t :
  wp (traced env) (returnPooled p pch) t (fun _ t' =>
    since t t' (fun l => put_back pch (observed bacts l))).
Proof.
  unfold returnPooled, discard. cbv zeta. wp_step. destruct x; [wp_all; observe; constructor|].
  wp_step. destruct x; [wp_all; observe; constructor|]. do 2 wp_step.
  destruct x0 as [pool|]; [|wp_all; observe; constructor].
  do 2 wp_step. destruct x0; wp_all; observe; constructor.
Qed.

(** A caller of the low-level interface: it borrows a channel and returns it. *)
Definition get_and_return (p : Publisher.t) : prog publisherE (result channel) :=
  bind (GetChannel p) (fun ch =>
    match ch with
    | Ok ch => bind (ReturnChannel p (Some ch)) (fun _ => Ret (Ok ch))
    | Err err => Ret (Err err)
    end).

(** C21: The pool does not rejuvenate channels.  A channel that GetChannel handed out and
    ReturnChannel put back carries the creation time it was borrowed with, so that the limit
    MaxChannelAge counts from its creation. *)
Theorem age_preserved p ch t :
  runs (traced meta_kept) (get_and_return p) [] (Ok ch) t ->
  exists l0 createdAt rest,
    observed bacts t = l0 ++ rest /\ borrowed (Config.MaxChannelAge (cfg p)) l0 (Ok (mkPooled ch createdAt)) /\
    forall pch stored, In (BSend pch stored) (observed bacts t) -> pch = mkPooled ch createdAt.
Proof.
  intros Hr. refine (wp_sound _ _ _ _ _ (fun r t => forall ch, r = Ok ch -> exists l0 createdAt rest, _) Hr _ ch eq_refl).
  clear. unfold get_and_return, GetChannel. wp_step. eapply wp_seq; [apply borrowChannel_wp|].
  intros [[ch createdAt]|err] t1 (l & -> & Hl); [|by wp_all]. cbn [pch_ch pch_createdAt].
  rewrite app_nil_r. set (l0 := observed bacts l) in *.
  assert (Hnosend : forall pch stored, ~ In (BSend pch stored) l0).
  { intros pch stored Hin. clearbody l0.
    destruct Hl as [err|pre log r res Hpre Hc Hh|pch0 now Hage|pch0 why log r res Hw Hc Hh]; simpl in Hin;
      [done|destruct Hpre as [-> | ->], Hc|naive_solver|destruct Hw, Hc]; simpl in Hin; naive_solver. }
  do 2 wp_step. unfold ReturnChannel. do 3 wp_step. destruct x0; [wp_all|].
  - intros ch' [= <-]. exists l0, createdAt, [BStore ch createdAt; BIsClosed ch true; BForget (Some ch)].
    simpl. rewrite <- !app_assoc. split; [done|]. split; [done|].
    intros pch stored [Hin|Hin]%in_app_or; [by eapply Hnosend in Hin|]. simpl in Hin. naive_solver.
  - do 2 wp_step. intros meta t2 [Hmeta ->].
    assert (Hm : meta = Some createdAt).
    { simpl in Hmeta. rewrite Hmeta. unfold meta_of. simpl. rewrite !fold_left_app. simpl.
      by rewrite Nat.eqb_refl. }
    subst meta. simpl default. eapply wp_spec; [apply returnPooled_wp|]. intros _ t3 (l3 & -> & H3). wp_all.
    intros ch' [= <-]. exists l0, createdAt,
      ([BStore ch createdAt; BIsClosed ch false; BNow x0; BLoad ch (Some createdAt)] ++ observed bacts l3).
    rewrite observed_app. simpl. rewrite <- !app_assoc. split; [done|]. split; [done|].
    intros pch stored [Hin|Hin]%in_app_or; [by eapply Hnosend in Hin|]. simpl in Hin.
    destruct H3; simpl in Hin; naive_solver.
Qed.

(** ** Concrete runs *)

(** A pool with one channel, created at [createdAt] and found closed or not; the time is 100. *)
Definition aged (createdAt : Z) (closed : bool) (X : Type) (e : publisherE X) (t : trace publisherE) : X :=
  match e with
  | inl1 (inl1 (inl1 (inr1 s))) =>
      match s in sysE X return X with TimeNow => 100 | s => good_sys s end
  | inl1 (inl1 (inl1 (inl1 (inr1 a)))) =>
      match a in amqpE X return X with ChIsClosed _ => closed | a => good_amqp a end
  | inl1 (inl1 (inl1 (inl1 (inl1 p)))) =>
      match p in pubE X return X with
      | PoolTryRecv _ => Some (mkPooled 5 createdAt)
      | MetaLoad ch => meta_of ch (observed bacts t)
      | p => good_pub p
      end
  | e => pub_script as_usual as_usual X e t
  end.

Definition example_publisher : Publisher.t := publisherOf (normalize (pool_config 1)).

Lemma borrowed_fresh_witness :
  let t := pub_trace (aged 40 true) 0 (borrowChannel example_publisher) in
  observed bacts t = [BRecv (Some (mkPooled 5 40)); BIsClosed 5 true; BClose 5; BForget (Some 5%nat);
    BOpened (Some (Ok 1%nat)); BConfirm (Some None); BNow 100] /\
  (In (BClose 5) (observed bacts t) \/ exists pch, Ok (mkPooled 1 100) = Ok pch /\ pch_ch pch = 5%nat).
Proof.
  split; [vm_compute; reflexivity|].
  apply (borrowed_fresh example_publisher anything (Ok (mkPooled 1 100))).
  - apply (scripted_runs (aged 40 true) 0). vm_compute. reflexivity.
  - right. exists (mkPooled 5 40). split; [vm_compute; by left|reflexivity].
Defined.

Lemma aged_meta createdAt closed X (e : publisherE X) t : meta_kept X e (aged createdAt closed X e t) t.
Proof. destruct e as [[[[[[]|]|]|]|]|]; done. Qed.

Lemma age_preserved_witness :
  observed bacts (pub_trace (aged 40 false) 0 (get_and_return example_publisher)) =
    [BRecv (Some (mkPooled 5 40)); BIsClosed 5 false; BNow 100; BStore 5 40; BIsClosed 5 false; BNow 100;
     BLoad 5 (Some 40); BIsClosed 5 false; BSend (mkPooled 5 40) true] /\
  exists l0 createdAt rest,
    observed bacts (pub_trace (aged 40 false) 0 (get_and_return example_publisher)) = l0 ++ rest /\
    borrowed (Config.MaxChannelAge (cfg example_publisher)) l0 (Ok (mkPooled 5 createdAt)) /\
    forall pch stored,
      In (BSend pch stored) (observed bacts (pub_trace (aged 40 false) 0 (get_and_return example_publisher))) ->
      pch = mkPooled 5 createdAt.
Proof.
  split; [vm_compute; reflexivity|].
  apply age_preserved. apply (scripted_runs_in _ (aged 40 false) 0); [apply aged_meta|].
  vm_compute. reflexivity.
Defined.
