(* ===== verification/Expand.v ===== *)
(** * Expand: programs up to equality of their operations, and the replacement of operations by
    programs.

    An interface of the library (its Instrumentation, its Logger) is a signature; an
    implementation of the interface is a program for each operation, and [expand] is the client
    linked with the implementation. *)
From S2P Require Import Prelude Prog Machine.

(** ** Equality of programs *)

(** [peq p q]: the same operations, loops and goroutines, whatever the answers. *)
Fixpoint peq {E A} (p q : prog E A) {struct p} : Prop :=
  match p, q with
  | Ret a, Ret b => a = b
  | @Vis _ _ X e k, @Vis _ _ Y f k' =>
      exists H : X = Y, eq_rect X E e Y H = f /\ forall x, peq (k x) (k' (eq_rect X id x Y H))
  | @Iter _ _ L R body l k, @Iter _ _ L' R' body' l' k' =>
      exists (HL : L = L') (HR : R = R'),
        eq_rect L id l L' HL = l' /\
        (forall m, peq (body m) (eq_rect_r (fun R => prog E (L + R))
                                   (eq_rect_r (fun L => prog E (L + R'))
                                      (body' (eq_rect L id m L' HL)) HL) HR)) /\
        forall r, peq (k r) (k' (eq_rect R id r R' HR))
  | Go c k, Go c' k' => peq c c' /\ peq k k'
  | _, _ => False
  end.

#[export] Instance prog_equiv E A : Equiv (prog E A) := peq.

Section peq.
Context {E : Type -> Type}.

Lemma peq_vis {A X} (e : E X) (k k' : X -> prog E A) :
  (forall x, k x ≡ k' x) -> Vis e k ≡ Vis e k'.
Proof. intros H. by exists eq_refl. Qed.

Lemma peq_iter {A L R} (body body' : L -> prog E (L + R)) l (k k' : R -> prog E A) :
  (forall l, body l ≡ body' l) -> (forall r, k r ≡ k' r) -> Iter body l k ≡ Iter body' l k'.
Proof. intros Hb Hk. by exists eq_refl, eq_refl. Qed.

Lemma peq_go {A} (c c' : prog E unit) (k k' : prog E A) : c ≡ c' -> k ≡ k' -> Go c k ≡ Go c' k'.
Proof. done. Qed.

#[export] Instance peq_equivalence A : Equivalence (≡@{prog E A}).
Proof.
  split.
  - intros p. induction p; [done|by apply peq_vis|by apply peq_iter|by apply peq_go].
  - intros p. unfold equiv, prog_equiv.
    induction p as [A a|A X e k IH|A L R body IHb l k IHk|A child IHc k IH]; intros [a'|Y f k'|L' R' body' l' k'|child' k'];
      simpl; try done.
    + intros (-> & <- & Hk). exists eq_refl. split; [done|]. intros x. by apply IH.
    + intros (-> & -> & <- & Hb & Hk). exists eq_refl, eq_refl. split_and!; [done|intros m; by apply IHb|].
      intros r. by apply IHk.
    + intros [Hc Hk]. auto.
  - intros p. unfold equiv, prog_equiv.
    induction p as [A a|A X e k IH|A L R body IHb l k IHk|A child IHc k IH];
      intros [a'|Y f k'|L' R' body' l' k'|child' k'] [a2|Z g k2|L2 R2 body2 l2 k2|child2 k2]; simpl; try done.
    + by intros -> ->.
    + intros (-> & <- & Hk) (-> & <- & Hk2). exists eq_refl. split; [done|]. simpl in *. eauto.
    + intros (-> & -> & <- & Hb & Hk) (-> & -> & <- & Hb2 & Hk2). exists eq_refl, eq_refl. split_and!; [done|..].
      * intros m. by eapply IHb; [apply Hb|apply Hb2].
      * intros r. by eapply IHk; [apply Hk|apply Hk2].
    + intros [Hc Hk] [Hc2 Hk2]. eauto.
Qed.

#[export] Instance bind_proper A B :
  Proper ((≡@{prog E A}) ==> pointwise_relation A (≡@{prog E B}) ==> (≡)) bind.
Proof.
  intros p. unfold equiv at 1, prog_equiv.
  induction p as [A a|A X e k IH|A L R body IHb l k IHk|A child IHc k IH];
    intros [a'|Y f' k'|L' R' body' l' k'|child' k'] Hpq f g Hfg; simpl in Hpq; try done.
  - subst. apply Hfg.
  - destruct Hpq as (-> & <- & Hk). apply peq_vis. intros x. by apply IH; [apply Hk|].
  - destruct Hpq as (-> & -> & <- & Hb & Hk). apply peq_iter; [exact Hb|]. intros r. by apply IHk; [apply Hk|].
  - destruct Hpq as [Hc Hk]. apply peq_go; [done|]. by apply IH.
Qed.

Lemma bind_cong {A B} (p p' : prog E A) (f f' : A -> prog E B) :
  p ≡ p' -> (forall a, f a ≡ f' a) -> bind p f ≡ bind p' f'.
Proof. intros Hp Hf. by apply bind_proper. Qed.

Lemma bind_assoc {A B C} (p : prog E A) (f : A -> prog E B) (g : B -> prog E C) :
  bind (bind p f) g ≡ bind p (fun a => bind (f a) g).
Proof.
  induction p as [A a|A X e k IH|A L R body IHb l k IHk|A child IHc k IH]; simpl.
  - done.
  - apply peq_vis. intros x. apply IH.
  - apply peq_iter; [done|]. intros r. apply IHk.
  - apply peq_go; [done|]. apply IH.
Qed.

Lemma bind_ret {A} (p : prog E A) : bind p Ret ≡ p.
Proof.
  induction p as [A a|A X e k IH|A L R body IHb l k IHk|A child IHc k IH]; simpl.
  - done.
  - by apply peq_vis.
  - by apply peq_iter.
  - by apply peq_go.
Qed.

(** Equal programs run alike. *)
#[export] Instance runs_proper {S} (sem : semantics E S) A :
  Proper ((≡) ==> eq ==> eq ==> eq ==> iff) (runs sem (A := A)).
Proof.
  assert (H : forall A (p : prog E A) s a s', runs sem p s a s' -> forall q, p ≡ q -> runs sem q s a s').
  { unfold equiv, prog_equiv. intros A' p s a s' Hr.
    induction Hr as [A0 a s|A0 X e k s x s1 a s2 Hx _ IH|A0 L R body l k s l' s1 a s2 _ IHb _ IHk
      |A0 L R body l k s b s1 a s2 _ IHb _ IHk|A0 child k s a s' _ IH];
      intros [b'|Y f k'|L' R' body' m k'|child' k'] Hq; simpl in Hq; try done.
    - subst. constructor.
    - destruct Hq as (-> & <- & Hk). eapply runs_vis; [exact Hx|]. by apply IH, (Hk x).
    - destruct Hq as (-> & -> & <- & Hb & Hk). eapply runs_again; [by apply IHb, (Hb l)|]. apply IHk.
      by exists eq_refl, eq_refl.
    - destruct Hq as (-> & -> & <- & Hb & Hk). eapply runs_leave; [by apply IHb, (Hb l)|]. apply IHk, (Hk b).
    - destruct Hq as [Hc Hk]. constructor. by apply IH. }
  intros p q Hpq s _ <- a _ <- s' _ <-. split; intros Hr; by eapply H.
Qed.
End peq.

(** ** Linking *)

(** A program over [F] for each operation of [E]. *)
Definition implementation (E F : Type -> Type) : Type := forall X, E X -> prog F X.

Fixpoint expand {E F} (h : implementation E F) {A} (p : prog E A) : prog F A :=
  match p with
  | Ret a => Ret a
  | Vis e k => bind (h _ e) (fun x => expand h (k x))
  | Iter body l k => Iter (fun l => expand h (body l)) l (fun r => expand h (k r))
  | Go child k => Go (expand h child) (expand h k)
  end.

Section expand.
Context {E F : Type -> Type} (h : implementation E F).

#[export] Instance expand_proper A : Proper ((≡) ==> (≡)) (expand h (A := A)).
Proof.
  intros p. unfold equiv at 1, prog_equiv.
  induction p as [A a|A X e k IH|A L R body IHb l k IHk|A child IHc k IH];
    intros [a'|Y f' k'|L' R' body' l' k'|child' k'] Hpq; simpl in Hpq; try done.
  - destruct Hpq as (-> & <- & Hk). simpl. apply bind_cong; [done|]. intros x. by apply IH, Hk.
  - destruct Hpq as (-> & -> & <- & Hb & Hk). apply peq_iter; intros; [apply IHb, Hb|apply IHk, Hk].
  - destruct Hpq as [Hc Hk]. apply peq_go; auto.
Qed.

Lemma expand_bind {A B} (p : prog E A) (f : A -> prog E B) :
  expand h (bind p f) ≡ bind (expand h p) (fun a => expand h (f a)).
Proof.
  induction p as [A a|A X e k IH|A L R body IHb l k IHk|A child IHc k IH]; simpl.
  - done.
  - rewrite bind_assoc. by apply bind_cong.
  - by apply peq_iter.
  - by apply peq_go.
Qed.

Lemma expand_trigger {D} `{D -< E} {X} (e : D X) : expand h (trigger e) ≡ h X (inject e).
Proof. apply bind_ret. Qed.

Context {S : Type} (sem : semantics F S).

(** The operations of [E] mean what their programs do. *)
Definition realized : semantics E S := fun X e s x s' => runs sem (h X e) s x s'.

(** The weakest precondition holds of all that runs may do, when it holds of each. *)
Lemma wp_complete {A} (p : prog F A) s (Q : A -> S -> Prop) :
  (forall a s', runs sem p s a s' -> Q a s') -> wp sem p s Q.
Proof.
  revert s Q. induction p as [A a|A X e k IH|A L R body IHb l k IHk|A child _ k IH]; intros s Q HQ; simpl.
  - apply HQ. constructor.
  - intros x s' Hx. apply IH. intros a s2 Ha. apply HQ. by eapply runs_vis.
  - exists (fun l s => forall a s', runs sem (Iter body l k) s a s' -> Q a s'). split; [done|].
    intros l1 s1 H1. apply IHb. intros [l2|b] s2 Hb.
    + intros a s' Ha. apply H1. by eapply runs_again.
    + apply IHk. intros a s' Ha. apply H1. by eapply runs_leave.
  - apply IH. intros a s' Ha. apply HQ. by constructor.
Qed.

Lemma expand_wp {A} (p : prog E A) s :
  wp sem (expand h p) s (fun a s' => runs realized p s a s').
Proof.
  revert s. induction p as [A a|A X e k IH|A L R body IHb l k IHk|A child _ k IH]; intros s; simpl.
  - constructor.
  - apply wp_bind, wp_complete. intros x s1 Hx. eapply wp_mono; [|apply IH].
    intros a s2 Ha. by eapply runs_vis.
  - exists (fun l' s' => forall a s2, runs realized (Iter body l' k) s' a s2 -> runs realized (Iter body l k) s a s2).
    split; [done|]. intros l1 s1 H1. eapply wp_mono; [|apply IHb]. intros [l2|b] s2 Hb; simpl.
    + intros a s3 Ha. apply H1. by eapply runs_again.
    + eapply wp_mono; [|apply IHk]. intros a s3 Ha. apply H1. by eapply runs_leave.
  - eapply wp_mono; [|apply IH]. intros a s' Ha. by constructor.
Qed.

(** A run of a client linked with an implementation is a run of the client alone, in which each
    operation does what its program does. *)
Lemma expand_runs {A} (p : prog E A) s a s' : runs sem (expand h p) s a s' -> runs realized p s a s'.
Proof. intros Hr. exact (wp_sound _ _ _ _ _ _ Hr (expand_wp p s)). Qed.
End expand.

(** Code whose operations are left alone is left alone. *)
Lemma expand_id {E} (h : implementation E E) {A} (p : prog E A) :
  everywhere (fun X e => h X e = Vis e Ret) p -> expand h p ≡ p.
Proof.
  induction p as [A a|A X e k IH|A L R body IHb l k IHk|A child IHc k IH]; simpl.
  - done.
  - intros [-> Hk]. simpl. apply peq_vis. intros x. by apply IH.
  - intros [Hb Hk]. apply peq_iter; auto.
  - intros [Hc Hk]. apply peq_go; auto.
Qed.

(** ** Linked traces *)

Section linked.
Context {E F : Type -> Type} (h : implementation E F) (env : environment F) (u0 : trace F).

(** The operations [t] of the client, implemented by the operations [u]. *)
Inductive implemented : trace E -> trace F -> Prop :=
| implemented_nil : implemented [] u0
| implemented_op t u X (e : E X) x u' :
    implemented t u -> runs (traced env) (h X e) u x u' -> implemented (Ev e x :: t) u'.

Lemma realized_traced {A} (p : prog E A) u a u' :
  runs (realized h (traced env)) p u a u' ->
  forall t, implemented t u -> exists t', runs (traced anything) p t a t' /\ implemented t' u'.
Proof.
  induction 1 as [A a u|A X e k u x u1 a u2 Hx _ IH|A L R body l k u l' u1 a u2 _ IHb _ IHk
    |A L R body l k u b u1 a u2 _ IHb _ IHk|A child k u a u' _ IH]; intros t Ht.
  - exists t. split; [constructor|done].
  - destruct (IH (Ev e x :: t)) as (t' & Hr & Hi); [by eapply implemented_op|].
    exists t'. split; [|done]. by eapply runs_vis.
  - destruct (IHb t Ht) as (t1 & Hb & H1). destruct (IHk t1 H1) as (t2 & Hk & H2).
    exists t2. split; [|done]. by eapply runs_again.
  - destruct (IHb t Ht) as (t1 & Hb & H1). destruct (IHk t1 H1) as (t2 & Hk & H2).
    exists t2. split; [|done]. by eapply runs_leave.
  - destruct (IH t Ht) as (t' & Hr & Hi). exists t'. split; [by constructor|done].
Qed.

(** Every run of the linked client is a run of the client against the interface: what is proved
    of the client for every answer of the interface holds with this implementation. *)
Theorem linked_run {A} (p : prog E A) a u :
  runs (traced env) (expand h p) u0 a u ->
  exists t, runs (traced anything) p [] a t /\ implemented t u.
Proof. intros Hr%expand_runs. exact (realized_traced _ _ _ _ Hr [] implemented_nil). Qed.
End linked.

(** What is shown of a linked run, operation by operation: [R b l] when what the client shows as
    [b] is shown as [l] by the implementation. *)
Lemma implemented_shown {E F B C} (h : implementation E F) (env : environment F)
    (g : forall X, E X -> X -> list B) (f : forall X, F X -> X -> list C) (R : B -> list C -> Prop) :
  (forall X (e : E X) u, wp (traced env) (h X e) u (fun x u' =>
     since u u' (fun l => exists ls, observed f l = concat ls /\ Forall2 R (g X e x) ls))) ->
  forall t u, implemented h env [] t u ->
  exists ls, observed f u = concat ls /\ Forall2 R (observed g t) ls.
Proof.
  intros Hh t u. induction 1 as [|t u X e x u' _ (ls & Hls & HR) Hr]; [by exists []|].
  destruct (wp_sound _ _ _ _ _ _ Hr (Hh X e u)) as (l & -> & ls' & Hls' & HR').
  exists (ls ++ ls'). rewrite observed_app, Hls, Hls', concat_app. split; [done|].
  simpl. apply Forall2_app; [done|]. exact HR'.
Qed.
