(* ===== verification/PublisherProps.v ===== *)
(** * PublisherProps: what publishing a message does, and what its result means. *)
From S2P Require Import Prelude AmqpData Errors Prog Config Amqp Instr Dial Script Pool Publisher PubScript.
Import Pool.Publisher.
Local Open Scope string_scope.
Local Open Scope list_scope.
Local Open Scope Z_scope.

(** ** Observations *)

Inductive pact : Type :=
| PStart (pctx : context) (p : PublishContext.t) (s : started)
| PEnd (cb : callback) (err : option error)
| PNotify (ch : channel) (returns : nat)
| PSend (ch : channel) (ctx : context) (exchange key : string) (mandatory immediate : bool)
    (pub : Publishing.t) (res : result (option nat))   (* the deferred confirmation, if one was asked for *)
| PWait (dc : nat) (ctx : context) (res : result bool)
| PReturn (returns : nat) (ctx : context) (ev : returns_event)
| PCtx (err : ctx_error)
| POther.                                              (* the instrumentation of a delivery *)

Definition pact_instr {X} (e : instrE X) : X -> list pact :=
  match e with
  | StartPublish _ pctx p => fun s => [PStart pctx p s]
  | EndPublish cb err => fun _ => [PEnd cb err]
  | _ => fun _ => [POther]
  end.

Definition pact_amqp {X} (e : amqpE X) : X -> list pact :=
  match e with
  | ChNotifyReturn ch => fun r => [PNotify ch r]
  | ChPublish ch ctx ex key m i pub => fun err =>
      [PSend ch ctx ex key m i pub (match err with Some err => Err err | None => Ok None end)]
  | ChPublishDeferred ch ctx ex key m i pub => fun res => [PSend ch ctx ex key m i pub res]
  | DcWaitContext dc ctx => fun res => [PWait dc ctx res]
  | _ => fun _ => []
  end.

Definition pacts (X : Type) (e : publisherE X) : X -> list pact :=
  match e with
  | inl1 (inr1 i) => pact_instr i
  | inl1 (inl1 (inl1 (inr1 s))) => match s with CtxErr _ => fun e => [PCtx e] | _ => fun _ => [] end
  | inl1 (inl1 (inl1 (inl1 (inr1 a)))) => pact_amqp a
  | inl1 (inl1 (inl1 (inl1 (inl1 p)))) =>
      match p with ReturnsSelect r _ ctx => fun ev => [PReturn r ctx ev] | _ => fun _ => [] end
  | _ => fun _ => []
  end.

(** ** Specification *)

(** What waiting for the confirmation says. *)
Definition sent_wait (acked : result bool) (err : option error) : Prop :=
  match acked with
  | Ok true => err = None
  | Ok false => err = Some (ENew "rabbitmq: message was not acknowledged by broker")
  | Err e => err = Some (if errors_Is e DeadlineExceeded
                         then ENew "rabbitmq: timeout waiting for publish confirmation" else e)
  end.

(** Sending [msg] on a channel, and the error that results. *)
Inductive sent (cfg : Config.t) (ctx : context) (ch : channel) (msg : PublishMessage.t) :
    list pact -> option error -> Prop :=
| sent_unconfirmed err :
    PublishMessage.WaitForConfirm msg = false ->
    sent cfg ctx ch msg
      [PSend ch ctx (PublishMessage.Exchange msg) (PublishMessage.RoutingKey msg)
         (PublishMessage.Mandatory msg) (PublishMessage.Immediate msg) (publishing msg)
         (match err with Some err => Err err | None => Ok None end)] err
| sent_confirmed res log err :
    PublishMessage.WaitForConfirm msg = true ->
    match res with
    | Err e => log = [] /\ err = Some e
    | Ok None => log = [] /\ err = Some (ENew "rabbitmq: publisher confirms not enabled on channel")
    | Ok (Some dc) => exists acked,
        log = [PWait dc (WithTimeout ctx (Config.PublishConfirmTimeout cfg)) acked] /\
        sent_wait acked err
    end ->
    sent cfg ctx ch msg
      (PSend ch ctx (PublishMessage.Exchange msg) (PublishMessage.RoutingKey msg)
         (PublishMessage.Mandatory msg) (PublishMessage.Immediate msg) (publishing msg) res :: log) err.

(** The error that goes with what the wait for a return received; [None] is what the listener's
    Go channel delivers once it is closed. *)
Definition returned_as (ev : returns_event) (err : option error) : Prop :=
  match ev with
  | ReturnsReceived ret => err = Some (EReturned (returnedMessage (default zeroReturn ret)))
  | ReturnsTimer => err = None
  | ReturnsDone => exists e, err = Some (ECtx e)
  end.

(** Publishing: on a channel if there is one; a mandatory message is sent with a listener for
    its return, which is waited for once the send has succeeded. *)
Inductive published (cfg : Config.t) (ctx : context) (msg : PublishMessage.t) :
    list pact -> option error -> Prop :=
| published_nowhere err : published cfg ctx msg [] (Some err)
| published_plain ch log err :
    PublishMessage.Mandatory msg = false -> sent cfg ctx ch msg log err ->
    published cfg ctx msg log err
| published_unsent ch returns log err :
    PublishMessage.Mandatory msg = true -> sent cfg ctx ch msg log (Some err) ->
    published cfg ctx msg (PNotify ch returns :: log) (Some err)
| published_mandatory ch returns log ev err :
    PublishMessage.Mandatory msg = true -> sent cfg ctx ch msg log None ->
    returned_as ev err ->
    published cfg ctx msg
      (PNotify ch returns :: log ++ PReturn returns ctx ev ::
         match err with Some (ECtx e) => [PCtx e] | _ => [] end) err.

(** The context of a call. *)
Definition call_ctx (ctx : option context) : context := default Background ctx.

(** What PublishMessage does: nothing when the publisher is closed; otherwise it publishes the
    normalized message, between the calls of the instrumentation if there is one. *)
Inductive publish_call (p : Publisher.t) (ctx : option context) (msg : PublishMessage.t) :
    list pact -> option error -> Prop :=
| call_closed : publish_call p ctx msg [] (Some (ENew "rabbitmq: publisher is closed"))
| call_plain log err :
    instrIsNop p = true ->
    published (cfg p) (call_ctx ctx) (normalizePublishMessage p msg) log err ->
    publish_call p ctx msg log err
| call_instrumented s log err :
    instrIsNop p = false ->
    published (cfg p) (started_ctx s)
      (PublishMessage.with_headers (normalizePublishMessage p msg) (started_headers s)) log err ->
    publish_call p ctx msg
      (PStart (call_ctx ctx) {| PublishContext.Exchange := PublishMessage.Exchange (normalizePublishMessage p msg);
                 PublishContext.RoutingKey := PublishMessage.RoutingKey msg;
                 PublishContext.BodySize := Z.of_nat (length (PublishMessage.Body msg));
                 PublishContext.Headers := PublishMessage.Headers (normalizePublishMessage p msg) |} s
       :: log ++ [PEnd (started_end s) err]) err.

(** ** The code meets the specification *)

Section refinement.
Context (env : environment publisherE).

(** Code that does none of the observed operations. *)
Definition unseen {A} (c : prog publisherE A) : Prop :=
  forall t, wp (traced env) c t (fun _ t' => since t t' (fun l => observed pacts l = [])).

Lemma unseen_ret {A} (a : A) : unseen (Ret a).
Proof. intros t. by apply since_here. Qed.

Lemma unseen_bind {A B} (c : prog publisherE A) (f : A -> prog publisherE B) :
  unseen c -> (forall a, unseen (f a)) -> unseen (bind c f).
Proof.
  intros Hc Hf t. eapply wp_seq; [apply Hc|]. intros a t1 (l1 & -> & H1).
  eapply wp_spec; [apply Hf|]. intros b t2 (l2 & -> & H2). exists (l2 ++ l1). rewrite <- app_assoc.
  split; [done|]. by rewrite observed_app, H1, H2.
Qed.

Lemma unseen_trigger {X F} `{F -< publisherE} (e : F X) :
  (forall x, pacts X (inject e) x = []) -> unseen (trigger e).
Proof.
  intros He t. apply wp_trigger. intros x. exists [Ev (inject e) x]. split; [done|].
  simpl. unfold shown. simpl. apply He.
Qed.

Lemma unseen_go child : unseen (go child).
Proof. intros t. by apply since_here. Qed.
End refinement.

Ltac unseen_step :=
  lazymatch goal with
  | |- unseen _ (Ret _) => apply unseen_ret
  | |- unseen _ (bind _ _) => apply unseen_bind; [|intros ?]
  | |- unseen _ (trigger _) => apply unseen_trigger; intros ?; reflexivity
  | |- unseen _ (go _) => apply unseen_go
  | |- unseen _ (match ?x with _ => _ end) => destruct x
  | |- unseen _ (let _ := _ in _) => cbv zeta
  end.
Ltac unseen := repeat unseen_step.

Section meets.
Context (p : Publisher.t) (env : environment publisherE).

Lemma unseen_createPooledChannel : unseen env (createPooledChannel p).
Proof. unfold createPooledChannel, createConfirmChannel, enableConfirms. unseen. Qed.

Lemma unseen_borrowChannel : unseen env (borrowChannel p).
Proof.
  unfold borrowChannel, newChannelOrError. unseen; apply unseen_createPooledChannel.
Qed.

Lemma unseen_discard ch : unseen env (discard ch).
Proof. unfold discard. unseen. Qed.

Lemma unseen_returnPooled pch : unseen env (returnPooled p pch).
Proof. unfold returnPooled, discard. unseen. Qed.

Lemma publishOnChannel_wp ctx ch msg t :
  wp (traced env) (publishOnChannel p ctx ch msg (publishing msg)) t (fun err t' =>
    since t t' (fun l => sent (cfg p) ctx ch msg (observed pacts l) err)).
Proof.
  unfold publishOnChannel. destruct (PublishMessage.WaitForConfirm msg) eqn:Hw; simpl negb; cbv iota.
  - assert (Hwait : forall dc acked err, sent_wait acked err -> sent (cfg p) ctx ch msg
      [PSend ch ctx (PublishMessage.Exchange msg) (PublishMessage.RoutingKey msg)
         (PublishMessage.Mandatory msg) (PublishMessage.Immediate msg) (publishing msg) (Ok (Some dc));
       PWait dc (WithTimeout ctx (Config.PublishConfirmTimeout (cfg p))) acked] err).
    { intros dc acked err H. eapply sent_confirmed; [done|]. eauto. }
    wp_all; observe; try (by apply Hwait); try (by eapply sent_confirmed; [done|]; split).
    match goal with |- context [errors_Is ?e ?c] => destruct (errors_Is e c) eqn:He end; wp_all; observe;
      apply Hwait; unfold sent_wait; by rewrite He.
  - wp_all. observe. by apply sent_unconfirmed.
Qed.

Lemma publishMandatory_wp ctx ch msg t :
  PublishMessage.Mandatory msg = true ->
  wp (traced env) (publishMandatory p ctx ch msg (publishing msg)) t (fun err t' =>
    since t t' (fun l => published (cfg p) ctx msg (observed pacts l) err)).
Proof.
  intros Hm. unfold publishMandatory. wp_step. eapply wp_seq; [apply publishOnChannel_wp|].
  intros [err|] t1 (l & -> & Hl).
  - wp_all. observe. eapply published_unsent; eauto.
  - wp_all; observe; rewrite <- ?app_assoc; simpl.
    + eapply (published_mandatory _ _ _ _ _ _ (ReturnsReceived ret) (Some (EReturned _))); simpl; eauto.
    + eapply (published_mandatory _ _ _ _ _ _ ReturnsTimer None); simpl; eauto.
    + eapply (published_mandatory _ _ _ _ _ _ ReturnsDone (Some (ECtx _))); simpl; eauto.
Qed.

Lemma publish_wp ctx msg t :
  wp (traced env) (publish p ctx msg) t (fun err t' =>
    since t t' (fun l => published (cfg p) ctx msg (observed pacts l) err)).
Proof.
  unfold publish. eapply wp_seq; [apply unseen_borrowChannel|].
  intros [pch|err] t1 (l1 & -> & H1).
  2: { wp_all. observe. rewrite H1. constructor. }
  cbv zeta. destruct (PublishMessage.Mandatory msg) eqn:Hm.
  - eapply wp_seq; [by apply publishMandatory_wp|]. intros err t2 (l2 & -> & H2).
    eapply wp_seq; [apply unseen_discard|]. intros _ t3 (l3 & -> & H3). wp_all. observe.
    by rewrite H1, H3, app_nil_r.
  - eapply wp_seq; [apply publishOnChannel_wp|]. intros err t2 (l2 & -> & H2).
    eapply wp_seq; [apply unseen_returnPooled|]. intros _ t3 (l3 & -> & H3). wp_all. observe.
    rewrite H1, H3, app_nil_r. by eapply published_plain.
Qed.

Lemma PublishMessage_wp ctx msg t :
  wp (traced env) (PublishMessage_ p ctx msg) t (fun err t' =>
    since t t' (fun l => publish_call p ctx msg (observed pacts l) err)).
Proof.
  unfold PublishMessage_. wp_step. destruct x; [wp_all; observe; constructor|]. cbv zeta.
  destruct (instrIsNop p) eqn:Hi.
  - eapply wp_spec; [apply publish_wp|]. intros err t1 (l & -> & Hl). observe. by apply call_plain.
  - wp_step. eapply wp_seq; [apply publish_wp|]. intros err t1 (l & -> & Hl). wp_all. observe.
    by apply call_instrumented.
Qed.

(** [publishes ctx msg err t]: a run of PublishMessage that returns [err] after [t]. *)
Definition publishes (ctx : option context) (msg : PublishMessage.t) (err : option error)
    (t : trace publisherE) : Prop :=
  runs (traced env) (PublishMessage_ p ctx msg) [] err t.

Lemma publishes_call ctx msg err t : publishes ctx msg err t -> publish_call p ctx msg (observed pacts t) err.
Proof.
  intros Hr. pose proof (wp_sound _ _ _ _ _ _ Hr (PublishMessage_wp ctx msg [])) as (l & -> & Hl).
  by rewrite app_nil_r.
Qed.
End meets.

(** ** Properties *)

(** The sends of a log, and what the mandatory wait received. *)
Definition sends (log : list pact) : list (string * string * bool * bool * Publishing.t) :=
  omap (fun a => match a with PSend _ _ ex key m i pub _ => Some (ex, key, m, i, pub) | _ => None end) log.

Definition returns_seen (log : list pact) : list returns_event :=
  omap (fun a => match a with PReturn _ _ ev => Some ev | _ => None end) log.

(** The broker's confirmations, each of a send of the log. *)
Fixpoint confirmations (log : list pact) : list Publishing.t :=
  match log with
  | [] => []
  | PSend _ _ _ _ _ _ pub (Ok (Some dc)) :: (PWait dc' _ (Ok true) :: _) as rest =>
      if bool_decide (dc = dc') then pub :: confirmations rest else confirmations rest
  | _ :: rest => confirmations rest
  end.

(** The calls of the instrumentation: what it was told at the start and at the end. *)
Definition instrumented (log : list pact) : list (PublishContext.t * started + callback * option error) :=
  omap (fun a => match a with
                 | PStart _ c s => Some (inl (c, s))
                 | PEnd cb err => Some (inr (cb, err))
                 | _ => None
                 end) log.

(** The send that a message calls for. *)
Definition send_of (msg : PublishMessage.t) : string * string * bool * bool * Publishing.t :=
  (PublishMessage.Exchange msg, PublishMessage.RoutingKey msg, PublishMessage.Mandatory msg,
   PublishMessage.Immediate msg, publishing msg).

Lemma sends_app l1 l2 : sends (l1 ++ l2) = sends l1 ++ sends l2.
Proof. apply omap_app. Qed.
Lemma returns_seen_app l1 l2 : returns_seen (l1 ++ l2) = returns_seen l1 ++ returns_seen l2.
Proof. apply omap_app. Qed.
Lemma instrumented_app l1 l2 : instrumented (l1 ++ l2) = instrumented l1 ++ instrumented l2.
Proof. apply omap_app. Qed.

(** What one send leaves in a log. *)
Lemma sent_views cfg ctx ch msg log err :
  sent cfg ctx ch msg log err ->
  sends log = [send_of msg] /\ returns_seen log = [] /\ instrumented log = [] /\
  (err = None -> PublishMessage.WaitForConfirm msg = true ->
   forall rest, exists more, confirmations (log ++ rest) = publishing msg :: more).
Proof.
  destruct 1 as [err Hw|res log err Hw Hres]; [split_and!; [done..|congruence]|].
  destruct res as [[dc|]|e]; [destruct Hres as (acked & -> & Hacked)|destruct Hres as [-> ->]..]; split_and!; try done.
  intros -> _ rest. destruct acked as [[]|]; try done. simpl. rewrite bool_decide_true by done. eauto.
Qed.

(** Publishing: the message goes out at most once. *)
Lemma published_views cfg ctx msg log err :
  published cfg ctx msg log err ->
  (sends log = [send_of msg] \/ sends log = [] /\ log = [] /\ err <> None) /\ instrumented log = [] /\
  (err = None -> PublishMessage.Mandatory msg = true -> returns_seen log = [ReturnsTimer]) /\
  (err = None -> PublishMessage.WaitForConfirm msg = true ->
   forall rest, exists more, confirmations (log ++ rest) = publishing msg :: more) /\
  (forall ev, In ev (returns_seen log) -> returned_as ev err).
Proof.
  destruct 1 as [err|ch log err Hm Hs|ch r log err Hm Hs|ch r log ev err Hm Hs Hev];
    [split_and!; first [done | by right]|apply sent_views in Hs as (H1 & H2 & H3 & H4)..].
  - split_and!; auto; [congruence|]. by rewrite H2.
  - split_and!; try done; [by left|]. simpl. by rewrite H2.
  - assert (Hrest : returns_seen (PNotify ch r :: log ++ PReturn r ctx ev ::
      match err with Some (ECtx e) => [PCtx e] | _ => [] end) = [ev] /\
      instrumented (PReturn r ctx ev :: match err with Some (ECtx e) => [PCtx e] | _ => [] end) = [] /\
      sends (PReturn r ctx ev :: match err with Some (ECtx e) => [PCtx e] | _ => [] end) = []).
    { change (PNotify ch r :: ?l) with ([PNotify ch r] ++ l). rewrite !returns_seen_app, H2. simpl.
      by destruct err as [[]|]. }
    destruct Hrest as (R1 & R2 & R3). rewrite R1. simpl. rewrite sends_app, instrumented_app, H1, H3, R2, R3.
    split_and!; [by left|done| | |].
    + intros -> _. by destruct ev; simpl in Hev; [|done|destruct Hev].
    + intros He Hw rest. simpl. rewrite <- app_assoc. by apply H4.
    + by intros ev' [<-|[]].
Qed.

(** What is sent is the message. *)
Lemma published_pub cfg ctx m log err ch c ex key mandatory immediate pub res :
  published cfg ctx m log err -> In (PSend ch c ex key mandatory immediate pub res) log -> pub = publishing m.
Proof.
  intros (Hs & _)%published_views Hin.
  assert (Hsend : In (ex, key, mandatory, immediate, pub) (sends log)).
  { unfold sends. rewrite <- list_elem_of_In, list_elem_of_omap. eexists. split; [by apply list_elem_of_In|done]. }
  destruct Hs as [Hs|[Hs _]]; rewrite Hs in Hsend; [|done]. by destruct Hsend as [[= <- <- <- <- <-]|[]].
Qed.

(** The message that a call sends: the normalized one, with the headers that the instrumentation
    left in it. *)
Definition message_sent (p : Publisher.t) (msg : PublishMessage.t) (log : list pact)
    (m : PublishMessage.t) : Prop :=
  exists headers, m = PublishMessage.with_headers (normalizePublishMessage p msg) headers /\
    match instrumented log with
    | inl (_, s) :: _ => headers = started_headers s
    | _ => headers = PublishMessage.Headers (normalizePublishMessage p msg)
    end.

Section props.
Context (p : Publisher.t) (env : environment publisherE).

(** C11: PublishMessage sends the message at most once, and what it returns is what happened.
    Nothing else than the normalized message, with the headers the instrumentation left, is
    sent; without an error it was sent exactly once, to the exchange and with the options it
    asks for; and if it asks for a confirmation the broker confirmed that send, and if it is
    mandatory no return came within the waiting time. *)
Theorem publish_once ctx msg err t :
  publishes p env ctx msg err t ->
  exists m, message_sent p msg (observed pacts t) m /\
    (sends (observed pacts t) = [send_of m] \/ sends (observed pacts t) = [] /\ err <> None) /\
    (err = None ->
       (PublishMessage.WaitForConfirm msg = true -> In (publishing m) (confirmations (observed pacts t))) /\
       (PublishMessage.Mandatory msg = true -> returns_seen (observed pacts t) = [ReturnsTimer])).
Proof.
  intros Hp%publishes_call. remember (observed pacts t) as log0 eqn:Hlog. clear Hlog.
  destruct Hp as [|log err Hi Hpub|s log err Hi Hpub].
  - exists (normalizePublishMessage p msg). split; [eexists; split; [by destruct msg|done]|].
    split; [by right|done].
  - destruct (published_views _ _ _ _ _ Hpub) as (H1 & H2 & H3 & H4 & _).
    exists (normalizePublishMessage p msg). split.
    { eexists. split; [by destruct msg|]. by rewrite H2. }
    split; [destruct H1 as [?|(? & _ & ?)]; auto|]. intros He. split; [|by apply H3].
    intros Hw. destruct (H4 He Hw []) as [more Hc]. rewrite app_nil_r in Hc. rewrite Hc. by left.
  - destruct (published_views _ _ _ _ _ Hpub) as (H1 & H2 & H3 & H4 & _).
    eexists. split; [eexists; split; [reflexivity|done]|].
    simpl. rewrite sends_app, returns_seen_app, !app_nil_r.
    split; [destruct H1 as [?|(? & _ & ?)]; auto|]. intros He. split; [|by apply H3].
    intros Hw. destruct (H4 He Hw [PEnd (started_end s) err]) as [more Hc]. rewrite Hc. by left.
Qed.

(** C12: A publish is traced once.  With an Instrumentation, every call on an open publisher
    starts it with the message's exchange, routing key, body size and a table of headers, and
    ends it with the error that the call returns; without one, nothing is traced. *)
Theorem publish_traced ctx msg err t :
  publishes p env ctx msg err t ->
  (instrIsNop p = true -> instrumented (observed pacts t) = []) /\
  (instrIsNop p = false ->
     err = Some (ENew "rabbitmq: publisher is closed") /\ observed pacts t = [] \/
     exists pctx s, instrumented (observed pacts t) = [inl (pctx, s); inr (started_end s, err)] /\
       PublishContext.Exchange pctx = PublishMessage.Exchange (normalizePublishMessage p msg) /\
       PublishContext.RoutingKey pctx = PublishMessage.RoutingKey msg /\
       PublishContext.BodySize pctx = Z.of_nat (length (PublishMessage.Body msg)) /\
       PublishContext.Headers pctx = Some (default ∅ (PublishMessage.Headers msg))).
Proof.
  intros Hp%publishes_call. remember (observed pacts t) as log0 eqn:Hlog. clear Hlog.
  destruct Hp as [|log err Hi Hpub|s log err Hi Hpub].
  - auto.
  - destruct (published_views _ _ _ _ _ Hpub) as (_ & H2 & _). split; [done|congruence].
  - destruct (published_views _ _ _ _ _ Hpub) as (_ & H2 & _). split; [congruence|]. intros _. right.
    eexists _, s. simpl. rewrite instrumented_app, H2. simpl. split_and!; try done. simpl.
    rewrite Hi. by destruct (PublishMessage.Headers msg).
Qed.

(** [says e r]: the error's message [e] says what the broker's return [r] said, field by
    field. *)
Record says (e : ReturnedMessage.t) (r : Return_.t) : Prop := {
  says_ReplyCode : ReturnedMessage.ReplyCode e = Return_.ReplyCode r;
  says_ReplyText : ReturnedMessage.ReplyText e = Return_.ReplyText r;
  says_Exchange : ReturnedMessage.Exchange e = Return_.Exchange r;
  says_RoutingKey : ReturnedMessage.RoutingKey e = Return_.RoutingKey r;
  says_Headers : Publishing.Headers (ReturnedMessage.Message e) = Return_.Headers r;
  says_ContentType : Publishing.ContentType (ReturnedMessage.Message e) = Return_.ContentType r;
  says_ContentEncoding : Publishing.ContentEncoding (ReturnedMessage.Message e) = Return_.ContentEncoding r;
  says_DeliveryMode : Publishing.DeliveryMode (ReturnedMessage.Message e) = Return_.DeliveryMode r;
  says_Priority : Publishing.Priority (ReturnedMessage.Message e) = Return_.Priority r;
  says_CorrelationId : Publishing.CorrelationId (ReturnedMessage.Message e) = Return_.CorrelationId r;
  says_ReplyTo : Publishing.ReplyTo (ReturnedMessage.Message e) = Return_.ReplyTo r;
  says_Expiration : Publishing.Expiration (ReturnedMessage.Message e) = Return_.Expiration r;
  says_MessageId : Publishing.MessageId (ReturnedMessage.Message e) = Return_.MessageId r;
  says_Timestamp : Publishing.Timestamp (ReturnedMessage.Message e) = Return_.Timestamp r;
  says_Type : Publishing.Type_ (ReturnedMessage.Message e) = Return_.Type_ r;
  says_UserId : Publishing.UserId (ReturnedMessage.Message e) = Return_.UserId r;
  says_AppId : Publishing.AppId (ReturnedMessage.Message e) = Return_.AppId r;
  says_Body : Publishing.Body (ReturnedMessage.Message e) = Return_.Body r
}.

(** C13: The answer to a mandatory publish is what its wait received.  When the broker returned the
    message, the error is a PublishReturnedError with the return's reply code and text, exchange,
    routing key and message, each of the message's fields in its own; there is no error when nothing came in time, and the context's error when it ended first.  A listener
    that was closed under the wait, with the channel, is reported as a return as well, of which
    every field is zero: reply code 0 and an empty message. *)
Theorem mandatory_answer ctx msg err t ev :
  publishes p env ctx msg err t -> In ev (returns_seen (observed pacts t)) ->
  match ev with
  | ReturnsReceived (Some r) => exists e, err = Some (EReturned e) /\ says e r
  | ReturnsReceived None => exists e, err = Some (EReturned e) /\
      (ReturnedMessage.ReplyCode e, ReturnedMessage.ReplyText e, ReturnedMessage.Exchange e,
       ReturnedMessage.RoutingKey e) = (0, "", "", "") /\
      ReturnedMessage.Message e =
        {| Publishing.Headers := None; Publishing.ContentType := ""; Publishing.ContentEncoding := "";
           Publishing.DeliveryMode := 0; Publishing.Priority := 0; Publishing.CorrelationId := "";
           Publishing.ReplyTo := ""; Publishing.Expiration := ""; Publishing.MessageId := "";
           Publishing.Timestamp := 0; Publishing.Type_ := ""; Publishing.UserId := "";
           Publishing.AppId := ""; Publishing.Body := [] |}
  | ReturnsTimer => err = None
  | ReturnsDone => exists e, err = Some (ECtx e)
  end.
Proof.
  intros Hp%publishes_call Hev. remember (observed pacts t) as log0 eqn:Hlog. clear Hlog.
  assert (Hr : returned_as ev err).
  { destruct Hp as [|log err Hi Hpub|s log err Hi Hpub]; [done|..];
      destruct (published_views _ _ _ _ _ Hpub) as (_ & _ & _ & _ & H); apply H; [done|].
    simpl in Hev. by rewrite returns_seen_app, app_nil_r in Hev. }
  destruct ev as [[r|]| |]; simpl in Hr; [| |done|done]; subst; eexists; (split; [done|]).
  - by constructor.
  - by split.
Qed.
End props.

(** ** Concrete runs *)

(** A good environment in which the wait for a return receives [ev]. *)
Definition publishing_with (ev : returns_event) (X : Type) (e : publisherE X) (t : trace publisherE) : X :=
  pub_script as_usual (fun X e =>
    match e in pubE X return option X with
    | ReturnsSelect _ _ _ => Some ev
    | _ => None
    end) X e t.

(** A publisher with an Instrumentation of its own. *)
Definition traced_publisher : Publisher.t :=
  {| cfg := normalize (pool_config 1); instr := CustomInstrumentation 1; instrIsNop := false |}.

Definition example_message : PublishMessage.t :=
  {| PublishMessage.Exchange := ""; PublishMessage.RoutingKey := "user.created";
     PublishMessage.Body := ["b"%char]; PublishMessage.Headers := None;
     PublishMessage.ContentType := ""; PublishMessage.ContentEncoding := "";
     PublishMessage.DeliveryMode := 0; PublishMessage.Priority := 0;
     PublishMessage.CorrelationID := ""; PublishMessage.ReplyTo := "";
     PublishMessage.Expiration := ""; PublishMessage.MessageID := "";
     PublishMessage.Timestamp := 0; PublishMessage.Type_ := "";
     PublishMessage.UserID := ""; PublishMessage.AppID := "";
     PublishMessage.Mandatory := true; PublishMessage.Immediate := false;
     PublishMessage.WaitForConfirm := true |}.

Definition example_publish (ev : returns_event) : trace publisherE :=
  pub_trace (publishing_with ev) 0 (PublishMessage_ traced_publisher None example_message).

Lemma example_publishes ev err :
  interp (scripted (publishing_with ev)) 0 (PublishMessage_ traced_publisher None example_message) []
    = Some (err, example_publish ev) ->
  publishes traced_publisher anything None example_message err (example_publish ev).
Proof. apply scripted_runs. Qed.

Lemma publish_once_witness :
  sends (observed pacts (example_publish ReturnsTimer)) =
    [("events", "user.created", true, false, publishing (normalizePublishMessage traced_publisher example_message))] /\
  exists m, message_sent traced_publisher example_message (observed pacts (example_publish ReturnsTimer)) m /\
    (sends (observed pacts (example_publish ReturnsTimer)) = [send_of m] \/
     sends (observed pacts (example_publish ReturnsTimer)) = [] /\ @None error <> None) /\
    (@None error = None ->
       (PublishMessage.WaitForConfirm example_message = true ->
          In (publishing m) (confirmations (observed pacts (example_publish ReturnsTimer)))) /\
       (PublishMessage.Mandatory example_message = true ->
          returns_seen (observed pacts (example_publish ReturnsTimer)) = [ReturnsTimer])).
Proof.
  split; [vm_compute; reflexivity|].
  apply (publish_once traced_publisher anything None example_message None).
  apply example_publishes. vm_compute. reflexivity.
Defined.

Lemma publish_traced_witness :
  (instrIsNop traced_publisher = true -> instrumented (observed pacts (example_publish ReturnsTimer)) = []) /\
  (instrIsNop traced_publisher = false ->
     @None error = Some (ENew "rabbitmq: publisher is closed") /\
       observed pacts (example_publish ReturnsTimer) = [] \/
     exists pctx s,
       instrumented (observed pacts (example_publish ReturnsTimer)) = [inl (pctx, s); inr (started_end s, None)] /\
       PublishContext.Exchange pctx =
         PublishMessage.Exchange (normalizePublishMessage traced_publisher example_message) /\
       PublishContext.RoutingKey pctx = "user.created" /\
       PublishContext.BodySize pctx = 1 /\ PublishContext.Headers pctx = Some ∅).
Proof.
  apply (publish_traced traced_publisher anything None example_message None).
  apply example_publishes. vm_compute. reflexivity.
Defined.

(** The channel is closed while the publish waits for a return of a confirmed message. *)
(** A broker's answer to the example: no queue for its routing key. *)
Definition example_return : Return_.t :=
  {| Return_.ReplyCode := 312; Return_.ReplyText := "NO_ROUTE"; Return_.Exchange := "events";
     Return_.RoutingKey := "user.created"; Return_.ContentType := "application/json";
     Return_.ContentEncoding := ""; Return_.Headers := Some ∅; Return_.DeliveryMode := 2;
     Return_.Priority := 0; Return_.CorrelationId := ""; Return_.ReplyTo := "";
     Return_.Expiration := ""; Return_.MessageId := ""; Return_.Timestamp := 0;
     Return_.Type_ := ""; Return_.UserId := ""; Return_.AppId := ""; Return_.Body := ["b"%char] |}.

Lemma mandatory_answer_witness :
  confirmations (observed pacts (example_publish (ReturnsReceived (Some example_return)))) =
    [publishing (normalizePublishMessage traced_publisher example_message)] /\
  exists e, Some (EReturned (returnedMessage example_return)) = Some (EReturned e) /\ says e example_return.
Proof.
  split; [vm_compute; reflexivity|].
  apply (mandatory_answer traced_publisher anything None example_message
    (Some (EReturned (returnedMessage example_return))) (example_publish (ReturnsReceived (Some example_return)))
    (ReturnsReceived (Some example_return))).
  - apply example_publishes. vm_compute. reflexivity.
  - vm_compute. by left.
Defined.
