(* ===== verification/Retries.v ===== *)
(** * Retries: the life of a message across redeliveries.

    The broker delivers a retry copy with the properties it was published with.  The theorems
    follow a message through its retries: what a copy keeps, how its count evolves, how many
    retries there are, what happens on a channel without confirms, and that the counter does not
    wrap. *)
From S2P Require Import Prelude AmqpData Errors Prog Retry Config Amqp Instr Consumer Delivery DeliveryProps Script.
Import Consumer.Consumer.
Local Open Scope Z_scope.

(** ** Redelivery *)

(** The broker hands the message [p] to a consumer as [d]: the properties and the body are
    those of [p]; the tag, the redelivered flag, exchange and routing key are the broker's. *)
Record carries (p : Publishing.t) (d : Delivery.t) : Prop := {
  carries_Headers : Delivery.Headers d = Publishing.Headers p;
  carries_ContentType : Delivery.ContentType d = Publishing.ContentType p;
  carries_ContentEncoding : Delivery.ContentEncoding d = Publishing.ContentEncoding p;
  carries_DeliveryMode : Delivery.DeliveryMode d = Publishing.DeliveryMode p;
  carries_Priority : Delivery.Priority d = Publishing.Priority p;
  carries_CorrelationId : Delivery.CorrelationId d = Publishing.CorrelationId p;
  carries_ReplyTo : Delivery.ReplyTo d = Publishing.ReplyTo p;
  carries_Expiration : Delivery.Expiration d = Publishing.Expiration p;
  carries_MessageId : Delivery.MessageId d = Publishing.MessageId p;
  carries_Timestamp : Delivery.Timestamp d = Publishing.Timestamp p;
  carries_Type : Delivery.Type_ d = Publishing.Type_ p;
  carries_UserId : Delivery.UserId d = Publishing.UserId p;
  carries_AppId : Delivery.AppId d = Publishing.AppId p;
  carries_Body : Delivery.Body d = Publishing.Body p
}.

(** What a redelivery keeps of a message: everything a handler sees except the header table,
    the delivery mode, the count and the broker's own fields. *)
Definition payload (m : Message.t) :=
  (Message.Body m, Message.ContentType m, Message.ContentEncoding m, Message.Priority m,
   Message.CorrelationID m, Message.ReplyTo m, Message.Expiration m, Message.MessageID m,
   Message.Timestamp m, Message.Type_ m, Message.UserID m, Message.AppID m).

Lemma retry_copy_inv msg n p :
  retry_copy msg n = Some p ->
  in_int32 n /\
  p = retryPublishing (Some (<[RetryCountHeader := VInt32 n]> (tbl (Delivery.Headers msg)))) msg.
Proof. unfold retry_copy. case_bool_decide; naive_solver. Qed.

Lemma retry_copy_count msg n p d :
  retry_copy msg n = Some p -> carries p d -> ReadRetryCount (Delivery.Headers d) = n.
Proof.
  intros (_ & ->)%retry_copy_inv Hc. rewrite (carries_Headers _ _ Hc). simpl.
  by rewrite lookup_insert_eq.
Qed.

(** C5: The retry copy is faithful.  When it is redelivered, the handler sees the message it saw
    before with the count incremented: the same payload, the same headers but for the
    counter, and the same delivery mode, an unset one having become persistent. *)
Theorem retry_copy_faithful msg n p d :
  retry_copy msg n = Some p -> carries p d ->
  let m := messageFromDelivery msg (ReadRetryCount (Delivery.Headers msg)) in
  let m' := messageFromDelivery d (ReadRetryCount (Delivery.Headers d)) in
  Message.RetryCount m' = n /\
  payload m' = payload m /\
  (forall k, k <> RetryCountHeader -> tbl (Message.Headers m') !! k = tbl (Message.Headers m) !! k) /\
  Message.DeliveryMode m' = (if bool_decide (Message.DeliveryMode m = 0) then Persistent
                             else Message.DeliveryMode m).
Proof.
  intros Hp Hc m m'. subst m m'. simpl. rewrite (retry_copy_count _ _ _ _ Hp Hc).
  apply retry_copy_inv in Hp as (_ & ->). destruct Hc; simpl in *. unfold payload; simpl.
  split_and!; [done|congruence| |done].
  intros k Hk. rewrite carries_Headers0. simpl. by apply lookup_insert_ne.
Qed.

Definition as_delivery (p : Publishing.t) : Delivery.t :=
  {| Delivery.Headers := Publishing.Headers p;
     Delivery.ContentType := Publishing.ContentType p;
     Delivery.ContentEncoding := Publishing.ContentEncoding p;
     Delivery.DeliveryMode := Publishing.DeliveryMode p;
     Delivery.Priority := Publishing.Priority p;
     Delivery.CorrelationId := Publishing.CorrelationId p;
     Delivery.ReplyTo := Publishing.ReplyTo p;
     Delivery.Expiration := Publishing.Expiration p;
     Delivery.MessageId := Publishing.MessageId p;
     Delivery.Timestamp := Publishing.Timestamp p;
     Delivery.Type_ := Publishing.Type_ p;
     Delivery.UserId := Publishing.UserId p;
     Delivery.AppId := Publishing.AppId p;
     Delivery.DeliveryTag := 43;
     Delivery.Redelivered := false;
     Delivery.Exchange := "events";
     Delivery.RoutingKey := "user.created";
     Delivery.Body := Publishing.Body p |}.

Lemma as_delivery_carries p : carries p (as_delivery p).
Proof. by constructor. Qed.

Definition example_copy : Publishing.t :=
  retryPublishing (Some {["x-retry-count" := VInt32 1]}) (example_delivery None).

Lemma retry_copy_faithful_witness :
  let m := messageFromDelivery (example_delivery None) 0 in
  let m' := messageFromDelivery (as_delivery example_copy) 1 in
  Message.RetryCount m' = 1 /\ payload m' = payload m /\
  (forall k, k <> RetryCountHeader -> tbl (Message.Headers m') !! k = tbl (Message.Headers m) !! k) /\
  Message.DeliveryMode m' = 2.
Proof.
  exact (retry_copy_faithful (example_delivery None) 1 example_copy _ eq_refl (as_delivery_carries _)).
Defined.

(** ** Chains of retries *)

Section chain.
Context (cfg : Config.t) (pctx : context) (env : environment consumerE).

(** One retry: [msg] was handled and acknowledged although its handler failed, and [msg'] is
    the copy that was published, delivered again. *)
Inductive retried (msg msg' : Delivery.t) : Prop :=
| retried_by ch q key t p :
    handling cfg pctx env ch q key msg t -> In p (confirmed (observed acts t)) ->
    carries p msg' -> retried msg msg'.

Lemma confirmed_copy ch q key msg t p :
  handling cfg pctx env ch q key msg t -> In p (confirmed (observed acts t)) ->
  ReadRetryCount (Delivery.Headers msg) < Config.MaxRetries cfg /\
  exists hdrs body, retry_copy (with_shared msg hdrs body)
    (wrap 64 (ReadRetryCount (Delivery.Headers msg) + 1)) = Some p.
Proof.
  intros (pre & hctx & m & h & body & res & post & -> & Hs & Hpp)%handling_delivered%delivered_inv.
  assert (Hc : confirmed (pre ++ AHandled hctx m h :: body ++ post) = confirmed body).
  { destruct Hpp as [(_ & -> & ->)|(_ & d & s & -> & ->)]; [by rewrite app_nil_r|].
    destruct Hs as [| |e l _ Ha|e l _ Ha]; try done; inversion Ha; subst; done. }
  rewrite Hc. clear Hc Hpp.
  destruct Hs as [| |e l Hf Ha|e l Hf Ha]; simpl; [done..| |];
    inversion Ha; subst; simpl; rewrite ?(bool_decide_true (_ = _)) by done; simpl;
    try done; intros [<-|[]].
  apply orb_false_iff in Hf as (_ & Hf%bool_decide_eq_false).
  split; [|eauto]. revert Hf. simpl. lia.
Qed.

Lemma retried_count msg msg' :
  in_int64 (Config.MaxRetries cfg) -> in_int64 (ReadRetryCount (Delivery.Headers msg)) ->
  retried msg msg' ->
  ReadRetryCount (Delivery.Headers msg') = ReadRetryCount (Delivery.Headers msg) + 1 /\
  ReadRetryCount (Delivery.Headers msg') <= Config.MaxRetries cfg.
Proof.
  intros Hm Hr [ch q key t p Hrun Hin Hc].
  destruct (confirmed_copy _ _ _ _ _ _ Hrun Hin) as (Hlt & hdrs & body & Hp).
  rewrite (retry_copy_count _ _ _ _ Hp Hc), wrap64_id; [lia|].
  revert Hm Hr. unfold in_int64. lia.
Qed.

(** [n] retries lead from [msg] to [msg']. *)
Inductive retries : nat -> Delivery.t -> Delivery.t -> Prop :=
| retries_none msg : retries 0 msg msg
| retries_more n msg msg1 msg2 :
    retried msg msg1 -> retries n msg1 msg2 -> retries (Datatypes.S n) msg msg2.

(** C4: Retries are counted exactly and bounded.  After [n] retries the header carries the
    original count plus [n], and as soon as there was a retry the count is at most
    [MaxRetries]: a message that enters with no counter is retried at most [MaxRetries]
    times, whatever its handlers do to the headers. *)
Theorem retries_bounded n msg msg' :
  in_int64 (Config.MaxRetries cfg) -> in_int64 (ReadRetryCount (Delivery.Headers msg)) ->
  retries n msg msg' ->
  ReadRetryCount (Delivery.Headers msg') = ReadRetryCount (Delivery.Headers msg) + Z.of_nat n /\
  ((0 < n)%nat -> ReadRetryCount (Delivery.Headers msg') <= Config.MaxRetries cfg) /\
  Z.of_nat n <= Z.max 0 (Config.MaxRetries cfg - ReadRetryCount (Delivery.Headers msg)).
Proof.
  intros Hm Hr H. induction H as [msg|n msg msg1 msg2 H1 _ IH]; [lia|].
  destruct (retried_count _ _ Hm Hr H1) as (Heq & Hle).
  destruct IH as (IH1 & IH2 & IH3); [revert Hm Hr; unfold in_int64; lia|].
  destruct n; lia.
Qed.
End chain.

Lemma example_retried :
  retried (normalize example_config) Background anything (example_delivery None)
    (as_delivery example_copy).
Proof.
  eapply (retried_by _ _ _ _ _ _ _ _ _ example_copy); [exact example_first_failure| |apply as_delivery_carries].
  vm_compute. tauto.
Qed.

Lemma retries_bounded_witness :
  ReadRetryCount (Delivery.Headers (as_delivery example_copy)) = 0 + 1 /\
  ((0 < 1)%nat -> ReadRetryCount (Delivery.Headers (as_delivery example_copy)) <= 3) /\
  1 <= Z.max 0 (3 - 0).
Proof.
  apply (retries_bounded (normalize example_config) Background anything 1 (example_delivery None)).
  - unfold in_int64, MinInt64, MaxInt64. simpl. lia.
  - unfold in_int64, MinInt64, MaxInt64. simpl. lia.
  - eapply retries_more; [exact example_retried|apply retries_none].
Defined.

(** ** One attempt *)

(** The messages that were handed over for publishing. *)
Definition copies (log : list act) : list Publishing.t :=
  omap (fun a => match a with APublish _ _ _ _ _ _ p _ => Some p | _ => None end) log.

Lemma copies_app l1 l2 : copies (l1 ++ l2) = copies l1 ++ copies l2.
Proof. apply omap_app. Qed.

(** A failed delivery that may be retried: there is one attempt to publish a copy, and its
    result decides between the acknowledgement and a requeue. *)
Lemma handling_retryable cfg pctx env ch q key msg t m h e :
  handling cfg pctx env ch q key msg t ->
  In (m, h) (handler_calls (observed acts t)) ->
  outcome_error (handled_outcome h) = Some e -> IsNonRetryable (Some e) = false ->
  ReadRetryCount (Delivery.Headers msg) < Config.MaxRetries cfg ->
  exists log ok,
    retry_attempt (consumerOf cfg pctx) ch (deliveryRoutingKey msg key)
      (with_shared msg (handled_headers h) (handled_body h))
      (wrap 64 (ReadRetryCount (Delivery.Headers msg) + 1)) log ok /\
    settlements (observed acts t) =
      [(Delivery.DeliveryTag msg, false, if ok then None else Some true)] /\
    (forall a, In a log -> In a (observed acts t)) /\
    copies (observed acts t) = copies log.
Proof.
  intros Hrun Hin He Hnon Hlt.
  apply handling_delivered, delivered_inv in Hrun as (pre & hctx & m' & h' & body & res & post & Hl & Hs & Hpp).
  rewrite Hl in Hin |- *. assert (h' = h) as -> by (eapply handler_calls_once; eassumption).
  rewrite He in Hs.
  assert (Hset : settlements (pre ++ AHandled hctx m' h :: body ++ post) = settlements body /\
                 copies (pre ++ AHandled hctx m' h :: body ++ post) = copies body).
  { destruct Hpp as [(_ & -> & ->)|(_ & d & s & -> & ->)]; simpl; rewrite ?app_nil_r; [done|].
    unfold settlements, copies. simpl. by rewrite !omap_app, !app_nil_r. }
  destruct Hset as [-> ->]. rewrite (settled_settlements _ _ _ _ _ _ _ _ _ Hs).
  inversion Hs as [|? Hf|? log Hf Ha|? log Hf Ha]; subst.
  - unfold is_final in Hf. rewrite Hnon in Hf. apply bool_decide_eq_true in Hf. revert Hf. simpl. lia.
  - exists log, true. rewrite copies_app, app_nil_r. split_and!; [done..| |done].
    intros a Ha'. apply in_or_app. right. right. apply in_or_app. left. apply in_or_app. by left.
  - exists log, false. rewrite copies_app, app_nil_r. split_and!; [done..| |done].
    intros a Ha'. apply in_or_app. right. right. apply in_or_app. left. apply in_or_app. by left.
Qed.

(** ** A channel without confirms *)

(** amqp091-go: on an open channel that is not in confirm mode, a deferred publish sends the
    message and returns neither an error nor a confirmation. *)
Definition unconfirmed (ch : channel) : environment consumerE := fun X e x _ =>
  forall pctx exchange key mandatory immediate p dc,
    In (APublish ch pctx exchange key mandatory immediate p dc) (acts X e x) -> dc = Ok None.

Lemma unconfirmed_publish ch (t : trace consumerE) :
  Forall (fun ev => match ev with Ev e x => exists before, unconfirmed ch _ e x before end) t ->
  forall pctx exchange key mandatory immediate p dc,
    In (APublish ch pctx exchange key mandatory immediate p dc) (observed acts t) -> dc = Ok None.
Proof.
  intros Ht pctx exchange key mandatory immediate p dc.
  induction Ht as [|[X e x] t (b & Hev) _ IH]; simpl; [tauto|].
  rewrite in_app_iff. intros [?|Hin]; [tauto|]. exact (Hev _ _ _ _ _ _ _ Hin).
Qed.

Lemma unconfirmed_attempt c ch key msg n log ok :
  retry_attempt c ch key msg n log ok ->
  (forall pctx exchange key mandatory immediate p dc,
     In (APublish ch pctx exchange key mandatory immediate p dc) log -> dc = Ok None) ->
  ok = false /\ forall p, retry_copy msg n = Some p ->
    log = [APublish ch (ctx c) (Config.Exchange (cfg c)) key false false p (Ok None)].
Proof.
  intros Ha Hno. destruct Ha as [Hp|p e Hp|p Hp|p dc e Hp|p dc Hp|p dc Hp];
    try (specialize (Hno _ _ _ _ _ _ _ (or_introl eq_refl)); done).
  - split; [done|]. by rewrite Hp.
  - split; [done|]. rewrite Hp. by intros ? [= <-].
Qed.

(** C6: A retry needs a channel in confirm mode.  On an open channel without confirms a failed
    delivery with fewer than [MaxRetries] retries is requeued by its rejection although its
    copy, if the count fits the header, has been sent without an error as well: from then on
    the broker has the message twice.  (Sessions enable confirms only when [MaxRetries] is positive, so a message
    that arrives with a negative counter meets this case when [MaxRetries] is zero.) *)
Theorem unconfirmed_retry_duplicates cfg pctx ch q key msg t m h e :
  handling cfg pctx (unconfirmed ch) ch q key msg t ->
  In (m, h) (handler_calls (observed acts t)) ->
  outcome_error (handled_outcome h) = Some e -> IsNonRetryable (Some e) = false ->
  ReadRetryCount (Delivery.Headers msg) < Config.MaxRetries cfg ->
  settlements (observed acts t) = [(Delivery.DeliveryTag msg, false, Some true)] /\
  forall p, retry_copy (with_shared msg (handled_headers h) (handled_body h))
      (wrap 64 (ReadRetryCount (Delivery.Headers msg) + 1)) = Some p ->
    In (APublish ch (WithCancel pctx) (Config.Exchange cfg) (deliveryRoutingKey msg key)
          false false p (Ok None)) (observed acts t).
Proof.
  intros Hrun Hin He Hnon Hlt.
  destruct (handling_retryable _ _ _ _ _ _ _ _ _ _ _ Hrun Hin He Hnon Hlt) as (log & ok & Ha & Hset & Hlog & _).
  destruct (unconfirmed_attempt _ _ _ _ _ _ _ Ha) as [-> Hsent].
  { intros pctx' exchange key' mandatory immediate p dc Hp.
    eapply (unconfirmed_publish ch t (traced_answers _ _ _ _ Hrun)), Hlog, Hp. }
  split; [exact Hset|]. intros p Hp. apply Hlog. rewrite (Hsent p Hp). by left.
Qed.

Definition no_confirmation : forall X, amqpE X -> option X := fun X e =>
  match e with
  | ChPublishDeferred _ _ _ _ _ _ _ => Some (Ok None)
  | _ => None
  end.

Lemma example_unconfirmed :
  handling (normalize example_config) Background (unconfirmed 1) 1 "users" "user.created"
    (example_delivery (Some (-1))) (example_run failing no_confirmation (example_delivery (Some (-1)))).
Proof.
  unfold handling. change (example_run _ _ _) with (example_run failing no_confirmation (example_delivery (Some (-1)))).
  apply (scripted_runs_in _ (script failing no_confirmation as_before) 0); [|reflexivity].
  intros X e t. unfold unconfirmed. intros pctx exchange key mandatory immediate p dc.
  destruct e as [[[[[[[]|[]]|[]]|[]]|[]]|[]]|[]]; simpl; try done; intros [Hp|[]]; by inversion Hp.
Qed.

Lemma unconfirmed_retry_duplicates_witness :
  let t := example_run failing no_confirmation (example_delivery (Some (-1))) in
  settlements (observed acts t) = [(42%nat, false, Some true)] /\
  forall p, retry_copy (example_delivery (Some (-1))) 0 = Some p ->
    In (APublish 1 (WithCancel Background) "events" "user.created" false false p (Ok None))
      (observed acts t).
Proof.
  apply (unconfirmed_retry_duplicates _ _ _ _ _ _ _
    (messageFromDelivery (example_delivery (Some (-1))) (-1))
    (mkHandled failing (Some {["x-retry-count" := VInt32 (-1)]}) ["b"%char])
    (ENew "no") example_unconfirmed); [vm_compute; tauto|done..].
Defined.

(** ** The width of the counter *)

(** C19: The counter never wraps.  A failed delivery with fewer than [MaxRetries] retries [r],
    whatever its handler leaves in the headers, is copied exactly once, with the 32-bit
    counter [r + 1] and a delivery mode, when [r + 1] fits the 32 bits of the header; when it
    does not, no copy is published and the delivery is requeued: no copy ever carries a
    truncated counter, which would start the retries afresh. *)
Theorem retry_counter_exact cfg pctx env ch q key msg t m h e :
  let r := ReadRetryCount (Delivery.Headers msg) in
  handling cfg pctx env ch q key msg t ->
  In (m, h) (handler_calls (observed acts t)) ->
  outcome_error (handled_outcome h) = Some e -> IsNonRetryable (Some e) = false ->
  in_int64 r -> r < Config.MaxRetries cfg ->
  (MinInt32 <= r + 1 <= MaxInt32 -> exists p, copies (observed acts t) = [p] /\
     tbl (Publishing.Headers p) !! "x-retry-count" = Some (VInt32 (r + 1)) /\
     Publishing.DeliveryMode p <> 0) /\
  (~ MinInt32 <= r + 1 <= MaxInt32 -> copies (observed acts t) = [] /\
     settlements (observed acts t) = [(Delivery.DeliveryTag msg, false, Some true)]).
Proof.
  intros r Hrun Hin He Hnon Hr Hlt.
  destruct (handling_retryable _ _ _ _ _ _ _ _ _ _ _ Hrun Hin He Hnon Hlt) as (log & ok & Ha & Hset & _ & Hc).
  rewrite Hset, Hc. fold r in Ha.
  assert (Hcopy : forall hdrs body, retry_copy (with_shared msg hdrs body) (wrap 64 (r + 1)) =
    if bool_decide (in_int32 (r + 1)) then Some (retryPublishing
      (Some (<["x-retry-count" := VInt32 (r + 1)]> (tbl hdrs))) (with_shared msg hdrs body)) else None).
  { intros hdrs body. unfold retry_copy. destruct (decide (r + 1 <= MaxInt64)).
    - rewrite wrap64_id; [done|]. revert Hr. unfold in_int64. lia.
    - assert (Hm : r = MaxInt64) by (revert Hr; unfold in_int64; lia). by rewrite Hm. }
  split; intros Hn.
  - assert (Hp := Hcopy (handled_headers h) (handled_body h)). rewrite bool_decide_true in Hp by exact Hn.
    eexists. split; [|split; [|]]; [inversion Ha; subst; simplify_eq; reflexivity| |].
    + simpl. by rewrite lookup_insert_eq.
    + clear Hcopy. simpl. by case_bool_decide.
  - assert (Hp := Hcopy (handled_headers h) (handled_body h)). rewrite bool_decide_false in Hp by exact Hn.
    inversion Ha; subst; simplify_eq. done.
Qed.

(** A delivery whose counter is the largest that the header can hold. *)
Definition example_worn : Delivery.t := example_delivery (Some MaxInt32).
Definition patient_config : Config.t := normalize (example_config_with (MaxInt32 + 10)).

Definition worn_run : trace consumerE :=
  trace_of (script failing as_usual as_before) 0
    (handleDelivery (consumerOf patient_config Background) 1 "users" "user.created" example_worn userHandler).

Lemma retry_counter_exact_witness :
  copies (observed acts worn_run) = [] /\
  settlements (observed acts worn_run) = [(42%nat, false, Some true)].
Proof.
  apply (retry_counter_exact patient_config Background anything 1 "users" "user.created" example_worn worn_run
    (messageFromDelivery example_worn MaxInt32)
    (mkHandled failing (Delivery.Headers example_worn) ["b"%char]) (ENew "no")).
  - apply (scripted_runs (script failing as_usual as_before) 0). vm_compute. reflexivity.
  - vm_compute. tauto.
  - done.
  - done.
  - vm_compute. by split.
  - vm_compute. reflexivity.
  - vm_compute. intros [_ H]. by apply H.
Defined.

(** ** Termination *)

(** Handling a delivery always ends: whatever the broker, the clock and the instrumentation
    answer, and once the user's handler has answered, [handleDelivery] returns; it has no loop. *)
Theorem handleDelivery_terminates cfg pctx ch q key msg answer t :
  exists t', interp (scripted answer) 0
    (handleDelivery (consumerOf cfg pctx) ch q key msg userHandler) t = Some (tt, t').
Proof.
  destruct (loopfree_scripted answer 0 _ t (handleDelivery_loopfree (consumerOf cfg pctx) ch q key msg eq_refl))
    as ([] & t' & H). eauto.
Qed.
