(* ===== verification/FastPath.v ===== *)
(** * FastPath: without an Instrumentation, the library behaves as with one that does nothing.

    NewPublisher and NewConsumer recognise the no-op Instrumentation and skip it
    (pkg/rabbitmq/instrumentation.go, isNopInstrumentation); here the code that skips it is
    compared with the code that calls it, linked with [NopInstrumentation]. *)
From S2P Require Import Prelude AmqpData Errors Prog Machine Retry Config Amqp Topology Instr Dial Consumer Delivery Script Session Pool Publisher Expand PubScript PublisherProps.
Local Open Scope string_scope.
Local Open Scope Z_scope.
Local Open Scope go_scope.

(** ** Linking an Instrumentation *)

(** The operations of the interface become programs of the implementation, the others stay. *)
Definition with_instr {E F} `{instrE -< E} (lift : forall X, E X -> F X) (i : implementation instrE F)
  : implementation E F :=
  fun X e =>
    match project e with
    | Some e' => i X e'
    | None => Vis (lift X e) Ret
    end.

Definition same {E : Type -> Type} : forall X, E X -> E X := fun _ e => e.

Lemma with_instr_op {E F} `{instrE -< E} (lift : forall X, E X -> F X) (i : implementation instrE F) X (e : instrE X) :
  with_instr lift i X (inject e) = i X e.
Proof. unfold with_instr. by rewrite project_inject. Qed.

(** The func literals that NopInstrumentation returns. *)
Definition nop_callback : callback := mkCallback 0 [].

Definition nop_instr {E} : implementation instrE E :=
  fun X e =>
    match e with
    | StartPublish _ ctx p =>
        let! '(ctx, _) := NopStartPublish ctx p in
        Ret (mkStarted ctx nop_callback (PublishContext.Headers p))
    | EndPublish _ _ => Ret tt
    | StartConsume _ ctx d =>
        let! '(ctx, _) := NopStartConsume ctx d in
        Ret (mkStarted ctx nop_callback (DeliveryContext.Headers d))
    | EndConsume _ _ => Ret tt
    end.

(** A library linked with NopInstrumentation. *)
Definition with_nop {E} `{instrE -< E} : implementation E E := with_instr same nop_instr.

(** A call of the no-op Instrumentation is its answer. *)
Definition nop_answer {X} (e : instrE X) : X :=
  match e with
  | StartPublish _ ctx p => mkStarted ctx nop_callback (PublishContext.Headers p)
  | EndPublish _ _ => tt
  | StartConsume _ ctx d => mkStarted ctx nop_callback (DeliveryContext.Headers d)
  | EndConsume _ _ => tt
  end.

Lemma nop_call {E} `{instrE -< E} {X A} (e : instrE X) (f : X -> prog E A) :
  expand with_nop (bind (trigger e) f) = expand with_nop (f (nop_answer e)).
Proof.
  unfold trigger. cbn [bind expand]. unfold with_nop. rewrite with_instr_op. by destruct e.
Qed.

(** Code that does not call the Instrumentation. *)
Definition uninstrumented {E} `{instrE -< E} {A} (p : prog E A) : Prop :=
  everywhere (fun X e => match project e with Some _ => False | None => True end) p.

Lemma everywhere_mono {E} (P Q : forall X, E X -> Prop) {A} (p : prog E A) :
  (forall X e, P X e -> Q X e) -> everywhere P p -> everywhere Q p.
Proof. intros HPQ. induction p; simpl; naive_solver. Qed.

Lemma with_nop_id {E} `{instrE -< E} {A} (p : prog E A) : uninstrumented p -> expand with_nop p ≡ p.
Proof.
  intros Hp. apply expand_id. eapply everywhere_mono; [|exact Hp].
  intros X e. simpl. unfold with_nop, with_instr. by destruct (project e).
Qed.

(** ** Publishing *)

(** The publisher and the consumer without the shortcut: they call their Instrumentation
    whatever it is. *)
Definition always_instrumented (p : Publisher.t) : Publisher.t :=
  {| Publisher.cfg := Publisher.cfg p; Publisher.instr := Publisher.instr p; Publisher.instrIsNop := false |}.

Definition always_instrumented_consumer (c : Consumer.t) : Consumer.t :=
  {| Consumer.cfg := Consumer.cfg c; Consumer.instr := Consumer.instr c; Consumer.instrIsNop := false;
     Consumer.ctx := Consumer.ctx c; Consumer.retryPublish := Consumer.retryPublish c |}.

Lemma createPooledChannel_uninstrumented p : uninstrumented (createPooledChannel p).
Proof. unfold createPooledChannel, createConfirmChannel, enableConfirms, channelOpener, confirmEnabler, uninstrumented. scan. Qed.
#[export] Hint Resolve createPooledChannel_uninstrumented : scan.

Lemma publish_uninstrumented p ctx msg : uninstrumented (publish p ctx msg).
Proof.
  pose proof createPooledChannel_uninstrumented as H. unfold uninstrumented in *.
  unfold publish, borrowChannel, newChannelOrError, publishMandatory, publishOnChannel, returnPooled, discard. scan.
Qed.

Lemma publish_always p ctx msg : publish (always_instrumented p) ctx msg = publish p ctx msg.
Proof. reflexivity. Qed.

(** The message that is sent, with the headers made non-nil for the Instrumentation. *)
Lemma normalized_headers p msg :
  PublishMessage.with_headers (normalizePublishMessage (always_instrumented p) msg)
    (PublishMessage.Headers (normalizePublishMessage (always_instrumented p) msg)) =
  normalizePublishMessage p (PublishMessage.with_headers msg (Some (tbl (PublishMessage.Headers msg)))).
Proof. by destruct msg as [? ? ? [h|]]. Qed.

Section publish.
Context (config : Config.t).
Hypothesis no_instrumentation : isNopInstrumentation (instrumentation config) = true.

(** C17: Publishing without an Instrumentation is publishing with the no-op one, operation by
    operation; but a message without a header table is then sent with an empty one. *)
Theorem publish_fast_path ctx msg :
  expand with_nop (PublishMessage_ (always_instrumented (publisherOf config)) ctx msg) ≡
  PublishMessage_ (publisherOf config) ctx
    (PublishMessage.with_headers msg (Some (tbl (PublishMessage.Headers msg)))).
Proof.
  unfold PublishMessage_. cbn [publisherOf always_instrumented Publisher.instrIsNop]. rewrite no_instrumentation.
  apply peq_vis. intros closed. destruct closed; [done|]. cbv zeta.
  cbn [bind]. rewrite nop_call.
  rewrite expand_bind. rewrite with_nop_id by apply publish_uninstrumented.
  etransitivity; [|apply bind_ret]. apply bind_cong.
  - cbn [nop_answer started_ctx started_headers PublishContext.Headers].
    by rewrite publish_always, normalized_headers.
  - intros err. by rewrite nop_call.
Qed.
End publish.

(** ** Handling a delivery *)

Lemma uninstrumented_user hctx m : uninstrumented (userHandler hctx m).
Proof. unfold uninstrumented, userHandler. scan. Qed.

Section delivery.
Context (c : Consumer.t) (handler : Handler).
Hypothesis no_instrumentation : Consumer.instrIsNop c = true.
Hypothesis no_hook : Consumer.retryPublish c = None.
Hypothesis user_code : forall hctx m, uninstrumented (handler hctx m).

Lemma with_shared_id msg : with_shared msg (Delivery.Headers msg) (Delivery.Body msg) = msg.
Proof. by destruct msg. Qed.

Lemma callHandler_uninstrumented hctx msg r : uninstrumented (callHandler hctx msg r handler).
Proof. pose proof user_code as H. unfold uninstrumented, callHandler in *. scan. Qed.

Lemma handleHandlerError_uninstrumented hctx ch q key msg r e :
  uninstrumented (handleHandlerError c hctx ch q key msg r e).
Proof.
  unfold uninstrumented, handleHandlerError, publishRetry, republishWithRetry. rewrite no_hook. scan.
Qed.

(** C18: Handling a delivery without an Instrumentation is handling it with the no-op one, operation by
    operation. *)
Theorem delivery_fast_path ch q key msg :
  expand with_nop (handleDelivery (always_instrumented_consumer c) ch q key msg handler) ≡
  handleDelivery c ch q key msg handler.
Proof.
  unfold handleDelivery. cbn [always_instrumented_consumer Consumer.instrIsNop]. rewrite no_instrumentation.
  cbv zeta. rewrite expand_bind, nop_call.
  cbn [bind expand nop_answer started_ctx started_headers started_end DeliveryContext.Headers].
  rewrite with_shared_id, expand_bind, with_nop_id by apply callHandler_uninstrumented.
  apply bind_cong; [done|]. intros [err msg1]. rewrite expand_bind.
  apply bind_cong.
  - apply with_nop_id. destruct err; [|unfold uninstrumented; scan].
    apply (handleHandlerError_uninstrumented (Consumer.ctx c) ch q _ msg1).
  - intros res. change (expand with_nop (bind (trigger (EndConsume nop_callback res)) Ret) ≡ Ret tt).
    by rewrite nop_call.
Qed.
End delivery.

(** ** Concrete cases *)

Lemma publish_fast_path_witness :
  isNopInstrumentation (instrumentation (normalize (pool_config 1))) = true /\
  expand with_nop
    (PublishMessage_ (always_instrumented (publisherOf (normalize (pool_config 1)))) None example_message) ≡
  PublishMessage_ (publisherOf (normalize (pool_config 1))) None
    (PublishMessage.with_headers example_message (Some ∅)).
Proof.
  split; [reflexivity|].
  apply (publish_fast_path (normalize (pool_config 1)) eq_refl None example_message).
Defined.

Lemma delivery_fast_path_witness :
  expand with_nop
    (handleDelivery (always_instrumented_consumer example_consumer) 1 "users" "user.created"
       (example_delivery (Some 1)) userHandler) ≡
  handleDelivery example_consumer 1 "users" "user.created" (example_delivery (Some 1)) userHandler.
Proof.
  apply (delivery_fast_path example_consumer userHandler eq_refl eq_refl uninstrumented_user).
Defined.
