(* ===== verification/Carrier.v ===== *)
(** * Carrier: message headers as a carrier of trace context (pkg/otelrabbitmq/carrier.go).

    The TextMapCarrier interface of OpenTelemetry's propagation package is a class with laws,
    which the header tables of the library implement; a TextMapPropagator is the application's
    choice, and stays a parameter with its documented laws. *)
From stdpp Require Import pretty.
From S2P Require Import Prelude AmqpData Errors Prog Retry Amqp.
Local Open Scope string_scope.
Local Open Scope list_scope.

(** ** The interfaces *)

(** Set writes to the carrier in place: it yields the carrier as it is afterwards.  The order of
    the keys is not fixed: [Keys c ks] when a call may return [ks]. *)
Class TextMapCarrier (C : Type) : Type := {
  Get : C -> string -> string;
  Set_ : C -> string -> string -> C;
  Keys : C -> list string -> Prop
}.

(** What a carrier that can be written to promises. *)
Class CarrierLaws (C : Type) `{TextMapCarrier C} (writable : C -> Prop) : Prop := {
  writable_set c k v : writable c -> writable (Set_ c k v);
  get_set_eq c k v : writable c -> Get (Set_ c k v) k = v;
  get_set_ne c k k' v : k' <> k -> Get (Set_ c k v) k' = Get c k';
  keys_set c k v ks ks' : writable c -> Keys c ks -> Keys (Set_ c k v) ks' ->
    forall k', In k' ks' <-> k' = k \/ In k' ks
}.

(** propagation.TextMapPropagator, which acts on a carrier through Set and Get only: the pairs
    that Inject sets, in order, and the context that Extract makes of what it gets. *)
Record TextMapPropagator : Type := {
  injected : context -> list (string * string);
  extracted : context -> (string -> string) -> context;
  Fields : list string
}.

Section propagator.
Context {C : Type} `{TextMapCarrier C}.

Definition Inject (P : TextMapPropagator) (ctx : context) (c : C) : C :=
  foldl (fun c '(k, v) => Set_ c k v) c (injected P ctx).

Definition Extract (P : TextMapPropagator) (ctx : context) (c : C) : context :=
  extracted P ctx (Get c).
End propagator.

(** The documented behaviour of a propagator, for the trace identity [trace_of] that a context
    carries: Inject sets fields of the propagator, each once; Extract looks at its fields only,
    and recovers the identity from what Inject set for a context that has one. *)
Class Propagates {T : Type} (P : TextMapPropagator) (trace_of : context -> option T) : Prop := {
  inject_fields ctx k v : In (k, v) (injected P ctx) -> In k (Fields P);
  inject_once ctx : NoDup (map fst (injected P ctx));
  inject_some ctx tr : trace_of ctx = Some tr -> injected P ctx <> [];
  extract_fields ctx g g' : (forall k, In k (Fields P) -> g k = g' k) -> extracted P ctx g = extracted P ctx g';
  extract_inject parent ctx tr g : trace_of ctx = Some tr ->
    (forall k v, In (k, v) (injected P ctx) -> g k = v) -> trace_of (extracted P parent g) = Some tr
}.

Section laws.
Context {C : Type} `{CarrierLaws C writable} (P : TextMapPropagator).

Lemma inject_writable ctx (c : C) : writable c -> writable (Inject P ctx c).
Proof.
  unfold Inject. generalize (injected P ctx). intros l. revert c.
  induction l as [|[k v] l IH]; intros c Hc; [done|]. simpl. by apply IH, writable_set.
Qed.

Lemma get_inject_ne ctx (c : C) k : ~ In k (map fst (injected P ctx)) -> Get (Inject P ctx c) k = Get c k.
Proof.
  unfold Inject. generalize (injected P ctx). intros l. revert c.
  induction l as [|[k' v] l IH]; intros c; simpl; [done|]. intros Hk.
  rewrite IH by tauto. apply get_set_ne. naive_solver.
Qed.

Lemma get_inject_in ctx (c : C) k v :
  NoDup (map fst (injected P ctx)) -> writable c -> In (k, v) (injected P ctx) -> Get (Inject P ctx c) k = v.
Proof.
  unfold Inject. generalize (injected P ctx). intros l. revert c.
  induction l as [|[k' v'] l IH]; intros c; simpl; [done|]. intros Hnd Hc.
  apply NoDup_cons in Hnd as [Hnin Hnd]. intros [[= -> ->]|Hin]; [|by apply IH; [|apply writable_set|]].
  assert (Hrest : forall (c : C), Get (foldl (fun c '(k, v) => Set_ c k v) c l) k = Get c k).
  { clear -Hnin H0. intros c. revert c. induction l as [|[k' v'] l IH]; intros c; [done|]. simpl in *.
    rewrite list_elem_of_In in Hnin. simpl in Hnin.
    rewrite IH by (rewrite list_elem_of_In; tauto). apply get_set_ne. naive_solver. }
  rewrite Hrest. by apply get_set_eq.
Qed.

(** What was injected into a carrier can be extracted from any carrier that agrees with it on
    the propagator's fields. *)
Lemma extract_carried {T} (trace_of : context -> option T) `{!Propagates P trace_of} {C'} `{TextMapCarrier C'}
    parent ctx tr (c : C) (c' : C') :
  trace_of ctx = Some tr -> writable c ->
  (forall k, In k (Fields P) -> Get c' k = Get (Inject P ctx c) k) ->
  trace_of (Extract P parent c') = Some tr.
Proof.
  intros Htr Hc Hg. unfold Extract.
  rewrite (extract_fields _ _ (Get (Inject P ctx c))) by done.
  eapply (extract_inject parent ctx tr); [done|]. intros k v Hkv. apply get_inject_in; [apply inject_once|done|done].
Qed.
End laws.

(** ** carrier.go *)

(** fmt.Sprint of a header value. *)
Definition Sprint (v : value) : string :=
  match v with
  | VInt32 z => pretty z
  | VInt64 z => pretty z
  | VInt z => pretty z
  | VString s => s
  | VBytes b =>
      "[" +:+ String.concat " " (map (fun c => pretty (Z.of_nat (nat_of_ascii c))) b) +:+ "]"
  | VBool b => if b then "true" else "false"
  | VOther printed => printed
  end.

(** The conversion from an amqp.Table keeps the table. *)
Definition headerCarrier : Type := Table.

Definition headerCarrier_Get (c : headerCarrier) (key : string) : string :=
  match c with
  | None => ""
  | Some c =>
      match c !! key with
      | None => ""
      | Some (VString typed) => typed
      | Some (VBytes typed) => string_of_list_ascii typed
      | Some typed => Sprint typed
      end
  end.

Definition headerCarrier_Set (c : headerCarrier) (key value : string) : headerCarrier :=
  match c with
  | None => None
  | Some c => Some (<[key := VString value]> c)
  end.

(** The loop of Keys over the entries of the table in the order in which range visits them. *)
Definition keys_loop (entries : list (string * value)) : list string :=
  foldl (fun keys '(key, _) => keys ++ [key])%list [] entries.

Definition headerCarrier_Keys (c : headerCarrier) (keys : list string) : Prop :=
  exists entries, entries ≡ₚ map_to_list (tbl c) /\ keys = keys_loop entries.

#[export] Instance headerCarrier_carrier : TextMapCarrier headerCarrier := {
  Get := headerCarrier_Get;
  Set_ := headerCarrier_Set;
  Keys := headerCarrier_Keys
}.

(** ** The carrier meets the interface *)

Lemma keys_loop_map entries : keys_loop entries = map fst entries.
Proof.
  unfold keys_loop. enough (H : forall acc, foldl (fun keys '(key, _) => keys ++ [key])%list acc entries = acc ++ map fst entries)
    by apply H.
  induction entries as [|[k v] l IH]; intros acc; simpl; [by rewrite app_nil_r|]. by rewrite IH, <- app_assoc.
Qed.

Lemma keys_spec c ks : headerCarrier_Keys c ks -> NoDup ks /\ forall k, In k ks <-> is_Some (tbl c !! k).
Proof.
  intros (entries & He & ->). rewrite keys_loop_map.
  assert (Hp : map fst entries ≡ₚ (map_to_list (tbl c)).*1) by (by rewrite He). rewrite Hp. split.
  - apply NoDup_fst_map_to_list.
  - intros k. rewrite <- list_elem_of_In, Hp, list_elem_of_In. rewrite <- list_elem_of_In, list_elem_of_fmap. split.
    + intros ((k' & v) & -> & Hin). apply elem_of_map_to_list in Hin. simpl. eauto.
    + intros [v Hv]. exists (k, v). split; [done|]. by apply elem_of_map_to_list.
Qed.

#[export] Instance headerCarrier_laws : CarrierLaws headerCarrier (fun c => c <> None).
Proof.
  split.
  - by intros [c|] k v.
  - intros [c|] k v Hc; [|done]. simpl. by rewrite lookup_insert_eq.
  - intros [c|] k k' v Hk; [|done]. simpl. by rewrite lookup_insert_ne by done.
  - intros [c|] k v ks ks' Hc; [|done]. intros [_ Hks]%keys_spec [_ Hks']%keys_spec k'.
    rewrite Hks', Hks. simpl. rewrite lookup_insert_is_Some'. naive_solver.
Qed.
