(* ===== verification/Otel.v ===== *)
(** * Otel: the OpenTelemetry instrumentation (pkg/otelrabbitmq/otelrabbitmq.go and metrics.go).

    The OpenTelemetry API is not part of the repository: its calls are operations whose answers
    the environment chooses, and its propagators are a parameter.  Providers, tracers, meters,
    instruments, spans and propagators are handles. *)
From S2P Require Import Prelude AmqpData Errors Prog Machine Config Amqp Instr Pool Expand FastPath Carrier.
Local Open Scope string_scope.
Local Open Scope list_scope.
Local Open Scope Z_scope.
Local Open Scope go_scope.

(** ** The OpenTelemetry API *)

Inductive attribute_value : Type :=
| AString (s : string)
| AInt (z : Z)
| ABool (b : bool).

Record KeyValue : Type := mkKeyValue { kv_key : string; kv_value : attribute_value }.

Definition attribute_String (k v : string) : KeyValue := mkKeyValue k (AString v).
Definition attribute_Int (k : string) (v : Z) : KeyValue := mkKeyValue k (AInt v).
Definition attribute_Bool (k : string) (v : bool) : KeyValue := mkKeyValue k (ABool v).

Inductive SpanKind : Type := SpanKindProducer | SpanKindConsumer.

Inductive status_code : Type := codes_Error | codes_Ok.

(** The options of Add and Record: a list of attributes, or a set built from one. *)
Inductive metric_attributes : Type :=
| WithAttributes (attrs : list KeyValue)
| WithAttributeSet (attrs : list KeyValue).

(** A float64 number of seconds: Duration.Seconds of a duration in nanoseconds. *)
Inductive seconds : Type := Seconds (d : Z).

Inductive otelE : Type -> Type :=
(* package otel *)
| GetTracerProvider : otelE nat
| GetMeterProvider : otelE nat
| GetTextMapPropagator : otelE nat
(* TracerProvider, MeterProvider *)
| ProviderTracer (tp : nat) (name : string) : otelE nat
| ProviderMeter (mp : nat) (name : string) : otelE nat
(* Meter; the errors are dropped *)
| MeterInt64Counter (m : nat) (name description : string) : otelE nat
| MeterFloat64Histogram (m : nat) (name unit_ description : string) : otelE nat
(* Tracer, Span *)
| TracerStart (tracer : nat) (ctx : context) (name : string) (kind : SpanKind) (attrs : list KeyValue)
    : otelE (context * nat)
| SpanRecordError (span : nat) (err : error) : otelE unit
| SpanSetStatus (span : nat) (code : status_code) (description : string) : otelE unit
| SpanSetAttributes (span : nat) (attrs : list KeyValue) : otelE unit
| SpanEnd (span : nat) : otelE unit
(* Int64Counter, Float64Histogram *)
| Int64CounterAdd (counter : nat) (ctx : context) (incr : Z) (attrs : metric_attributes) : otelE unit
| Float64HistogramRecord (histogram : nat) (ctx : context) (value : seconds) (attrs : metric_attributes)
    : otelE unit.

(** ** metrics.go *)

Record metrics : Type := mkMetrics { messages : nat; duration : nat; deadLetter : nat }.

Definition newMetrics {E} `{otelE -< E} (m : nat) (prefix : string) : prog E metrics :=
  let! messages := trigger (MeterInt64Counter m (prefix +:+ ".messages.total")
                     "Total RabbitMQ messages processed by the consumer.") in
  let! duration := trigger (MeterFloat64Histogram m (prefix +:+ ".message.duration.seconds") "s"
                     "Time spent processing a RabbitMQ message.") in
  let! deadLetter := trigger (MeterInt64Counter m (prefix +:+ ".deadletter.total")
                       "Total messages sent to the dead-letter queue.") in
  Ret (mkMetrics messages duration deadLetter).

(** ** Construction *)

Definition instrumentationName : string := "github.com/Midwayne/rabbitmq-go/pkg/otelrabbitmq".
Definition defaultMetricPrefix : string := "rabbitmq".

Record config : Type := mkConfig {
  tracerProvider : nat;
  meterProvider : nat;
  propagator : nat;
  metricPrefix : string
}.

(** A func of a *config: the config as the call leaves it. *)
Definition Option_ : Type := config -> config.

(** The arguments are interface values: [None] is nil. *)
Definition WithTracerProvider (tp : option nat) : Option_ := fun c =>
  match tp with
  | Some tp => mkConfig tp (meterProvider c) (propagator c) (metricPrefix c)
  | None => c
  end.

Definition WithMeterProvider (mp : option nat) : Option_ := fun c =>
  match mp with
  | Some mp => mkConfig (tracerProvider c) mp (propagator c) (metricPrefix c)
  | None => c
  end.

Definition WithPropagator (p : option nat) : Option_ := fun c =>
  match p with
  | Some p => mkConfig (tracerProvider c) (meterProvider c) p (metricPrefix c)
  | None => c
  end.

Definition WithMetricPrefix (prefix : string) : Option_ := fun c =>
  if negb (bool_decide (prefix = "")) then
    mkConfig (tracerProvider c) (meterProvider c) (propagator c) prefix
  else c.

Record instrumentation : Type := mkInstrumentation {
  in_tracer : nat;
  in_propagator : nat;
  in_metrics : metrics
}.

(** The loop over the options. *)
Definition apply_options (opts : list Option_) (cfg : config) : config :=
  foldl (fun cfg opt => opt cfg) cfg opts.

Definition New {E} `{otelE -< E} (opts : list Option_) : prog E instrumentation :=
  let! tp := trigger GetTracerProvider in
  let! mp := trigger GetMeterProvider in
  let! prop := trigger GetTextMapPropagator in
  let cfg := apply_options opts (mkConfig tp mp prop defaultMetricPrefix) in
  let! tracer := trigger (ProviderTracer (tracerProvider cfg) instrumentationName) in
  let! meter := trigger (ProviderMeter (meterProvider cfg) instrumentationName) in
  let! ms := newMetrics meter (metricPrefix cfg) in
  Ret (mkInstrumentation tracer (propagator cfg) ms).

(** ** Instrumenting *)

Section instrumentation.
(** The propagators behind their handles, and the text of errors (a dynamic dispatch to Error). *)
Context (propagators : nat -> TextMapPropagator) (Error_ : error -> string).

Section operations.
Context {E : Type -> Type} `{otelE -< E} `{sysE -< E} (in_ : instrumentation).

(** The func literal that StartPublish returns. *)
Definition publishDone (span : nat) (err : option error) : prog E unit :=
  match err with
  | Some err =>
      trigger (SpanRecordError span err) ;;;
      trigger (SpanSetStatus span codes_Error (Error_ err))
  | None => trigger (SpanSetStatus span codes_Ok "")
  end ;;;
  trigger (SpanEnd span).

(** What a func literal captures. *)
Definition publishClosure (span : nat) : callback := mkCallback 1 [CapInt (Z.of_nat span)].

Definition StartPublish_ (ctx : context) (p : PublishContext.t) : prog E started :=
  let! '(ctx, span) := trigger (TracerStart (in_tracer in_) ctx "rabbitmq.publish" SpanKindProducer
    [attribute_String "messaging.system" "rabbitmq";
     attribute_String "messaging.destination.name" (PublishContext.Exchange p);
     attribute_String "messaging.rabbitmq.routing_key" (PublishContext.RoutingKey p);
     attribute_Int "messaging.message.body.size" (PublishContext.BodySize p)]) in
  let headers := Inject (C := headerCarrier) (propagators (in_propagator in_)) ctx (PublishContext.Headers p) in
  Ret (mkStarted ctx (publishClosure span) headers).

(** The func literal that StartConsume returns; of the DeliveryContext it reads the queue and
    the routing key. *)
Definition consumeDone (ctx : context) (span : nat) (startedAt : Z) (queue key : string)
    (res : ConsumeResult.t) : prog E unit :=
  let! status :=
    match ConsumeResult.Err_ res with
    | Some err =>
        trigger (SpanRecordError span err) ;;;
        trigger (SpanSetStatus span codes_Error (Error_ err)) ;;;
        Ret "error"
    | None =>
        trigger (SpanSetStatus span codes_Ok "") ;;;
        Ret "ok"
    end in
  let attrs :=
    [attribute_String "messaging.destination.name" queue;
     attribute_String "messaging.rabbitmq.routing_key" key;
     attribute_String "messaging.process.status" status;
     attribute_Bool "messaging.rabbitmq.acked" (ConsumeResult.Acked res);
     attribute_Bool "messaging.rabbitmq.nacked" (ConsumeResult.Nacked res);
     attribute_Bool "messaging.rabbitmq.requeued" (ConsumeResult.Requeued res);
     attribute_Bool "messaging.rabbitmq.retried" (ConsumeResult.Retried res)] in
  trigger (SpanSetAttributes span attrs) ;;;
  let metricAttrs := WithAttributeSet attrs in
  trigger (Int64CounterAdd (messages (in_metrics in_)) ctx 1 metricAttrs) ;;;
  let! now := trigger TimeNow in
  trigger (Float64HistogramRecord (duration (in_metrics in_)) ctx (Seconds (time_sub now startedAt)) metricAttrs) ;;;
  (if ConsumeResult.DeadLettered res then
     trigger (Int64CounterAdd (deadLetter (in_metrics in_)) ctx 1
       (WithAttributes [attribute_String "messaging.destination.name" queue;
                        attribute_Bool "messaging.non_retryable" (ConsumeResult.NonRetryable res)]))
   else Ret tt) ;;;
  trigger (SpanEnd span).

Definition consumeClosure (ctx : context) (span : nat) (startedAt : Z) (queue key : string) : callback :=
  mkCallback 2 [CapContext ctx; CapInt (Z.of_nat span); CapInt startedAt; CapString queue; CapString key].

(** The context of a consumer span: that of the headers, if there are any. *)
Definition extractedCtx (ctx : context) (headers : Table) : context :=
  if bool_decide (Z.of_nat (size (tbl headers)) > 0) then
    Extract (C := headerCarrier) (propagators (in_propagator in_)) ctx headers
  else ctx.

Definition StartConsume_ (ctx : context) (d : DeliveryContext.t) : prog E started :=
  let ctx := extractedCtx ctx (DeliveryContext.Headers d) in
  let! '(ctx, span) := trigger (TracerStart (in_tracer in_) ctx "rabbitmq.consume" SpanKindConsumer
    [attribute_String "messaging.system" "rabbitmq";
     attribute_String "messaging.destination.name" (DeliveryContext.Queue d);
     attribute_String "messaging.rabbitmq.routing_key" (DeliveryContext.RoutingKey d);
     attribute_String "messaging.operation" "process";
     attribute_Int "messaging.message.body.size" (DeliveryContext.BodySize d);
     attribute_Int "messaging.retry_count" (DeliveryContext.RetryCount d)]) in
  let! startedAt := trigger TimeNow in
  Ret (mkStarted ctx
         (consumeClosure ctx span startedAt (DeliveryContext.Queue d) (DeliveryContext.RoutingKey d))
         (DeliveryContext.Headers d)).

(** The interface rabbitmq.Instrumentation: a call of a func value runs its code on what it
    captured. *)
Definition otel_instr : implementation instrE E :=
  fun X e =>
    match e with
    | StartPublish _ ctx p => StartPublish_ ctx p
    | EndPublish cb err =>
        match cb with
        | mkCallback 1 [CapInt span] => publishDone (Z.to_nat span) err
        | _ => Ret tt
        end
    | StartConsume _ ctx d => StartConsume_ ctx d
    | EndConsume cb res =>
        match cb with
        | mkCallback 2 [CapContext ctx; CapInt span; CapInt startedAt; CapString queue; CapString key] =>
            consumeDone ctx (Z.to_nat span) startedAt queue key res
        | _ => Ret tt
        end
    end.
End operations.

(** The library linked with an OpenTelemetry instrumentation. *)
Definition with_otel {E} `{instrE -< E} `{sysE -< E} (in_ : instrumentation) : implementation E (E +' otelE) :=
  with_instr (F := E +' otelE) (fun _ e => inl1 e) (otel_instr (E := E +' otelE) in_).
End instrumentation.
