(* ===== verification/OtelProps.v ===== *)
(** * OtelProps: what the OpenTelemetry instrumentation records of publishes and deliveries.

    The library is linked with the instrumentation ([Expand]); what is shown of a linked run is
    compared with the specifications of [PublisherProps] and [Delivery]. *)
From S2P Require Import Prelude AmqpData Errors Prog Machine Retry Config Amqp Instr Dial Consumer Delivery Script Pool Publisher Expand PubScript PublisherProps FastPath Carrier Otel.
Local Open Scope string_scope.
Local Open Scope list_scope.
Local Open Scope Z_scope.

(** ** Observations *)

(** What is shown of the library, and the calls of the OpenTelemetry API with their answers. *)
Definition with_calls {E B} (g : forall X, E X -> X -> list B) (X : Type) (e : (E +' otelE) X)
  : X -> list (B + event otelE) :=
  match e with
  | inl1 e => fun x => map inl (g X e x)
  | inr1 o => fun x => [inr (Ev o x)]
  end.

(** An operation that the implementation leaves alone is shown as before. *)
Lemma untouched {E B} (env : environment (E +' otelE)) (g : forall X, E X -> X -> list B)
    (R : B -> list (B + event otelE) -> Prop) X (e : E X) u :
  (forall x, Forall (fun b => R b [inl b]) (g X e x)) ->
  wp (traced env) (Vis (inl1 e) Ret) u (fun x u' => since u u' (fun l =>
    exists ls, observed (with_calls g) l = concat ls /\ Forall2 R (g X e x) ls)).
Proof.
  intros HR x u' [_ ->]. exists [Ev (inl1 e) x]. split; [done|].
  exists (map (fun b => [inl b]) (g X e x)). split.
  - unfold observed, shown. simpl. induction (g X e x) as [|b l IH]; [done|]. simpl. by rewrite IH.
  - induction (HR x) as [|b l Hb _ IH]; constructor; done.
Qed.

(** Calls whose answer is of no interest. *)
Definition call (e : otelE unit) : event otelE := Ev e tt.

Section otel.
Context (propagators : nat -> TextMapPropagator) (Error_ : error -> string) (in_ : instrumentation).

Abbreviation P := (propagators (in_propagator in_)).

(** A producer span: its start, a child of [ctx], and its end with the status of [err]. *)
Definition producer_start (ctx : context) (p : PublishContext.t) (ctx' : context) (span : nat) : event otelE :=
  Ev (TracerStart (in_tracer in_) ctx "rabbitmq.publish" SpanKindProducer
        [mkKeyValue "messaging.system" (AString "rabbitmq");
         mkKeyValue "messaging.destination.name" (AString (PublishContext.Exchange p));
         mkKeyValue "messaging.rabbitmq.routing_key" (AString (PublishContext.RoutingKey p));
         mkKeyValue "messaging.message.body.size" (AInt (PublishContext.BodySize p))]) (ctx', span).

Definition span_status (span : nat) (err : option error) : list (event otelE) :=
  match err with
  | Some err => [call (SpanRecordError span err); call (SpanSetStatus span codes_Error (Error_ err))]
  | None => [call (SpanSetStatus span codes_Ok "")]
  end.

Definition producer_end (span : nat) (err : option error) : list (event otelE) :=
  span_status span err ++ [call (SpanEnd span)].

(** A consumer span: its start, and its end with the status and the metrics of [res]. *)
Definition consumer_start (ctx : context) (d : DeliveryContext.t) (ctx' : context) (span : nat) : event otelE :=
  Ev (TracerStart (in_tracer in_) ctx "rabbitmq.consume" SpanKindConsumer
        [mkKeyValue "messaging.system" (AString "rabbitmq");
         mkKeyValue "messaging.destination.name" (AString (DeliveryContext.Queue d));
         mkKeyValue "messaging.rabbitmq.routing_key" (AString (DeliveryContext.RoutingKey d));
         mkKeyValue "messaging.operation" (AString "process");
         mkKeyValue "messaging.message.body.size" (AInt (DeliveryContext.BodySize d));
         mkKeyValue "messaging.retry_count" (AInt (DeliveryContext.RetryCount d))]) (ctx', span).

(** The attributes of the result of a delivery. *)
Definition result_attributes (queue key : string) (res : ConsumeResult.t) : list KeyValue :=
  [mkKeyValue "messaging.destination.name" (AString queue);
   mkKeyValue "messaging.rabbitmq.routing_key" (AString key);
   mkKeyValue "messaging.process.status"
     (AString (match ConsumeResult.Err_ res with Some _ => "error" | None => "ok" end));
   mkKeyValue "messaging.rabbitmq.acked" (ABool (ConsumeResult.Acked res));
   mkKeyValue "messaging.rabbitmq.nacked" (ABool (ConsumeResult.Nacked res));
   mkKeyValue "messaging.rabbitmq.requeued" (ABool (ConsumeResult.Requeued res));
   mkKeyValue "messaging.rabbitmq.retried" (ABool (ConsumeResult.Retried res))].

Definition consumer_end (ctx : context) (span : nat) (queue key : string) (took : Z) (res : ConsumeResult.t)
  : list (event otelE) :=
  let attrs := result_attributes queue key res in
  span_status span (ConsumeResult.Err_ res) ++
  [call (SpanSetAttributes span attrs);
   call (Int64CounterAdd (messages (in_metrics in_)) ctx 1 (WithAttributeSet attrs));
   call (Float64HistogramRecord (duration (in_metrics in_)) ctx (Seconds took) (WithAttributeSet attrs))] ++
  (if ConsumeResult.DeadLettered res then
     [call (Int64CounterAdd (deadLetter (in_metrics in_)) ctx 1
              (WithAttributes [mkKeyValue "messaging.destination.name" (AString queue);
                               mkKeyValue "messaging.non_retryable" (ABool (ConsumeResult.NonRetryable res))]))]
   else []) ++
  [call (SpanEnd span)].

(** ** The calls of each operation *)

Section operations.
Context {E : Type -> Type} {B : Type} `{sysE -< E} (env : environment (E +' otelE)).
Context (g : forall X, E X -> X -> list B).
Hypothesis clock_hidden : forall x, g _ (inject TimeNow) x = [].

(** What a run of code adds to what is shown. *)
Abbreviation adds := (fun u u' log => since u u' (fun l => observed (with_calls g) l = log)).

Lemma StartPublish_wp ctx p u :
  wp (traced env) (StartPublish_ propagators in_ ctx p) u (fun s u' => exists ctx' span,
    s = mkStarted ctx' (publishClosure span) (Inject (C := headerCarrier) P ctx' (PublishContext.Headers p)) /\
    adds u u' [inr (producer_start ctx p ctx' span)]).
Proof. unfold StartPublish_. wp_step. destruct x as [ctx' span]. wp_step. exists ctx', span. split; [done|]. by observe. Qed.

Lemma publishDone_wp span err u :
  wp (traced env) (publishDone Error_ span err) u (fun _ u' => adds u u' (map inr (producer_end span err))).
Proof.
  unfold publishDone. destruct err; wp_all; repeat match goal with x : () |- _ => destruct x end; by observe.
Qed.

Lemma StartConsume_wp ctx d u :
  wp (traced env) (StartConsume_ propagators in_ ctx d) u (fun s u' => exists ctx' span startedAt,
    s = mkStarted ctx' (consumeClosure ctx' span startedAt (DeliveryContext.Queue d) (DeliveryContext.RoutingKey d))
          (DeliveryContext.Headers d) /\
    adds u u' [inr (consumer_start (extractedCtx propagators in_ ctx (DeliveryContext.Headers d)) d ctx' span)]).
Proof.
  unfold StartConsume_. cbv zeta. wp_step. destruct x as [ctx' span]. wp_step. wp_step. exists ctx', span, x.
  split; [done|]. observe. by rewrite clock_hidden.
Qed.

Lemma consumeDone_wp ctx span startedAt queue key res u :
  wp (traced env) (consumeDone Error_ in_ ctx span startedAt queue key res) u (fun _ u' => exists took,
    adds u u' (map inr (consumer_end ctx span queue key took res))).
Proof.
  unfold consumeDone, consumer_end, result_attributes. destruct res as [[e|] [] nr ack nack rq rt]; cbv zeta;
    wp_all; repeat match goal with x : () |- _ => destruct x end; cbn [ConsumeResult.DeadLettered ConsumeResult.Err_]; wp_all;
    repeat match goal with x : () |- _ => destruct x end; eexists; observe; rewrite ?clock_hidden; reflexivity.
Qed.

(** Running the func literals from their closures. *)
Lemma EndPublish_wp cb err u :
  wp (traced env) (otel_instr propagators Error_ in_ _ (EndPublish cb err)) u (fun _ u' => exists log,
    adds u u' log /\ forall span, cb = publishClosure span -> log = map inr (producer_end span err)).
Proof.
  simpl. destruct cb as [code caps].
  repeat match goal with |- wp _ (match ?x with _ => _ end) _ _ => is_var x; destruct x end;
    try (apply wp_ret; exists []; split; [by apply since_here|]; by intros ? [=]).
  eapply wp_mono; [|apply publishDone_wp]. intros [] u' Hu. eexists. split; [exact Hu|].
  intros span [= Hz]. by rewrite Hz, Nat2Z.id.
Qed.

Lemma EndConsume_wp cb res u :
  wp (traced env) (otel_instr propagators Error_ in_ _ (EndConsume cb res)) u (fun _ u' => exists log,
    adds u u' log /\ forall ctx span startedAt queue key, cb = consumeClosure ctx span startedAt queue key ->
      exists took, log = map inr (consumer_end ctx span queue key took res)).
Proof.
  simpl. destruct cb as [code caps].
  repeat match goal with |- wp _ (match ?x with _ => _ end) _ _ => is_var x; destruct x end;
    try (apply wp_ret; exists []; split; [by apply since_here|]; by intros ? ? ? ? ? [=]).
  eapply wp_mono; [|apply consumeDone_wp]. intros [] u' [took Hu]. eexists. split; [exact Hu|].
  intros ctx0 span startedAt queue key [= <- Hz _ <- <-]. exists took. by rewrite Hz, Nat2Z.id.
Qed.
End operations.

(** ** Publishing *)

(** What the implementation makes of an observation of the publisher. *)
Definition publish_shown (a : pact) (l : list (pact + event otelE)) : Prop :=
  match a with
  | PStart ctx p s => exists ctx' span,
      s = mkStarted ctx' (publishClosure span) (Inject (C := headerCarrier) P ctx' (PublishContext.Headers p)) /\
      l = [inr (producer_start ctx p ctx' span)]
  | PEnd cb err => forall span, cb = publishClosure span -> l = map inr (producer_end span err)
  | POther => True
  | _ => l = [inl a]
  end.

Lemma publish_implemented (env : environment (publisherE +' otelE)) X (e : publisherE X) u :
  wp (traced env) (with_otel propagators Error_ in_ X e) u (fun x u' =>
    since u u' (fun l => exists ls, observed (with_calls pacts) l = concat ls /\ Forall2 publish_shown (pacts X e x) ls)).
Proof.
  destruct e as [[[[[e|e]|e]|e]|e]|e]; try (apply untouched; intros x; destruct e; simpl; repeat constructor).
  change (with_otel propagators Error_ in_ X (inl1 (inr1 e))) with (otel_instr (E := publisherE +' otelE) propagators Error_ in_ X e).
  destruct e as [i ctx p|cb err|i ctx d|cb res].
  - eapply wp_mono; [|apply (StartPublish_wp _ pacts)]. intros s u' (ctx' & span & -> & l & -> & Hl).
    exists l. split; [done|]. eexists [_]. simpl. rewrite app_nil_r. split; [exact Hl|]. repeat constructor.
    by exists ctx', span.
  - eapply wp_mono; [|apply (EndPublish_wp _ pacts)]. intros [] u' (log & (l & -> & Hl) & Hlog).
    exists l. split; [done|]. eexists [_]. simpl. rewrite app_nil_r. split; [exact Hl|]. by repeat constructor.
  - eapply wp_mono; [|by apply (StartConsume_wp _ pacts)]. intros s u' (? & ? & ? & ? & l & -> & Hl).
    exists l. split; [done|]. eexists [_]. simpl. rewrite app_nil_r. split; [exact Hl|]. by repeat constructor.
  - eapply wp_mono; [|by apply (EndConsume_wp _ pacts)]. intros s u' (log & (l & -> & Hl) & _).
    exists l. split; [done|]. eexists [_]. simpl. rewrite app_nil_r. split; [exact Hl|]. by repeat constructor.
Qed.

(** The observations that the implementation leaves alone. *)
Definition library_act (a : pact) : Prop :=
  match a with PStart _ _ _ | PEnd _ _ | POther => False | _ => True end.

Lemma published_library cfg ctx msg log err : published cfg ctx msg log err -> Forall library_act log.
Proof.
  assert (Hsent : forall ch log err, sent cfg ctx ch msg log err -> Forall library_act log).
  { destruct 1 as [|res log0 err0 _ Hres]; [by repeat constructor|]. constructor; [done|].
    destruct res as [[]|]; [destruct Hres as (? & -> & _); by repeat constructor|destruct Hres as [-> _]; constructor..]. }
  destruct 1 as [|? ? ? ? Hs|? ? ? ? ? Hs|? ? ? ? err ? Hs]; [constructor|by eapply Hsent|..];
    (constructor; [done|]); [by eapply Hsent|]. apply Forall_app_2; [by eapply Hsent|].
  constructor; [done|]. destruct err as [[]|]; by repeat constructor.
Qed.

Lemma shown_library log ls : Forall library_act log -> Forall2 publish_shown log ls -> concat ls = map inl log.
Proof.
  intros Hlog. revert ls. induction Hlog as [|a log Ha _ IH]; intros ls Hls; [by apply Forall2_nil_inv_l in Hls as ->|].
  apply Forall2_cons_inv_l in Hls as (l & ls' & Hl & Hls' & ->). simpl. rewrite (IH _ Hls').
  by destruct a; simpl in Hl; subst.
Qed.

(** A publisher whose Instrumentation is this one. *)
Definition publishes_with (p : Publisher.t) (env : environment (publisherE +' otelE)) (ctx : option context)
    (msg : PublishMessage.t) (err : option error) (u : trace (publisherE +' otelE)) : Prop :=
  Publisher.instrIsNop p = false /\
  runs (traced env) (expand (with_otel propagators Error_ in_) (PublishMessage_ p ctx msg)) [] err u.

(** What a publish tells its Instrumentation. *)
Definition publishContext (p : Publisher.t) (msg : PublishMessage.t) : PublishContext.t :=
  {| PublishContext.Exchange := PublishMessage.Exchange (normalizePublishMessage p msg);
     PublishContext.RoutingKey := PublishMessage.RoutingKey msg;
     PublishContext.BodySize := Z.of_nat (length (PublishMessage.Body msg));
     PublishContext.Headers := Some (tbl (PublishMessage.Headers msg)) |}.

(** The message that is sent in the span's context: the normalized one, with the trace context
    among its headers. *)
Definition injected_message (p : Publisher.t) (msg : PublishMessage.t) (ctx : context) : PublishMessage.t :=
  PublishMessage.with_headers (normalizePublishMessage p msg)
    (Inject (C := headerCarrier) P ctx (Some (tbl (PublishMessage.Headers msg)))).

Lemma normalized_some p msg : Publisher.instrIsNop p = false ->
  PublishMessage.Headers (normalizePublishMessage p msg) = Some (tbl (PublishMessage.Headers msg)).
Proof. intros Hi. simpl. rewrite Hi. by destruct (PublishMessage.Headers msg). Qed.

(** The span of a publish, in what is shown of it. *)
Definition spanned_publish (p : Publisher.t) (ctx : option context) (msg : PublishMessage.t)
    (err : option error) (log : list (pact + event otelE)) : Prop :=
  err = Some (ENew "rabbitmq: publisher is closed") /\ log = [] \/
  exists ctx' span body,
    log =
      inr (producer_start (call_ctx ctx) (publishContext p msg) ctx' span) ::
      map inl body ++ map inr (producer_end span err) /\
    published (Publisher.cfg p) ctx' (injected_message p msg ctx') body err.

Lemma publishes_with_span p env ctx msg err u :
  publishes_with p env ctx msg err u -> spanned_publish p ctx msg err (observed (with_calls pacts) u).
Proof.
  intros [Hi (t & Hp%publishes_call & Himp)%linked_run].
  destruct (implemented_shown _ _ _ _ publish_shown (publish_implemented env) _ _ Himp) as (ls & -> & Hls). clear Himp.
  remember (observed pacts t) as log0 eqn:Hlog. clear Hlog.
  destruct Hp as [|log err Hnop _|s log err _ Hpub]; [|congruence|].
  - apply Forall2_nil_inv_l in Hls as ->. by left.
  - right. apply Forall2_cons_inv_l in Hls as (l1 & ls1 & (ctx' & span & -> & ->) & Hls & ->).
    apply Forall2_app_inv_l in Hls as (lb & l2 & Hb & He & ->).
    apply Forall2_cons_inv_l in He as (le & l3 & He & ->%Forall2_nil_inv_l & ->).
    rewrite (normalized_some p msg Hi) in *. simpl in Hpub, He. specialize (He span eq_refl). subst le.
    exists ctx', span, log. split; [|exact Hpub]. simpl. rewrite concat_app. simpl.
    by rewrite (shown_library _ _ (published_library _ _ _ _ _ Hpub) Hb), app_nil_r.
Qed.

(** C16: A publish is one producer span.  On an open publisher the span starts first, as a child of
    the caller's context and with the message's exchange, routing key and body size; the message
    is published in the span's context, with the trace context injected into its headers,
    whether or not it had any; and last the span gets the status of the error that is returned,
    and ends.  A closed publisher starts no span. *)
Theorem publish_span p env ctx msg err u :
  publishes_with p env ctx msg err u ->
  err = Some (ENew "rabbitmq: publisher is closed") /\ observed (with_calls pacts) u = [] \/
  exists ctx' span body,
    observed (with_calls pacts) u =
      inr (producer_start (call_ctx ctx) (publishContext p msg) ctx' span) ::
      map inl body ++ map inr (producer_end span err) /\
    published (Publisher.cfg p) ctx' (injected_message p msg ctx') body err.
Proof. exact (publishes_with_span p env ctx msg err u). Qed.

(** ** Handling a delivery *)

(** What the implementation makes of an observation of the consumer. *)
Definition delivery_shown (a : act) (l : list (act + event otelE)) : Prop :=
  match a with
  | AStart ctx d s => exists ctx' span startedAt,
      s = mkStarted ctx' (consumeClosure ctx' span startedAt (DeliveryContext.Queue d) (DeliveryContext.RoutingKey d))
            (DeliveryContext.Headers d) /\
      l = [inr (consumer_start (extractedCtx propagators in_ ctx (DeliveryContext.Headers d)) d ctx' span)]
  | AEnd cb res => forall ctx span startedAt queue key, cb = consumeClosure ctx span startedAt queue key ->
      exists took, l = map inr (consumer_end ctx span queue key took res)
  | AOther => True
  | _ => l = [inl a]
  end.

Lemma delivery_implemented (env : environment (consumerE +' otelE)) X (e : consumerE X) u :
  wp (traced env) (with_otel propagators Error_ in_ X e) u (fun x u' =>
    since u u' (fun l => exists ls, observed (with_calls acts) l = concat ls /\ Forall2 delivery_shown (acts X e x) ls)).
Proof.
  destruct e as [[[[[[e|e]|e]|e]|e]|e]|e]; try (apply untouched; intros x; destruct e; simpl; repeat constructor).
  change (with_otel propagators Error_ in_ X (inl1 (inl1 (inr1 e))))
    with (otel_instr (E := consumerE +' otelE) propagators Error_ in_ X e).
  destruct e as [i ctx p|cb err|i ctx d|cb res].
  - eapply wp_mono; [|apply (StartPublish_wp _ acts)]. intros s u' (? & ? & ? & l & -> & Hl).
    exists l. split; [done|]. eexists [_]. simpl. rewrite app_nil_r. split; [exact Hl|]. by repeat constructor.
  - eapply wp_mono; [|apply (EndPublish_wp _ acts)]. intros [] u' (log & (l & -> & Hl) & _).
    exists l. split; [done|]. eexists [_]. simpl. rewrite app_nil_r. split; [exact Hl|]. by repeat constructor.
  - eapply wp_mono; [|by apply (StartConsume_wp _ acts)]. intros s u' (ctx' & span & startedAt & -> & l & -> & Hl).
    exists l. split; [done|]. eexists [_]. simpl. rewrite app_nil_r. split; [exact Hl|]. repeat constructor.
    by exists ctx', span, startedAt.
  - eapply wp_mono; [|by apply (EndConsume_wp _ acts)]. intros [] u' (log & (l & -> & Hl) & Hlog).
    exists l. split; [done|]. eexists [_]. simpl. rewrite app_nil_r. split; [exact Hl|]. by repeat constructor.
Qed.

(** The observations that the implementation leaves alone. *)
Definition settling_act (a : act) : Prop :=
  match a with AStart _ _ _ | AEnd _ _ | AOther => False | _ => True end.

Lemma settled_settling c ch key msg r err log res : settled c ch key msg r err log res -> Forall settling_act log.
Proof.
  assert (Hretry : forall n log ok, retry_attempt c ch key msg n log ok -> Forall settling_act log)
    by (destruct 1; repeat constructor).
  destruct 1; [by repeat constructor..| |]; (apply Forall_app_2; [by eapply Hretry|by repeat constructor]).
Qed.

Lemma shown_settling log ls : Forall settling_act log -> Forall2 delivery_shown log ls -> concat ls = map inl log.
Proof.
  intros Hlog. revert ls. induction Hlog as [|a log Ha _ IH]; intros ls Hls; [by apply Forall2_nil_inv_l in Hls as ->|].
  apply Forall2_cons_inv_l in Hls as (l & ls' & Hl & Hls' & ->). simpl. rewrite (IH _ Hls').
  by destruct a; simpl in Hl; subst.
Qed.

(** A consumer whose Instrumentation is this one handles a delivery. *)
Definition handles_with (c : Consumer.t) (env : environment (consumerE +' otelE)) ch q key msg
    (u : trace (consumerE +' otelE)) : Prop :=
  Consumer.instrIsNop c = false /\ Consumer.retryPublish c = None /\
  runs (traced env) (expand (with_otel propagators Error_ in_) (handleDelivery c ch q key msg userHandler)) [] tt u.

(** What a delivery tells its Instrumentation. *)
Definition deliveryContext (q key : string) (msg : Delivery.t) : DeliveryContext.t :=
  {| DeliveryContext.Queue := q;
     DeliveryContext.RoutingKey := deliveryRoutingKey msg key;
     DeliveryContext.BodySize := Z.of_nat (length (Delivery.Body msg));
     DeliveryContext.RetryCount := ReadRetryCount (Delivery.Headers msg);
     DeliveryContext.Headers := Delivery.Headers msg |}.

(** The span of a delivery, in what is shown of its handling. *)
Definition spanned_delivery (c : Consumer.t) ch (q key : string) (msg : Delivery.t)
    (log : list (act + event otelE)) : Prop :=
  exists ctx' span h body res took,
    log =
      inr (consumer_start (extractedCtx propagators in_ (Consumer.ctx c) (Delivery.Headers msg))
             (deliveryContext q key msg) ctx' span) ::
      inl (AHandled ctx' (messageFromDelivery msg (ReadRetryCount (Delivery.Headers msg))) h) ::
      map inl body ++ map inr (consumer_end ctx' span q (deliveryRoutingKey msg key) took res) /\
    settled c ch (deliveryRoutingKey msg key) (with_shared msg (handled_headers h) (handled_body h))
      (ReadRetryCount (Delivery.Headers msg)) (outcome_error (handled_outcome h)) body res.

Lemma handles_with_span c env ch q key msg u :
  handles_with c env ch q key msg u -> spanned_delivery c ch q key msg (observed (with_calls acts) u).
Proof.
  intros (Hi & Hhook & (t & Hrun & Himp)%linked_run).
  destruct (wp_sound _ _ _ _ _ _ Hrun (handleDelivery_wp c anything Hhook ch q key msg [])) as (l & Heq & Hd).
  rewrite app_nil_r in Heq. subst l.
  destruct (implemented_shown _ _ _ _ delivery_shown (delivery_implemented env) _ _ Himp) as (ls & -> & Hls). clear Himp.
  remember (observed acts t) as log0 eqn:Hlog. clear Hlog.
  destruct Hd as [|s h body res _ Hs]; [congruence|].
  apply Forall2_cons_inv_l in Hls as (l1 & ls1 & (ctx' & span & startedAt & -> & ->) & Hls & ->).
  apply Forall2_cons_inv_l in Hls as (l2 & ls2 & -> & Hls & ->).
  apply Forall2_app_inv_l in Hls as (lb & l3 & Hb & He & ->).
  apply Forall2_cons_inv_l in He as (le & l4 & He & ->%Forall2_nil_inv_l & ->).
  destruct (He _ _ _ _ _ eq_refl) as [took ->].
  exists ctx', span, h, body, res, took. split; [|exact Hs]. simpl. rewrite concat_app. simpl.
  by rewrite (shown_settling _ _ (settled_settling _ _ _ _ _ _ _ _ Hs) Hb), with_shared_id, app_nil_r.
Qed.

(** C15: The handling of a delivery is one consumer span.  The span starts first, as a child of the
    context extracted from the delivery's headers; the handler runs in the span's context, on
    the untouched delivery; the delivery is settled; and last the span gets the status of the
    handler's error and the attributes of the settlement, one message and one duration are
    recorded under these attributes, one dead letter if the delivery was dead-lettered, and the
    span ends. *)
Theorem delivery_span c env ch q key msg u :
  handles_with c env ch q key msg u ->
  exists ctx' span h body res took,
    observed (with_calls acts) u =
      inr (consumer_start (extractedCtx propagators in_ (Consumer.ctx c) (Delivery.Headers msg))
             (deliveryContext q key msg) ctx' span) ::
      inl (AHandled ctx' (messageFromDelivery msg (ReadRetryCount (Delivery.Headers msg))) h) ::
      map inl body ++ map inr (consumer_end ctx' span q (deliveryRoutingKey msg key) took res) /\
    settled c ch (deliveryRoutingKey msg key) (with_shared msg (handled_headers h) (handled_body h))
      (ReadRetryCount (Delivery.Headers msg)) (outcome_error (handled_outcome h)) body res.
Proof. exact (handles_with_span c env ch q key msg u). Qed.
End otel.
