(* ===== verification/OtelTrace.v ===== *)
(** * OtelTrace: trace context travels with a message from its producer to its consumers, through
    the broker and through retries; the construction of the instrumentation. *)
From S2P Require Import Prelude AmqpData Errors Prog Machine Retry Config Amqp Instr Dial Consumer Delivery Script Pool Publisher Expand PubScript PublisherProps FastPath Carrier Otel OtelProps.
Local Open Scope string_scope.
Local Open Scope list_scope.
Local Open Scope Z_scope.

(** ** Headers on their way *)

Lemma inject_table P ctx h :
  injected P ctx <> [] -> exists h', Inject (C := headerCarrier) P ctx (Some h) = Some h' /\ h' <> ∅.
Proof.
  unfold Inject. intros Hne. destruct (injected P ctx) as [|[k v] l] using rev_ind; [done|]. clear Hne IHl.
  rewrite foldl_app. simpl.
  assert (Hsome : exists h', foldl (fun (c : headerCarrier) '(k, v) => Set_ c k v) (Some h) l = Some h').
  { revert h. induction l as [|[k' v'] l IH]; intros h; simpl; [eauto|apply IH]. }
  destruct Hsome as [h' Hh']. setoid_rewrite Hh'. simpl. eexists. split; [done|]. apply insert_non_empty.
Qed.

(** What is published while a delivery is settled is its retry copy. *)
Lemma settled_copy c ch key msg r err log res ch' ctx' ex key' mandatory immediate p dc :
  settled c ch key msg r err log res ->
  In (APublish ch' ctx' ex key' mandatory immediate p dc) log -> exists n, retry_copy msg n = Some p.
Proof.
  assert (Hattempt : forall n log ok, retry_attempt c ch key msg n log ok ->
    In (APublish ch' ctx' ex key' mandatory immediate p dc) log -> retry_copy msg n = Some p).
  { destruct 1; simpl; intros Hin; repeat destruct Hin as [Hin|Hin]; try done; inversion Hin; by subst. }
  destruct 1 as [|e|e log Hf Ha|e log Hf Ha]; simpl.
  - by intros [|].
  - by intros [|].
  - intros [Hin|[Hin|[]]]%in_app_or; [eauto|done].
  - intros [Hin|[Hin|[]]]%in_app_or; [eauto|done].
Qed.

(** A retry copy changes the retry counter only, and never has an empty table. *)
Lemma retry_copy_headers msg n p :
  retry_copy msg n = Some p ->
  tbl (Publishing.Headers p) <> ∅ /\
  forall k, k <> RetryCountHeader ->
    headerCarrier_Get (Publishing.Headers p) k = headerCarrier_Get (Delivery.Headers msg) k.
Proof.
  unfold retry_copy. case_bool_decide; [|done]. intros [= <-]. split; [apply insert_non_empty|].
  intros k Hk. simpl. rewrite lookup_insert_ne by done.
  destruct (Delivery.Headers msg); simpl; [done|]. by rewrite lookup_empty.
Qed.

Section propagation.
Context (propagators : nat -> TextMapPropagator) (Error_ : error -> string) (in_ : instrumentation).
Context {T : Type} (trace_of : context -> option T).

Abbreviation P := (propagators (in_propagator in_)).

Hypothesis propagates : Propagates P trace_of.
Hypothesis counter_free : ~ In RetryCountHeader (Fields P).

(** The handlers of [log] leave the propagator's fields of the headers as they were. *)
Definition fields_kept (headers : Table) (log : list act) : Prop :=
  forall hctx m h, In (AHandled hctx m h) log ->
    forall k, In k (Fields P) -> headerCarrier_Get (handled_headers h) k = headerCarrier_Get headers k.

(** The observations of the library in what is shown of a linked run. *)
Definition library_part {B} (log : list (B + event otelE)) : list B :=
  omap (fun a => match a with inl b => Some b | inr _ => None end) log.

Lemma library_part_in {B} (b : B) log : In b (library_part log) <-> In (inl b) log.
Proof.
  unfold library_part. rewrite <- !list_elem_of_In, list_elem_of_omap. split; [|naive_solver].
  intros ([b'|ev] & Hin & [=]). by subst.
Qed.

(** [copied d p]: some consumer, with this Instrumentation or with none, handled the delivery [d]
    and published [p] meanwhile; its handler kept the propagator's fields of the headers. *)
Inductive copied (d : Delivery.t) (p : Publishing.t) : Prop :=
| copied_traced cons env ch q key u ch' ctx ex key' mandatory immediate dc :
    handles_with propagators Error_ in_ cons env ch q key d u ->
    fields_kept (Delivery.Headers d) (library_part (observed (with_calls acts) u)) ->
    In (inl (APublish ch' ctx ex key' mandatory immediate p dc)) (observed (with_calls acts) u) -> copied d p
| copied_plain cons env ch q key t ch' ctx ex key' mandatory immediate dc :
    Consumer.instrIsNop cons = true -> Consumer.retryPublish cons = None ->
    runs (traced env) (handleDelivery cons ch q key d userHandler) [] tt t ->
    fields_kept (Delivery.Headers d) (observed acts t) ->
    In (APublish ch' ctx ex key' mandatory immediate p dc) (observed acts t) -> copied d p.

(** [descends headers d]: [d] is a delivery of a message that was published with [headers], or of
    a copy that was published while a delivery that descends from it was handled. *)
Inductive descends (headers : Table) (d : Delivery.t) : Prop :=
| descends_first : Delivery.Headers d = headers -> descends headers d
| descends_copy d0 p : descends headers d0 -> copied d0 p -> Delivery.Headers d = Publishing.Headers p ->
    descends headers d.

Lemma copied_headers d p :
  copied d p -> tbl (Publishing.Headers p) <> ∅ /\
  forall k, In k (Fields P) -> headerCarrier_Get (Publishing.Headers p) k = headerCarrier_Get (Delivery.Headers d) k.
Proof.
  assert (Hgen : forall cons ch key hctx m h r err body res ch' ctx ex key' mandatory immediate dc log,
    settled cons ch key (with_shared d (handled_headers h) (handled_body h)) r err body res ->
    fields_kept (Delivery.Headers d) log -> In (AHandled hctx m h) log ->
    In (APublish ch' ctx ex key' mandatory immediate p dc) body ->
    tbl (Publishing.Headers p) <> ∅ /\
    forall k, In k (Fields P) -> headerCarrier_Get (Publishing.Headers p) k = headerCarrier_Get (Delivery.Headers d) k).
  { intros cons ch key hctx m h r err body res ch' ctx ex key' mandatory immediate dc log Hs Hkept Hh Hp.
    destruct (settled_copy _ _ _ _ _ _ _ _ _ _ _ _ _ _ _ _ Hs Hp) as [n Hn].
    destruct (retry_copy_headers _ _ _ Hn) as [Hne Hget]. split; [done|]. intros k Hk.
    rewrite Hget by (by intros ->). exact (Hkept _ _ _ Hh k Hk). }
  destruct 1 as [cons env ch q key u ch' ctx ex key' mandatory immediate dc Hu%handles_with_span Hkept Hp
                |cons env ch q key t ch' ctx ex key' mandatory immediate dc Hnop Hhook Hrun Hkept Hp].
  - destruct Hu as (ctx' & span & h & body & res & took & Hlog & Hs). rewrite Hlog in Hp, Hkept.
    eapply (Hgen _ _ _ _ _ h); [exact Hs|exact Hkept|apply library_part_in; right; left; reflexivity|].
    destruct Hp as [Hp|[Hp|Hp]]; [done..|]. apply in_app_or in Hp as [Hp|Hp];
      apply in_map_iff in Hp as (a & Ha & Hp); [by injection Ha as ->|done].
  - destruct (wp_sound _ _ _ _ _ _ Hrun (handleDelivery_wp cons env Hhook ch q key d [])) as (l & Heq & Hd).
    rewrite app_nil_r in Heq. subst l. destruct Hd as [h body res _ Hs|]; [|congruence].
    eapply (Hgen _ _ _ _ _ h); [exact Hs|exact Hkept|by left|]. by destruct Hp as [Hp|Hp].
Qed.

(** The consumer's side: what was injected into a message is extracted from each delivery. *)
Lemma extracted_descends ctx tr h d parent :
  trace_of ctx = Some tr -> descends (Inject (C := headerCarrier) P ctx (Some h)) d ->
  trace_of (extractedCtx propagators in_ parent (Delivery.Headers d)) = Some tr.
Proof.
  intros Htr Hc. destruct (inject_table P ctx h (inject_some _ _ Htr)) as (h' & Hh' & Hne).
  assert (H : tbl (Delivery.Headers d) <> ∅ /\ forall k, In k (Fields P) ->
    headerCarrier_Get (Delivery.Headers d) k = headerCarrier_Get (Inject (C := headerCarrier) P ctx (Some h)) k).
  { induction Hc as [d ->|d d0 p _ [_ IH] [Hp Hget]%copied_headers ->]; [by rewrite Hh'|].
    split; [done|]. intros k Hk. by rewrite Hget, IH. }
  destruct H as [Hd Hget]. unfold extractedCtx. rewrite bool_decide_true.
  - by apply (extract_carried P trace_of parent ctx tr (Some h : headerCarrier) (Delivery.Headers d) Htr).
  - assert (Hs : size (tbl (Delivery.Headers d)) <> O); [|lia]. by rewrite map_size_non_empty_iff.
Qed.

(** C14: The trace of a publish is the trace of its deliveries.  A message that PublishMessage sends
    is sent from a producer span; when the span's context carries a trace identity, then every
    delivery that descends from it, be it of the message itself or of a copy that handling an
    earlier one published, gives its consumer's span a parent context with that identity,
    whatever the consumer's own context.  The broker is relied on to deliver the headers that
    were sent, and the handlers of the retried deliveries to leave the propagator's fields. *)
Theorem trace_follows_message p env ctx msg err u ch c ex key mandatory immediate pub res :
  publishes_with propagators Error_ in_ p env ctx msg err u ->
  In (inl (PSend ch c ex key mandatory immediate pub res)) (observed (with_calls pacts) u) ->
  exists pc ctx' span rest,
    observed (with_calls pacts) u = inr (producer_start in_ (call_ctx ctx) pc ctx' span) :: rest /\
    forall tr, trace_of ctx' = Some tr ->
    forall cons env2 ch2 q key2 d u2,
      descends (Publishing.Headers pub) d ->
      handles_with propagators Error_ in_ cons env2 ch2 q key2 d u2 ->
      exists parent dc ctx2 span2 rest2,
        observed (with_calls acts) u2 = inr (consumer_start in_ parent dc ctx2 span2) :: rest2 /\
        trace_of parent = Some tr.
Proof.
  intros [[_ Hnone]|(ctx' & span & body & Hlog & Hpub)]%publishes_with_span Hin; [by rewrite Hnone in Hin|].
  rewrite Hlog in Hin |- *. eexists _, ctx', span, _. split; [done|].
  intros tr Htr cons env2 ch2 q key2 d u2 Hc (ctx2 & span2 & h & body2 & res2 & took & -> & _)%handles_with_span.
  eexists _, _, ctx2, span2, _. split; [done|].
  assert (Hpin : In (PSend ch c ex key mandatory immediate pub res) body).
  { destruct Hin as [Hin|Hin]; [done|]. apply in_app_or in Hin as [Hin|Hin];
      apply in_map_iff in Hin as (a & Ha & Hin); [by injection Ha as ->|done]. }
  rewrite (published_pub _ _ _ _ _ _ _ _ _ _ _ _ _ Hpub Hpin) in Hc.
  exact (extracted_descends ctx' tr _ _ _ Htr Hc).
Qed.
End propagation.

(** ** Construction *)

(** The options as the application writes them. *)
Inductive setting : Type :=
| UseTracerProvider (tp : option nat)
| UseMeterProvider (mp : option nat)
| UsePropagator (p : option nat)
| UseMetricPrefix (prefix : string).

Definition option_of (s : setting) : Option_ :=
  match s with
  | UseTracerProvider tp => WithTracerProvider tp
  | UseMeterProvider mp => WithMeterProvider mp
  | UsePropagator p => WithPropagator p
  | UseMetricPrefix prefix => WithMetricPrefix prefix
  end.

(** The last setting that [f] selects, or [d]. *)
Definition chosen {A} (f : setting -> option A) (d : A) (ss : list setting) : A := default d (last (omap f ss)).

Definition set_tracer (s : setting) : option nat := match s with UseTracerProvider tp => tp | _ => None end.
Definition set_meter (s : setting) : option nat := match s with UseMeterProvider mp => mp | _ => None end.
Definition set_propagator (s : setting) : option nat := match s with UsePropagator p => p | _ => None end.
Definition set_prefix (s : setting) : option string :=
  match s with UseMetricPrefix prefix => if bool_decide (prefix = "") then None else Some prefix | _ => None end.

Lemma chosen_snoc {A} (f : setting -> option A) d ss s : chosen f d (ss ++ [s]) = default (chosen f d ss) (f s).
Proof.
  unfold chosen. rewrite omap_app. simpl. destruct (f s); simpl; [by rewrite last_snoc|by rewrite app_nil_r].
Qed.

Lemma apply_options_chosen ss cfg :
  apply_options (map option_of ss) cfg =
  mkConfig (chosen set_tracer (tracerProvider cfg) ss) (chosen set_meter (meterProvider cfg) ss)
    (chosen set_propagator (propagator cfg) ss) (chosen set_prefix (metricPrefix cfg) ss).
Proof.
  induction ss as [|s ss IH] using rev_ind; [by destruct cfg|].
  unfold apply_options in *. rewrite map_app, foldl_app, IH, !chosen_snoc. simpl.
  destruct s as [[]|[]|[]|prefix]; simpl; try done. unfold WithMetricPrefix. by case_bool_decide.
Qed.

(** New asks for the global providers first; then each choice is the last option given for it
    that is not nil (not empty), and the global one (the prefix "rabbitmq") without any.  The
    tracer and the three instruments are made once, from the chosen providers and under the
    chosen prefix, and the instrumentation uses them and the chosen propagator. *)
Theorem New_chosen ss :
  wp (traced anything) (New (map option_of ss)) [] (fun in_ u =>
    exists tp mp pr tracer meter ms du dl,
      let prefix := chosen set_prefix "rabbitmq" ss in
      rev u =
        [Ev GetTracerProvider tp; Ev GetMeterProvider mp; Ev GetTextMapPropagator pr;
         Ev (ProviderTracer (chosen set_tracer tp ss) instrumentationName) tracer;
         Ev (ProviderMeter (chosen set_meter mp ss) instrumentationName) meter;
         Ev (MeterInt64Counter meter (prefix +:+ ".messages.total")
               "Total RabbitMQ messages processed by the consumer.") ms;
         Ev (MeterFloat64Histogram meter (prefix +:+ ".message.duration.seconds") "s"
               "Time spent processing a RabbitMQ message.") du;
         Ev (MeterInt64Counter meter (prefix +:+ ".deadletter.total")
               "Total messages sent to the dead-letter queue.") dl] /\
      in_ = mkInstrumentation tracer (chosen set_propagator pr ss) (mkMetrics ms du dl)).
Proof.
  unfold New, newMetrics. wp_all. rewrite !apply_options_chosen.
  do 8 eexists. split; reflexivity.
Qed.

(** ** Concrete cases *)

(** A propagator that writes the number of a context in unary. *)
Definition unary_propagator : TextMapPropagator :=
  {| injected := fun ctx =>
       match ctx with
       | CtxValue n => [("traceparent", string_of_list_ascii (repeat "1"%char n))]
       | _ => []
       end;
     extracted := fun ctx g =>
       if bool_decide (g "traceparent" = "") then ctx else CtxValue (String.length (g "traceparent"));
     Fields := ["traceparent"] |}.

Definition unary_trace (ctx : context) : option nat :=
  match ctx with
  | CtxValue (Datatypes.S n) => Some n
  | _ => None
  end.

Lemma unary_propagates : Propagates unary_propagator unary_trace.
Proof.
  assert (Hlen : forall n, String.length (string_of_list_ascii (repeat "1"%char n)) = n)
    by (induction n; simpl; congruence).
  split.
  - intros [|n| |] k v; simpl; naive_solver.
  - intros [|n| |]; simpl; repeat constructor; set_solver.
  - intros [|n| |] tr; by simpl.
  - intros ctx g g' Hg. simpl. by rewrite (Hg "traceparent") by by left.
  - intros parent [|[|n]| |] tr g [= <-] Hg; simpl in *.
    rewrite (Hg "traceparent" _ (or_introl eq_refl)). rewrite bool_decide_false by done. simpl. by rewrite Hlen.
Qed.

(** An OpenTelemetry API whose spans have the context 7. *)
Definition good_otel {X} (e : otelE X) : X :=
  match e with
  | GetTracerProvider | GetMeterProvider | GetTextMapPropagator => 1%nat
  | ProviderTracer _ _ | ProviderMeter _ _ => 2%nat
  | MeterInt64Counter _ _ _ | MeterFloat64Histogram _ _ _ _ => 3%nat
  | TracerStart _ _ _ _ _ => (CtxValue 7, 4%nat)
  | SpanRecordError _ _ | SpanSetStatus _ _ _ | SpanSetAttributes _ _ | SpanEnd _ => tt
  | Int64CounterAdd _ _ _ _ | Float64HistogramRecord _ _ _ _ => tt
  end.

Definition otel_script {E} (answer : strategy E) X (e : (E +' otelE) X) (t : trace (E +' otelE)) : X :=
  match e with
  | inl1 e => answer X e []
  | inr1 o => good_otel o
  end.

Definition example_in : instrumentation := mkInstrumentation 2 1 (mkMetrics 3 3 3).
Definition example_linked {E} `{instrE -< E} `{sysE -< E} : implementation E (E +' otelE) :=
  with_otel (fun _ => unary_propagator) (fun _ => "failed") example_in.

Definition example_span (ev : returns_event) : trace (publisherE +' otelE) :=
  match interp (scripted (otel_script (publishing_with ev))) 0
          (expand example_linked (PublishMessage_ traced_publisher None example_message)) [] with
  | Some (_, u) => u
  | None => []
  end.

Lemma example_publishes_with :
  publishes_with (fun _ => unary_propagator) (fun _ => "failed") example_in traced_publisher anything None
    example_message None (example_span ReturnsTimer).
Proof. split; [done|]. apply (scripted_runs (otel_script (publishing_with ReturnsTimer)) 0). vm_compute. reflexivity. Qed.

(** Deliveries to a consumer with the instrumentation, whose handler fails: of the message, and of
    its first retry copy. *)
Definition traced_consumer : Consumer.t := always_instrumented_consumer example_consumer.

Definition delivery_with (headers : table) : Delivery.t := with_shared (example_delivery None) (Some headers) [].
Definition first_delivery : Delivery.t := delivery_with {["traceparent" := VString "1111111"]}.
Definition traced_delivery : Delivery.t :=
  delivery_with {["traceparent" := VString "1111111"; "x-retry-count" := VInt32 1]}.

Definition consumed_by_failing (d : Delivery.t) : trace (consumerE +' otelE) :=
  match interp (scripted (otel_script (script (Returned (Some (ENew "boom"))) as_usual as_before))) 0
          (expand example_linked (handleDelivery traced_consumer 1 "users" "user.created" d userHandler)) [] with
  | Some (_, u) => u
  | None => []
  end.

Definition example_consumed : trace (consumerE +' otelE) := consumed_by_failing traced_delivery.

Lemma failing_handles d u :
  interp (scripted (otel_script (script (Returned (Some (ENew "boom"))) as_usual as_before))) 0
    (expand example_linked (handleDelivery traced_consumer 1 "users" "user.created" d userHandler)) [] = Some (tt, u) ->
  handles_with (fun _ => unary_propagator) (fun _ => "failed") example_in traced_consumer anything 1 "users"
    "user.created" d u.
Proof.
  intros Hi. split; [done|]. split; [done|].
  by apply (scripted_runs (otel_script (script (Returned (Some (ENew "boom"))) as_usual as_before)) 0).
Qed.

Lemma example_handles_with :
  handles_with (fun _ => unary_propagator) (fun _ => "failed") example_in traced_consumer anything 1 "users"
    "user.created" traced_delivery example_consumed.
Proof. apply failing_handles. vm_compute. reflexivity. Qed.

(** The handler leaves the trace context of the first delivery. *)
Definition traceparent_kept (a : act) : bool :=
  match a with
  | AHandled _ _ h =>
      bool_decide (headerCarrier_Get (handled_headers h) "traceparent" =
                   headerCarrier_Get (Delivery.Headers first_delivery) "traceparent")
  | _ => true
  end.

(** The retry copy descends from the message: handling the first delivery published it. *)
Lemma traced_delivery_descends :
  descends (fun _ => unary_propagator) (fun _ => "failed") example_in
    (Some {["traceparent" := VString "1111111"]}) traced_delivery.
Proof.
  assert (Hin : exists ch' ctx ex key' mandatory immediate p dc,
    In (inl (APublish ch' ctx ex key' mandatory immediate p dc))
      (observed (with_calls acts) (consumed_by_failing first_delivery)) /\
    Publishing.Headers p = Delivery.Headers traced_delivery).
  { do 8 eexists. split; [|shelve]. vm_compute. right. right. left. reflexivity. Unshelve. vm_compute. reflexivity. }
  destruct Hin as (ch' & ctx & ex & key' & mandatory & immediate & p & dc & Hin & Hp).
  eapply (descends_copy _ _ _ _ _ first_delivery p); [by apply descends_first| |done].
  eapply (copied_traced _ _ _ _ _ traced_consumer anything); [|  |exact Hin].
  - apply failing_handles. vm_compute. reflexivity.
  - intros hctx m h Hin' k [<-|[]].
    assert (Hall : forallb traceparent_kept
      (library_part (observed (with_calls acts) (consumed_by_failing first_delivery))) = true)
      by (vm_compute; reflexivity).
    exact (bool_decide_eq_true_1 _ (proj1 (forallb_forall _ _) Hall _ Hin')).
Qed.

(** The trace identity 6 of the span's context reaches the consumer of the retry copy. *)
Lemma trace_follows_message_witness :
  unary_trace (CtxValue 7) = Some 6%nat /\
  exists pc ctx' span rest,
    observed (with_calls pacts) (example_span ReturnsTimer) =
      inr (producer_start example_in Background pc ctx' span) :: rest /\
    forall tr, unary_trace ctx' = Some tr ->
    exists parent dc ctx2 span2 rest2,
      observed (with_calls acts) example_consumed = inr (consumer_start example_in parent dc ctx2 span2) :: rest2 /\
      unary_trace parent = Some tr.
Proof.
  split; [reflexivity|].
  assert (Hin : exists ch c ex key mandatory immediate pub res,
    In (inl (PSend ch c ex key mandatory immediate pub res)) (observed (with_calls pacts) (example_span ReturnsTimer)) /\
    Publishing.Headers pub = Some {["traceparent" := VString "1111111"]}).
  { do 8 eexists. split; [|shelve]. vm_compute. right. right. left. reflexivity. Unshelve. vm_compute. reflexivity. }
  destruct Hin as (ch & c & ex & key & mandatory & immediate & pub & res & Hin & Hpub).
  destruct (trace_follows_message (fun _ => unary_propagator) (fun _ => "failed") example_in unary_trace
    unary_propagates (fun H => match H with or_introl e => ltac:(discriminate e) | or_intror f => f end)
    traced_publisher anything None example_message None (example_span ReturnsTimer)
    ch c ex key mandatory immediate pub res example_publishes_with Hin) as (pc & ctx' & span & rest & Hs & Htr).
  exists pc, ctx', span, rest. split; [exact Hs|]. intros tr Hx.
  apply (Htr tr Hx traced_consumer anything 1%nat "users" "user.created" traced_delivery example_consumed).
  - rewrite Hpub. exact traced_delivery_descends.
  - exact example_handles_with.
Defined.

Lemma publish_span_witness :
  @None error = Some (ENew "rabbitmq: publisher is closed") /\
    observed (with_calls pacts) (example_span ReturnsTimer) = [] \/
  exists ctx' span body,
    observed (with_calls pacts) (example_span ReturnsTimer) =
      inr (producer_start example_in Background (publishContext traced_publisher example_message) ctx' span) ::
      map inl body ++ map inr [call (SpanSetStatus span codes_Ok ""); call (SpanEnd span)] /\
    published (Publisher.cfg traced_publisher) ctx'
      (injected_message (fun _ => unary_propagator) example_in traced_publisher example_message ctx') body None.
Proof.
  apply (publish_span (fun _ => unary_propagator) (fun _ => "failed") example_in traced_publisher anything None
    example_message None (example_span ReturnsTimer) example_publishes_with).
Defined.

(** The handler fails with an error, after one retry of at most three. *)
Lemma delivery_span_witness :
  hd_error (observed (with_calls acts) example_consumed) =
    Some (inr (consumer_start example_in (CtxValue 7)
                 (deliveryContext "users" "user.created" traced_delivery) (CtxValue 7) 4)) /\
  exists ctx' span h body res took,
    observed (with_calls acts) example_consumed =
      inr (consumer_start example_in (CtxValue 7)
             (deliveryContext "users" "user.created" traced_delivery) ctx' span) ::
      inl (AHandled ctx' (messageFromDelivery traced_delivery 1) h) ::
      map inl body ++ map inr (consumer_end (fun _ => "failed") example_in ctx' span "users" "user.created" took res) /\
    settled traced_consumer 1 "user.created" (with_shared traced_delivery (handled_headers h) (handled_body h))
      1 (outcome_error (handled_outcome h)) body res.
Proof.
  split; [vm_compute; reflexivity|].
  apply (delivery_span (fun _ => unary_propagator) (fun _ => "failed") example_in traced_consumer anything 1 "users"
    "user.created" traced_delivery example_consumed example_handles_with).
Defined.
