(* ===== verification/Slog.v ===== *)
(** * Slog: the adapters of the Logger interface (pkg/rabbitmq/logging/slog.go, nop.go).

    The loggers of log/slog are handles; their methods are operations. *)
From S2P Require Import Prelude AmqpData Errors Prog Machine Retry Config Amqp Instr Dial Consumer Session Script Expand.
Local Open Scope string_scope.
Local Open Scope list_scope.
Local Open Scope Z_scope.
Local Open Scope go_scope.

(** ** log/slog *)

(** slog.AnyValue: the kinds of slog.Value, by the dynamic type of a field's value. *)
Inductive slog_value : Type :=
| KindString (s : string)
| KindInt64 (z : Z)
| KindBool (b : bool)
| KindDuration (d : Z)
| KindError (e : option error)   (* KindAny, holding an error or nil *)
| KindAny (printed : string).

Definition AnyValue (v : field_value) : slog_value :=
  match v with
  | FString s => KindString s
  | FInt z => KindInt64 z
  | FInt64 z => KindInt64 z
  | FBool b => KindBool b
  | FDuration d => KindDuration d
  | FError e => KindError e
  | FAny printed => KindAny printed
  end.

Record Attr : Type := mkAttr { attr_key : string; attr_value : slog_value }.

Definition slog_Any (key : string) (value : field_value) : Attr := mkAttr key (AnyValue value).

Definition LevelDebug : Z := -4.
Definition LevelInfo : Z := 0.
Definition LevelWarn : Z := 4.
Definition LevelError : Z := 8.

Inductive slogE : Type -> Type :=
| SlogDefault : slogE nat
| SlogEnabled (logger : nat) (ctx : context) (level : Z) : slogE bool
| SlogLogAttrs (logger : nat) (ctx : context) (level : Z) (msg : string) (attrs : list Attr) : slogE unit.

(** ** slog.go *)

(** [logger] may be nil. *)
Definition NewSlogLogger {E} `{slogE -< E} (logger : option nat) : prog E nat :=
  match logger with
  | None => trigger SlogDefault
  | Some logger => Ret logger
  end.

(** The loop over the fields. *)
Definition field_attrs (fields : list Field) : list Attr :=
  foldl (fun attrs f => attrs ++ [slog_Any (Key f) (Value f)]) [] fields.

Section slog.
Context {E : Type -> Type} `{slogE -< E} (logger : nat).

Definition SlogLogger_log (ctx : context) (level : Z) (msg : string) (fields : list Field) : prog E unit :=
  let! enabled := trigger (SlogEnabled logger ctx level) in
  if negb enabled then Ret tt
  else trigger (SlogLogAttrs logger ctx level msg (field_attrs fields)).

Definition SlogLogger_Debug ctx msg fields : prog E unit := SlogLogger_log ctx LevelDebug msg fields.
Definition SlogLogger_Info ctx msg fields : prog E unit := SlogLogger_log ctx LevelInfo msg fields.
Definition SlogLogger_Warn ctx msg fields : prog E unit := SlogLogger_log ctx LevelWarn msg fields.
Definition SlogLogger_Error ctx msg fields : prog E unit := SlogLogger_log ctx LevelError msg fields.

Definition slog_logger : implementation logE E :=
  fun X e =>
    match e with
    | Log Debug ctx msg fields => SlogLogger_Debug ctx msg fields
    | Log Info ctx msg fields => SlogLogger_Info ctx msg fields
    | Log Warn ctx msg fields => SlogLogger_Warn ctx msg fields
    | Log Error ctx msg fields => SlogLogger_Error ctx msg fields
    end.
End slog.

(** ** nop.go *)

Definition NopLogger_log {E} (ctx : context) (msg : string) (fields : list Field) : prog E unit := Ret tt.

Definition nop_logger {E} : implementation logE E :=
  fun X e => match e with Log _ ctx msg fields => NopLogger_log ctx msg fields end.

(** ** Linking *)

(** The library with a logger: log calls become programs, the other operations stay. *)
Definition with_logger {E F} `{logE -< E} (lift : forall X, E X -> F X) (i : implementation logE F)
  : implementation E F :=
  fun X e =>
    match project e with
    | Some e' => i X e'
    | None => Vis (lift X e) Ret
    end.

Definition with_slog {E} `{logE -< E} (logger : nat) : implementation E (E +' slogE) :=
  with_logger (F := E +' slogE) (fun _ e => inl1 e) (slog_logger (E := E +' slogE) logger).

Definition with_nop_logger {E} `{logE -< E} : implementation E E := with_logger (fun _ e => e) nop_logger.

(** ** Properties *)

Lemma field_attrs_map fields : field_attrs fields = map (fun f => slog_Any (Key f) (Value f)) fields.
Proof.
  unfold field_attrs.
  enough (H : forall acc, foldl (fun attrs f => attrs ++ [slog_Any (Key f) (Value f)]) acc fields
    = acc ++ map (fun f => slog_Any (Key f) (Value f)) fields) by apply H.
  induction fields as [|f l IH]; intros acc; simpl; [by rewrite app_nil_r|]. by rewrite IH, <- app_assoc.
Qed.

(** Every event is shown. *)
Definition everything {F : Type -> Type} (X : Type) (e : F X) (x : X) : list (event F) := [Ev e x].

Lemma observed_everything {F} (t : trace F) : observed everything t = rev t.
Proof. induction t as [|[X e x] t IH]; [done|]. simpl. by rewrite IH. Qed.

Definition slog_level (l : level) : Z :=
  match l with Debug => LevelDebug | Info => LevelInfo | Warn => LevelWarn | Error => LevelError end.

Section adapters.
Context {E : Type -> Type} `{logE -< E}.

(** The calls of log/slog for a log call: its level is queried, and one record is emitted if
    the level is enabled. *)
Definition slog_record (logger : nat) {X} (e : logE X) (l : list (event (E +' slogE))) : Prop :=
  match e with
  | Log lvl ctx msg fields => exists enabled : bool,
      l = Ev (inr1 (SlogEnabled logger ctx (slog_level lvl))) enabled ::
        if enabled then
          [Ev (inr1 (SlogLogAttrs logger ctx (slog_level lvl) msg
                       (map (fun f => mkAttr (Key f) (AnyValue (Value f))) fields))) tt]
        else []
  end.

(** What becomes of an event of the library. *)
Definition slog_shown (logger : nat) (ev : event E) (l : list (event (E +' slogE))) : Prop :=
  match ev with
  | Ev e x =>
      match project e with
      | Some log => slog_record logger log l
      | None => l = [Ev (inl1 e) x]
      end
  end.

Definition nop_shown (ev : event E) (l : list (event E)) : Prop :=
  match ev with
  | Ev e x => l = match project e with Some _ => [] | None => [ev] end
  end.

Lemma slog_logger_wp (env : environment (E +' slogE)) logger X (e : logE X) u :
  wp (traced env) (slog_logger (E := E +' slogE) logger X e) u (fun x u' =>
    since u u' (fun l => slog_record logger e (observed everything l))).
Proof.
  destruct e as [lvl ctx msg fields]. unfold slog_record.
  destruct lvl; simpl; rewrite field_attrs_map; intros [] u1 [_ ->]; simpl.
  all: try (intros [] u2 [_ ->]; since_events; exists true; reflexivity).
  all: since_events; exists false; reflexivity.
Qed.

Lemma nop_logger_wp (env : environment E) X (e : logE X) u :
  wp (traced env) (nop_logger (E := E) X e) u (fun x u' => since u u' (fun l => l = [])).
Proof. destruct e. by apply since_here. Qed.

(** C37: The library with SlogLogger.  Its run is a run of the library against the Logger interface
    in which every log call became a query of its level and, when the level is enabled, one
    record with the same context and message and the fields as attributes in the same order;
    all other operations are as they were, in the same order. *)
Theorem slog_records {A} (p : prog E A) (env : environment (E +' slogE)) logger a u :
  runs (traced env) (expand (with_slog logger) p) [] a u ->
  exists t, runs (traced anything) p [] a t /\
    exists ls, rev u = concat ls /\ Forall2 (slog_shown logger) (rev t) ls.
Proof.
  intros (t & Ht & Himp)%linked_run. exists t. split; [done|].
  rewrite <- !observed_everything. revert Himp. apply implemented_shown. intros X e u0.
  unfold with_slog, with_logger. destruct (project e) as [log|] eqn:He.
  - eapply wp_mono; [|apply slog_logger_wp]. intros x u' (l & -> & Hl). exists l. split; [done|].
    exists [observed everything l]. simpl. rewrite app_nil_r. split; [done|]. repeat constructor. simpl. by rewrite He.
  - intros x u' [_ ->]. exists [Ev (inl1 e) x]. split; [done|]. exists [[Ev (inl1 e) x]]. split; [done|].
    repeat constructor. simpl. by rewrite He.
Qed.

(** With NopLogger the log calls vanish, and nothing else does. *)
Theorem nop_records {A} (p : prog E A) (env : environment E) a u :
  runs (traced env) (expand with_nop_logger p) [] a u ->
  exists t, runs (traced anything) p [] a t /\
    exists ls, rev u = concat ls /\ Forall2 nop_shown (rev t) ls.
Proof.
  intros (t & Ht & Himp)%linked_run. exists t. split; [done|].
  rewrite <- !observed_everything. revert Himp. apply implemented_shown. intros X e u0.
  unfold with_nop_logger, with_logger. destruct (project e) as [log|] eqn:He.
  - eapply wp_mono; [|apply nop_logger_wp]. intros x u' (l & -> & ->). exists []. split; [done|]. exists [[]].
    split; [done|]. repeat constructor. simpl. by rewrite He.
  - intros x u' [_ ->]. exists [Ev e x]. split; [done|]. exists [[Ev e x]]. split; [done|].
    repeat constructor. simpl. by rewrite He.
Qed.
End adapters.

(** ** Concrete case *)

(** A logger of level Error. *)
Definition slog_script X (e : (consumerE +' slogE) X) (t : trace (consumerE +' slogE)) : X :=
  match e with
  | inl1 e => script (Returned None) as_usual as_before X e []
  | inr1 o =>
      match o in slogE X return X with
      | SlogDefault => 1%nat
      | SlogEnabled _ _ l => bool_decide (l >= LevelError)
      | SlogLogAttrs _ _ _ _ _ => tt
      end
  end.

(** Connecting logs at level Info, and the logger is
    not enabled for it. *)
Definition example_logged : trace (consumerE +' slogE) :=
  match interp (scripted slog_script) 0 (expand (with_slog 5) (connect example_consumer)) [] with
  | Some (_, u) => u
  | None => []
  end.

Lemma slog_records_witness :
  In (Ev (inr1 (SlogEnabled 5 (WithCancel Background) LevelInfo)) false) example_logged /\
  exists t, runs (traced anything) (connect example_consumer) [] None t /\
    exists ls, rev example_logged = concat ls /\ Forall2 (slog_shown 5) (rev t) ls.
Proof.
  split; [vm_compute; tauto|].
  apply (slog_records (connect example_consumer) anything 5 None example_logged).
  apply (scripted_runs slog_script 0). vm_compute. reflexivity.
Defined.
